(** * CertiFlow: batch certificate generation and e-mail delivery

    A shallow embedding of the server side of CertiFlow
    (services/email.service.ts, services/csv.service.ts,
    services/pdf.service.ts, services/job.service.ts and the job routes),
    followed by the properties of the batch engine, the placeholder
    substitution, the CSV validation and the colour conversion.

    Conventions.
    - A JavaScript string is the list of its code units; the development
      covers code units below 256, so a code unit is an [ascii].
    - A plain object used as a record ([Record<string, string>]) is the list
      of its own properties in the order [Object.entries] enumerates them.
    - The database, the clock, the PDF library, the file system and the
      SMTP relay are collaborators: their answers are taken from a [World].
      The batches are given twice: over a database that answers every
      call, and over one that may reject a call ([Prisma]).
    - A number of a certificate field is a double, a binary64 [float].
    - An exception is a [Thrown] result carrying the error message. *)

From Stdlib Require Import Ascii String DecimalString DecimalN.
From Stdlib Require Import ZArith NArith QArith Lia Bool List.
From Stdlib Require PrimFloat.
Import ListNotations.

Close Scope Q_scope.
Local Open Scope char_scope.
Local Open Scope list_scope.

(** ** JavaScript strings *)

Module JsString.

Definition jstring := list ascii.

(** A literal of the source text. *)
Definition lit (s : string) : jstring := list_ascii_of_string s.

Definition code (c : ascii) : N := N_of_ascii c.

Definition in_range (lo hi : N) (c : ascii) : bool :=
  ((lo <=? code c) && (code c <=? hi))%N.

(** [\s]: the white space and line terminator code units below 256. *)
Definition is_space (c : ascii) : bool :=
  in_range 9 13 c || (code c =? 32)%N || (code c =? 160)%N.

Definition is_digit (c : ascii) : bool := in_range 48 57 c.
Definition is_upper (c : ascii) : bool := in_range 65 90 c.
Definition is_lower (c : ascii) : bool := in_range 97 122 c.
Definition is_alpha (c : ascii) : bool := is_upper c || is_lower c.

(** [\w] *)
Definition is_word (c : ascii) : bool :=
  is_alpha c || is_digit c || (code c =? 95)%N.

(** [Canonicalize] of a regular expression with the [i] flag and without
    the [u] flag: the upper-case mapping of the code unit when that is a
    single code unit, except that a code unit of 128 and above never
    maps below 128.  Two code units match when their images agree. *)
Definition canonicalize (c : ascii) : N :=
  let n := code c in
  if is_lower c then (n - 32)%N
  else if (n =? 181)%N then 924%N
  else if in_range 224 254 c && negb (n =? 247)%N then (n - 32)%N
  else if (n =? 255)%N then 376%N
  else n.

Definition ci_char (a b : ascii) : bool :=
  (canonicalize a =? canonicalize b)%N.

(** [String.prototype.toLowerCase], one code unit at a time. *)
Definition lower_char (c : ascii) : ascii :=
  let n := code c in
  if is_upper c then ascii_of_N (n + 32)
  else if in_range 192 222 c && negb (n =? 215)%N then ascii_of_N (n + 32)
  else c.

Definition toLowerCase (s : jstring) : jstring := map lower_char s.

Fixpoint eqb (a b : jstring) : bool :=
  match a, b with
  | [], [] => true
  | x :: a', y :: b' => Ascii.eqb x y && eqb a' b'
  | _, _ => false
  end.

Fixpoint startsWith (s p : jstring) : bool :=
  match p, s with
  | [], _ => true
  | x :: p', y :: s' => Ascii.eqb x y && startsWith s' p'
  | _ :: _, [] => false
  end.

Definition endsWith (s p : jstring) : bool := startsWith (rev s) (rev p).

(** What follows the prefix [p] of [s], when [s] starts with [p]. *)
Fixpoint strip (p s : jstring) : option jstring :=
  match p, s with
  | [], _ => Some s
  | x :: p', y :: s' => if Ascii.eqb x y then strip p' s' else None
  | _ :: _, [] => None
  end.

(** [String.prototype.includes] *)
Fixpoint includes (s p : jstring) : bool :=
  startsWith s p ||
  match s with
  | [] => false
  | _ :: s' => includes s' p
  end.

Fixpoint dropWhile (f : ascii -> bool) (s : jstring) : jstring :=
  match s with
  | [] => []
  | c :: s' => if f c then dropWhile f s' else s
  end.

Fixpoint takeWhile (f : ascii -> bool) (s : jstring) : jstring :=
  match s with
  | [] => []
  | c :: s' => if f c then c :: takeWhile f s' else []
  end.

(** [String.prototype.trim] *)
Definition trim (s : jstring) : jstring :=
  rev (dropWhile is_space (rev (dropWhile is_space s))).

(** [s.substring(0, n)] *)
Definition substring0 (n : nat) (s : jstring) : jstring := firstn n s.

(** [String(n)] for a non-negative integer. *)
Definition ofN (n : N) : jstring :=
  lit (NilEmpty.string_of_uint (N.to_uint n)).

(** [s.padStart(width, '0')] *)
Definition padStart0 (width : nat) (s : jstring) : jstring :=
  repeat "0" (width - length s) ++ s.

(** The truthiness of a string: the empty string is falsy. *)
Definition truthy (s : jstring) : bool :=
  match s with [] => false | _ :: _ => true end.

(** [a || b] on strings. *)
Definition or_else (a b : jstring) : jstring := if truthy a then a else b.

End JsString.

Import JsString.

(** The outcome of a computation that may throw. *)
Inductive result (A : Type) : Type :=
| Ok (a : A)
| Thrown (message : jstring).

Arguments Ok {A} a.
Arguments Thrown {A} message.

Definition bind {A B : Type} (r : result A) (k : A -> result B) : result B :=
  match r with
  | Ok a => k a
  | Thrown m => Thrown m
  end.

Notation "x <- r ;; k" := (bind r (fun x => k))
  (at level 61, r at next level, right associativity).

(** ** Plain objects used as string-keyed records *)

Module JsObject.

(** The own properties, in the order of [Object.keys]: array-index keys
    in ascending numeric order first, then the others in insertion
    order. *)
Definition object := list (jstring * jstring).

Fixpoint get (o : object) (k : jstring) : option jstring :=
  match o with
  | [] => None
  | (k', v) :: o' => if JsString.eqb k' k then Some v else get o' k
  end.

(** [o.k] read as a string condition: a missing property is [undefined],
    which is falsy like the empty string. *)
Definition get_or_empty (o : object) (k : jstring) : jstring :=
  match get o k with Some v => v | None => [] end.

Definition digit_value (c : ascii) : N := (code c - 48)%N.

Definition decimal_value (k : jstring) : N :=
  fold_left (fun acc c => (acc * 10 + digit_value c)%N) k 0%N.

(** An array index: the canonical decimal form of an integer below
    2^32 - 1. *)
Definition array_index (k : jstring) : option N :=
  match k with
  | [] => None
  | c :: rest =>
      if forallb is_digit k
         && (Nat.leb (length k) 10)
         && (negb (Ascii.eqb c "0") || match rest with [] => true | _ => false end)
         && (decimal_value k <=? 4294967294)%N
      then Some (decimal_value k) else None
  end.

Fixpoint update (o : object) (k v : jstring) : object :=
  match o with
  | [] => []
  | (k', v') :: o' =>
      if JsString.eqb k' k then (k', v) :: o' else (k', v') :: update o' k v
  end.

Fixpoint insert_index (o : object) (n : N) (k v : jstring) : object :=
  match o with
  | [] => [(k, v)]
  | (k', v') :: o' =>
      match array_index k' with
      | Some m => if (m <? n)%N then (k', v') :: insert_index o' n k v
                  else (k, v) :: o
      | None => (k, v) :: o
      end
  end.

(** [CreateDataProperty]: what an object literal and a spread do. *)
Definition define (o : object) (k v : jstring) : object :=
  match get o k with
  | Some _ => update o k v
  | None =>
      match array_index k with
      | Some n => insert_index o n k v
      | None => o ++ [(k, v)]
      end
  end.

(** The assignment [o[k] = v] of a string [v] on an object created by
    [{}]: the inherited setter of [__proto__] ignores a string. *)
Definition set (o : object) (k v : jstring) : object :=
  if JsString.eqb k (lit "__proto__") then o else define o k v.

(** [{ ...o, ...extra }] *)
Definition spread (o extra : object) : object :=
  fold_left (fun acc kv => define acc (fst kv) (snd kv)) extra o.

Definition entries (o : object) : list (jstring * jstring) := o.
Definition keys (o : object) : list jstring := map fst o.

(** The names every plain object inherits from [Object.prototype]. *)
Definition prototype_keys : list jstring :=
  [ lit "constructor"; lit "__defineGetter__"; lit "__defineSetter__";
    lit "hasOwnProperty"; lit "__lookupGetter__"; lit "__lookupSetter__";
    lit "isPrototypeOf"; lit "propertyIsEnumerable"; lit "toString";
    lit "valueOf"; lit "__proto__"; lit "toLocaleString" ].

(** [o[k]] on a plain object: the own property, a string; else what
    the prototype has under that name, a function or, for [__proto__],
    the prototype itself; else [undefined]. *)
Inductive member := own (value : jstring) | inherited | undefined.

Definition read (o : object) (k : jstring) : member :=
  match get o k with
  | Some value => own value
  | None => if existsb (JsString.eqb k) prototype_keys
            then inherited else undefined
  end.

End JsObject.

(** ** The regular expressions of the form [\{\{\s*KEY\s*\}\}] *)

Module Placeholder.

(** The syntax characters of a pattern.  A key free of them stands for
    itself inside [new RegExp(...)]. *)
Definition syntax_char (c : ascii) : bool :=
  existsb (Ascii.eqb c)
    ["^"; "$"; "\"; "."; "*"; "+"; "?"; "("; ")"; "["; "]"; "{"; "}"; "|"].

Definition plain_key (key : jstring) : bool :=
  forallb (fun c => negb (syntax_char c)) key.

(** The literal part [KEY], matched under the [i] flag. *)
Fixpoint match_key (key s : jstring) : option jstring :=
  match key, s with
  | [], _ => Some s
  | k :: key', c :: s' => if ci_char k c then match_key key' s' else None
  | _ :: _, [] => None
  end.

Definition open_braces : jstring := ["{"; "{"].
Definition close_braces : jstring := ["}"; "}"].

(** [KEY\s*\}\}]: the second [\s*] is greedy, and giving back white space
    cannot help since [\}] is not white space. *)
Definition match_tail (key s : jstring) : option jstring :=
  match match_key key s with
  | Some r => strip close_braces (dropWhile is_space r)
  | None => None
  end.

(** [\s*KEY\s*\}\}]: the first [\s*] takes as much white space as it can
    and gives it back one code unit at a time. *)
Fixpoint match_body (key s : jstring) : option jstring :=
  match s with
  | c :: s' =>
      if is_space c then
        match match_body key s' with
        | Some r => Some r
        | None => match_tail key s
        end
      else match_tail key s
  | [] => match_tail key s
  end.

(** A match of the whole pattern at the start of [s]: what follows it. *)
Definition match_at (key s : jstring) : option jstring :=
  match strip open_braces s with
  | Some s' => match_body key s'
  | None => None
  end.

(** [GetSubstitution] for a pattern without capture groups: [$$], [$&],
    [$`] and [$'] are special, every other [$] stands for itself. *)
Fixpoint expand (repl matched before after : jstring) : jstring :=
  match repl with
  | [] => []
  | c :: r =>
      if Ascii.eqb c "$" then
        match r with
        | [] => [c]
        | d :: r' =>
            if Ascii.eqb d "$" then "$" :: expand r' matched before after
            else if Ascii.eqb d "&"
            then matched ++ expand r' matched before after
            else if Ascii.eqb d "`"
            then before ++ expand r' matched before after
            else if Ascii.eqb d "'"
            then after ++ expand r' matched before after
            else c :: expand r matched before after
        end
      else c :: expand r matched before after
  end.

(** [s.replace(regex, repl)] with the [g] flag, for a regular expression
    given by its matcher [m]: matches are found from left to right and
    do not overlap.  [skip] counts the code units of the current match
    still to be passed over; [before] is the part of the subject already
    passed. *)
Fixpoint replace_go (m : jstring -> option jstring) (repl : jstring)
    (skip : nat) (before s : jstring) : jstring :=
  match s with
  | [] => []
  | c :: s' =>
      match skip with
      | S k => replace_go m repl k (before ++ [c]) s'
      | O =>
          match m s with
          | Some rest =>
              let n := length s - length rest in
              expand repl (firstn n s) before rest
                ++ replace_go m repl (n - 1) (before ++ [c]) s'
          | None => c :: replace_go m repl 0 (before ++ [c]) s'
          end
      end
  end.

Definition replace_all (m : jstring -> option jstring) (repl s : jstring)
  : jstring :=
  replace_go m repl 0 [] s.

Definition replace_plain (key repl s : jstring) : jstring :=
  replace_all (match_at key) repl s.

(** [/\{\{sn\}\}/gi] *)
Definition match_sn (s : jstring) : option jstring :=
  match strip open_braces s with
  | Some (c1 :: c2 :: s') =>
      if ci_char "s" c1 && ci_char "n" c2 then strip close_braces s'
      else None
  | _ => None
  end.

(** The regular expression engine on the patterns this development does
    not interpret: either [new RegExp] throws a [SyntaxError] or the
    replacement yields some string. *)
Record Engine := {
  replace_other : jstring -> jstring -> jstring -> result jstring
}.

(** [s.replace(new RegExp(`\\{\\{\\s*${key}\\s*\\}\\}`, 'gi'), repl)] *)
Definition replace_placeholder (E : Engine) (key repl s : jstring)
  : result jstring :=
  if plain_key key then Ok (replace_plain key repl s)
  else replace_other E key repl s.

End Placeholder.

(** ** services/email.service.ts *)

Module EmailService.
Import Placeholder.

(** [renderEmailTemplate] *)
Fixpoint renderEmailTemplate_entries (E : Engine)
    (entries : list (jstring * jstring)) (rendered : jstring)
  : result jstring :=
  match entries with
  | [] => Ok rendered
  | (key, value) :: rest =>
      r <- replace_placeholder E key (or_else value []) rendered ;;
      renderEmailTemplate_entries E rest r
  end.

Definition renderEmailTemplate (E : Engine) (template : jstring)
    (data : JsObject.object) : result jstring :=
  renderEmailTemplate_entries E (JsObject.entries data) template.

Definition SAFE_DELAY_MS : Z := 3000.

(** [/\{\{\s*(\w+)\s*\}\}/] at the start of [s]: the group and what
    follows the match.  Each of the three runs takes all it can, and
    giving back cannot help: white space, word characters and [}] exclude
    one another. *)
Definition match_word (s : jstring) : option (jstring * jstring) :=
  match strip open_braces s with
  | Some s1 =>
      let s2 := dropWhile is_space s1 in
      let name := takeWhile is_word s2 in
      if truthy name then
        match strip close_braces
                (dropWhile is_space (dropWhile is_word s2)) with
        | Some rest => Some (name, rest)
        | None => None
        end
      else None
  | None => None
  end.

(** The loop [while ((match = regex.exec(template)) !== null)] of a
    regular expression with the [g] flag: the groups of the matches from
    left to right, each search starting where the last match ended.
    [skip] counts the code units of the current match still to be
    passed over. *)
Fixpoint exec_all (skip : nat) (s : jstring) : list jstring :=
  match s with
  | [] => []
  | _ :: s' =>
      match skip with
      | S k => exec_all k s'
      | O =>
          match match_word s with
          | Some (name, rest) =>
              name :: exec_all (length s - length rest - 1) s'
          | None => exec_all 0 s'
          end
      end
  end.

(** [Set.prototype.add]; a set keeps the order of insertion. *)
Definition add (set : list jstring) (value : jstring) : list jstring :=
  if existsb (JsString.eqb value) set then set else set ++ [value].

(** [extractPlaceholders] *)
Definition extractPlaceholders (template : jstring) : list jstring :=
  fold_left (fun placeholders name => add placeholders (toLowerCase name))
            (exec_all 0 template) [].

End EmailService.

(** ** services/csv.service.ts *)

Module ParsedCSV.
Record CSVError := { row : N; message : jstring }.
Record t := {
  headers : list jstring;
  rows : list JsObject.object;
  totalRows : nat;
  errors : list CSVError
}.
End ParsedCSV.

Module CSVValidationResult.
Record t := {
  isValid : bool;
  errors : list jstring;
  warnings : list jstring
}.
End CSVValidationResult.

Module CsvService.
Import JsObject.

(** [!record.email && !record.Email && !record.EMAIL] *)
Definition lacks_email (record : object) : bool :=
  negb (truthy (get_or_empty record (lit "email")))
  && negb (truthy (get_or_empty record (lit "Email")))
  && negb (truthy (get_or_empty record (lit "EMAIL"))).

(** The [on_record] hook: the errors it pushes for one record read at
    line [lines]. *)
Definition on_record (record : object) (lines : N)
  : list ParsedCSV.CSVError :=
  if lacks_email record
  then [ {| ParsedCSV.row := lines;
            ParsedCSV.message := lit "Missing email field" |} ]
  else [].

(** The body of the [readable] handler for one record: every value is
    stored under the lower-cased key and under the key as written. *)
Definition normalize (record : object) : object :=
  fold_left
    (fun acc kv =>
       let value := or_else (snd kv) [] in
       set (set acc (trim (toLowerCase (fst kv))) value)
           (trim (fst kv)) value)
    (entries record) [].

(** The filter of the [end] handler: a key is kept when its lower-cased
    form was not seen before. *)
Fixpoint unique_headers (seen : list jstring) (ks : list jstring)
  : list jstring :=
  match ks with
  | [] => []
  | key :: ks' =>
      let lower := trim (toLowerCase key) in
      if existsb (JsString.eqb lower) seen then unique_headers seen ks'
      else key :: unique_headers (lower :: seen) ks'
  end.

(** [parseCSV], from the records the csv-parse library delivers (with
    [columns: true], each record is an object keyed by the header line)
    together with the line count the library reports for each.  A parser
    error rejects the promise before any of this runs. *)
Definition parseCSV (records : list (object * N)) : ParsedCSV.t :=
  let rows := map (fun rl => normalize (fst rl)) records in
  {| ParsedCSV.headers :=
       match rows with
       | [] => []
       | first :: _ => unique_headers [] (keys first)
       end;
     ParsedCSV.rows := rows;
     ParsedCSV.totalRows := length rows;
     ParsedCSV.errors :=
       flat_map (fun rl => on_record (fst rl) (snd rl)) records |}.

(** [/^[^\s@]+@[^\s@]+\.[^\s@]+$/]: a non-empty run free of white space
    and [@], an [@], and a run free of white space and [@] up to the end
    that has a dot with something on either side. *)
Definition email_char (c : ascii) : bool :=
  negb (is_space c) && negb (Ascii.eqb c "@").

Definition isValidEmail (email : jstring) : bool :=
  match email with
  | [] => false
  | first :: _ =>
      email_char first
      && match dropWhile email_char email with
         | "@" :: domain =>
             forallb email_char domain
             && existsb (Ascii.eqb ".") (removelast (tl domain))
         | _ => false
         end
  end.

Definition has_field (headersLower : list jstring) (field : jstring) : bool :=
  let fieldLower := toLowerCase field in
  existsb
    (fun h =>
       JsString.eqb h fieldLower
       || includes h fieldLower
       || (JsString.eqb fieldLower (lit "name")
           && (includes h (lit "name")
               || JsString.eqb h (lit "fullname")
               || JsString.eqb h (lit "full_name"))))
    headersLower.

(** [row.email || row.Email || row.EMAIL || ''] *)
Definition row_email (row : object) : jstring :=
  or_else (get_or_empty row (lit "email"))
    (or_else (get_or_empty row (lit "Email"))
       (or_else (get_or_empty row (lit "EMAIL")) [])).

Definition count_if (f : object -> bool) (rows : list object) : N :=
  N.of_nat (length (filter f rows)).

Definition quote : ascii := ascii_of_N 34.

(** [validateCSVForCertificates] *)
Definition validateCSVForCertificates (parsedCSV : ParsedCSV.t)
    (requiredFields : list jstring) : CSVValidationResult.t :=
  if Nat.eqb (ParsedCSV.totalRows parsedCSV) 0 then
    {| CSVValidationResult.isValid := false;
       CSVValidationResult.errors :=
         [lit "CSV file is empty or has no data rows"];
       CSVValidationResult.warnings := [] |}
  else
    let headersLower :=
      map (fun h => filter (fun c => negb (is_space c)) (toLowerCase h))
          (ParsedCSV.headers parsedCSV) in
    let missing :=
      flat_map
        (fun field =>
           if has_field headersLower field then []
           else [lit "Required field " ++ [quote] ++ field ++ [quote]
                   ++ lit " not found in CSV headers"])
        requiredFields in
    let emptyEmails :=
      count_if (fun row => negb (truthy (row_email row)))
               (ParsedCSV.rows parsedCSV) in
    let invalidEmails :=
      count_if (fun row => truthy (row_email row)
                           && negb (isValidEmail (row_email row)))
               (ParsedCSV.rows parsedCSV) in
    let warnings :=
      (if (0 <? emptyEmails)%N
       then [ofN emptyEmails ++ lit " row(s) have empty email addresses"]
       else [])
      ++ (if (0 <? invalidEmails)%N
          then [ofN invalidEmails
                  ++ lit " row(s) have invalid email addresses"]
          else []) in
    let errors :=
      missing
      ++ map (fun e => lit "Row " ++ ofN (ParsedCSV.row e) ++ lit ": "
                         ++ ParsedCSV.message e)
             (ParsedCSV.errors parsedCSV) in
    {| CSVValidationResult.isValid := Nat.eqb (length errors) 0;
       CSVValidationResult.errors := errors;
       CSVValidationResult.warnings := warnings |}.

(** The default of the second parameter. *)
Definition default_required : list jstring := [lit "name"].

(** [/[^a-zA-Z0-9\s-_]/]: the code units the first replacement keeps. *)
Definition filename_char (c : ascii) : bool :=
  is_alpha c || is_digit c || is_space c
  || Ascii.eqb c "-" || Ascii.eqb c "_".

(** [s.replace(/\s+/g, '_')] *)
Fixpoint underscore_spaces (in_run : bool) (s : jstring) : jstring :=
  match s with
  | [] => []
  | c :: s' =>
      if is_space c then
        if in_run then underscore_spaces true s'
        else "_" :: underscore_spaces true s'
      else c :: underscore_spaces false s'
  end.

(** [sanitizeFilename] *)
Definition sanitizeFilename (name : jstring) : jstring :=
  substring0 100 (underscore_spaces false (filter filename_char name)).

(** [row.k1 || row.k2 || ... || otherwise] *)
Fixpoint first_of (row : object) (ks : list jstring) (otherwise : jstring)
  : jstring :=
  match ks with
  | [] => otherwise
  | k :: ks' => or_else (get_or_empty row k) (first_of row ks' otherwise)
  end.

(** The columns [extractName] reads for a full name, in its order. *)
Definition name_keys : list jstring :=
  [lit "name"; lit "Name"; lit "NAME"; lit "Full Name"; lit "full name";
   lit "FULL NAME"; lit "full_name"; lit "Full_Name"; lit "fullname";
   lit "FullName"; lit "FULLNAME"].

(** [`${row.first_name || row.First_Name || ''}
      ${row.last_name || row.Last_Name || ''}`.trim()] *)
Definition first_and_last (row : object) : jstring :=
  trim (first_of row [lit "first_name"; lit "First_Name"] []
        ++ lit " "
        ++ first_of row [lit "last_name"; lit "Last_Name"] []).

(** [extractName] *)
Definition extractName (row : object) : jstring :=
  first_of row name_keys (or_else (first_and_last row) (lit "Unknown")).

(** The columns [extractEmail] reads, in its order. *)
Definition email_keys : list jstring :=
  [lit "email"; lit "Email"; lit "EMAIL"; lit "e_mail"; lit "e-mail"].

(** [extractEmail] *)
Definition extractEmail (row : object) : jstring :=
  trim (toLowerCase (first_of row email_keys [])).

End CsvService.

(** ** services/pdf.service.ts *)

Module PdfService.
Import JsObject.
Import PrimFloat.

Inductive FontFamily := Helvetica | Times | Courier | Cairo | Montserrat.
Inductive FontWeight := normal | bold | italic | boldItalic.
Inductive Alignment := left | center | right.

(** The numbers of a field are JavaScript doubles: binary64 floats. *)
Record FieldConfig := {
  id : jstring;
  field : jstring;
  x : float;
  y : float;
  fontSize : float;
  fontFamily : FontFamily;
  fontWeight : FontWeight;
  color : jstring;
  alignment : Alignment;
  maxWidth : option float
}.

(** The components of a colour are the quotients [n / 255] with
    [0 <= n <= 255]; each is kept as the fraction itself, which names
    the double the code passes on. *)
Record RGB := { r : Q; g : Q; b : Q }.

(** A member of [[a-f\d]] under the [i] flag. *)
Definition hex_digit (c : ascii) : bool :=
  let n := canonicalize c in
  ((48 <=? n) && (n <=? 57) || (65 <=? n) && (n <=? 70))%N.

Definition hex_value (c : ascii) : Z :=
  let n := canonicalize c in
  if (n <=? 57)%N then Z.of_N n - 48 else Z.of_N n - 55.

(** [parseInt(pair, 16) / 255], as a fraction in lowest terms *)
Definition channel (hi lo : ascii) : Q :=
  Qred (inject_Z (16 * hex_value hi + hex_value lo) / inject_Z 255)%Q.

(** [/^#?([a-f\d]{2})([a-f\d]{2})([a-f\d]{2})$/i.exec(hex)]: the three
    groups.  Giving the [#] back cannot help, [#] is no hex digit. *)
Definition exec_hex (hex : jstring)
  : option ((ascii * ascii) * (ascii * ascii) * (ascii * ascii)) :=
  let body := match hex with "#" :: rest => rest | _ => hex end in
  match body with
  | [r1; r2; g1; g2; b1; b2] =>
      if forallb hex_digit body
      then Some ((r1, r2), (g1, g2), (b1, b2)) else None
  | _ => None
  end.

(** [hexToRgb] *)
Definition hexToRgb (hex : jstring) : RGB :=
  match exec_hex hex with
  | None => {| r := 0; g := 0; b := 0 |}
  | Some (rr, gg, bb) =>
      {| r := channel (fst rr) (snd rr);
         g := channel (fst gg) (snd gg);
         b := channel (fst bb) (snd bb) |}
  end.

Inductive StandardFonts :=
| SF_Helvetica | SF_HelveticaBold | SF_HelveticaOblique
| SF_HelveticaBoldOblique
| SF_TimesRoman | SF_TimesRomanBold | SF_TimesRomanItalic
| SF_TimesRomanBoldItalic
| SF_Courier | SF_CourierBold | SF_CourierOblique | SF_CourierBoldOblique.

Definition Buffer := list ascii.

(** What [pdfDoc.embedFont] is given: the name of a standard font, or the
    bytes of a font file. *)
Inductive PDFFont :=
| Standard (f : StandardFonts)
| Embedded (fontBytes : Buffer).

Record DrawTextOp := {
  op_text : jstring;
  op_x : float;
  op_y : float;
  op_size : float;
  op_font : PDFFont;
  op_color : RGB
}.

(** The answers of pdf-lib and of the font directory. *)
Record PdfLib := {
  (** [PDFDocument.load] followed by [getPages] and [getSize]: the
      (width, height) of every page, or the load error. *)
  load : Buffer -> result (list (float * float));
  (** [readFile] of a file of assets/fonts, by its file name *)
  readFile : jstring -> result Buffer;
  (** [pdfDoc.embedFont]: the error it rejects with, if any *)
  embedFont : PDFFont -> option jstring;
  (** [font.widthOfTextAtSize] of a string: the width, or the error (a
      character the font cannot encode) *)
  widthOfTextAtSize : PDFFont -> jstring -> float -> result float;
  (** the message of the [TypeError] that [widthOfTextAtSize] raises
      for a text that is no string but what [Object.prototype] has under
      the given name *)
  not_a_string : jstring -> jstring;
  (** [page.drawText]: the error it raises, if any *)
  drawText : DrawTextOp -> option jstring;
  (** [pdfDoc.save()] for the document loaded from a buffer, after the
      texts were drawn on its first page: the bytes, or the error *)
  save : Buffer -> list DrawTextOp -> result Buffer
}.

(** What [generateCertificate] returns is [bytes], the buffer made of
    what [pdfDoc.save()] produced.  [drawn] keeps the calls of
    [page.drawText] that preceded the save, in order, for the properties
    to speak about. *)
Record Rendered := { drawn : list DrawTextOp; bytes : Buffer }.

Definition family_name (f : FontFamily) : jstring :=
  match f with
  | Helvetica => lit "Helvetica" | Times => lit "Times"
  | Courier => lit "Courier" | Cairo => lit "Cairo"
  | Montserrat => lit "Montserrat"
  end.

Definition customFileName (family : FontFamily) (weight : FontWeight)
  : jstring :=
  let regular := family_name family ++ lit "-Regular.ttf" in
  let boldf := family_name family ++ lit "-Bold.ttf" in
  let fileName := match weight with bold => boldf | _ => regular end in
  match family with
  | Montserrat =>
      match weight with
      | italic => family_name family ++ lit "-Italic.ttf"
      | boldItalic => family_name family ++ lit "-BoldItalic.ttf"
      | _ => fileName
      end
  | Cairo =>
      match weight with
      | italic => regular
      | boldItalic => boldf
      | _ => fileName
      end
  | _ => fileName
  end.

(** [fontMap[fontKey] || StandardFonts.Helvetica] *)
Definition fontMap (family : FontFamily) (weight : FontWeight)
  : StandardFonts :=
  match family, weight with
  | Helvetica, normal => SF_Helvetica
  | Helvetica, bold => SF_HelveticaBold
  | Helvetica, italic => SF_HelveticaOblique
  | Helvetica, boldItalic => SF_HelveticaBoldOblique
  | Times, normal => SF_TimesRoman
  | Times, bold => SF_TimesRomanBold
  | Times, italic => SF_TimesRomanItalic
  | Times, boldItalic => SF_TimesRomanBoldItalic
  | Courier, normal => SF_Courier
  | Courier, bold => SF_CourierBold
  | Courier, italic => SF_CourierOblique
  | Courier, boldItalic => SF_CourierBoldOblique
  | _, _ => SF_Helvetica
  end.

(** The promise of [pdfDoc.embedFont], once settled. *)
Definition embedded (lib : PdfLib) (font : PDFFont) : result PDFFont :=
  match embedFont lib font with
  | Some err => Thrown err
  | None => Ok font
  end.

(** [getFont].  In the [try] block only [readFile] is awaited: when the
    file cannot be read the [catch] block logs the error and the standard
    font is used.  The promise of [embedFont] is returned as it is, so
    its rejection is the rejection of [getFont]. *)
Definition getFont (lib : PdfLib) (family : FontFamily)
    (weight : FontWeight) : result PDFFont :=
  let standard := embedded lib (Standard (fontMap family weight)) in
  match family with
  | Cairo | Montserrat =>
      match readFile lib (customFileName family weight) with
      | Ok fontBytes => embedded lib (Embedded fontBytes)
      | Thrown _ => standard
      end
  | _ => standard
  end.

(** [calculateXPosition]: the width is measured whatever the
    alignment. *)
Definition calculateXPosition (lib : PdfLib) (text : jstring)
    (font : PDFFont) (size x0 : float) (al : Alignment) : result float :=
  textWidth <- widthOfTextAtSize lib font text size ;;
  Ok (match al with
      | center => x0 - textWidth / 2
      | right => x0 - textWidth
      | left => x0
      end)%float.

(** The body of the loop over [fieldConfigs], for one field: nothing for
    a missing or an empty text, else the text drawn.  A field that names
    a property of [Object.prototype] which the record does not have of
    its own reads a function (or the prototype): the font is fetched,
    and measuring the text fails. *)
Definition drawField (lib : PdfLib) (height : float) (data : object)
    (config : FieldConfig) : result (option DrawTextOp) :=
  match read data (field config) with
  | undefined => Ok None
  | inherited =>
      _ <- getFont lib (fontFamily config) (fontWeight config) ;;
      Thrown (not_a_string lib (field config))
  | own value =>
      let text := or_else value [] in
      if truthy text then
        font <- getFont lib (fontFamily config) (fontWeight config) ;;
        let c := hexToRgb (color config) in
        let yPos := (height - y config - fontSize config)%float in
        xPos <- calculateXPosition lib text font (fontSize config)
                  (x config) (alignment config) ;;
        let op := {| op_text := text; op_x := xPos; op_y := yPos;
                     op_size := fontSize config; op_font := font;
                     op_color := c |} in
        match drawText lib op with
        | Some err => Thrown err
        | None => Ok (Some op)
        end
      else Ok None
  end.

Fixpoint drawFields (lib : PdfLib) (height : float) (data : object)
    (configs : list FieldConfig) : result (list DrawTextOp) :=
  match configs with
  | [] => Ok []
  | config :: rest =>
      done <- drawField lib height data config ;;
      ops <- drawFields lib height data rest ;;
      Ok (match done with Some op => op :: ops | None => ops end)
  end.

(** [generateCertificate] *)
Definition generateCertificate (lib : PdfLib) (templateBuffer : Buffer)
    (data : object) (fieldConfigs : list FieldConfig) : result Rendered :=
  pages <- load lib templateBuffer ;;
  match pages with
  | [] => Thrown (lit "PDF template has no pages")
  | (_, height) :: _ =>
      ops <- drawFields lib height data fieldConfigs ;;
      pdfBytes <- save lib templateBuffer ops ;;
      Ok {| drawn := ops; bytes := pdfBytes |}
  end.

(** The sample record of [generatePreview]; [today] is what
    [new Date().toLocaleDateString()] returns. *)
Definition defaultData (today : jstring) : object :=
  define
    (define
       (define
          (define
             (define
                (define [] (lit "name") (lit "John Doe"))
                (lit "full_name") (lit "John Doe"))
             (lit "email") (lit "john.doe@example.com"))
          (lit "event_name") (lit "Web Development Workshop"))
       (lit "date") today)
    (lit "certificate_id") (lit "CERT-2024-001").

(** [generatePreview]; spreading a missing [sampleData] adds nothing. *)
Definition generatePreview (lib : PdfLib) (today : jstring)
    (templateBuffer : Buffer) (fieldConfigs : list FieldConfig)
    (sampleData : option object) : result Rendered :=
  let data :=
    spread (defaultData today)
      (match sampleData with Some sample => sample | None => [] end) in
  generateCertificate lib templateBuffer data fieldConfigs.

Record TemplateInfo := { pageCount : nat; width : float; height : float }.

(** [getTemplateInfo] *)
Definition getTemplateInfo (lib : PdfLib) (templateBuffer : Buffer)
  : result TemplateInfo :=
  pages <- load lib templateBuffer ;;
  match pages with
  | [] => Thrown (lit "PDF has no pages")
  | (w, h) :: _ =>
      Ok {| pageCount := length pages; width := w; height := h |}
  end.

End PdfService.

(** ** The persistent store (the Prisma models the engine touches) *)

Definition Time := Z.

Inductive JobType := certificate | email.
Inductive JobStatus := pending | processing | completed | failed | cancelled.

Module EmailStatus.
Inductive t := pending | sent | failed.
Definition eqb (a b : t) : bool :=
  match a, b with
  | pending, pending | sent, sent | failed, failed => true
  | _, _ => false
  end.
End EmailStatus.

Module BatchJobConfig.
Record t := {
  templateId : jstring;
  namingPattern : jstring;
  outputPath : jstring
}.
End BatchJobConfig.

Module EmailBatchConfig.
Record t := {
  emailTemplateId : jstring;
  smtpConfigId : jstring;
  subject : jstring;
  delayMs : Z
}.
End EmailBatchConfig.

(** What [JSON.parse(job.config)] yields. *)
Inductive JobConfig :=
| CertificateConfig (c : BatchJobConfig.t)
| EmailConfig (c : EmailBatchConfig.t).

Module BatchJob.
Record t := {
  id : jstring;
  type : JobType;
  status : JobStatus;
  config : JobConfig;
  totalCount : Z;
  processedCount : Z;
  successCount : Z;
  failedCount : Z;
  outputPath : option jstring;
  completedAt : option Time
}.
End BatchJob.

Module Recipient.
Record t := {
  id : jstring;
  batchJobId : jstring;
  email : jstring;
  fullName : jstring;
  extraFields : option jstring;
  certificatePath : option jstring;
  emailStatus : EmailStatus.t;
  errorMessage : option jstring;
  sentAt : option Time
}.
End Recipient.

Module CertificateTemplate.
Record t := {
  id : jstring;
  name : jstring;
  templateData : PdfService.Buffer;
  fieldConfigs : jstring
}.
End CertificateTemplate.

Module EmailTemplate.
Record t := {
  id : jstring;
  name : jstring;
  subject : jstring;
  htmlContent : jstring
}.
End EmailTemplate.

Module SmtpConfig.
Record t := {
  id : jstring;
  host : jstring;
  port : Z;
  username : jstring;
  passwordEncrypted : jstring;
  fromName : option jstring
}.
End SmtpConfig.

Module Store.

Record t := {
  jobs : list BatchJob.t;
  recipients : list Recipient.t;
  certificateTemplates : list CertificateTemplate.t;
  emailTemplates : list EmailTemplate.t;
  smtpConfigs : list SmtpConfig.t
}.

(** [prisma.batchJob.findUnique({ where: { id } })] *)
Definition findJob (st : t) (jobId : jstring) : option BatchJob.t :=
  find (fun j => JsString.eqb (BatchJob.id j) jobId) (jobs st).

(** [include: { recipients: true }] *)
Definition recipientsOf (st : t) (jobId : jstring) : list Recipient.t :=
  filter (fun r => JsString.eqb (Recipient.batchJobId r) jobId)
         (recipients st).

Definition findCertificateTemplate (st : t) (k : jstring) :=
  find (fun x => JsString.eqb (CertificateTemplate.id x) k)
       (certificateTemplates st).

Definition findEmailTemplate (st : t) (k : jstring) :=
  find (fun x => JsString.eqb (EmailTemplate.id x) k) (emailTemplates st).

Definition findSmtpConfig (st : t) (k : jstring) :=
  find (fun x => JsString.eqb (SmtpConfig.id x) k) (smtpConfigs st).

(** [prisma.recipient.findUnique({ where: { id } })] *)
Definition findRecipient (st : t) (k : jstring) : option Recipient.t :=
  find (fun x => JsString.eqb (Recipient.id x) k) (recipients st).

(** The primary key of the recipient table. *)
Definition unique_recipients (st : t) : Prop :=
  NoDup (map Recipient.id (recipients st)).

Definition with_jobs (st : t) (js : list BatchJob.t) : t :=
  {| jobs := js; recipients := recipients st;
     certificateTemplates := certificateTemplates st;
     emailTemplates := emailTemplates st;
     smtpConfigs := smtpConfigs st |}.

Definition with_recipients (st : t) (rs : list Recipient.t) : t :=
  {| jobs := jobs st; recipients := rs;
     certificateTemplates := certificateTemplates st;
     emailTemplates := emailTemplates st;
     smtpConfigs := smtpConfigs st |}.

(** [prisma.batchJob.update({ where: { id }, data })] when the database
    carries it out.  The engine only updates records it has read. *)
Definition updateJob (st : t) (jobId : jstring)
    (data : BatchJob.t -> BatchJob.t) : t :=
  with_jobs st
    (map (fun j => if JsString.eqb (BatchJob.id j) jobId then data j else j)
         (jobs st)).

(** [prisma.recipient.update({ where: { id }, data })] *)
Definition updateRecipient (st : t) (recipientId : jstring)
    (data : Recipient.t -> Recipient.t) : t :=
  with_recipients st
    (map (fun r => if JsString.eqb (Recipient.id r) recipientId
                   then data r else r)
         (recipients st)).

(** [prisma.recipient.updateMany({ where, data })] *)
Definition updateManyRecipients (st : t) (where_ : Recipient.t -> bool)
    (data : Recipient.t -> Recipient.t) : t :=
  with_recipients st
    (map (fun r => if where_ r then data r else r) (recipients st)).

End Store.

(** ** services/job.service.ts *)

Module JobService.
Import JsObject.

(** *** Collaborators and observable effects *)

Record SmtpSettings := {
  host : jstring;
  port : Z;
  username : jstring;
  password : jstring;
  fromName : option jstring
}.

Record Attachment := { filename : jstring; path : jstring }.

Record SendEmailOptions := {
  to : jstring;
  subject : jstring;
  html : jstring;
  attachments : list Attachment;
  smtpSettings : SmtpSettings
}.

(** The payload of a [job-progress] event; the percentage is derived from
    [processed] and [total] in floating point and is left out. *)
Record Progress := {
  jobId : jstring;
  processed : Z;
  total : Z;
  status : jstring
}.

Inductive Event :=
| Emitted (p : Progress)
| MadeDirectory (dir : jstring)
| Wrote (filePath : jstring) (content : PdfService.Buffer)
| SendAttempt (recipientId : jstring) (options : SendEmailOptions)
| Slept (ms : Z).

(** The answers of the collaborators.  The ones that depend on the moment
    of the call take the position of the recipient in the loop. *)
Record World := {
  pdf : PdfService.PdfLib;
  regexp : Placeholder.Engine;
  (** [JSON.parse] of a recipient's [extraFields] *)
  parseExtraFields : jstring -> result object;
  (** [JSON.parse] of a template's [fieldConfigs] *)
  parseFieldConfigs : jstring -> result (list PdfService.FieldConfig);
  existsSync : jstring -> bool;
  (** [mkdir], [writeFile], [sendEmail]: the error raised, if any *)
  mkdir : jstring -> option jstring;
  writeFile : nat -> jstring -> PdfService.Buffer -> option jstring;
  sendEmail : nat -> SendEmailOptions -> option jstring;
  (** [path.join] *)
  join : jstring -> jstring -> jstring;
  (** [new Date()] *)
  now : nat -> Time
}.

(** What a call leaves behind: the store, the effects in order, and the
    message of the error it threw, if it threw. *)
Record Outcome := {
  store : Store.t;
  trace : list Event;
  thrown : option jstring
}.

Definition emitProgress (job processedCount totalCount : _) (st : jstring)
  : Event :=
  Emitted {| jobId := job; processed := processedCount;
             total := totalCount; status := st |}.

(** *** generateFilename *)

Fixpoint replace_fields (E : Placeholder.Engine)
    (fields : list (jstring * jstring)) (filename : jstring)
  : result jstring :=
  match fields with
  | [] => Ok filename
  | (key, value) :: rest =>
      f <- Placeholder.replace_placeholder E key
             (CsvService.sanitizeFilename value) filename ;;
      replace_fields E rest f
  end.

Definition serial (index : nat) : jstring :=
  padStart0 3 (ofN (N.of_nat (index + 1))).

Definition ensure_pdf (filename : jstring) : jstring :=
  if endsWith (toLowerCase filename) (lit ".pdf") then filename
  else filename ++ lit ".pdf".

Definition generateFilename (E : Placeholder.Engine) (pattern : jstring)
    (data : object) (index : nat) : result jstring :=
  let filename :=
    Placeholder.replace_all Placeholder.match_sn (serial index) pattern in
  f <- replace_fields E (entries data) filename ;;
  Ok (ensure_pdf f).

(** *** Updates of the store *)

Definition set_status (s : JobStatus) (j : BatchJob.t) : BatchJob.t :=
  {| BatchJob.id := BatchJob.id j; BatchJob.type := BatchJob.type j;
     BatchJob.status := s; BatchJob.config := BatchJob.config j;
     BatchJob.totalCount := BatchJob.totalCount j;
     BatchJob.processedCount := BatchJob.processedCount j;
     BatchJob.successCount := BatchJob.successCount j;
     BatchJob.failedCount := BatchJob.failedCount j;
     BatchJob.outputPath := BatchJob.outputPath j;
     BatchJob.completedAt := BatchJob.completedAt j |}.

Record Counters := {
  processedCount : Z;
  successCount : Z;
  failedCount : Z
}.

Definition zero : Counters :=
  {| processedCount := 0; successCount := 0; failedCount := 0 |}.

Definition succeeded (c : Counters) : Counters :=
  {| processedCount := processedCount c + 1;
     successCount := successCount c + 1;
     failedCount := failedCount c |}.

Definition failed_one (c : Counters) : Counters :=
  {| processedCount := processedCount c + 1;
     successCount := successCount c;
     failedCount := failedCount c + 1 |}.

(** [data: { processedCount, successCount, failedCount }] *)
Definition set_counters (c : Counters) (j : BatchJob.t) : BatchJob.t :=
  {| BatchJob.id := BatchJob.id j; BatchJob.type := BatchJob.type j;
     BatchJob.status := BatchJob.status j;
     BatchJob.config := BatchJob.config j;
     BatchJob.totalCount := BatchJob.totalCount j;
     BatchJob.processedCount := processedCount c;
     BatchJob.successCount := successCount c;
     BatchJob.failedCount := failedCount c;
     BatchJob.outputPath := BatchJob.outputPath j;
     BatchJob.completedAt := BatchJob.completedAt j |}.

(** [data: { status, completedAt, outputPath }]; an e-mail job leaves the
    output path as it is. *)
Definition set_finished (s : JobStatus) (at_ : Time)
    (out : option jstring) (j : BatchJob.t) : BatchJob.t :=
  {| BatchJob.id := BatchJob.id j; BatchJob.type := BatchJob.type j;
     BatchJob.status := s; BatchJob.config := BatchJob.config j;
     BatchJob.totalCount := BatchJob.totalCount j;
     BatchJob.processedCount := BatchJob.processedCount j;
     BatchJob.successCount := BatchJob.successCount j;
     BatchJob.failedCount := BatchJob.failedCount j;
     BatchJob.outputPath :=
       match out with Some o => Some o | None => BatchJob.outputPath j end;
     BatchJob.completedAt := Some at_ |}.

(** [data: { status: 'pending', failedCount: 0, processedCount,
    completedAt: null }] *)
Definition set_retried (processedCount' : Z) (j : BatchJob.t) : BatchJob.t :=
  {| BatchJob.id := BatchJob.id j; BatchJob.type := BatchJob.type j;
     BatchJob.status := pending; BatchJob.config := BatchJob.config j;
     BatchJob.totalCount := BatchJob.totalCount j;
     BatchJob.processedCount := processedCount';
     BatchJob.successCount := BatchJob.successCount j;
     BatchJob.failedCount := 0;
     BatchJob.outputPath := BatchJob.outputPath j;
     BatchJob.completedAt := None |}.

Definition set_recipient (certificatePath' : option jstring)
    (emailStatus' : EmailStatus.t) (errorMessage' : option jstring)
    (sentAt' : option Time) (x : Recipient.t) : Recipient.t :=
  {| Recipient.id := Recipient.id x;
     Recipient.batchJobId := Recipient.batchJobId x;
     Recipient.email := Recipient.email x;
     Recipient.fullName := Recipient.fullName x;
     Recipient.extraFields := Recipient.extraFields x;
     Recipient.certificatePath := certificatePath';
     Recipient.emailStatus := emailStatus';
     Recipient.errorMessage := errorMessage';
     Recipient.sentAt := sentAt' |}.

(** [data: { certificatePath: filePath }] *)
Definition set_certificatePath (filePath : jstring) (x : Recipient.t) :=
  set_recipient (Some filePath) (Recipient.emailStatus x)
    (Recipient.errorMessage x) (Recipient.sentAt x) x.

(** [data: { errorMessage }] *)
Definition set_errorMessage (msg : jstring) (x : Recipient.t) :=
  set_recipient (Recipient.certificatePath x) (Recipient.emailStatus x)
    (Some msg) (Recipient.sentAt x) x.

(** [data: { emailStatus: 'sent', sentAt: new Date(), errorMessage: null }] *)
Definition set_sent (at_ : Time) (x : Recipient.t) :=
  set_recipient (Recipient.certificatePath x) EmailStatus.sent None
    (Some at_) x.

(** [data: { emailStatus: 'failed', errorMessage }] *)
Definition set_failed (msg : jstring) (x : Recipient.t) :=
  set_recipient (Recipient.certificatePath x) EmailStatus.failed
    (Some msg) (Recipient.sentAt x) x.

(** [data: { emailStatus: 'pending', errorMessage: null }] *)
Definition set_pending (x : Recipient.t) :=
  set_recipient (Recipient.certificatePath x) EmailStatus.pending None
    (Recipient.sentAt x) x.

(** *** The placeholder record of a recipient *)

(** [recipient.extraFields ? JSON.parse(recipient.extraFields) : {}] *)
Definition extraOf (w : World) (x : Recipient.t) : result object :=
  match Recipient.extraFields x with
  | Some text => if truthy text then parseExtraFields w text else Ok []
  | None => Ok []
  end.

(** [{ name, full_name, email, ...extra }] *)
Definition recipientData (x : Recipient.t) (extra : object) : object :=
  spread
    (define (define (define [] (lit "name") (Recipient.fullName x))
               (lit "full_name") (Recipient.fullName x))
       (lit "email") (Recipient.email x))
    extra.

(** *** The certificate loop

    The loops of this part and the next run over a database that answers
    every call; [certificateIterationOn], [emailIterationOn] and
    [loopOn] further down are the same loops over a database that may
    reject a call. *)

(** The result of one pass through the loop body: the running counters,
    the store and the effects of the pass. *)
Record Step := {
  counters : Counters;
  after : Store.t;
  effects : list Event
}.

(** The [try] block up to and including [writeFile]: the path and the
    content of the file written. *)
Definition renderCertificate (w : World) (template : CertificateTemplate.t)
    (fieldConfigs : list PdfService.FieldConfig) (config : BatchJobConfig.t)
    (i : nat) (x : Recipient.t) : result (jstring * PdfService.Buffer) :=
  extra <- extraOf w x ;;
  let data := recipientData x extra in
  rendered <- PdfService.generateCertificate (pdf w)
                (CertificateTemplate.templateData template) data
                fieldConfigs ;;
  let pdfBuffer := PdfService.bytes rendered in
  name <- generateFilename (regexp w)
            (BatchJobConfig.namingPattern config) data i ;;
  let filePath := join w (BatchJobConfig.outputPath config) name in
  match writeFile w i filePath pdfBuffer with
  | Some err => Thrown err
  | None => Ok (filePath, pdfBuffer)
  end.

Definition certificateIteration (w : World) (job : BatchJob.t)
    (template : CertificateTemplate.t)
    (fieldConfigs : list PdfService.FieldConfig) (config : BatchJobConfig.t)
    (i : nat) (x : Recipient.t) (c : Counters) (st : Store.t) : Step :=
  let tried :=
    match renderCertificate w template fieldConfigs config i x with
    | Ok (filePath, content) =>
        {| counters := succeeded c;
           after := Store.updateRecipient st (Recipient.id x)
                      (set_certificatePath filePath);
           effects := [Wrote filePath content] |}
    | Thrown errorMessage =>
        {| counters := failed_one c;
           after := Store.updateRecipient st (Recipient.id x)
                      (set_errorMessage errorMessage);
           effects := [] |}
    end in
  {| counters := counters tried;
     after := Store.updateJob (after tried) (BatchJob.id job)
                (set_counters (counters tried));
     effects := effects tried
                ++ [emitProgress (BatchJob.id job)
                      (processedCount (counters tried))
                      (BatchJob.totalCount job) (lit "processing")] |}.

(** The [for] loop over the recipients read at the start.  [env i] is
    what other request handlers do to the store while the loop is
    suspended before its pass number [i]. *)
Fixpoint certificateLoop (w : World) (env : nat -> Store.t -> Store.t)
    (job : BatchJob.t) (template : CertificateTemplate.t)
    (fieldConfigs : list PdfService.FieldConfig) (config : BatchJobConfig.t)
    (i : nat) (xs : list Recipient.t) (c : Counters) (st : Store.t)
  : Step :=
  match xs with
  | [] => {| counters := c; after := st; effects := [] |}
  | x :: xs' =>
      let s :=
        certificateIteration w job template fieldConfigs config i x c
          (env i st) in
      let s' :=
        certificateLoop w env job template fieldConfigs config (S i) xs'
          (counters s) (after s) in
      {| counters := counters s'; after := after s';
         effects := effects s ++ effects s' |}
  end.

Definition final_status (failed_ total_ : Z) : JobStatus :=
  if (failed_ =? total_)%Z then failed else completed.

Definition throw (st : Store.t) (tr : list Event) (msg : jstring) : Outcome :=
  {| store := st; trace := tr; thrown := Some msg |}.

(** [processCertificateBatch], with the interference of other handlers
    made explicit. *)
Definition processCertificateBatchWith (env : nat -> Store.t -> Store.t)
    (w : World) (st : Store.t) (jobId_ : jstring) : Outcome :=
  match Store.findJob st jobId_ with
  | None => throw st [] (lit "Job " ++ jobId_ ++ lit " not found")
  | Some job =>
      match BatchJob.config job with
      | EmailConfig _ =>
          (* [config.templateId] is undefined: the query is rejected *)
          throw st [] (lit "Invalid prisma.certificateTemplate.findUnique() invocation")
      | CertificateConfig config =>
          match Store.findCertificateTemplate st
                  (BatchJobConfig.templateId config) with
          | None =>
              throw st [] (lit "Template " ++ BatchJobConfig.templateId config
                             ++ lit " not found")
          | Some template =>
              match parseFieldConfigs w
                      (CertificateTemplate.fieldConfigs template) with
              | Thrown m => throw st [] m
              | Ok fieldConfigs =>
                  let st1 := Store.updateJob st jobId_ (set_status processing) in
                  let outputDir := BatchJobConfig.outputPath config in
                  let run (made : list Event) :=
                    let xs := Store.recipientsOf st jobId_ in
                    let s := certificateLoop w env job template fieldConfigs
                               config 0 xs zero st1 in
                    let st2 :=
                      Store.updateJob (env (length xs) (after s)) jobId_
                        (set_finished
                           (final_status (failedCount (counters s))
                              (BatchJob.totalCount job))
                           (now w (length xs)) (Some outputDir)) in
                    {| store := st2;
                       trace := made ++ effects s
                                ++ [emitProgress jobId_
                                      (processedCount (counters s))
                                      (BatchJob.totalCount job)
                                      (lit "completed")];
                       thrown := None |} in
                  if existsSync w outputDir then run []
                  else match mkdir w outputDir with
                       | Some err => throw st1 [] err
                       | None => run [MadeDirectory outputDir]
                       end
              end
          end
      end
  end.

Definition undisturbed : nat -> Store.t -> Store.t := fun _ st => st.

Definition processCertificateBatch : World -> Store.t -> jstring -> Outcome :=
  processCertificateBatchWith undisturbed.

(** *** The e-mail loop *)

Definition smtpSettingsOf (c : SmtpConfig.t) : SmtpSettings :=
  {| host := SmtpConfig.host c;
     port := SmtpConfig.port c;
     username := SmtpConfig.username c;
     password := SmtpConfig.passwordEncrypted c;
     fromName :=
       match SmtpConfig.fromName c with
       | Some n => if truthy n then Some n else None
       | None => None
       end |}.

(** The [try] block up to the call of [sendEmail]: the message. *)
Definition composeEmail (w : World) (emailTemplate : EmailTemplate.t)
    (config : EmailBatchConfig.t) (settings : SmtpSettings)
    (x : Recipient.t) : result SendEmailOptions :=
  extra <- extraOf w x ;;
  let data := recipientData x extra in
  htmlContent <- EmailService.renderEmailTemplate (regexp w)
                   (EmailTemplate.htmlContent emailTemplate) data ;;
  subject_ <- EmailService.renderEmailTemplate (regexp w)
                (or_else (EmailBatchConfig.subject config)
                         (EmailTemplate.subject emailTemplate)) data ;;
  let attachments_ :=
    match Recipient.certificatePath x with
    | Some p =>
        if truthy p then
          [ {| filename := lit "Certificate_"
                           ++ CsvService.sanitizeFilename (Recipient.fullName x)
                           ++ lit ".pdf";
               path := p |} ]
        else []
    | None => []
    end in
  Ok {| to := Recipient.email x; subject := subject_; html := htmlContent;
        attachments := attachments_; smtpSettings := settings |}.

(** [config.delayMs || GMAIL_LIMITS.SAFE_DELAY_MS] *)
Definition delayOf (config : EmailBatchConfig.t) : Z :=
  if (EmailBatchConfig.delayMs config =? 0)%Z
  then EmailService.SAFE_DELAY_MS else EmailBatchConfig.delayMs config.

Definition emailIteration (w : World) (job : BatchJob.t)
    (emailTemplate : EmailTemplate.t) (config : EmailBatchConfig.t)
    (settings : SmtpSettings)
    (i : nat) (x : Recipient.t) (c : Counters) (st : Store.t) : Step :=
  if EmailStatus.eqb (Recipient.emailStatus x) EmailStatus.sent then
    (* skip if already sent: [continue] *)
    {| counters := succeeded c; after := st; effects := [] |}
  else
    let fail msg ev :=
      {| counters := failed_one c;
         after := Store.updateRecipient st (Recipient.id x) (set_failed msg);
         effects := ev |} in
    let tried :=
      match composeEmail w emailTemplate config settings x with
      | Thrown errorMessage => fail errorMessage []
      | Ok options =>
          match sendEmail w i options with
          | Some errorMessage =>
              fail errorMessage [SendAttempt (Recipient.id x) options]
          | None =>
              {| counters := succeeded c;
                 after := Store.updateRecipient st (Recipient.id x)
                            (set_sent (now w i));
                 effects := [SendAttempt (Recipient.id x) options] |}
          end
      end in
    {| counters := counters tried;
       after := Store.updateJob (after tried) (BatchJob.id job)
                  (set_counters (counters tried));
       effects := effects tried
                  ++ [emitProgress (BatchJob.id job)
                        (processedCount (counters tried))
                        (BatchJob.totalCount job) (lit "processing")]
                  ++ (if (processedCount (counters tried)
                          <? BatchJob.totalCount job)%Z
                      then [Slept (delayOf config)] else []) |}.

Fixpoint emailLoop (w : World) (env : nat -> Store.t -> Store.t)
    (job : BatchJob.t) (emailTemplate : EmailTemplate.t)
    (config : EmailBatchConfig.t) (settings : SmtpSettings)
    (i : nat) (xs : list Recipient.t) (c : Counters) (st : Store.t)
  : Step :=
  match xs with
  | [] => {| counters := c; after := st; effects := [] |}
  | x :: xs' =>
      let s :=
        emailIteration w job emailTemplate config settings i x c
          (env i st) in
      let s' :=
        emailLoop w env job emailTemplate config settings (S i) xs'
          (counters s) (after s) in
      {| counters := counters s'; after := after s';
         effects := effects s ++ effects s' |}
  end.

(** [processEmailBatch], with the interference of other handlers made
    explicit. *)
Definition processEmailBatchWith (env : nat -> Store.t -> Store.t)
    (w : World) (st : Store.t) (jobId_ : jstring) : Outcome :=
  match Store.findJob st jobId_ with
  | None => throw st [] (lit "Job " ++ jobId_ ++ lit " not found")
  | Some job =>
      match BatchJob.config job with
      | CertificateConfig _ =>
          (* [config.emailTemplateId] is undefined: the query is rejected *)
          throw st [] (lit "Invalid prisma.emailTemplate.findUnique() invocation")
      | EmailConfig config =>
          match Store.findEmailTemplate st
                  (EmailBatchConfig.emailTemplateId config) with
          | None =>
              throw st [] (lit "Email template "
                             ++ EmailBatchConfig.emailTemplateId config
                             ++ lit " not found")
          | Some emailTemplate =>
              match Store.findSmtpConfig st
                      (EmailBatchConfig.smtpConfigId config) with
              | None =>
                  throw st [] (lit "SMTP config "
                                 ++ EmailBatchConfig.smtpConfigId config
                                 ++ lit " not found")
              | Some smtpConfig =>
                  let settings := smtpSettingsOf smtpConfig in
                  let st1 := Store.updateJob st jobId_ (set_status processing) in
                  let xs := Store.recipientsOf st jobId_ in
                  let s := emailLoop w env job emailTemplate config settings
                             0 xs zero st1 in
                  let st2 :=
                    Store.updateJob (env (length xs) (after s)) jobId_
                      (set_finished
                         (final_status (failedCount (counters s))
                            (BatchJob.totalCount job))
                         (now w (length xs)) None) in
                  {| store := st2;
                     trace := effects s
                              ++ [emitProgress jobId_
                                    (processedCount (counters s))
                                    (BatchJob.totalCount job)
                                    (lit "completed")];
                     thrown := None |}
              end
          end
      end
  end.

Definition processEmailBatch : World -> Store.t -> jstring -> Outcome :=
  processEmailBatchWith undisturbed.

(** *** The batches over a database that may reject a call

    The loops above take every call of prisma to be answered.  Here a
    call may be rejected: the rejected call changes nothing in the
    store, and its error is thrown where the call is awaited. *)

(** The calls of a batch, by their place in the code. *)
Inductive Call :=
| FindJob
| FindTemplate
| FindSmtpConfig
| MarkProcessing
(** the update of the recipient in the [try] block of pass [i] *)
| StoreSuccess (i : nat)
(** the update of the recipient in the [catch] block of pass [i] *)
| StoreError (i : nat)
(** the update of the counters of the job after pass [i] *)
| StoreCounters (i : nat)
| MarkFinished.

(** The error with which the database rejects a call, if it does. *)
Definition Prisma := Call -> option jstring.

Definition reliable : Prisma := fun _ => None.

(** One pass, or a run of passes: how far it got, and the error that
    left it, if one did. *)
Record Pass := {
  reached : Step;
  escaped : option jstring
}.

(** The end of a pass of the certificate loop, after the [try]
    statement: the counters are stored and the progress is emitted.
    The update is awaited outside any [try]. *)
Definition countCertificate (db : Prisma) (job : BatchJob.t) (i : nat)
    (tried : Step) : Pass :=
  match db (StoreCounters i) with
  | Some err => {| reached := tried; escaped := Some err |}
  | None =>
      {| reached :=
           {| counters := counters tried;
              after := Store.updateJob (after tried) (BatchJob.id job)
                         (set_counters (counters tried));
              effects := effects tried
                         ++ [emitProgress (BatchJob.id job)
                               (processedCount (counters tried))
                               (BatchJob.totalCount job)
                               (lit "processing")] |};
         escaped := None |}
  end.

Definition certificateIterationOn (db : Prisma) (w : World)
    (job : BatchJob.t) (template : CertificateTemplate.t)
    (fieldConfigs : list PdfService.FieldConfig) (config : BatchJobConfig.t)
    (i : nat) (x : Recipient.t) (c : Counters) (st : Store.t) : Pass :=
  (* the [catch] block, entered after the effects [done] *)
  let caught errorMessage done :=
    match db (StoreError i) with
    | Some err =>
        {| reached := {| counters := c; after := st; effects := done |};
           escaped := Some err |}
    | None =>
        countCertificate db job i
          {| counters := failed_one c;
             after := Store.updateRecipient st (Recipient.id x)
                        (set_errorMessage errorMessage);
             effects := done |}
    end in
  match renderCertificate w template fieldConfigs config i x with
  | Thrown errorMessage => caught errorMessage []
  | Ok (filePath, content) =>
      match db (StoreSuccess i) with
      | Some errorMessage => caught errorMessage [Wrote filePath content]
      | None =>
          countCertificate db job i
            {| counters := succeeded c;
               after := Store.updateRecipient st (Recipient.id x)
                          (set_certificatePath filePath);
               effects := [Wrote filePath content] |}
      end
  end.

(** The end of a pass of the e-mail loop that did not skip. *)
Definition countEmail (db : Prisma) (job : BatchJob.t)
    (config : EmailBatchConfig.t) (i : nat) (tried : Step) : Pass :=
  match db (StoreCounters i) with
  | Some err => {| reached := tried; escaped := Some err |}
  | None =>
      {| reached :=
           {| counters := counters tried;
              after := Store.updateJob (after tried) (BatchJob.id job)
                         (set_counters (counters tried));
              effects := effects tried
                         ++ [emitProgress (BatchJob.id job)
                               (processedCount (counters tried))
                               (BatchJob.totalCount job)
                               (lit "processing")]
                         ++ (if (processedCount (counters tried)
                                 <? BatchJob.totalCount job)%Z
                             then [Slept (delayOf config)] else []) |};
         escaped := None |}
  end.

Definition emailIterationOn (db : Prisma) (w : World) (job : BatchJob.t)
    (emailTemplate : EmailTemplate.t) (config : EmailBatchConfig.t)
    (settings : SmtpSettings)
    (i : nat) (x : Recipient.t) (c : Counters) (st : Store.t) : Pass :=
  if EmailStatus.eqb (Recipient.emailStatus x) EmailStatus.sent then
    {| reached := {| counters := succeeded c; after := st; effects := [] |};
       escaped := None |}
  else
    let caught errorMessage done :=
      match db (StoreError i) with
      | Some err =>
          {| reached := {| counters := c; after := st; effects := done |};
             escaped := Some err |}
      | None =>
          countEmail db job config i
            {| counters := failed_one c;
               after := Store.updateRecipient st (Recipient.id x)
                          (set_failed errorMessage);
               effects := done |}
      end in
    match composeEmail w emailTemplate config settings x with
    | Thrown errorMessage => caught errorMessage []
    | Ok options =>
        let attempt := [SendAttempt (Recipient.id x) options] in
        match sendEmail w i options with
        | Some errorMessage => caught errorMessage attempt
        | None =>
            match db (StoreSuccess i) with
            | Some errorMessage => caught errorMessage attempt
            | None =>
                countEmail db job config i
                  {| counters := succeeded c;
                     after := Store.updateRecipient st (Recipient.id x)
                                (set_sent (now w i));
                     effects := attempt |}
            end
        end
    end.

(** The [for] loop: it ends with the first pass an error leaves. *)
Fixpoint loopOn (body : nat -> Recipient.t -> Counters -> Store.t -> Pass)
    (env : nat -> Store.t -> Store.t)
    (i : nat) (xs : list Recipient.t) (c : Counters) (st : Store.t)
  : Pass :=
  match xs with
  | [] => {| reached := {| counters := c; after := st; effects := [] |};
             escaped := None |}
  | x :: xs' =>
      let p := body i x c (env i st) in
      match escaped p with
      | Some _ => p
      | None =>
          let p' := loopOn body env (S i) xs' (counters (reached p))
                      (after (reached p)) in
          {| reached :=
               {| counters := counters (reached p');
                  after := after (reached p');
                  effects := effects (reached p) ++ effects (reached p') |};
             escaped := escaped p' |}
      end
  end.

(** What follows a loop: the final update and the final event, unless
    an error left the loop or the final update is rejected. *)
Definition finishOn (db : Prisma) (env : nat -> Store.t -> Store.t)
    (w : World) (job : BatchJob.t) (jobId_ : jstring)
    (out : option jstring) (xs : list Recipient.t) (made : list Event)
    (p : Pass) : Outcome :=
  let s := reached p in
  match escaped p with
  | Some err => throw (after s) (made ++ effects s) err
  | None =>
      match db MarkFinished with
      | Some err =>
          throw (env (length xs) (after s)) (made ++ effects s) err
      | None =>
          {| store :=
               Store.updateJob (env (length xs) (after s)) jobId_
                 (set_finished
                    (final_status (failedCount (counters s))
                       (BatchJob.totalCount job))
                    (now w (length xs)) out);
             trace := made ++ effects s
                      ++ [emitProgress jobId_ (processedCount (counters s))
                            (BatchJob.totalCount job) (lit "completed")];
             thrown := None |}
      end
  end.

Definition processCertificateBatchOn (db : Prisma)
    (env : nat -> Store.t -> Store.t)
    (w : World) (st : Store.t) (jobId_ : jstring) : Outcome :=
  match db FindJob with
  | Some err => throw st [] err
  | None =>
  match Store.findJob st jobId_ with
  | None => throw st [] (lit "Job " ++ jobId_ ++ lit " not found")
  | Some job =>
      match BatchJob.config job with
      | EmailConfig _ =>
          throw st [] (lit "Invalid prisma.certificateTemplate.findUnique() invocation")
      | CertificateConfig config =>
          match db FindTemplate with
          | Some err => throw st [] err
          | None =>
          match Store.findCertificateTemplate st
                  (BatchJobConfig.templateId config) with
          | None =>
              throw st [] (lit "Template " ++ BatchJobConfig.templateId config
                             ++ lit " not found")
          | Some template =>
              match parseFieldConfigs w
                      (CertificateTemplate.fieldConfigs template) with
              | Thrown m => throw st [] m
              | Ok fieldConfigs =>
                  match db MarkProcessing with
                  | Some err => throw st [] err
                  | None =>
                  let st1 := Store.updateJob st jobId_ (set_status processing) in
                  let outputDir := BatchJobConfig.outputPath config in
                  let run (made : list Event) :=
                    let xs := Store.recipientsOf st jobId_ in
                    finishOn db env w job jobId_ (Some outputDir) xs made
                      (loopOn (certificateIterationOn db w job template
                                 fieldConfigs config)
                         env 0 xs zero st1) in
                  if existsSync w outputDir then run []
                  else match mkdir w outputDir with
                       | Some err => throw st1 [] err
                       | None => run [MadeDirectory outputDir]
                       end
                  end
              end
          end
          end
      end
  end
  end.

Definition processEmailBatchOn (db : Prisma)
    (env : nat -> Store.t -> Store.t)
    (w : World) (st : Store.t) (jobId_ : jstring) : Outcome :=
  match db FindJob with
  | Some err => throw st [] err
  | None =>
  match Store.findJob st jobId_ with
  | None => throw st [] (lit "Job " ++ jobId_ ++ lit " not found")
  | Some job =>
      match BatchJob.config job with
      | CertificateConfig _ =>
          throw st [] (lit "Invalid prisma.emailTemplate.findUnique() invocation")
      | EmailConfig config =>
          match db FindTemplate with
          | Some err => throw st [] err
          | None =>
          match Store.findEmailTemplate st
                  (EmailBatchConfig.emailTemplateId config) with
          | None =>
              throw st [] (lit "Email template "
                             ++ EmailBatchConfig.emailTemplateId config
                             ++ lit " not found")
          | Some emailTemplate =>
              match db FindSmtpConfig with
              | Some err => throw st [] err
              | None =>
              match Store.findSmtpConfig st
                      (EmailBatchConfig.smtpConfigId config) with
              | None =>
                  throw st [] (lit "SMTP config "
                                 ++ EmailBatchConfig.smtpConfigId config
                                 ++ lit " not found")
              | Some smtpConfig =>
                  match db MarkProcessing with
                  | Some err => throw st [] err
                  | None =>
                  let settings := smtpSettingsOf smtpConfig in
                  let st1 := Store.updateJob st jobId_ (set_status processing) in
                  let xs := Store.recipientsOf st jobId_ in
                  finishOn db env w job jobId_ None xs []
                    (loopOn (emailIterationOn db w job emailTemplate config
                               settings)
                       env 0 xs zero st1)
                  end
              end
              end
          end
          end
      end
  end
  end.

(** *** retryFailedRecipients *)

(** [OR: [{ emailStatus: 'failed' }, { errorMessage: { not: null } }]] *)
Definition failedOrErrored (x : Recipient.t) : bool :=
  EmailStatus.eqb (Recipient.emailStatus x) EmailStatus.failed
  || match Recipient.errorMessage x with Some _ => true | None => false end.

Definition retryFailedRecipients (st : Store.t) (jobId_ : jstring)
  : result (Store.t * Z) :=
  match Store.findJob st jobId_ with
  | None => Thrown (lit "Job " ++ jobId_ ++ lit " not found")
  | Some job =>
      let selected := filter failedOrErrored (Store.recipientsOf st jobId_) in
      let st1 :=
        Store.updateManyRecipients st
          (fun x => JsString.eqb (Recipient.batchJobId x) jobId_
                    && failedOrErrored x)
          set_pending in
      let failedCount_ := Z.of_nat (length selected) in
      let st2 :=
        Store.updateJob st1 jobId_
          (set_retried (BatchJob.processedCount job - failedCount_)) in
      Ok (st2, failedCount_)
  end.

End JobService.

(** ** routes/job.routes.ts *)

Module JobRoutes.

(** [POST /:id/cancel]: the update; a missing job makes it throw. *)
Definition cancel (st : Store.t) (jobId : jstring) : result Store.t :=
  match Store.findJob st jobId with
  | None => Thrown (lit "Record to update not found.")
  | Some _ => Ok (Store.updateJob st jobId (JobService.set_status cancelled))
  end.

End JobRoutes.

(** ** Rows the routes create *)

Module Database.

(** What the database decides when a row is created: the ids it assigns,
    and the values of the columns a call does not give (the defaults of
    the schema, held here by a blank row of each table).  [stringify] is
    [JSON.stringify] of a row of an imported file. *)
Record t := {
  nextJobId : Store.t -> jstring;
  nextRecipientId : Store.t -> nat -> jstring;
  blankJob : BatchJob.t;
  blankRecipient : Recipient.t;
  stringify : JsObject.object -> jstring
}.






End Database.


(** ** routes/email.routes.ts *)

Module EmailRoutes.


(** The response: an error with its status, or 201 with the id of the
    job and the number of its recipients (the estimate of the time is
    computed in floating point and is left out). *)
Inductive Response :=
| Rejected (status : nat) (error : jstring)
| Started (jobId : jstring) (totalRecipients : nat).



End EmailRoutes.

(** ** routes/certificate.routes.ts *)

Module CertificateRoutes.


Inductive Response :=
| Rejected (status : nat) (error : jstring)
| Invalid (details : list jstring) (warnings : list jstring)
| Started (jobId : jstring) (totalRecipients : nat)
          (warnings : list jstring).


End CertificateRoutes.

(** ** Vocabulary of the properties *)

(** The counters of a job as the store holds them. *)
Definition persisted (j : BatchJob.t) : JobService.Counters :=
  {| JobService.processedCount := BatchJob.processedCount j;
     JobService.successCount := BatchJob.successCount j;
     JobService.failedCount := BatchJob.failedCount j |}.

Definition balanced (c : JobService.Counters) : Prop :=
  (JobService.processedCount c
   = JobService.successCount c + JobService.failedCount c)%Z.

(** The counters of a job add up and stay within its total. *)
Definition consistent (j : BatchJob.t) : Prop :=
  balanced (persisted j)
  /\ (BatchJob.processedCount j <= BatchJob.totalCount j)%Z.

(** A job was created with one recipient per imported row. *)
Definition sized (st : Store.t) (j : BatchJob.t) : Prop :=
  Z.of_nat (length (Store.recipientsOf st (BatchJob.id j)))
  = BatchJob.totalCount j.

(** The work for the recipient at position [i] of a certificate batch
    fails: something in the [try] block throws. *)
Definition certificateFails (w : JobService.World) (t : CertificateTemplate.t)
    (fcs : list PdfService.FieldConfig) (cfg : BatchJobConfig.t)
    (i : nat) (x : Recipient.t) : bool :=
  match JobService.renderCertificate w t fcs cfg i x with
  | Ok _ => false
  | Thrown _ => true
  end.

(** The recipient at position [i] of an e-mail batch fails: it was not
    sent before and composing or sending its message throws. *)
Definition emailFails (w : JobService.World) (et : EmailTemplate.t)
    (cfg : EmailBatchConfig.t) (smtp : JobService.SmtpSettings)
    (i : nat) (x : Recipient.t) : bool :=
  if EmailStatus.eqb (Recipient.emailStatus x) EmailStatus.sent then false
  else match JobService.composeEmail w et cfg smtp x with
       | Thrown _ => true
       | Ok options =>
           match JobService.sendEmail w i options with
           | Some _ => true
           | None => false
           end
       end.

(** How many of the recipients [xs], at the positions from [i] on, satisfy
    [p]. *)
Fixpoint tally (p : nat -> Recipient.t -> bool) (i : nat)
    (xs : list Recipient.t) : Z :=
  match xs with
  | [] => 0
  | x :: xs' => ((if p i x then 1 else 0) + tally p (S i) xs')%Z
  end.

Definition not_sent (x : Recipient.t) : bool :=
  negb (EmailStatus.eqb (Recipient.emailStatus x) EmailStatus.sent).

(** The running counters [c] add up and leave room for [n] more
    recipients within [total_]. *)
Definition within (total_ : Z) (c : JobService.Counters) (n : nat) : Prop :=
  balanced c /\ (0 <= JobService.processedCount c)%Z
  /\ (JobService.processedCount c + Z.of_nat n <= total_)%Z.

(** What the store holds for the job [job] satisfies [p]. *)
Definition stored (job : BatchJob.t) (st : Store.t)
    (p : BatchJob.t -> Prop) : Prop :=
  exists j, Store.findJob st (BatchJob.id job) = Some j /\ p j.

(** The store holds consistent counters and the total [total_] for the
    job. *)
Definition kept (job : BatchJob.t) (total_ : Z) (st : Store.t) : Prop :=
  stored job st (fun j => consistent j /\ BatchJob.totalCount j = total_).

(** The store holds the total [total_] for the job. *)
Definition total_kept (job : BatchJob.t) (total_ : Z) (st : Store.t) : Prop :=
  stored job st (fun j => BatchJob.totalCount j = total_).

(** The counters after [n] more recipients, [failures] of which failed. *)
Definition counted (c : JobService.Counters) (n : nat) (failures : Z)
  : JobService.Counters :=
  {| JobService.processedCount := JobService.processedCount c + Z.of_nat n;
     JobService.successCount :=
       JobService.successCount c + (Z.of_nat n - failures);
     JobService.failedCount := JobService.failedCount c + failures |}.

(** A loop over the recipients read at the start, for any loop body:
    both loops of the engine are of this form. *)
Fixpoint passes
    (body : nat -> Recipient.t -> JobService.Counters -> Store.t
            -> JobService.Step)
    (env : nat -> Store.t -> Store.t) (i : nat) (xs : list Recipient.t)
    (c : JobService.Counters) (st : Store.t) : JobService.Step :=
  match xs with
  | [] => {| JobService.counters := c; JobService.after := st;
             JobService.effects := [] |}
  | x :: xs' =>
      let s := body i x c (env i st) in
      let s' := passes body env (S i) xs' (JobService.counters s)
                  (JobService.after s) in
      {| JobService.counters := JobService.counters s';
         JobService.after := JobService.after s';
         JobService.effects :=
           JobService.effects s ++ JobService.effects s' |}
  end.

(** What the certificate loop does to the record of the recipient at
    position [i]. *)
Definition certificateUpdate (w : JobService.World)
    (t : CertificateTemplate.t) (fcs : list PdfService.FieldConfig)
    (cfg : BatchJobConfig.t) (i : nat) (x : Recipient.t)
  : Recipient.t -> Recipient.t :=
  match JobService.renderCertificate w t fcs cfg i x with
  | Ok (filePath, _) => JobService.set_certificatePath filePath
  | Thrown msg => JobService.set_errorMessage msg
  end.

(** What the e-mail loop does to the record of the recipient at position
    [i]. *)
Definition emailUpdate (w : JobService.World) (et : EmailTemplate.t)
    (cfg : EmailBatchConfig.t) (smtp : JobService.SmtpSettings)
    (i : nat) (x : Recipient.t) : Recipient.t -> Recipient.t :=
  if EmailStatus.eqb (Recipient.emailStatus x) EmailStatus.sent
  then fun r => r
  else match JobService.composeEmail w et cfg smtp x with
       | Thrown msg => JobService.set_failed msg
       | Ok options =>
           match JobService.sendEmail w i options with
           | Some msg => JobService.set_failed msg
           | None => JobService.set_sent (JobService.now w i)
           end
       end.

(** The other handlers while a batch runs: a request to cancel the job is
    handled just before pass number [k] of the loop (just before the final
    update when [k] is the number of recipients). *)
Definition cancelled_before (k : nat) (jobId : jstring)
  : nat -> Store.t -> Store.t :=
  fun i st =>
    if Nat.eqb i k then
      match JobRoutes.cancel st jobId with
      | Ok st' => st'
      | Thrown _ => st
      end
    else st.

(** *** A database that may reject *)

(** The database accepts the calls that frame the loop of a batch: the
    reads and the update that start it, and the update that ends it. *)
Definition frames_batch (db : JobService.Prisma) : Prop :=
  db JobService.FindJob = None
  /\ db JobService.FindTemplate = None
  /\ db JobService.FindSmtpConfig = None
  /\ db JobService.MarkProcessing = None
  /\ db JobService.MarkFinished = None.

(** The database accepts, at every pass, the update that records the
    error of the recipient and the update of the counters. *)
Definition records_failures (db : JobService.Prisma) : Prop :=
  forall k,
    db (JobService.StoreError k) = None
    /\ db (JobService.StoreCounters k) = None.

(** The record of the recipient [x] with the given certificate path,
    e-mail status, error message and time of sending. *)
Definition recorded (x : Recipient.t) (certificatePath_ : option jstring)
    (emailStatus_ : EmailStatus.t) (errorMessage_ : option jstring)
    (sentAt_ : option Time) : Recipient.t :=
  {| Recipient.id := Recipient.id x;
     Recipient.batchJobId := Recipient.batchJobId x;
     Recipient.email := Recipient.email x;
     Recipient.fullName := Recipient.fullName x;
     Recipient.extraFields := Recipient.extraFields x;
     Recipient.certificatePath := certificatePath_;
     Recipient.emailStatus := emailStatus_;
     Recipient.errorMessage := errorMessage_;
     Recipient.sentAt := sentAt_ |}.

(** The [try] block of the pass for the recipient at position [i] fails
    over the database [db]: the work throws, or the update that records
    its success is rejected. *)
Definition certificateFailsOn (db : JobService.Prisma)
    (w : JobService.World) (t : CertificateTemplate.t)
    (fcs : list PdfService.FieldConfig) (cfg : BatchJobConfig.t)
    (i : nat) (x : Recipient.t) : bool :=
  match JobService.renderCertificate w t fcs cfg i x with
  | Thrown _ => true
  | Ok _ =>
      match db (JobService.StoreSuccess i) with
      | Some _ => true
      | None => false
      end
  end.

Definition emailFailsOn (db : JobService.Prisma) (w : JobService.World)
    (et : EmailTemplate.t) (cfg : EmailBatchConfig.t)
    (smtp : JobService.SmtpSettings) (i : nat) (x : Recipient.t) : bool :=
  if EmailStatus.eqb (Recipient.emailStatus x) EmailStatus.sent then false
  else match JobService.composeEmail w et cfg smtp x with
       | Thrown _ => true
       | Ok options =>
           match JobService.sendEmail w i options with
           | Some _ => true
           | None =>
               match db (JobService.StoreSuccess i) with
               | Some _ => true
               | None => false
               end
           end
       end.

(** The world as the [try] block of a pass meets it over the database
    [db]: the update of the recipient that ends the block is taken as
    the last step of the write, and of the sending, before it. *)
Definition answering (db : JobService.Prisma) (w : JobService.World)
  : JobService.World :=
  {| JobService.pdf := JobService.pdf w;
     JobService.regexp := JobService.regexp w;
     JobService.parseExtraFields := JobService.parseExtraFields w;
     JobService.parseFieldConfigs := JobService.parseFieldConfigs w;
     JobService.existsSync := JobService.existsSync w;
     JobService.mkdir := JobService.mkdir w;
     JobService.writeFile :=
       fun i filePath content =>
         match JobService.writeFile w i filePath content with
         | Some err => Some err
         | None => db (JobService.StoreSuccess i)
         end;
     JobService.sendEmail :=
       fun i options =>
         match JobService.sendEmail w i options with
         | Some err => Some err
         | None => db (JobService.StoreSuccess i)
         end;
     JobService.join := JobService.join w;
     JobService.now := JobService.now w |}.

(** *** Colours *)

(** A hexadecimal digit, as the specification understands it. *)
Definition hexadecimal (c : ascii) : bool :=
  existsb (Ascii.eqb c) (lit "0123456789abcdefABCDEF").

(** A valid colour: six hexadecimal digits after an optional [#]. *)
Definition valid_hex_color (s : jstring) : bool :=
  let six body := Nat.eqb (length body) 6 && forallb hexadecimal body in
  six s || match s with "#" :: rest => six rest | _ => false end.

Definition black : PdfService.RGB :=
  {| PdfService.r := 0; PdfService.g := 0; PdfService.b := 0 |}.

Definition with_color (c : jstring) (cfg : PdfService.FieldConfig)
  : PdfService.FieldConfig :=
  {| PdfService.id := PdfService.id cfg;
     PdfService.field := PdfService.field cfg;
     PdfService.x := PdfService.x cfg;
     PdfService.y := PdfService.y cfg;
     PdfService.fontSize := PdfService.fontSize cfg;
     PdfService.fontFamily := PdfService.fontFamily cfg;
     PdfService.fontWeight := PdfService.fontWeight cfg;
     PdfService.color := c;
     PdfService.alignment := PdfService.alignment cfg;
     PdfService.maxWidth := PdfService.maxWidth cfg |}.

(** *** Templates as literal text and tokens *)

(** A piece of a template: literal text, or a token [{{ name }}] with the
    white space around its name. *)
Inductive Segment :=
| Literal (text : jstring)
| Token (lead : jstring) (name : jstring) (trail : jstring).

Definition token_text (lead name trail : jstring) : jstring :=
  Placeholder.open_braces ++ lead ++ name ++ trail
  ++ Placeholder.close_braces.

Definition segment_text (seg : Segment) : jstring :=
  match seg with
  | Literal text => text
  | Token lead name trail => token_text lead name trail
  end.

Definition template_text (segs : list Segment) : jstring :=
  flat_map segment_text segs.

Definition brace (c : ascii) : bool := Ascii.eqb c "{" || Ascii.eqb c "}".

(** Not empty, and no white space in front. *)
Definition starts_tight (s : jstring) : bool :=
  match s with
  | [] => false
  | c :: _ => negb (is_space c)
  end.

(** No white space at the end. *)
Fixpoint ends_tight (s : jstring) : bool :=
  match s with
  | [] => true
  | c :: s' =>
      match s' with
      | [] => negb (is_space c)
      | _ :: _ => ends_tight s'
      end
  end.

(** The name inside a token: not empty, no white space at either end, no
    brace.  Every identifier is one. *)
Definition label (s : jstring) : bool :=
  starts_tight s && ends_tight s && forallb (fun c => negb (brace c)) s.

Definition identifier (s : jstring) : bool := truthy s && forallb is_word s.

(** Literal text has no opening brace; the name of a token is a label
    between white space. *)
Definition well_formed (seg : Segment) : bool :=
  match seg with
  | Literal text => forallb (fun c => negb (Ascii.eqb c "{")) text
  | Token lead name trail =>
      forallb is_space lead && label name && forallb is_space trail
  end.

(** Equality of two strings up to the case of their letters. *)
Fixpoint ci_equal (a b : jstring) : bool :=
  match a, b with
  | [], [] => true
  | x :: a', y :: b' => ci_char x y && ci_equal a' b'
  | _, _ => false
  end.

(** The value of the first property, in the order of [Object.entries],
    whose key is [name] up to case. *)
Fixpoint lookup_ci (entries : list (jstring * jstring)) (name : jstring)
  : option jstring :=
  match entries with
  | [] => None
  | (key, value) :: rest =>
      if ci_equal key name then Some value else lookup_ci rest name
  end.

(** A key that stands for itself in a pattern and has no white space at
    either end. *)
Definition key_ok (key : jstring) : bool :=
  Placeholder.plain_key key && starts_tight key && ends_tight key.

(** A value without [$] (which [replace] interprets) and without an
    opening brace (which could form a new token). *)
Definition value_ok (value : jstring) : bool :=
  forallb (fun c => negb (Ascii.eqb c "$" || Ascii.eqb c "{")) value.

(** A segment after substitution in an e-mail template: a token whose name
    is a key of the record gives the value, any other token stays as it is
    written. *)
Definition substituted (data : JsObject.object) (seg : Segment) : jstring :=
  match seg with
  | Literal text => text
  | Token lead name trail =>
      match lookup_ci data name with
      | Some value => value
      | None => token_text lead name trail
      end
  end.

(** The token [{{sn}}], in any case and without white space. *)
Definition is_serial (lead name trail : jstring) : bool :=
  match lead, trail with
  | [], [] => ci_equal (lit "sn") name
  | _, _ => false
  end.

(** A segment of a naming pattern in the file name. *)
Definition filled (data : JsObject.object) (index : nat) (seg : Segment)
  : jstring :=
  match seg with
  | Literal text => text
  | Token lead name trail =>
      if is_serial lead name trail then JobService.serial index
      else match lookup_ci data name with
           | Some value => CsvService.sanitizeFilename value
           | None => token_text lead name trail
           end
  end.

(** What one replacement does to a segment: a token that the pattern
    matches becomes the replacement text. *)
Definition swap (hit : jstring -> jstring -> jstring -> bool)
    (repl : jstring) (seg : Segment) : Segment :=
  match seg with
  | Literal text => Literal text
  | Token lead name trail =>
      if hit lead name trail then Literal repl else seg
  end.

(** A code unit that is safe in a file name: a letter, a digit, a hyphen
    or an underscore. *)
Definition safe (c : ascii) : bool :=
  is_alpha c || is_digit c || Ascii.eqb c "-" || Ascii.eqb c "_".

(** The number a string of decimal digits denotes. *)
Definition number_of (s : jstring) : option N :=
  option_map N.of_uint (NilEmpty.uint_of_string (string_of_list_ascii s)).

(** The entries with every value made safe for a file name. *)
Definition sanitized (entries : list (jstring * jstring))
  : list (jstring * jstring) :=
  map (fun kv => (fst kv, CsvService.sanitizeFilename (snd kv))) entries.

(** The white-space test looks at the canonical form only. *)
Definition space_code (n : N) : bool :=
  ((9 <=? n) && (n <=? 13) || (n =? 32) || (n =? 160))%N.

(** No opening brace. *)
Definition no_open (s : jstring) : bool :=
  forallb (fun c => negb (Ascii.eqb c "{")) s.

(** The segments after the replacements for the entries, one entry after
    the other. *)
Definition after_entries (entries : list (jstring * jstring))
    (segs : list Segment) : list Segment :=
  fold_left
    (fun acc kv => map (swap (fun _ n _ => ci_equal (fst kv) n) (snd kv)) acc)
    entries segs.

(** Keys and values the substitution theorems accept. *)
Definition entries_ok (entries : list (jstring * jstring)) : Prop :=
  forall key value,
    In (key, value) entries -> key_ok key = true /\ value_ok value = true.

(** *** Sanitized values, as the specification words them *)



(** *** Column names *)

(** The form under which [parseCSV] compares the names of the columns. *)
Definition folded (key : jstring) : jstring := trim (toLowerCase key).

(** No column of the record is called [__proto__] in any case: the
    assignment to that name is the one an object ignores. *)
Definition ordinary (record : JsObject.object) : Prop :=
  forall k, In k (JsObject.keys record) -> folded k <> lit "__proto__".

(** Every key comes after its folded form, unless it is that form. *)
Definition folded_first (ks : list jstring) : Prop :=
  forall pre k post,
    ks = pre ++ k :: post ->
    folded k = k \/ In (folded k) pre \/ folded k = lit "__proto__".

(** The names of the tokens of a template that are identifiers, in the
    order of the template. *)
Definition token_names (segs : list Segment) : list jstring :=
  flat_map
    (fun seg =>
       match seg with
       | Literal _ => []
       | Token _ name _ => if identifier name then [name] else []
       end)
    segs.

(** *** The effects of a batch *)




(** A trace is paced when a pause of [ms] milliseconds separates any two
    attempts to send; [ready] tells whether an attempt may come first. *)
Fixpoint paced (ms : Z) (ready : bool) (tr : list JobService.Event) : bool :=
  match tr with
  | [] => true
  | JobService.SendAttempt _ _ :: rest => ready && paced ms false rest
  | JobService.Slept d :: rest => (d =? ms)%Z && paced ms true rest
  | _ :: rest => paced ms ready rest
  end.

(** A text that starts with something other than a digit. *)
Definition no_digit_first (s : jstring) : bool :=
  match s with
  | c :: _ => negb (is_digit c)
  | [] => false
  end.

(** *** New jobs *)



(** The attempts to send of a trace, and the files it writes, in order. *)
Definition attempts_of (tr : list JobService.Event)
  : list (jstring * JobService.SendEmailOptions) :=
  flat_map
    (fun e =>
       match e with
       | JobService.SendAttempt recipientId options =>
           [(recipientId, options)]
       | _ => []
       end)
    tr.

Definition writes_of (tr : list JobService.Event)
  : list (jstring * PdfService.Buffer) :=
  flat_map
    (fun e =>
       match e with
       | JobService.Wrote filePath content => [(filePath, content)]
       | _ => []
       end)
    tr.

(** The messages an e-mail batch has to attempt for the recipients [xs]:
    one for every recipient that was not sent before and whose message
    can be composed. *)
Definition due (w : JobService.World) (et : EmailTemplate.t)
    (cfg : EmailBatchConfig.t) (smtp : JobService.SmtpSettings)
    (xs : list Recipient.t)
  : list (jstring * JobService.SendEmailOptions) :=
  flat_map
    (fun x =>
       if not_sent x then
         match JobService.composeEmail w et cfg smtp x with
         | Ok options => [(Recipient.id x, options)]
         | Thrown _ => []
         end
       else [])
    xs.

(** The files a certificate batch has to write for the recipients [xs]
    from position [i]: one for every recipient whose certificate can be
    rendered, named and stored. *)
Fixpoint rendered_from (w : JobService.World) (t : CertificateTemplate.t)
    (fcs : list PdfService.FieldConfig) (cfg : BatchJobConfig.t)
    (i : nat) (xs : list Recipient.t)
  : list (jstring * PdfService.Buffer) :=
  match xs with
  | [] => []
  | x :: xs' =>
      match JobService.renderCertificate w t fcs cfg i x with
      | Ok written => [written]
      | Thrown _ => []
      end ++ rendered_from w t fcs cfg (S i) xs'
  end.

(** ** A small installation, for the examples *)

Module Demo.
Import JobService.
Import PrimFloat.

(** A regular expression engine for which every key that holds a syntax
    character makes [new RegExp] throw, as the key [c++] does. *)
Definition engine : Placeholder.Engine :=
  {| Placeholder.replace_other :=
       fun _ _ _ => Thrown (lit "Invalid regular expression") |}.

Definition nameField : PdfService.FieldConfig :=
  {| PdfService.id := lit "field-1"; PdfService.field := lit "name";
     PdfService.x := 300%float; PdfService.y := 200%float;
     PdfService.fontSize := 24%float;
     PdfService.fontFamily := PdfService.Helvetica;
     PdfService.fontWeight := PdfService.bold;
     PdfService.color := lit "#1a2b3c";
     PdfService.alignment := PdfService.center;
     PdfService.maxWidth := None |}.

(** A PDF library that reads every buffer as one A4 page in landscape,
    finds no font file, gives every character half the font size as its
    width, and saves a document as its template followed by the texts
    drawn. *)
Definition lib : PdfService.PdfLib :=
  {| PdfService.load := fun _ => Ok [(842, 595)%float];
     PdfService.readFile :=
       fun _ => Thrown (lit "ENOENT: no such file or directory");
     PdfService.embedFont := fun _ => None;
     PdfService.widthOfTextAtSize :=
       fun _ text size =>
         Ok (fold_left (fun width _ => width + size / 2) text 0)%float;
     PdfService.not_a_string :=
       fun _ => lit "`text` must be of type `string`";
     PdfService.drawText := fun _ => None;
     PdfService.save :=
       fun source ops =>
         Ok (source ++ concat (map PdfService.op_text ops)) |}.

(** A world in which the work for the recipients at the positions [bad]
    fails: the file cannot be written, the relay refuses the message. *)
Definition world (bad : list nat) : World :=
  {| pdf := lib;
     regexp := engine;
     parseExtraFields := fun _ => Ok [];
     parseFieldConfigs := fun _ => Ok [nameField];
     existsSync := fun _ => true;
     mkdir := fun _ => None;
     writeFile := fun i _ _ =>
       if existsb (Nat.eqb i) bad then Some (lit "EACCES: permission denied")
       else None;
     sendEmail := fun i _ =>
       if existsb (Nat.eqb i) bad then Some (lit "Connection timeout")
       else None;
     join := fun dir file => dir ++ lit "/" ++ file;
     now := fun i => (1000 + Z.of_nat i)%Z |}.

Definition certificateJob : BatchJob.t :=
  {| BatchJob.id := lit "job-1"; BatchJob.type := certificate;
     BatchJob.status := pending;
     BatchJob.config :=
       CertificateConfig
         {| BatchJobConfig.templateId := lit "tpl-1";
            BatchJobConfig.namingPattern := lit "{{sn}}_{{name}}";
            BatchJobConfig.outputPath := lit "out" |};
     BatchJob.totalCount := 2; BatchJob.processedCount := 0;
     BatchJob.successCount := 0; BatchJob.failedCount := 0;
     BatchJob.outputPath := None; BatchJob.completedAt := None |}.

(** An e-mail job after a first run: one message sent, one refused. *)
Definition emailJob : BatchJob.t :=
  {| BatchJob.id := lit "job-2"; BatchJob.type := email;
     BatchJob.status := completed;
     BatchJob.config :=
       EmailConfig
         {| EmailBatchConfig.emailTemplateId := lit "mail-1";
            EmailBatchConfig.smtpConfigId := lit "smtp-1";
            EmailBatchConfig.subject := [];
            EmailBatchConfig.delayMs := 0 |};
     BatchJob.totalCount := 2; BatchJob.processedCount := 2;
     BatchJob.successCount := 1; BatchJob.failedCount := 1;
     BatchJob.outputPath := None; BatchJob.completedAt := Some 900%Z |}.

Definition recipient (k job_ name_ mail : string) (cert : option jstring)
    (st : EmailStatus.t) (err : option jstring) (sent_ : option Time)
  : Recipient.t :=
  {| Recipient.id := lit k; Recipient.batchJobId := lit job_;
     Recipient.email := lit mail; Recipient.fullName := lit name_;
     Recipient.extraFields := None; Recipient.certificatePath := cert;
     Recipient.emailStatus := st; Recipient.errorMessage := err;
     Recipient.sentAt := sent_ |}.

Definition jane := recipient "r1" "job-1" "Jane Doe" "jane@example.org"
                     None EmailStatus.pending None None.
Definition omar := recipient "r2" "job-1" "Omar Said" "omar@example.org"
                     None EmailStatus.pending None None.
Definition jane_mail :=
  recipient "r3" "job-2" "Jane Doe" "jane@example.org"
    (Some (lit "out/001_Jane_Doe.pdf")) EmailStatus.sent None (Some 800%Z).
Definition omar_mail :=
  recipient "r4" "job-2" "Omar Said" "omar@example.org"
    (Some (lit "out/002_Omar_Said.pdf")) EmailStatus.failed
    (Some (lit "Connection timeout")) None.

Definition store : Store.t :=
  {| Store.jobs := [certificateJob; emailJob];
     Store.recipients := [jane; omar; jane_mail; omar_mail];
     Store.certificateTemplates :=
       [ {| CertificateTemplate.id := lit "tpl-1";
            CertificateTemplate.name := lit "Workshop";
            CertificateTemplate.templateData := lit "%PDF-1.7";
            CertificateTemplate.fieldConfigs := lit "[...]" |} ];
     Store.emailTemplates :=
       [ {| EmailTemplate.id := lit "mail-1";
            EmailTemplate.name := lit "Thank you";
            EmailTemplate.subject := lit "Your certificate, {{name}}";
            EmailTemplate.htmlContent :=
              lit "Hello {{ Name }}, welcome to {{event}}" |} ];
     Store.smtpConfigs :=
       [ {| SmtpConfig.id := lit "smtp-1";
            SmtpConfig.host := lit "smtp.gmail.com";
            SmtpConfig.port := 465;
            SmtpConfig.username := lit "certiflow@example.org";
            SmtpConfig.passwordEncrypted := lit "app-password";
            SmtpConfig.fromName := Some (lit "CertiFlow") |} ] |}.

(** A file of three rows, the second without an e-mail address, as
    csv-parse delivers it:
<<
name,email
Ann,ann@example.org
Bob,
Cy,cy@example.org
>> *)
Definition three_rows : list (JsObject.object * N) :=
  [ ([(lit "name", lit "Ann"); (lit "email", lit "ann@example.org")], 2%N);
    ([(lit "name", lit "Bob"); (lit "email", [])], 3%N);
    ([(lit "name", lit "Cy"); (lit "email", lit "cy@example.org")], 4%N) ].

End Demo.

(** ** More examples *)

Module Samples.
Import JobService.
Import PrimFloat.

(** A record as csv-parse delivers it for the header line
    [Name,EMAIL,First Language]. *)
Definition ann : JsObject.object :=
  [ (lit "Name", lit "Ann Lee"); (lit "EMAIL", lit "Ann.Lee@Example.org");
    (lit "First Language", lit "Dutch") ].

Definition sheet : list (JsObject.object * N) := [(ann, 2%N)].

(** A template with two tokens an identifier names and one it does not. *)
Definition greeting : list Segment :=
  [ Literal (lit "Dear "); Token [] (lit "Name") [];
    Literal (lit ", see you at "); Token (lit " ") (lit "event_name") (lit " ");
    Literal (lit " ("); Token [] (lit "first language") [];
    Literal (lit ")") ].

(** The default naming pattern. *)
Definition defaultPattern : list Segment :=
  [ Token [] (lit "sn") []; Literal (lit "_"); Token [] (lit "name") [] ].

(** A world whose PDF library reads every template as a document without
    pages. *)
Definition blank : World :=
  {| pdf :=
       {| PdfService.load := fun _ => Ok [];
          PdfService.readFile := PdfService.readFile Demo.lib;
          PdfService.embedFont := PdfService.embedFont Demo.lib;
          PdfService.widthOfTextAtSize :=
            PdfService.widthOfTextAtSize Demo.lib;
          PdfService.not_a_string := PdfService.not_a_string Demo.lib;
          PdfService.drawText := PdfService.drawText Demo.lib;
          PdfService.save := PdfService.save Demo.lib |};
     regexp := regexp (Demo.world []);
     parseExtraFields := parseExtraFields (Demo.world []);
     parseFieldConfigs := parseFieldConfigs (Demo.world []);
     existsSync := existsSync (Demo.world []);
     mkdir := mkdir (Demo.world []);
     writeFile := writeFile (Demo.world []);
     sendEmail := sendEmail (Demo.world []);
     join := join (Demo.world []);
     now := now (Demo.world []) |}.

(** The certificate of Jane Doe on the template of the installation. *)
Definition certificate : PdfService.Rendered :=
  {| PdfService.drawn :=
       [ {| PdfService.op_text := lit "Jane Doe";
            PdfService.op_x := 252%float; PdfService.op_y := 371%float;
            PdfService.op_size := 24%float;
            PdfService.op_font :=
              PdfService.Standard PdfService.SF_HelveticaBold;
            PdfService.op_color :=
              {| PdfService.r := 26 # 255; PdfService.g := 43 # 255;
                 PdfService.b := 4 # 17 |} |} ];
     PdfService.bytes := lit "%PDF-1.7Jane Doe" |}.

(** The configuration of the e-mail job of the installation, its
    certificate configuration and its template. *)
Definition mailConfig : EmailBatchConfig.t :=
  {| EmailBatchConfig.emailTemplateId := lit "mail-1";
     EmailBatchConfig.smtpConfigId := lit "smtp-1";
     EmailBatchConfig.subject := [];
     EmailBatchConfig.delayMs := 0 |}.

Definition certificateConfig : BatchJobConfig.t :=
  {| BatchJobConfig.templateId := lit "tpl-1";
     BatchJobConfig.namingPattern := lit "{{sn}}_{{name}}";
     BatchJobConfig.outputPath := lit "out" |}.

Definition workshop : CertificateTemplate.t :=
  {| CertificateTemplate.id := lit "tpl-1";
     CertificateTemplate.name := lit "Workshop";
     CertificateTemplate.templateData := lit "%PDF-1.7";
     CertificateTemplate.fieldConfigs := lit "[...]" |}.

(** The store of the installation after a retry of the e-mail job. *)
Definition retried : Store.t :=
  match retryFailedRecipients Demo.store (lit "job-2") with
  | Ok (st, _) => st
  | Thrown _ => Demo.store
  end.

(** A database that numbers the next job [job-3]. *)
Definition db : Database.t :=
  {| Database.nextJobId := fun _ => lit "job-3";
     Database.nextRecipientId :=
       fun _ k => lit "r" ++ ofN (N.of_nat (5 + k));
     Database.blankJob := Demo.certificateJob;
     Database.blankRecipient := Demo.jane;
     Database.stringify := fun _ => lit "{...}" |}.

(** A database that rejects the update recording the certificate of the
    second recipient, and one that is out of reach when an error is to
    be recorded. *)
Definition forgetful : Prisma :=
  fun call =>
    match call with
    | StoreSuccess 1 => Some (lit "Timed out fetching a new connection")
    | _ => None
    end.

Definition unreachable : Prisma :=
  fun call =>
    match call with
    | StoreError _ => Some (lit "Can't reach database server")
    | _ => None
    end.

(** An e-mail job for two recipients, none of them sent yet, beside the
    templates of the installation. *)
Definition announcement : BatchJob.t :=
  {| BatchJob.id := lit "job-4"; BatchJob.type := email;
     BatchJob.status := pending;
     BatchJob.config := EmailConfig mailConfig;
     BatchJob.totalCount := 2; BatchJob.processedCount := 0;
     BatchJob.successCount := 0; BatchJob.failedCount := 0;
     BatchJob.outputPath := None; BatchJob.completedAt := None |}.

Definition unsent : Store.t :=
  Store.with_recipients (Store.with_jobs Demo.store [announcement])
    [ Demo.recipient "r7" "job-4" "Jane Doe" "jane@example.org"
        None EmailStatus.pending None None;
      Demo.recipient "r8" "job-4" "Omar Said" "omar@example.org"
        None EmailStatus.pending None None ].



End Samples.

(* ================================================================== *)
(** * Properties *)

(** ** Strings and the store *)

Lemma jstring_eqb_eq (a b : jstring) : JsString.eqb a b = true <-> a = b.
Proof.
  revert b; induction a as [|x a IH]; intros [|y b]; simpl;
    try (split; [discriminate | discriminate]); try tauto.
  rewrite andb_true_iff, Ascii.eqb_eq, IH.
  split; [intros [-> ->]; reflexivity | intros H; inversion H; auto].
Qed.

Lemma jstring_eqb_refl (a : jstring) : JsString.eqb a a = true.
Proof. apply jstring_eqb_eq; reflexivity. Qed.

Lemma jstring_eqb_neq (a b : jstring) : a <> b -> JsString.eqb a b = false.
Proof.
  intros H; destruct (JsString.eqb a b) eqn:E; [|reflexivity].
  apply jstring_eqb_eq in E; contradiction.
Qed.

Lemma findJob_id st k j : Store.findJob st k = Some j -> BatchJob.id j = k.
Proof.
  unfold Store.findJob; intros H; apply find_some in H.
  apply jstring_eqb_eq, H.
Qed.

Lemma findJob_updateRecipient st rid f k :
  Store.findJob (Store.updateRecipient st rid f) k = Store.findJob st k.
Proof. reflexivity. Qed.

Lemma findJob_updateJob st k f :
  (forall j, BatchJob.id (f j) = BatchJob.id j) ->
  Store.findJob (Store.updateJob st k f) k
  = option_map f (Store.findJob st k).
Proof.
  intros Hid; unfold Store.findJob, Store.updateJob; simpl.
  induction (Store.jobs st) as [|j js IH]; simpl; [reflexivity|].
  destruct (JsString.eqb (BatchJob.id j) k) eqn:E.
  - rewrite Hid, E; reflexivity.
  - rewrite E; exact IH.
Qed.

Lemma findJob_updateJob_other st k k' f :
  (forall j, BatchJob.id (f j) = BatchJob.id j) -> k' <> k ->
  Store.findJob (Store.updateJob st k f) k' = Store.findJob st k'.
Proof.
  intros Hid Hne; unfold Store.findJob, Store.updateJob; simpl.
  induction (Store.jobs st) as [|j js IH]; simpl; [reflexivity|].
  destruct (JsString.eqb (BatchJob.id j) k) eqn:E.
  - rewrite Hid. apply jstring_eqb_eq in E.
    rewrite (jstring_eqb_neq (BatchJob.id j) k') by congruence. exact IH.
  - destruct (JsString.eqb (BatchJob.id j) k'); [reflexivity | exact IH].
Qed.

Lemma recipients_updateJob st k f :
  Store.recipients (Store.updateJob st k f) = Store.recipients st.
Proof. reflexivity. Qed.

Lemma findRecipient_updateJob st k f rid :
  Store.findRecipient (Store.updateJob st k f) rid = Store.findRecipient st rid.
Proof. reflexivity. Qed.

Lemma findRecipient_updateRecipient st rid f rid' :
  (forall x, Recipient.id (f x) = Recipient.id x) ->
  Store.findRecipient (Store.updateRecipient st rid f) rid'
  = if JsString.eqb rid rid' then option_map f (Store.findRecipient st rid')
    else Store.findRecipient st rid'.
Proof.
  intros Hid; unfold Store.findRecipient, Store.updateRecipient; simpl.
  induction (Store.recipients st) as [|x xs IH]; simpl.
  - destruct (JsString.eqb rid rid'); reflexivity.
  - destruct (JsString.eqb (Recipient.id x) rid) eqn:E.
    + apply jstring_eqb_eq in E. rewrite Hid.
      destruct (JsString.eqb (Recipient.id x) rid') eqn:E'.
      * apply jstring_eqb_eq in E'. rewrite <- E, E', jstring_eqb_refl.
        reflexivity.
      * exact IH.
    + destruct (JsString.eqb (Recipient.id x) rid') eqn:E'; [|exact IH].
      apply jstring_eqb_eq in E'; subst rid'.
      rewrite (jstring_eqb_neq rid (Recipient.id x)); [reflexivity|].
      intros ->; rewrite jstring_eqb_refl in E; discriminate.
Qed.

(** ** The counters of the two loops *)

Section Loops.
Import JobService.

Variable w : World.
Variable job : BatchJob.t.

Lemma balanced_succeeded c : balanced c -> balanced (succeeded c).
Proof. unfold balanced; simpl; lia. Qed.

Lemma balanced_failed_one c : balanced c -> balanced (failed_one c).
Proof. unfold balanced; simpl; lia. Qed.

Lemma balanced_zero : balanced zero.
Proof. reflexivity. Qed.

(** One pass of the certificate loop counts the recipient once and
    stores the running counters. *)
Lemma certificate_pass_counters t fcs cfg i x c st :
  let s := certificateIteration w job t fcs cfg i x c st in
  (counters s = succeeded c \/ counters s = failed_one c)
  /\ Store.findJob (after s) (BatchJob.id job)
     = option_map (set_counters (counters s))
                  (Store.findJob st (BatchJob.id job)).
Proof.
  unfold certificateIteration.
  destruct (renderCertificate w t fcs cfg i x) as [[filePath content]|msg];
    simpl; (split; [auto|]);
    rewrite findJob_updateJob by reflexivity; reflexivity.
Qed.

(** One pass of the e-mail loop: a recipient already sent is counted and
    nothing is stored; any other is counted and the counters stored. *)
Lemma email_pass_counters et cfg smtp i x c st :
  let s := emailIteration w job et cfg smtp i x c st in
  (counters s = succeeded c \/ counters s = failed_one c)
  /\ (Store.findJob (after s) (BatchJob.id job)
      = Store.findJob st (BatchJob.id job)
      \/ Store.findJob (after s) (BatchJob.id job)
         = option_map (set_counters (counters s))
                      (Store.findJob st (BatchJob.id job))).
Proof.
  unfold emailIteration.
  destruct (EmailStatus.eqb (Recipient.emailStatus x) EmailStatus.sent);
    [simpl; auto|].
  destruct (composeEmail w et cfg smtp x) as [options|msg];
    [destruct (sendEmail w i options)|];
    simpl; (split; [auto|right]);
    rewrite findJob_updateJob by reflexivity; reflexivity.
Qed.

Lemma within_step total_ c c' n :
  within total_ c (S n) -> c' = succeeded c \/ c' = failed_one c ->
  within total_ c' n /\ (processedCount c' <= total_)%Z.
Proof.
  unfold within, balanced; intros (Hb & H0 & Hle) [-> | ->]; simpl; lia.
Qed.

Lemma kept_set_counters total_ st st' c :
  kept job total_ st -> balanced c -> (processedCount c <= total_)%Z ->
  Store.findJob st' (BatchJob.id job)
  = option_map (set_counters c) (Store.findJob st (BatchJob.id job)) ->
  kept job total_ st'.
Proof.
  intros (j & Hj & _ & Ht) Hb Hle Hst'; rewrite Hj in Hst'; simpl in Hst'.
  exists (set_counters c j); repeat split; simpl; auto; lia.
Qed.

Lemma emailLoop_kept et cfg smtp total_ xs :
  forall i c st,
    kept job total_ st -> within total_ c (length xs) ->
    kept job total_
      (after (emailLoop w undisturbed job et cfg smtp i xs c st)).
Proof.
  induction xs as [|x xs IH]; intros i c st Hk Hw; simpl; [exact Hk|].
  change (undisturbed i st) with st.
  pose proof (email_pass_counters et cfg smtp i x c st) as [Hc Hs];
    cbv zeta in Hc, Hs.
  destruct (within_step _ _ _ _ Hw Hc) as [Hw' Hle].
  apply IH; [|exact Hw'].
  destruct Hs as [Hs|Hs].
  - destruct Hk as (j & Hj & Hrest); exists j; rewrite Hs; auto.
  - eapply kept_set_counters; eauto. apply Hw'.
Qed.

Lemma certificateLoop_kept t fcs cfg total_ xs :
  forall i c st,
    kept job total_ st -> within total_ c (length xs) ->
    kept job total_
      (after (certificateLoop w undisturbed job t fcs cfg i xs c st)).
Proof.
  induction xs as [|x xs IH]; intros i c st Hk Hw; simpl; [exact Hk|].
  change (undisturbed i st) with st.
  pose proof (certificate_pass_counters t fcs cfg i x c st) as [Hc Hs];
    cbv zeta in Hc, Hs.
  destruct (within_step _ _ _ _ Hw Hc) as [Hw' Hle].
  apply IH; [|exact Hw'].
  eapply kept_set_counters; eauto. apply Hw'.
Qed.

Lemma total_kept_map total_ st st' f :
  total_kept job total_ st ->
  (forall j, BatchJob.totalCount (f j) = BatchJob.totalCount j) ->
  Store.findJob st' (BatchJob.id job)
  = option_map f (Store.findJob st (BatchJob.id job)) ->
  total_kept job total_ st'.
Proof.
  intros (j & Hj & Ht) Hf Hst'; rewrite Hj in Hst'; simpl in Hst'.
  exists (f j); split; [exact Hst' | rewrite Hf; exact Ht].
Qed.

Lemma certificateLoop_total t fcs cfg total_ xs :
  forall i c st,
    total_kept job total_ st ->
    total_kept job total_
      (after (certificateLoop w undisturbed job t fcs cfg i xs c st)).
Proof.
  induction xs as [|x xs IH]; intros i c st Hk; simpl; [exact Hk|].
  change (undisturbed i st) with st. apply IH.
  pose proof (certificate_pass_counters t fcs cfg i x c st) as [_ Hs];
    cbv zeta in Hs.
  eapply total_kept_map; [exact Hk | | exact Hs]. reflexivity.
Qed.

Lemma emailLoop_total et cfg smtp total_ xs :
  forall i c st,
    total_kept job total_ st ->
    total_kept job total_
      (after (emailLoop w undisturbed job et cfg smtp i xs c st)).
Proof.
  induction xs as [|x xs IH]; intros i c st Hk; simpl; [exact Hk|].
  change (undisturbed i st) with st. apply IH.
  pose proof (email_pass_counters et cfg smtp i x c st) as [_ [Hs|Hs]];
    cbv zeta in Hs.
  - destruct Hk as (j & Hj & Ht); exists j; rewrite Hs; auto.
  - eapply total_kept_map; [exact Hk | | exact Hs]. reflexivity.
Qed.

End Loops.

Lemma total_kept_processCertificateBatch w st jobId job :
  Store.findJob st jobId = Some job ->
  total_kept job (BatchJob.totalCount job)
    (JobService.store (JobService.processCertificateBatch w st jobId)).
Proof.
  intros Hj. pose proof (findJob_id _ _ _ Hj) as Hid.
  assert (H0 : total_kept job (BatchJob.totalCount job) st)
    by (exists job; rewrite Hid; auto).
  assert (H1 : total_kept job (BatchJob.totalCount job)
                 (Store.updateJob st jobId
                    (JobService.set_status processing))).
  { eapply total_kept_map with (f := JobService.set_status processing);
      [exact H0 | reflexivity |].
    rewrite Hid; apply findJob_updateJob; reflexivity. }
  unfold JobService.processCertificateBatch,
    JobService.processCertificateBatchWith.
  rewrite Hj.
  destruct (BatchJob.config job) as [cfg|cfg]; [|exact H0].
  destruct (Store.findCertificateTemplate st _) as [t|]; [|exact H0].
  destruct (JobService.parseFieldConfigs w _) as [fcs|m]; [|exact H0].
  assert (Hfin : forall s_, total_kept job (BatchJob.totalCount job)
     (Store.updateJob
        (JobService.after
           (JobService.certificateLoop w JobService.undisturbed job t fcs
              cfg 0 (Store.recipientsOf st jobId) JobService.zero
              (Store.updateJob st jobId (JobService.set_status processing))))
        jobId
        (JobService.set_finished s_
           (JobService.now w (length (Store.recipientsOf st jobId)))
           (Some (BatchJobConfig.outputPath cfg))))).
  { intros s_.
    eapply total_kept_map with
      (f := JobService.set_finished s_ _ (Some (BatchJobConfig.outputPath cfg))).
    - apply certificateLoop_total; exact H1.
    - reflexivity.
    - rewrite Hid; apply findJob_updateJob; reflexivity. }
  destruct (JobService.existsSync w _); [apply Hfin|].
  destruct (JobService.mkdir w _); [exact H1 | apply Hfin].
Qed.

Lemma total_kept_processEmailBatch w st jobId job :
  Store.findJob st jobId = Some job ->
  total_kept job (BatchJob.totalCount job)
    (JobService.store (JobService.processEmailBatch w st jobId)).
Proof.
  intros Hj. pose proof (findJob_id _ _ _ Hj) as Hid.
  assert (H0 : total_kept job (BatchJob.totalCount job) st)
    by (exists job; rewrite Hid; auto).
  assert (H1 : total_kept job (BatchJob.totalCount job)
                 (Store.updateJob st jobId
                    (JobService.set_status processing))).
  { eapply total_kept_map with (f := JobService.set_status processing);
      [exact H0 | reflexivity |].
    rewrite Hid; apply findJob_updateJob; reflexivity. }
  unfold JobService.processEmailBatch, JobService.processEmailBatchWith.
  rewrite Hj.
  destruct (BatchJob.config job) as [cfg|cfg]; [exact H0|].
  destruct (Store.findEmailTemplate st _) as [t|]; [|exact H0].
  destruct (Store.findSmtpConfig st _) as [smtp|]; [|exact H0].
  simpl. eapply total_kept_map with (f := JobService.set_finished _ _ None).
  - apply emailLoop_total; exact H1.
  - reflexivity.
  - rewrite Hid; apply findJob_updateJob; reflexivity.
Qed.

Lemma total_kept_retry st jobId job st' n :
  Store.findJob st jobId = Some job ->
  JobService.retryFailedRecipients st jobId = Ok (st', n) ->
  total_kept job (BatchJob.totalCount job) st'.
Proof.
  intros Hj; unfold JobService.retryFailedRecipients; rewrite Hj.
  intros H; inversion H; subst; clear H.
  pose proof (findJob_id _ _ _ Hj) as Hid.
  eapply total_kept_map with (f := JobService.set_retried _)
                             (st := st).
  - exists job; rewrite Hid; auto.
  - reflexivity.
  - rewrite Hid, findJob_updateJob by reflexivity. reflexivity.
Qed.

Lemma total_kept_cancel st jobId job st' :
  Store.findJob st jobId = Some job ->
  JobRoutes.cancel st jobId = Ok st' ->
  total_kept job (BatchJob.totalCount job) st'.
Proof.
  intros Hj; unfold JobRoutes.cancel; rewrite Hj.
  intros H; inversion H; subst; clear H.
  pose proof (findJob_id _ _ _ Hj) as Hid.
  eapply total_kept_map with (f := JobService.set_status cancelled)
                             (st := st).
  - exists job; rewrite Hid; auto.
  - reflexivity.
  - rewrite Hid, findJob_updateJob by reflexivity. reflexivity.
Qed.

(** C4.  While a batch loop runs undisturbed on a job that has one
    recipient per counted row, the counters the store holds for the job
    after every pass add up (processed = success + failed) and stay within
    the total: after each of the passes of the certificate loop, and after
    each of the passes of the e-mail loop when the counters were consistent
    at its start (a recipient already sent stores nothing).  The total
    itself is left as it was by every pass, by the end of either batch, by
    retry-failed and by cancel. *)
Theorem counters_invariant (w : JobService.World) (st : Store.t)
    (jobId : jstring) (job : BatchJob.t) :
  Store.findJob st jobId = Some job ->
  sized st job ->
  let started := Store.updateJob st jobId (JobService.set_status processing) in
  let xs := Store.recipientsOf st jobId in
  (forall t fcs cfg k, 1 <= k <= length xs ->
     exists j,
       Store.findJob
         (JobService.after
            (JobService.certificateLoop w JobService.undisturbed job t fcs
               cfg 0 (firstn k xs) JobService.zero started)) jobId = Some j
       /\ consistent j
       /\ BatchJob.totalCount j = BatchJob.totalCount job)
  /\ (consistent job ->
      forall et cfg smtp k, k <= length xs ->
        exists j,
          Store.findJob
            (JobService.after
               (JobService.emailLoop w JobService.undisturbed job et cfg
                  smtp 0 (firstn k xs) JobService.zero started)) jobId
          = Some j
          /\ consistent j
          /\ BatchJob.totalCount j = BatchJob.totalCount job)
  /\ (exists j,
        Store.findJob
          (JobService.store (JobService.processCertificateBatch w st jobId))
          jobId = Some j
        /\ BatchJob.totalCount j = BatchJob.totalCount job)
  /\ (exists j,
        Store.findJob
          (JobService.store (JobService.processEmailBatch w st jobId))
          jobId = Some j
        /\ BatchJob.totalCount j = BatchJob.totalCount job)
  /\ (forall st' n,
        JobService.retryFailedRecipients st jobId = Ok (st', n) ->
        exists j, Store.findJob st' jobId = Some j
                  /\ BatchJob.totalCount j = BatchJob.totalCount job)
  /\ (forall st',
        JobRoutes.cancel st jobId = Ok st' ->
        exists j, Store.findJob st' jobId = Some j
                  /\ BatchJob.totalCount j = BatchJob.totalCount job).
Proof.
  intros Hj Hsized started xs.
  pose proof (findJob_id _ _ _ Hj) as Hid.
  unfold sized in Hsized; rewrite Hid in Hsized; fold xs in Hsized.
  assert (Hstarted : Store.findJob started (BatchJob.id job)
                     = Some (JobService.set_status processing job)).
  { unfold started. rewrite Hid, findJob_updateJob by reflexivity.
    rewrite Hj; reflexivity. }
  repeat split.
  - (* the certificate loop: the first pass stores fresh counters *)
    intros t fcs cfg k [Hk1 Hk2].
    destruct xs as [|x xs'] eqn:Exs; [simpl in Hk2; lia|].
    destruct k as [|k]; [lia|]. simpl firstn. simpl JobService.certificateLoop.
    change (JobService.undisturbed 0 started) with started.
    pose proof (certificate_pass_counters w job t fcs cfg 0 x
                  JobService.zero started) as [Hc Hs]; cbv zeta in Hc, Hs.
    rewrite Hstarted in Hs; simpl in Hs.
    simpl in Hk2, Hsized.
    assert (Hw : within (BatchJob.totalCount job) JobService.zero
                   (S (length (firstn k xs')))).
    { unfold within; split; [reflexivity|]. simpl JobService.processedCount.
      rewrite length_firstn. lia. }
    destruct (within_step _ _ _ _ Hw Hc) as [Hw' Hle].
    rewrite <- Hid.
    apply (certificateLoop_kept w job t fcs cfg (BatchJob.totalCount job)).
    + eexists; split; [exact Hs|]. split; [|reflexivity].
      split; [apply Hw' | exact Hle].
    + exact Hw'.
  - (* the e-mail loop *)
    intros Hcons et cfg smtp k Hk. rewrite <- Hid.
    apply (emailLoop_kept w job et cfg smtp (BatchJob.totalCount job)).
    + eexists; split; [exact Hstarted|]. split; [exact Hcons | reflexivity].
    + unfold within; split; [reflexivity|]. simpl JobService.processedCount.
      rewrite length_firstn. lia.
  - pose proof (total_kept_processCertificateBatch w st jobId job Hj) as H.
    unfold total_kept, stored in H; rewrite Hid in H; exact H.
  - pose proof (total_kept_processEmailBatch w st jobId job Hj) as H.
    unfold total_kept, stored in H; rewrite Hid in H; exact H.
  - intros st' n H. pose proof (total_kept_retry _ _ _ _ _ Hj H) as H'.
    unfold total_kept, stored in H'; rewrite Hid in H'; exact H'.
  - intros st' H. pose proof (total_kept_cancel _ _ _ _ Hj H) as H'.
    unfold total_kept, stored in H'; rewrite Hid in H'; exact H'.
Qed.

Lemma counters_invariant_witness :
  exists j,
    Store.findJob
      (JobService.store
         (JobService.processCertificateBatch (Demo.world [1]) Demo.store
            (lit "job-1"))) (lit "job-1") = Some j
    /\ BatchJob.totalCount j = 2%Z.
Proof.
  refine (proj1 (proj2 (proj2
    (counters_invariant (Demo.world [1]) Demo.store (lit "job-1")
       Demo.certificateJob _ _)))); reflexivity.
Defined.

(** ** The end of a batch *)



Section Counting.
Import JobService.

Variable w : World.
Variable job : BatchJob.t.

Lemma counters_eq (a b : Counters) :
  processedCount a = processedCount b ->
  successCount a = successCount b ->
  failedCount a = failedCount b -> a = b.
Proof. destruct a, b; simpl; intros -> -> ->; reflexivity. Qed.

Ltac counters_arith :=
  apply counters_eq;
  cbn [counted processedCount successCount failedCount succeeded
       failed_one zero];
  lia.

Lemma certificate_pass_fails t fcs cfg i x c st :
  counters (certificateIteration w job t fcs cfg i x c st)
  = if certificateFails w t fcs cfg i x then failed_one c else succeeded c.
Proof.
  unfold certificateIteration, certificateFails.
  destruct (renderCertificate w t fcs cfg i x) as [[? ?]|?]; reflexivity.
Qed.

Lemma email_pass_fails et cfg smtp i x c st :
  counters (emailIteration w job et cfg smtp i x c st)
  = if emailFails w et cfg smtp i x then failed_one c else succeeded c.
Proof.
  unfold emailIteration, emailFails.
  destruct (EmailStatus.eqb _ _); [reflexivity|].
  destruct (composeEmail w et cfg smtp x) as [o|?]; [|reflexivity].
  destruct (sendEmail w i o); reflexivity.
Qed.

(** The running counters of a loop depend on the outcomes alone, whatever
    happens to the store meanwhile. *)
Lemma certificateLoop_counters env t fcs cfg xs :
  forall i c st,
    counters (certificateLoop w env job t fcs cfg i xs c st)
    = counted c (length xs) (tally (certificateFails w t fcs cfg) i xs).
Proof.
  induction xs as [|x xs IH]; intros i c st.
  - cbn [certificateLoop counters tally length]. counters_arith.
  - cbn [certificateLoop counters]. rewrite IH, certificate_pass_fails.
    cbn [tally length].
    destruct (certificateFails w t fcs cfg i x); counters_arith.
Qed.

Lemma emailLoop_counters env et cfg smtp xs :
  forall i c st,
    counters (emailLoop w env job et cfg smtp i xs c st)
    = counted c (length xs) (tally (emailFails w et cfg smtp) i xs).
Proof.
  induction xs as [|x xs IH]; intros i c st.
  - cbn [emailLoop counters tally length]. counters_arith.
  - cbn [emailLoop counters]. rewrite IH, email_pass_fails.
    cbn [tally length].
    destruct (emailFails w et cfg smtp i x); counters_arith.
Qed.

Lemma persisted_set_counters c j : persisted (set_counters c j) = c.
Proof. destruct c; reflexivity. Qed.

Lemma certificateLoop_stored t fcs cfg xs :
  forall i c st,
    stored job st (fun _ => True) ->
    stored job (after (certificateLoop w undisturbed job t fcs cfg i xs c st))
      (fun j => xs <> [] ->
         persisted j
         = counters (certificateLoop w undisturbed job t fcs cfg i xs c st)).
Proof.
  induction xs as [|x xs IH]; intros i c st (j & Hj & _).
  - exists j; split; [exact Hj | congruence].
  - cbn [certificateLoop after counters].
    change (undisturbed i st) with st.
    pose proof (certificate_pass_counters w job t fcs cfg i x c st)
      as [_ Hs]; cbv zeta in Hs. rewrite Hj in Hs; cbn [option_map] in Hs.
    destruct (IH (S i)
                (counters (certificateIteration w job t fcs cfg i x c st))
                _ (ex_intro _ _ (conj Hs I)))
      as (j' & Hj' & Hp').
    exists j'; split; [exact Hj'|]. intros _.
    destruct xs as [|y ys]; [|apply Hp'; discriminate].
    cbn [certificateLoop after counters] in Hj' |- *.
    rewrite Hs in Hj'; inversion Hj'. apply persisted_set_counters.
Qed.

Lemma email_pass_stored et cfg smtp i x c st :
  not_sent x = true ->
  Store.findJob (after (emailIteration w job et cfg smtp i x c st))
    (BatchJob.id job)
  = option_map
      (set_counters (counters (emailIteration w job et cfg smtp i x c st)))
      (Store.findJob st (BatchJob.id job)).
Proof.
  unfold not_sent, emailIteration.
  destruct (EmailStatus.eqb _ _); [discriminate|]. intros _.
  destruct (composeEmail w et cfg smtp x) as [o|?];
    [destruct (sendEmail w i o)|];
    cbn [after counters]; rewrite findJob_updateJob by reflexivity;
    reflexivity.
Qed.

Lemma email_pass_skipped et cfg smtp i x c st :
  not_sent x = false ->
  emailIteration w job et cfg smtp i x c st
  = {| counters := succeeded c; after := st; effects := [] |}.
Proof.
  unfold not_sent, emailIteration.
  destruct (EmailStatus.eqb _ _); [reflexivity | discriminate].
Qed.

Lemma emailLoop_stored_failed et cfg smtp xs :
  forall i c st,
    stored job st (fun j => BatchJob.failedCount j = failedCount c) ->
    stored job (after (emailLoop w undisturbed job et cfg smtp i xs c st))
      (fun j => BatchJob.failedCount j
                = failedCount
                    (counters
                       (emailLoop w undisturbed job et cfg smtp i xs c st))).
Proof.
  induction xs as [|x xs IH]; intros i c st (j & Hj & Hp).
  - exists j; split; [exact Hj | exact Hp].
  - cbn [emailLoop after counters].
    change (undisturbed i st) with st. apply IH.
    destruct (not_sent x) eqn:E.
    + exists (set_counters
                (counters (emailIteration w job et cfg smtp i x c st)) j).
      rewrite email_pass_stored, Hj by exact E. split; reflexivity.
    + rewrite email_pass_skipped by exact E.
      exists j; split; [exact Hj | exact Hp].
Qed.

(** Once a recipient that was not sent before has been handled, the
    store holds the failures counted by the loop. *)
Lemma emailLoop_stored_failed_some et cfg smtp xs :
  forall i c st,
    stored job st (fun _ => True) ->
    existsb not_sent xs = true ->
    stored job (after (emailLoop w undisturbed job et cfg smtp i xs c st))
      (fun j => BatchJob.failedCount j
                = failedCount
                    (counters
                       (emailLoop w undisturbed job et cfg smtp i xs c st))).
Proof.
  induction xs as [|x xs IH]; intros i c st (j & Hj & _) Hex;
    [discriminate|].
  cbn [emailLoop after counters]. change (undisturbed i st) with st.
  cbn [existsb] in Hex.
  destruct (not_sent x) eqn:E.
  - apply emailLoop_stored_failed.
    exists (set_counters
              (counters (emailIteration w job et cfg smtp i x c st)) j).
    rewrite email_pass_stored, Hj by exact E. split; reflexivity.
  - rewrite email_pass_skipped by exact E.
    apply IH; [exists j; auto | exact Hex].
Qed.

End Counting.

(** The shape of a batch that did not throw. *)
Lemma certificate_batch_shape env w st jobId job :
  Store.findJob st jobId = Some job ->
  JobService.thrown (JobService.processCertificateBatchWith env w st jobId)
  = None ->
  exists cfg t fcs made,
    BatchJob.config job = CertificateConfig cfg
    /\ Store.findCertificateTemplate st (BatchJobConfig.templateId cfg)
       = Some t
    /\ JobService.parseFieldConfigs w (CertificateTemplate.fieldConfigs t)
       = Ok fcs
    /\ let xs := Store.recipientsOf st jobId in
       let s := JobService.certificateLoop w env job t fcs cfg 0 xs
                  JobService.zero
                  (Store.updateJob st jobId
                     (JobService.set_status processing)) in
       JobService.processCertificateBatchWith env w st jobId
       = {| JobService.store :=
              Store.updateJob (env (length xs) (JobService.after s)) jobId
                (JobService.set_finished
                   (JobService.final_status
                      (JobService.failedCount (JobService.counters s))
                      (BatchJob.totalCount job))
                   (JobService.now w (length xs))
                   (Some (BatchJobConfig.outputPath cfg)));
            JobService.trace :=
              made ++ JobService.effects s
              ++ [JobService.emitProgress jobId
                    (JobService.processedCount (JobService.counters s))
                    (BatchJob.totalCount job) (lit "completed")];
            JobService.thrown := None |}.
Proof.
  intros Hj. unfold JobService.processCertificateBatchWith. rewrite Hj.
  destruct (BatchJob.config job) as [cfg|cfg]; [|discriminate].
  destruct (Store.findCertificateTemplate st _) as [t|] eqn:Et;
    [|discriminate].
  destruct (JobService.parseFieldConfigs w _) as [fcs|m] eqn:Ef;
    [|discriminate].
  destruct (JobService.existsSync w _);
    [|destruct (JobService.mkdir w _); [discriminate|]];
    intros _; exists cfg, t, fcs; eexists; repeat split; eauto.
Qed.

Lemma email_batch_shape env w st jobId job :
  Store.findJob st jobId = Some job ->
  JobService.thrown (JobService.processEmailBatchWith env w st jobId) = None ->
  exists cfg et smtp,
    BatchJob.config job = EmailConfig cfg
    /\ Store.findEmailTemplate st (EmailBatchConfig.emailTemplateId cfg)
       = Some et
    /\ Store.findSmtpConfig st (EmailBatchConfig.smtpConfigId cfg) = Some smtp
    /\ let xs := Store.recipientsOf st jobId in
       let s := JobService.emailLoop w env job et cfg
                  (JobService.smtpSettingsOf smtp) 0 xs JobService.zero
                  (Store.updateJob st jobId
                     (JobService.set_status processing)) in
       JobService.processEmailBatchWith env w st jobId
       = {| JobService.store :=
              Store.updateJob (env (length xs) (JobService.after s)) jobId
                (JobService.set_finished
                   (JobService.final_status
                      (JobService.failedCount (JobService.counters s))
                      (BatchJob.totalCount job))
                   (JobService.now w (length xs)) None);
            JobService.trace :=
              JobService.effects s
              ++ [JobService.emitProgress jobId
                    (JobService.processedCount (JobService.counters s))
                    (BatchJob.totalCount job) (lit "completed")];
            JobService.thrown := None |}.
Proof.
  intros Hj. unfold JobService.processEmailBatchWith. rewrite Hj.
  destruct (BatchJob.config job) as [cfg|cfg]; [discriminate|].
  destruct (Store.findEmailTemplate st _) as [et|] eqn:Et; [|discriminate].
  destruct (Store.findSmtpConfig st _) as [smtp|] eqn:Es; [|discriminate].
  intros _; exists cfg, et, smtp; repeat split; eauto.
Qed.




(** ** Retry of the failed recipients *)

Lemma failedOrErrored_spec x :
  JobService.failedOrErrored x = true
  <-> Recipient.emailStatus x = EmailStatus.failed
      \/ Recipient.errorMessage x <> None.
Proof.
  unfold JobService.failedOrErrored. split.
  - destruct (Recipient.emailStatus x), (Recipient.errorMessage x); simpl;
      intros H; try discriminate H;
      solve [left; reflexivity | right; discriminate].
  - intros [-> | H]; [reflexivity|].
    destruct (Recipient.errorMessage x); [apply orb_true_r | congruence].
Qed.

(** C7.  Retry-failed on an existing job selects the recipients of the job
    whose e-mail status is [failed] or whose error message is set, and
    returns their number; each of them becomes [pending] with no error
    message and is otherwise as before, every other recipient is left as
    it is; the job gets status [pending], zero failures, its processed
    count lowered by the number selected and no completion time, its other
    fields as before.  Nothing is processed: the call only rewrites these
    records. *)
Theorem retry_failed_resets (st : Store.t) (jobId : jstring)
    (job : BatchJob.t) :
  Store.findJob st jobId = Some job ->
  let selected x :=
    Recipient.batchJobId x = jobId
    /\ (Recipient.emailStatus x = EmailStatus.failed
        \/ Recipient.errorMessage x <> None) in
  let n :=
    Z.of_nat (length (filter JobService.failedOrErrored
                        (Store.recipientsOf st jobId))) in
  exists st' j',
    JobService.retryFailedRecipients st jobId = Ok (st', n)
    /\ length (Store.recipients st') = length (Store.recipients st)
    /\ (forall k x,
          nth_error (Store.recipients st) k = Some x ->
          exists x',
            nth_error (Store.recipients st') k = Some x'
            /\ (selected x ->
                Recipient.emailStatus x' = EmailStatus.pending
                /\ Recipient.errorMessage x' = None
                /\ Recipient.id x' = Recipient.id x
                /\ Recipient.batchJobId x' = Recipient.batchJobId x
                /\ Recipient.email x' = Recipient.email x
                /\ Recipient.fullName x' = Recipient.fullName x
                /\ Recipient.extraFields x' = Recipient.extraFields x
                /\ Recipient.certificatePath x' = Recipient.certificatePath x
                /\ Recipient.sentAt x' = Recipient.sentAt x)
            /\ (~ selected x -> x' = x))
    /\ Store.findJob st' jobId = Some j'
    /\ BatchJob.status j' = pending
    /\ BatchJob.failedCount j' = 0%Z
    /\ BatchJob.processedCount j' = (BatchJob.processedCount job - n)%Z
    /\ BatchJob.completedAt j' = None
    /\ BatchJob.successCount j' = BatchJob.successCount job
    /\ BatchJob.totalCount j' = BatchJob.totalCount job
    /\ BatchJob.config j' = BatchJob.config job
    /\ BatchJob.outputPath j' = BatchJob.outputPath job.
Proof.
  intros Hj selected n.
  unfold JobService.retryFailedRecipients. rewrite Hj.
  eexists; eexists. split; [reflexivity|].
  split; [cbn; apply length_map|].
  split.
  - intros k x Hk. cbn [Store.updateJob Store.updateManyRecipients
                          Store.with_jobs Store.with_recipients
                          Store.recipients].
    rewrite nth_error_map, Hk. cbn [option_map].
    eexists; split; [reflexivity|].
    assert (Hsel : JsString.eqb (Recipient.batchJobId x) jobId
                   && JobService.failedOrErrored x = true <-> selected x).
    { unfold selected.
      rewrite andb_true_iff, jstring_eqb_eq, failedOrErrored_spec. tauto. }
    destruct (JsString.eqb (Recipient.batchJobId x) jobId
              && JobService.failedOrErrored x).
    + split; [intros _; repeat split; reflexivity|].
      intros Hn; exfalso; apply Hn, Hsel; reflexivity.
    + split; [|reflexivity].
      intros Hs; apply Hsel in Hs; discriminate.
  - rewrite findJob_updateJob by reflexivity.
    change (Store.findJob (Store.updateManyRecipients st ?p ?f) jobId)
      with (Store.findJob st jobId).
    rewrite Hj. cbn [option_map]. repeat split; reflexivity.
Qed.

Lemma retry_failed_resets_witness :
  exists st',
    JobService.retryFailedRecipients Demo.store (lit "job-2") = Ok (st', 1%Z).
Proof.
  destruct (retry_failed_resets Demo.store (lit "job-2") Demo.emailJob
              eq_refl) as (st' & j' & H & _).
  exists st'. exact H.
Defined.

(** ** What a loop does to the recipients *)

Lemma certificateLoop_passes w env job t fcs cfg xs :
  forall i c st,
    JobService.certificateLoop w env job t fcs cfg i xs c st
    = passes (JobService.certificateIteration w job t fcs cfg) env i xs c st.
Proof.
  induction xs as [|x xs IH]; intros i c st; [reflexivity|].
  cbn [JobService.certificateLoop passes]. rewrite !IH. reflexivity.
Qed.

Lemma emailLoop_passes w env job et cfg smtp xs :
  forall i c st,
    JobService.emailLoop w env job et cfg smtp i xs c st
    = passes (JobService.emailIteration w job et cfg smtp) env i xs c st.
Proof.
  induction xs as [|x xs IH]; intros i c st; [reflexivity|].
  cbn [JobService.emailLoop passes]. rewrite !IH. reflexivity.
Qed.

Lemma NoDup_map_eq {A B : Type} (f : A -> B) (l : list A) (a b : A) :
  NoDup (map f l) -> In a l -> In b l -> f a = f b -> a = b.
Proof.
  induction l as [|x l IH]; simpl; intros Hnd Ha Hb Hf; [contradiction|].
  inversion Hnd as [|? ? Hnotin Hnd']; subst.
  destruct Ha as [->|Ha], Hb as [->|Hb]; auto.
  - exfalso; apply Hnotin. rewrite Hf. apply in_map, Hb.
  - exfalso; apply Hnotin. rewrite <- Hf. apply in_map, Ha.
Qed.

Lemma find_unique st x :
  Store.unique_recipients st -> In x (Store.recipients st) ->
  Store.findRecipient st (Recipient.id x) = Some x.
Proof.
  unfold Store.unique_recipients, Store.findRecipient. intros Hnd Hin.
  destruct (find _ _) as [y|] eqn:E.
  - apply find_some in E. destruct E as [Hy Heq].
    apply jstring_eqb_eq in Heq.
    f_equal. eapply NoDup_map_eq; eauto.
  - eapply find_none in E; [|exact Hin].
    rewrite jstring_eqb_refl in E; discriminate.
Qed.

Section Passes.
Import JobService.

Variable body : nat -> Recipient.t -> Counters -> Store.t -> Step.
Variable change : nat -> Recipient.t -> Recipient.t -> Recipient.t.

(** A pass changes the record of its own recipient, found by its id, and
    no other. *)
Hypothesis body_recipient :
  forall i y c st rid,
    Store.findRecipient (after (body i y c st)) rid
    = if JsString.eqb (Recipient.id y) rid
      then option_map (change i y) (Store.findRecipient st rid)
      else Store.findRecipient st rid.

Lemma passes_untouched xs rid :
  ~ In rid (map Recipient.id xs) ->
  forall i c st,
    Store.findRecipient (after (passes body undisturbed i xs c st)) rid
    = Store.findRecipient st rid.
Proof.
  induction xs as [|y xs IH]; intros Hnotin i c st; [reflexivity|].
  cbn [passes after]. change (undisturbed i st) with st.
  rewrite IH by (intros H; apply Hnotin; right; exact H).
  rewrite body_recipient, jstring_eqb_neq; [reflexivity|].
  intros Heq; apply Hnotin; left; exact Heq.
Qed.

Lemma passes_recipient xs :
  NoDup (map Recipient.id xs) ->
  forall k x i c st,
    nth_error xs k = Some x ->
    Store.findRecipient (after (passes body undisturbed i xs c st))
      (Recipient.id x)
    = option_map (change (i + k) x) (Store.findRecipient st (Recipient.id x)).
Proof.
  induction xs as [|y xs IH]; intros Hnd k x i c st Hk;
    [destruct k; discriminate|].
  inversion Hnd as [|? ? Hnotin Hnd']; subst.
  cbn [passes after]. change (undisturbed i st) with st.
  destruct k as [|k]; cbn [nth_error] in Hk.
  - inversion Hk; subst y.
    rewrite passes_untouched by exact Hnotin.
    rewrite body_recipient, jstring_eqb_refl, Nat.add_0_r. reflexivity.
  - rewrite (IH Hnd' k x (S i) _ _ Hk).
    rewrite body_recipient, jstring_eqb_neq.
    + replace (S i + k) with (i + S k) by lia. reflexivity.
    + intros Heq; apply Hnotin. rewrite Heq.
      apply in_map. eapply nth_error_In; exact Hk.
Qed.

(** Every effect of the loop is an effect of one of its passes. *)
Lemma passes_effects_from e xs :
  forall i c st,
    In e (effects (passes body undisturbed i xs c st)) ->
    exists k y c' st',
      nth_error xs k = Some y /\ In e (effects (body (i + k) y c' st')).
Proof.
  induction xs as [|y xs IH]; intros i c st Hin; [contradiction|].
  cbn [passes effects] in Hin. apply in_app_or in Hin.
  destruct Hin as [Hin|Hin].
  - exists 0, y, c, st. rewrite Nat.add_0_r. split; [reflexivity|exact Hin].
  - apply IH in Hin. destruct Hin as (k & z & c' & st' & Hk & Hin).
    exists (S k), z, c', st'. split; [exact Hk|].
    replace (i + S k) with (S i + k) by lia. exact Hin.
Qed.

(** An effect that a pass has whatever the counters and the store is an
    effect of the loop. *)
Lemma passes_effects_to e xs :
  forall k y i c st,
    nth_error xs k = Some y ->
    (forall c' st', In e (effects (body (i + k) y c' st'))) ->
    In e (effects (passes body undisturbed i xs c st)).
Proof.
  induction xs as [|z xs IH]; intros k y i c st Hk Hall;
    [destruct k; discriminate|].
  cbn [passes effects]. apply in_or_app.
  destruct k as [|k]; cbn [nth_error] in Hk.
  - inversion Hk; subst z. left. rewrite <- (Nat.add_0_r i). apply Hall.
  - right. eapply IH; [exact Hk|]. intros c' st'.
    replace (S i + k) with (i + S k) by lia. apply Hall.
Qed.

End Passes.

Lemma option_map_same {A : Type} (o : option A) : option_map (fun a => a) o = o.
Proof. destruct o; reflexivity. Qed.

Lemma certificate_pass_recipient w job t fcs cfg i y c st rid :
  Store.findRecipient
    (JobService.after (JobService.certificateIteration w job t fcs cfg i y c st))
    rid
  = if JsString.eqb (Recipient.id y) rid
    then option_map (certificateUpdate w t fcs cfg i y)
           (Store.findRecipient st rid)
    else Store.findRecipient st rid.
Proof.
  unfold JobService.certificateIteration, certificateUpdate.
  destruct (JobService.renderCertificate w t fcs cfg i y) as [[? ?]|?];
    cbn [JobService.after]; rewrite findRecipient_updateJob;
    apply findRecipient_updateRecipient; reflexivity.
Qed.

Lemma email_pass_recipient w job et cfg smtp i y c st rid :
  Store.findRecipient
    (JobService.after (JobService.emailIteration w job et cfg smtp i y c st))
    rid
  = if JsString.eqb (Recipient.id y) rid
    then option_map (emailUpdate w et cfg smtp i y)
           (Store.findRecipient st rid)
    else Store.findRecipient st rid.
Proof.
  unfold JobService.emailIteration, emailUpdate.
  destruct (EmailStatus.eqb _ _).
  - cbn [JobService.after]. rewrite option_map_same.
    destruct (JsString.eqb _ _); reflexivity.
  - destruct (JobService.composeEmail w et cfg smtp y) as [o|?];
      [destruct (JobService.sendEmail w i o)|];
      cbn [JobService.after]; rewrite findRecipient_updateJob;
      apply findRecipient_updateRecipient; reflexivity.
Qed.

Lemma recipientsOf_In st jobId x :
  In x (Store.recipientsOf st jobId) -> In x (Store.recipients st).
Proof. unfold Store.recipientsOf; intros H; apply filter_In in H; apply H. Qed.

Lemma recipientsOf_NoDup st jobId :
  Store.unique_recipients st ->
  NoDup (map Recipient.id (Store.recipientsOf st jobId)).
Proof.
  unfold Store.unique_recipients, Store.recipientsOf.
  induction (Store.recipients st) as [|x rest IH]; cbn [map filter];
    intros Hids; [constructor|].
  apply NoDup_cons_iff in Hids. destruct Hids as [Hfresh Hids].
  destruct (JsString.eqb (Recipient.batchJobId x) jobId);
    [|exact (IH Hids)].
  cbn [map]. apply NoDup_cons_iff. split; [|exact (IH Hids)].
  intros Hin. apply Hfresh.
  apply in_map_iff in Hin. destruct Hin as (y & <- & Hy).
  apply filter_In in Hy. apply in_map, Hy.
Qed.

(** ** A database that may reject a call *)

Lemma renderCertificate_answering db w t fcs cfg i x :
  JobService.renderCertificate (answering db w) t fcs cfg i x
  = match JobService.renderCertificate w t fcs cfg i x with
    | Thrown msg => Thrown msg
    | Ok written =>
        match db (JobService.StoreSuccess i) with
        | Some msg => Thrown msg
        | None => Ok written
        end
    end.
Proof.
  unfold JobService.renderCertificate.
  change (JobService.extraOf (answering db w) x) with (JobService.extraOf w x).
  destruct (JobService.extraOf w x) as [extra|]; [|reflexivity].
  cbn [bind answering JobService.pdf JobService.regexp JobService.join
       JobService.writeFile].
  destruct (PdfService.generateCertificate _ _ _ _) as [rendered|];
    [|reflexivity].
  cbn [bind].
  destruct (JobService.generateFilename _ _ _ _) as [name|]; [|reflexivity].
  cbn [bind].
  destruct (JobService.writeFile w i _ _); [reflexivity|].
  destruct (db (JobService.StoreSuccess i)); reflexivity.
Qed.

Lemma certificateFails_answering db w t fcs cfg i x :
  certificateFails (answering db w) t fcs cfg i x
  = certificateFailsOn db w t fcs cfg i x.
Proof.
  unfold certificateFails, certificateFailsOn.
  rewrite renderCertificate_answering.
  destruct (JobService.renderCertificate w t fcs cfg i x); [|reflexivity].
  destruct (db (JobService.StoreSuccess i)); reflexivity.
Qed.

Lemma emailFails_answering db w et cfg smtp i x :
  emailFails (answering db w) et cfg smtp i x
  = emailFailsOn db w et cfg smtp i x.
Proof.
  unfold emailFails, emailFailsOn.
  destruct (EmailStatus.eqb _ _); [reflexivity|].
  change (JobService.composeEmail (answering db w) et cfg smtp x)
    with (JobService.composeEmail w et cfg smtp x).
  destruct (JobService.composeEmail w et cfg smtp x) as [options|];
    [|reflexivity].
  cbn [answering JobService.sendEmail].
  destruct (JobService.sendEmail w i options); [reflexivity|].
  destruct (db (JobService.StoreSuccess i)); reflexivity.
Qed.

Lemma tally_ext p q xs :
  (forall i x, p i x = q i x) -> forall i, tally p i xs = tally q i xs.
Proof.
  intros H. induction xs as [|x xs IH]; intros i; [reflexivity|].
  cbn [tally]. rewrite H, IH. reflexivity.
Qed.

(** Over a database that accepts the record of an error and of the
    counters, a pass of the e-mail loop is the pass in the world in
    which the sending includes the update that follows it. *)
Lemma emailIterationOn_answering db w job et cfg smtp i x c st :
  records_failures db ->
  JobService.emailIterationOn db w job et cfg smtp i x c st
  = {| JobService.reached :=
         JobService.emailIteration (answering db w) job et cfg smtp i x c st;
       JobService.escaped := None |}.
Proof.
  intros Hacc. destruct (Hacc i) as [He Hc].
  unfold JobService.emailIterationOn, JobService.emailIteration,
    JobService.countEmail.
  destruct (EmailStatus.eqb _ _); [reflexivity|].
  change (JobService.composeEmail (answering db w) et cfg smtp x)
    with (JobService.composeEmail w et cfg smtp x).
  rewrite He, Hc.
  destruct (JobService.composeEmail w et cfg smtp x) as [options|];
    [|reflexivity].
  cbn [answering JobService.sendEmail JobService.now].
  destruct (JobService.sendEmail w i options); [reflexivity|].
  destruct (db (JobService.StoreSuccess i)); reflexivity.
Qed.

Lemma emailLoopOn_answering db w env job et cfg smtp xs :
  records_failures db ->
  forall i c st,
    JobService.loopOn (JobService.emailIterationOn db w job et cfg smtp)
      env i xs c st
    = {| JobService.reached :=
           JobService.emailLoop (answering db w) env job et cfg smtp i xs c st;
         JobService.escaped := None |}.
Proof.
  intros Hacc. induction xs as [|x xs IH]; intros i c st; [reflexivity|].
  cbn [JobService.loopOn JobService.emailLoop].
  rewrite emailIterationOn_answering by exact Hacc.
  cbn [JobService.escaped JobService.reached]. rewrite IH. reflexivity.
Qed.

(** A pass of the certificate loop likewise, but for the file written
    before an update that is rejected. *)
Lemma certificateIterationOn_answering db w job t fcs cfg i x c st :
  records_failures db ->
  let p := JobService.certificateIterationOn db w job t fcs cfg i x c st in
  let s := JobService.certificateIteration (answering db w) job t fcs cfg
             i x c st in
  JobService.escaped p = None
  /\ JobService.counters (JobService.reached p) = JobService.counters s
  /\ JobService.after (JobService.reached p) = JobService.after s
  /\ (forall e, In e (JobService.effects s) ->
        In e (JobService.effects (JobService.reached p)))
  /\ (forall filePath content,
        JobService.renderCertificate w t fcs cfg i x
        = Ok (filePath, content) ->
        In (JobService.Wrote filePath content)
           (JobService.effects (JobService.reached p))).
Proof.
  intros Hacc. destruct (Hacc i) as [He Hc].
  unfold JobService.certificateIterationOn, JobService.certificateIteration,
    JobService.countCertificate.
  rewrite renderCertificate_answering, He, Hc.
  destruct (JobService.renderCertificate w t fcs cfg i x)
    as [[filePath content]|msg].
  - destruct (db (JobService.StoreSuccess i)) as [msg|]; cbv zeta;
      cbn [JobService.escaped JobService.reached JobService.counters
           JobService.after JobService.effects];
      (split; [reflexivity|]); (split; [reflexivity|]);
      (split; [reflexivity|]); split.
    + intros e He'. right. exact He'.
    + intros f b H. injection H as <- <-. left; reflexivity.
    + intros e He'. exact He'.
    + intros f b H. injection H as <- <-. left; reflexivity.
  - cbv zeta.
    cbn [JobService.escaped JobService.reached JobService.counters
         JobService.after JobService.effects].
    repeat split; try reflexivity; [intros e H; exact H | discriminate].
Qed.

Lemma certificateLoopOn_answering db w env job t fcs cfg xs :
  records_failures db ->
  forall i c st,
    let p := JobService.loopOn
               (JobService.certificateIterationOn db w job t fcs cfg)
               env i xs c st in
    let s := JobService.certificateLoop (answering db w) env job t fcs cfg
               i xs c st in
    JobService.escaped p = None
    /\ JobService.counters (JobService.reached p) = JobService.counters s
    /\ JobService.after (JobService.reached p) = JobService.after s
    /\ (forall e, In e (JobService.effects s) ->
          In e (JobService.effects (JobService.reached p)))
    /\ (forall k x filePath content,
          nth_error xs k = Some x ->
          JobService.renderCertificate w t fcs cfg (i + k) x
          = Ok (filePath, content) ->
          In (JobService.Wrote filePath content)
             (JobService.effects (JobService.reached p))).
Proof.
  intros Hacc. induction xs as [|x xs IH]; intros i c st.
  - cbn. repeat split; try reflexivity; [intros e H; exact H|].
    intros k x f b Hk. destruct k; discriminate.
  - cbv zeta. cbn [JobService.loopOn JobService.certificateLoop].
    destruct (certificateIterationOn_answering db w job t fcs cfg i x c
                (env i st) Hacc) as (Hesc & Hcnt & Haft & Heff & Hwrote).
    cbv zeta in Hesc, Hcnt, Haft, Heff, Hwrote.
    rewrite Hesc, Hcnt, Haft.
    match goal with
    | |- context [JobService.loopOn _ env (S i) xs ?c' ?st'] =>
        destruct (IH (S i) c' st') as (IHesc & IHcnt & IHaft & IHeff & IHwrote)
    end.
    cbv zeta in IHesc, IHcnt, IHaft, IHeff, IHwrote.
    cbn [JobService.escaped JobService.reached JobService.counters
         JobService.after JobService.effects].
    split; [exact IHesc|]. split; [exact IHcnt|]. split; [exact IHaft|].
    split.
    + intros e He. apply in_app_or in He. apply in_or_app.
      destruct He as [He|He]; [left; apply Heff, He | right; apply IHeff, He].
    + intros k y f b Hk Hr. apply in_or_app. destruct k as [|k].
      * cbn [nth_error] in Hk. injection Hk as <-.
        rewrite Nat.add_0_r in Hr. left. exact (Hwrote f b Hr).
      * right. apply (IHwrote k y f b Hk).
        replace (S i + k) with (i + S k) by lia. exact Hr.
Qed.

(** An undisturbed batch over a database that answers every call: once
    it has started it does not throw, every recipient has the record its
    own outcome calls for, and the final progress event counts them
    all. *)
Lemma undisturbed_failures (w : JobService.World) (st : Store.t)
    (jobId : jstring) (job : BatchJob.t) :
  Store.findJob st jobId = Some job ->
  Store.unique_recipients st ->
  let xs := Store.recipientsOf st jobId in
  (forall cfg t fcs,
     BatchJob.config job = CertificateConfig cfg ->
     Store.findCertificateTemplate st (BatchJobConfig.templateId cfg)
     = Some t ->
     JobService.parseFieldConfigs w (CertificateTemplate.fieldConfigs t)
     = Ok fcs ->
     JobService.existsSync w (BatchJobConfig.outputPath cfg) = true
     \/ JobService.mkdir w (BatchJobConfig.outputPath cfg) = None ->
     let out := JobService.processCertificateBatch w st jobId in
     JobService.thrown out = None
     /\ (forall k x,
           nth_error xs k = Some x ->
           match JobService.renderCertificate w t fcs cfg k x with
           | Thrown msg =>
               Store.findRecipient (JobService.store out) (Recipient.id x)
               = Some (JobService.set_errorMessage msg x)
           | Ok (filePath, content) =>
               Store.findRecipient (JobService.store out) (Recipient.id x)
               = Some (JobService.set_certificatePath filePath x)
               /\ In (JobService.Wrote filePath content)
                     (JobService.trace out)
           end)
     /\ In (JobService.emitProgress jobId (Z.of_nat (length xs))
              (BatchJob.totalCount job) (lit "completed"))
           (JobService.trace out)
     /\ (xs <> [] ->
         exists j,
           Store.findJob (JobService.store out) jobId = Some j
           /\ BatchJob.processedCount j = Z.of_nat (length xs)
           /\ BatchJob.failedCount j
              = tally (certificateFails w t fcs cfg) 0 xs
           /\ BatchJob.successCount j
              = (Z.of_nat (length xs)
                 - tally (certificateFails w t fcs cfg) 0 xs)%Z))
  /\ (forall cfg et smtp,
        BatchJob.config job = EmailConfig cfg ->
        Store.findEmailTemplate st (EmailBatchConfig.emailTemplateId cfg)
        = Some et ->
        Store.findSmtpConfig st (EmailBatchConfig.smtpConfigId cfg)
        = Some smtp ->
        let settings := JobService.smtpSettingsOf smtp in
        let out := JobService.processEmailBatch w st jobId in
        JobService.thrown out = None
        /\ (forall k x,
              nth_error xs k = Some x ->
              Recipient.emailStatus x <> EmailStatus.sent ->
              match JobService.composeEmail w et cfg settings x with
              | Thrown msg =>
                  Store.findRecipient (JobService.store out) (Recipient.id x)
                  = Some (JobService.set_failed msg x)
              | Ok options =>
                  In (JobService.SendAttempt (Recipient.id x) options)
                     (JobService.trace out)
                  /\ match JobService.sendEmail w k options with
                     | Some msg =>
                         Store.findRecipient (JobService.store out)
                           (Recipient.id x)
                         = Some (JobService.set_failed msg x)
                     | None =>
                         Store.findRecipient (JobService.store out)
                           (Recipient.id x)
                         = Some (JobService.set_sent (JobService.now w k) x)
                     end
              end)
        /\ In (JobService.emitProgress jobId (Z.of_nat (length xs))
                 (BatchJob.totalCount job) (lit "completed"))
              (JobService.trace out)
        /\ (existsb not_sent xs = true ->
            exists j,
              Store.findJob (JobService.store out) jobId = Some j
              /\ BatchJob.failedCount j
                 = tally (emailFails w et cfg settings) 0 xs)).
Proof.
  intros Hj Huniq xs.
  pose proof (findJob_id _ _ _ Hj) as Hid.
  assert (Hstarted :
    Store.findJob (Store.updateJob st jobId (JobService.set_status processing))
      (BatchJob.id job) = Some (JobService.set_status processing job)).
  { rewrite Hid, findJob_updateJob by reflexivity. rewrite Hj; reflexivity. }
  assert (Hfind : forall k x, nth_error xs k = Some x ->
            Store.findRecipient
              (Store.updateJob st jobId (JobService.set_status processing))
              (Recipient.id x) = Some x).
  { intros k x Hk. rewrite findRecipient_updateJob.
    apply find_unique; [exact Huniq|].
    eapply recipientsOf_In, nth_error_In, Hk. }
  pose proof (recipientsOf_NoDup st jobId Huniq) as Hnd. fold xs in Hnd.
  split.
  - intros cfg t fcs Hcfg Ht Hf Hdir out.
    assert (Hthrown : JobService.thrown out = None).
    { unfold out, JobService.processCertificateBatch,
        JobService.processCertificateBatchWith.
      rewrite Hj, Hcfg, Ht, Hf.
      destruct (JobService.existsSync w _) eqn:Ex; [reflexivity|].
      destruct Hdir as [H|H]; [discriminate | rewrite H; reflexivity]. }
    split; [exact Hthrown|].
    destruct (certificate_batch_shape _ _ _ _ _ Hj Hthrown)
      as (cfg' & t' & fcs' & made & Hcfg' & Et & Ef & Hrun).
    rewrite Hcfg in Hcfg'; inversion Hcfg'; subst cfg'.
    rewrite Ht in Et; inversion Et; subst t'.
    rewrite Hf in Ef; inversion Ef; subst fcs'.
    cbv zeta in Hrun. fold xs in Hrun.
    unfold out, JobService.processCertificateBatch. rewrite Hrun. clear Hrun.
    cbn [JobService.store JobService.trace].
    change (JobService.undisturbed (length xs) ?s) with s.
    split; [|split].
    + intros k x Hk. rewrite findRecipient_updateJob.
      rewrite certificateLoop_passes.
      rewrite (passes_recipient _ _
                 (certificate_pass_recipient w job t fcs cfg) xs Hnd k x 0
                 _ _ Hk).
      rewrite (Hfind k x Hk). cbn [option_map Nat.add].
      unfold certificateUpdate.
      destruct (JobService.renderCertificate w t fcs cfg k x)
        as [[filePath content]|msg] eqn:Er; [|reflexivity].
      split; [reflexivity|].
      apply in_or_app; right. apply in_or_app; left.
      eapply passes_effects_to; [exact Hk|]. intros c' st'.
      cbn [Nat.add]. unfold JobService.certificateIteration. rewrite Er.
      cbn [JobService.effects]. left; reflexivity.
    + apply in_or_app; right. apply in_or_app; right.
      rewrite certificateLoop_counters.
      cbn [counted JobService.processedCount JobService.zero].
      rewrite Z.add_0_l. left; reflexivity.
    + intros Hne.
      destruct (certificateLoop_stored w job t fcs cfg xs 0 JobService.zero
                  (Store.updateJob st jobId
                     (JobService.set_status processing)))
        as (j' & Hj' & Hp').
      { eexists; split; [exact Hstarted | exact I]. }
      specialize (Hp' Hne). rewrite certificateLoop_counters in Hp'.
      rewrite Hid in Hj'.
      rewrite findJob_updateJob by reflexivity. rewrite Hj'.
      eexists; split; [reflexivity|].
      cbn [JobService.set_finished BatchJob.processedCount
             BatchJob.failedCount BatchJob.successCount].
      split; [|split].
      * apply (f_equal JobService.processedCount) in Hp'.
        cbn [persisted counted JobService.processedCount JobService.zero]
          in Hp'. lia.
      * apply (f_equal JobService.failedCount) in Hp'.
        cbn [persisted counted JobService.failedCount JobService.zero]
          in Hp'. lia.
      * apply (f_equal JobService.successCount) in Hp'.
        cbn [persisted counted JobService.successCount JobService.zero]
          in Hp'. lia.
  - intros cfg et smtp Hcfg Ht Hs settings out.
    assert (Hthrown : JobService.thrown out = None).
    { unfold out, JobService.processEmailBatch,
        JobService.processEmailBatchWith.
      rewrite Hj, Hcfg, Ht, Hs. reflexivity. }
    split; [exact Hthrown|].
    destruct (email_batch_shape _ _ _ _ _ Hj Hthrown)
      as (cfg' & et' & smtp' & Hcfg' & Et & Es & Hrun).
    rewrite Hcfg in Hcfg'; inversion Hcfg'; subst cfg'.
    rewrite Ht in Et; inversion Et; subst et'.
    rewrite Hs in Es; inversion Es; subst smtp'.
    cbv zeta in Hrun. fold xs in Hrun. fold settings in Hrun.
    unfold out, JobService.processEmailBatch. rewrite Hrun. clear Hrun.
    cbn [JobService.store JobService.trace].
    change (JobService.undisturbed (length xs) ?s) with s.
    split; [|split].
    + intros k x Hk Hns. rewrite findRecipient_updateJob.
      rewrite emailLoop_passes.
      rewrite (passes_recipient _ _
                 (email_pass_recipient w job et cfg settings) xs Hnd k x 0
                 _ _ Hk).
      rewrite (Hfind k x Hk). cbn [option_map Nat.add].
      assert (Hneq : EmailStatus.eqb (Recipient.emailStatus x)
                       EmailStatus.sent = false)
        by (destruct (Recipient.emailStatus x); try reflexivity; congruence).
      unfold emailUpdate. rewrite Hneq.
      destruct (JobService.composeEmail w et cfg settings x)
        as [options|msg] eqn:Ec; [|reflexivity].
      split.
      * apply in_or_app; left.
        eapply passes_effects_to; [exact Hk|]. intros c' st'.
        cbn [Nat.add]. unfold JobService.emailIteration. rewrite Hneq, Ec.
        destruct (JobService.sendEmail w k options);
          cbn [JobService.effects]; left; reflexivity.
      * destruct (JobService.sendEmail w k options); reflexivity.
    + apply in_or_app; right.
      rewrite emailLoop_counters.
      cbn [counted JobService.processedCount JobService.zero].
      rewrite Z.add_0_l. left; reflexivity.
    + intros Hex.
      destruct (emailLoop_stored_failed_some w job et cfg settings xs 0
                  JobService.zero
                  (Store.updateJob st jobId
                     (JobService.set_status processing)))
        as (j' & Hj' & Hf'); [eexists; eauto | exact Hex |].
      rewrite Hid in Hj'.
      rewrite findJob_updateJob by reflexivity. rewrite Hj'.
      eexists; split; [reflexivity|].
      cbn [JobService.set_finished BatchJob.failedCount].
      rewrite Hf', emailLoop_counters.
      cbn [counted JobService.failedCount JobService.zero]. lia.
Qed.

(** Over a database that answers every call the batches are the ones
    above. *)
Lemma certificateIterationOn_reliable w job t fcs cfg i x c st :
  JobService.certificateIterationOn JobService.reliable w job t fcs cfg
    i x c st
  = {| JobService.reached :=
         JobService.certificateIteration w job t fcs cfg i x c st;
       JobService.escaped := None |}.
Proof.
  unfold JobService.certificateIterationOn, JobService.certificateIteration,
    JobService.countCertificate, JobService.reliable.
  destruct (JobService.renderCertificate w t fcs cfg i x) as [[f b]|];
    reflexivity.
Qed.

Lemma emailIterationOn_reliable w job et cfg smtp i x c st :
  JobService.emailIterationOn JobService.reliable w job et cfg smtp i x c st
  = {| JobService.reached :=
         JobService.emailIteration w job et cfg smtp i x c st;
       JobService.escaped := None |}.
Proof.
  unfold JobService.emailIterationOn, JobService.emailIteration,
    JobService.countEmail, JobService.reliable.
  destruct (EmailStatus.eqb _ _); [reflexivity|].
  destruct (JobService.composeEmail w et cfg smtp x) as [options|];
    [|reflexivity].
  destruct (JobService.sendEmail w i options); reflexivity.
Qed.

Lemma certificateLoopOn_reliable w env job t fcs cfg xs :
  forall i c st,
    JobService.loopOn
      (JobService.certificateIterationOn JobService.reliable w job t fcs cfg)
      env i xs c st
    = {| JobService.reached :=
           JobService.certificateLoop w env job t fcs cfg i xs c st;
         JobService.escaped := None |}.
Proof.
  induction xs as [|x xs IH]; intros i c st; [reflexivity|].
  cbn [JobService.loopOn JobService.certificateLoop].
  rewrite certificateIterationOn_reliable.
  cbn [JobService.escaped JobService.reached]. rewrite IH. reflexivity.
Qed.

Lemma emailLoopOn_reliable w env job et cfg smtp xs :
  forall i c st,
    JobService.loopOn
      (JobService.emailIterationOn JobService.reliable w job et cfg smtp)
      env i xs c st
    = {| JobService.reached :=
           JobService.emailLoop w env job et cfg smtp i xs c st;
         JobService.escaped := None |}.
Proof.
  induction xs as [|x xs IH]; intros i c st; [reflexivity|].
  cbn [JobService.loopOn JobService.emailLoop].
  rewrite emailIterationOn_reliable.
  cbn [JobService.escaped JobService.reached]. rewrite IH. reflexivity.
Qed.

Lemma processCertificateBatchOn_reliable env w st jobId :
  JobService.processCertificateBatchOn JobService.reliable env w st jobId
  = JobService.processCertificateBatchWith env w st jobId.
Proof.
  unfold JobService.processCertificateBatchOn,
    JobService.processCertificateBatchWith.
  change (JobService.reliable _) with (@None jstring).
  destruct (Store.findJob st jobId) as [job|]; [|reflexivity].
  destruct (BatchJob.config job) as [cfg|cfg]; [|reflexivity].
  destruct (Store.findCertificateTemplate st _) as [t|]; [|reflexivity].
  destruct (JobService.parseFieldConfigs w _) as [fcs|]; [|reflexivity].
  cbv zeta. rewrite certificateLoopOn_reliable. unfold JobService.finishOn.
  cbn [JobService.escaped JobService.reached].
  change (JobService.reliable _) with (@None jstring).
  destruct (JobService.existsSync w _); [reflexivity|].
  destruct (JobService.mkdir w _); reflexivity.
Qed.

Lemma processEmailBatchOn_reliable env w st jobId :
  JobService.processEmailBatchOn JobService.reliable env w st jobId
  = JobService.processEmailBatchWith env w st jobId.
Proof.
  unfold JobService.processEmailBatchOn, JobService.processEmailBatchWith.
  change (JobService.reliable _) with (@None jstring).
  destruct (Store.findJob st jobId) as [job|]; [|reflexivity].
  destruct (BatchJob.config job) as [cfg|cfg]; [reflexivity|].
  destruct (Store.findEmailTemplate st _) as [et|]; [|reflexivity].
  destruct (Store.findSmtpConfig st _) as [smtp|]; [|reflexivity].
  cbv zeta. rewrite emailLoopOn_reliable. unfold JobService.finishOn.
  cbn [JobService.escaped JobService.reached].
  change (JobService.reliable _) with (@None jstring). reflexivity.
Qed.

(** An e-mail batch over a database that accepts all but, possibly, the
    updates that record a sent message. *)
Lemma emailBatchOn_answering db env w st jobId :
  frames_batch db -> records_failures db ->
  JobService.processEmailBatchOn db env w st jobId
  = JobService.processEmailBatchWith env (answering db w) st jobId.
Proof.
  intros (Hjob & Htpl & Hsmtp & Hmark & Hfin) Hacc.
  unfold JobService.processEmailBatchOn, JobService.processEmailBatchWith.
  rewrite Hjob, Htpl, Hsmtp, Hmark.
  destruct (Store.findJob st jobId) as [job|]; [|reflexivity].
  destruct (BatchJob.config job) as [cfg|cfg]; [reflexivity|].
  destruct (Store.findEmailTemplate st _) as [et|]; [|reflexivity].
  destruct (Store.findSmtpConfig st _) as [smtp|]; [|reflexivity].
  cbv zeta. rewrite emailLoopOn_answering by exact Hacc.
  unfold JobService.finishOn.
  cbn [JobService.escaped JobService.reached]. rewrite Hfin. reflexivity.
Qed.

(** A certificate batch likewise: the same store, and at least the same
    effects. *)
Lemma certificateBatchOn_answering db w st jobId job cfg t fcs :
  frames_batch db -> records_failures db ->
  Store.findJob st jobId = Some job ->
  BatchJob.config job = CertificateConfig cfg ->
  Store.findCertificateTemplate st (BatchJobConfig.templateId cfg) = Some t ->
  JobService.parseFieldConfigs w (CertificateTemplate.fieldConfigs t)
  = Ok fcs ->
  JobService.existsSync w (BatchJobConfig.outputPath cfg) = true
  \/ JobService.mkdir w (BatchJobConfig.outputPath cfg) = None ->
  let out :=
    JobService.processCertificateBatchOn db JobService.undisturbed w st
      jobId in
  let out' := JobService.processCertificateBatch (answering db w) st jobId in
  JobService.thrown out = None
  /\ JobService.store out = JobService.store out'
  /\ (forall e, In e (JobService.trace out') -> In e (JobService.trace out))
  /\ (forall k x filePath content,
        nth_error (Store.recipientsOf st jobId) k = Some x ->
        JobService.renderCertificate w t fcs cfg k x
        = Ok (filePath, content) ->
        In (JobService.Wrote filePath content) (JobService.trace out)).
Proof.
  intros (Hjob & Htpl & Hsmtp & Hmark & Hfin) Hacc Hj Hcfg Ht Hf Hdir.
  unfold JobService.processCertificateBatch,
    JobService.processCertificateBatchOn,
    JobService.processCertificateBatchWith.
  rewrite Hjob, Htpl, Hmark, Hj, Hcfg, Ht.
  change (JobService.parseFieldConfigs (answering db w))
    with (JobService.parseFieldConfigs w).
  rewrite Hf. cbv zeta.
  change (JobService.existsSync (answering db w))
    with (JobService.existsSync w).
  change (JobService.mkdir (answering db w)) with (JobService.mkdir w).
  change (JobService.now (answering db w)) with (JobService.now w).
  set (st1 := Store.updateJob st jobId (JobService.set_status processing)).
  set (xs := Store.recipientsOf st jobId).
  destruct (certificateLoopOn_answering db w JobService.undisturbed job t fcs
              cfg xs Hacc 0 JobService.zero st1)
    as (Hesc & Hcnt & Haft & Heff & Hwrote).
  cbv zeta in Hesc, Hcnt, Haft, Heff, Hwrote.
  unfold JobService.finishOn. rewrite Hesc, Hfin, Hcnt, Haft.
  assert (Hrun : forall made,
    let out :=
      {| JobService.store :=
           Store.updateJob
             (JobService.undisturbed (length xs)
                (JobService.after
                   (JobService.certificateLoop (answering db w)
                      JobService.undisturbed job t fcs cfg 0 xs
                      JobService.zero st1)))
             jobId
             (JobService.set_finished
                (JobService.final_status
                   (JobService.failedCount
                      (JobService.counters
                         (JobService.certificateLoop (answering db w)
                            JobService.undisturbed job t fcs cfg 0 xs
                            JobService.zero st1)))
                   (BatchJob.totalCount job))
                (JobService.now w (length xs))
                (Some (BatchJobConfig.outputPath cfg)));
         JobService.trace :=
           made
           ++ JobService.effects
                (JobService.reached
                   (JobService.loopOn
                      (JobService.certificateIterationOn db w job t fcs cfg)
                      JobService.undisturbed 0 xs JobService.zero st1))
           ++ [JobService.emitProgress jobId
                 (JobService.processedCount
                    (JobService.counters
                       (JobService.certificateLoop (answering db w)
                          JobService.undisturbed job t fcs cfg 0 xs
                          JobService.zero st1)))
                 (BatchJob.totalCount job) (lit "completed")];
         JobService.thrown := None |} in
    let out' :=
      {| JobService.store := JobService.store out;
         JobService.trace :=
           made
           ++ JobService.effects
                (JobService.certificateLoop (answering db w)
                   JobService.undisturbed job t fcs cfg 0 xs
                   JobService.zero st1)
           ++ [JobService.emitProgress jobId
                 (JobService.processedCount
                    (JobService.counters
                       (JobService.certificateLoop (answering db w)
                          JobService.undisturbed job t fcs cfg 0 xs
                          JobService.zero st1)))
                 (BatchJob.totalCount job) (lit "completed")];
         JobService.thrown := None |} in
    JobService.thrown out = None
    /\ JobService.store out = JobService.store out'
    /\ (forall e, In e (JobService.trace out') ->
          In e (JobService.trace out))
    /\ (forall k x filePath content,
          nth_error xs k = Some x ->
          JobService.renderCertificate w t fcs cfg k x
          = Ok (filePath, content) ->
          In (JobService.Wrote filePath content) (JobService.trace out))).
  { intros made. cbv zeta. cbn [JobService.thrown JobService.store
                                  JobService.trace].
    split; [reflexivity|]. split; [reflexivity|]. split.
    - intros e He. apply in_app_or in He. apply in_or_app.
      destruct He as [He|He]; [left; exact He|]. right.
      apply in_app_or in He. apply in_or_app.
      destruct He as [He|He]; [left; apply Heff, He | right; exact He].
    - intros k x f b Hk Hr. apply in_or_app. right. apply in_or_app. left.
      exact (Hwrote k x f b Hk Hr). }
  destruct (JobService.existsSync w (BatchJobConfig.outputPath cfg)) eqn:Ex.
  - exact (Hrun []).
  - destruct Hdir as [Hd|Hd]; [discriminate|]. rewrite Hd.
    exact (Hrun [JobService.MadeDirectory (BatchJobConfig.outputPath cfg)]).
Qed.

(** C8 (amended).  Once a batch has started over a database that accepts
    the update recording an error and the update of the counters, the
    failure of the [try] block for one recipient (the parsing of its
    fields, the rendering, the file name, the write, the composition or
    the sending of the message, or the rejected update of its record) is
    recorded on that recipient, with the message of the error and
    nothing else of the record changed but, in an e-mail batch, the
    status [failed]; it is counted in [failedCount], and the loop goes
    on: the batch does not throw, every other recipient has the record
    its own outcome calls for, and the final progress event counts them
    all. *)
Theorem failures_do_not_abort (db : JobService.Prisma)
    (w : JobService.World) (st : Store.t)
    (jobId : jstring) (job : BatchJob.t) :
  Store.findJob st jobId = Some job ->
  Store.unique_recipients st ->
  frames_batch db ->
  records_failures db ->
  let xs := Store.recipientsOf st jobId in
  (forall cfg t fcs,
     BatchJob.config job = CertificateConfig cfg ->
     Store.findCertificateTemplate st (BatchJobConfig.templateId cfg)
     = Some t ->
     JobService.parseFieldConfigs w (CertificateTemplate.fieldConfigs t)
     = Ok fcs ->
     JobService.existsSync w (BatchJobConfig.outputPath cfg) = true
     \/ JobService.mkdir w (BatchJobConfig.outputPath cfg) = None ->
     let out :=
       JobService.processCertificateBatchOn db JobService.undisturbed w st
         jobId in
     JobService.thrown out = None
     /\ (forall k x,
           nth_error xs k = Some x ->
           let failed_with msg :=
             Store.findRecipient (JobService.store out) (Recipient.id x)
             = Some (recorded x (Recipient.certificatePath x)
                       (Recipient.emailStatus x) (Some msg)
                       (Recipient.sentAt x)) in
           match JobService.renderCertificate w t fcs cfg k x with
           | Thrown msg => failed_with msg
           | Ok (filePath, content) =>
               In (JobService.Wrote filePath content)
                  (JobService.trace out)
               /\ match db (JobService.StoreSuccess k) with
                  | Some msg => failed_with msg
                  | None =>
                      Store.findRecipient (JobService.store out)
                        (Recipient.id x)
                      = Some (recorded x (Some filePath)
                                (Recipient.emailStatus x)
                                (Recipient.errorMessage x)
                                (Recipient.sentAt x))
                  end
           end)
     /\ In (JobService.emitProgress jobId (Z.of_nat (length xs))
              (BatchJob.totalCount job) (lit "completed"))
           (JobService.trace out)
     /\ (xs <> [] ->
         exists j,
           Store.findJob (JobService.store out) jobId = Some j
           /\ BatchJob.processedCount j = Z.of_nat (length xs)
           /\ BatchJob.failedCount j
              = tally (certificateFailsOn db w t fcs cfg) 0 xs
           /\ BatchJob.successCount j
              = (Z.of_nat (length xs)
                 - tally (certificateFailsOn db w t fcs cfg) 0 xs)%Z))
  /\ (forall cfg et smtp,
        BatchJob.config job = EmailConfig cfg ->
        Store.findEmailTemplate st (EmailBatchConfig.emailTemplateId cfg)
        = Some et ->
        Store.findSmtpConfig st (EmailBatchConfig.smtpConfigId cfg)
        = Some smtp ->
        let settings := JobService.smtpSettingsOf smtp in
        let out :=
          JobService.processEmailBatchOn db JobService.undisturbed w st
            jobId in
        JobService.thrown out = None
        /\ (forall k x,
              nth_error xs k = Some x ->
              Recipient.emailStatus x <> EmailStatus.sent ->
              let failed_with msg :=
                Store.findRecipient (JobService.store out) (Recipient.id x)
                = Some (recorded x (Recipient.certificatePath x)
                          EmailStatus.failed (Some msg)
                          (Recipient.sentAt x)) in
              match JobService.composeEmail w et cfg settings x with
              | Thrown msg => failed_with msg
              | Ok options =>
                  In (JobService.SendAttempt (Recipient.id x) options)
                     (JobService.trace out)
                  /\ match JobService.sendEmail w k options with
                     | Some msg => failed_with msg
                     | None =>
                         match db (JobService.StoreSuccess k) with
                         | Some msg => failed_with msg
                         | None =>
                             Store.findRecipient (JobService.store out)
                               (Recipient.id x)
                             = Some (recorded x (Recipient.certificatePath x)
                                       EmailStatus.sent None
                                       (Some (JobService.now w k)))
                         end
                     end
              end)
        /\ In (JobService.emitProgress jobId (Z.of_nat (length xs))
                 (BatchJob.totalCount job) (lit "completed"))
              (JobService.trace out)
        /\ (existsb not_sent xs = true ->
            exists j,
              Store.findJob (JobService.store out) jobId = Some j
              /\ BatchJob.failedCount j
                 = tally (emailFailsOn db w et cfg settings) 0 xs)).
Proof.
  intros Hj Huniq Hframe Hacc xs.
  destruct (undisturbed_failures (answering db w) st jobId job Hj Huniq)
    as [Hcert Hmail].
  split.
  - intros cfg t fcs Hcfg Ht Hf Hdir out.
    destruct (Hcert cfg t fcs Hcfg Ht Hf Hdir)
      as (_ & Hrec & Hdone & Hcount).
    destruct (certificateBatchOn_answering db w st jobId job cfg t fcs
                Hframe Hacc Hj Hcfg Ht Hf Hdir)
      as (Hthrown & Hstore & Htrace & Hwrote).
    cbv zeta in Hrec, Hdone, Hcount, Hthrown, Hstore, Htrace, Hwrote.
    fold out in Hthrown, Hstore, Htrace, Hwrote.
    split; [exact Hthrown|]. split; [|split].
    + intros k x Hk. cbv zeta. specialize (Hrec k x Hk).
      rewrite renderCertificate_answering in Hrec. rewrite Hstore.
      destruct (JobService.renderCertificate w t fcs cfg k x)
        as [[filePath content]|msg] eqn:Er.
      * split; [exact (Hwrote k x filePath content Hk Er)|].
        destruct (db (JobService.StoreSuccess k)) as [msg|];
          [exact Hrec | exact (proj1 Hrec)].
      * exact Hrec.
    + apply Htrace. exact Hdone.
    + intros Hne. destruct (Hcount Hne) as (j & Hfind & Hp & Hfail & Hs).
      exists j. rewrite Hstore. split; [exact Hfind|]. split; [exact Hp|].
      rewrite <- (tally_ext _ _ xs (certificateFails_answering db w t fcs cfg)).
      split; assumption.
  - intros cfg et smtp Hcfg Ht Hs settings out.
    destruct (Hmail cfg et smtp Hcfg Ht Hs) as (Hthrown & Hrec & Hdone & Hcount).
    cbv zeta in Hthrown, Hrec, Hdone, Hcount.
    unfold out. rewrite (emailBatchOn_answering db _ w st jobId Hframe Hacc).
    fold (JobService.processEmailBatch (answering db w) st jobId).
    split; [exact Hthrown|]. split; [|split].
    + intros k x Hk Hns. cbv zeta. specialize (Hrec k x Hk Hns).
      change (JobService.composeEmail (answering db w) et cfg
                (JobService.smtpSettingsOf smtp) x)
        with (JobService.composeEmail w et cfg settings x) in Hrec.
      destruct (JobService.composeEmail w et cfg settings x) as [options|msg];
        [|exact Hrec].
      destruct Hrec as [Hattempt Hrec]. split; [exact Hattempt|].
      cbn [answering JobService.sendEmail JobService.now] in Hrec.
      destruct (JobService.sendEmail w k options); [exact Hrec|].
      destruct (db (JobService.StoreSuccess k)); exact Hrec.
    + exact Hdone.
    + intros Hex. destruct (Hcount Hex) as (j & Hfind & Hfail).
      exists j. split; [exact Hfind|].
      rewrite <- (tally_ext _ _ xs
                    (emailFails_answering db w et cfg settings)).
      exact Hfail.
Qed.

Ltac distinct_ids :=
  unfold Store.unique_recipients; cbn;
  repeat (constructor; [cbn; intuition discriminate|]); constructor.

(** The write for Jane Doe fails and the update that records the
    certificate of Omar Said is rejected: both are recorded, the batch
    ends. *)
Lemma failures_do_not_abort_witness :
  let out :=
    JobService.processCertificateBatchOn Samples.forgetful
      JobService.undisturbed (Demo.world [0]) Demo.store (lit "job-1") in
  JobService.thrown out = None
  /\ Store.findRecipient (JobService.store out) (lit "r1")
     = Some (recorded Demo.jane None EmailStatus.pending
               (Some (lit "EACCES: permission denied")) None)
  /\ Store.findRecipient (JobService.store out) (lit "r2")
     = Some (recorded Demo.omar None EmailStatus.pending
               (Some (lit "Timed out fetching a new connection")) None).
Proof.
  assert (Hu : Store.unique_recipients Demo.store) by distinct_ids.
  assert (Hf : frames_batch Samples.forgetful)
    by (repeat split; reflexivity).
  assert (Ha : records_failures Samples.forgetful)
    by (intros k; split; reflexivity).
  destruct (proj1 (failures_do_not_abort Samples.forgetful (Demo.world [0])
                     Demo.store (lit "job-1") Demo.certificateJob
                     eq_refl Hu Hf Ha)
              _ _ _ eq_refl eq_refl eq_refl (or_introl eq_refl))
    as (Hthrown & Hall & _).
  split; [exact Hthrown|]. split.
  - exact (Hall 0 Demo.jane eq_refl).
  - exact (proj2 (Hall 1 Demo.omar eq_refl)).
Defined.

(** C8 as stated fails: the write for Jane Doe fails, the database
    rejects the update that would record her error, and the rejection
    leaves the loop.  The batch throws, Omar Said is never handled, and
    the job stays [processing]. *)
Lemma failure_leaves_the_loop :
  let out :=
    JobService.processCertificateBatchOn Samples.unreachable
      JobService.undisturbed (Demo.world [0]) Demo.store (lit "job-1") in
  JobService.thrown out = Some (lit "Can't reach database server")
  /\ JobService.trace out = []
  /\ Store.findRecipient (JobService.store out) (lit "r1") = Some Demo.jane
  /\ Store.findRecipient (JobService.store out) (lit "r2") = Some Demo.omar
  /\ option_map BatchJob.status
       (Store.findJob (JobService.store out) (lit "job-1"))
     = Some processing.
Proof. vm_compute. repeat split. Qed.

(** ** Recipients already sent *)

Lemma email_pass_send_attempt w job et cfg smtp i y c st rid options :
  In (JobService.SendAttempt rid options)
     (JobService.effects (JobService.emailIteration w job et cfg smtp i y c st)) ->
  rid = Recipient.id y /\ not_sent y = true.
Proof.
  unfold JobService.emailIteration, not_sent.
  destruct (EmailStatus.eqb _ _); [intros []|].
  destruct (JobService.composeEmail w et cfg smtp y) as [o|?];
    [destruct (JobService.sendEmail w i o)|];
    cbn [JobService.effects JobService.counters];
    destruct (_ <? _)%Z; cbn; intros H;
    repeat (destruct H as [H|H]; try discriminate H);
    try contradiction; inversion H; auto.
Qed.

(** C6.  A run of the e-mail loop over a job leaves alone every recipient
    of the job whose e-mail status is already [sent]: the pass for it
    composes and sends nothing and stores nothing while it adds one to the
    processed and to the success counter of the loop; in the whole run no
    message is attempted for it, and its record, [sentAt] included, is
    afterwards what it was; the final progress event counts every
    recipient, the skipped ones too. *)
Theorem sent_recipients_are_skipped (w : JobService.World) (st : Store.t)
    (jobId : jstring) (job : BatchJob.t) (x : Recipient.t) :
  Store.findJob st jobId = Some job ->
  Store.unique_recipients st ->
  In x (Store.recipientsOf st jobId) ->
  Recipient.emailStatus x = EmailStatus.sent ->
  let out := JobService.processEmailBatch w st jobId in
  (forall et cfg smtp i c st0,
     JobService.emailIteration w job et cfg smtp i x c st0
     = {| JobService.counters :=
            {| JobService.processedCount := JobService.processedCount c + 1;
               JobService.successCount := JobService.successCount c + 1;
               JobService.failedCount := JobService.failedCount c |};
          JobService.after := st0;
          JobService.effects := [] |})
  /\ (forall options,
        ~ In (JobService.SendAttempt (Recipient.id x) options)
             (JobService.trace out))
  /\ Store.findRecipient (JobService.store out) (Recipient.id x) = Some x
  /\ (JobService.thrown out = None ->
      In (JobService.emitProgress jobId
            (Z.of_nat (length (Store.recipientsOf st jobId)))
            (BatchJob.totalCount job) (lit "completed"))
         (JobService.trace out)).
Proof.
  intros Hj Huniq Hin Hsent out.
  pose proof (find_unique st x Huniq (recipientsOf_In _ _ _ Hin)) as Hfx.
  split.
  { intros. unfold JobService.emailIteration. rewrite Hsent. reflexivity. }
  destruct (JobService.thrown out) eqn:Hthrown.
  - (* the batch threw before its loop: nothing was sent or stored *)
    revert Hthrown. unfold out, JobService.processEmailBatch,
      JobService.processEmailBatchWith. rewrite Hj.
    destruct (BatchJob.config job) as [cfg|cfg];
      [|destruct (Store.findEmailTemplate st _);
        [destruct (Store.findSmtpConfig st _)|]];
      cbn [JobService.thrown JobService.throw JobService.trace
             JobService.store]; intros Hthrown; try discriminate Hthrown;
      (split; [intros o []|]); (split; [exact Hfx | discriminate]).
  - destruct (email_batch_shape _ _ _ _ _ Hj Hthrown)
      as (cfg & et & smtp & Hcfg & Et & Es & Hrun).
    cbv zeta in Hrun. unfold out, JobService.processEmailBatch.
    rewrite Hrun. clear Hrun.
    cbn [JobService.store JobService.trace].
    set (xs := Store.recipientsOf st jobId) in *.
    change (JobService.undisturbed (length xs) ?s) with s.
    pose proof (recipientsOf_NoDup st jobId Huniq) as Hnd. fold xs in Hnd.
    split; [|split].
    + intros options Hatt. apply in_app_or in Hatt.
      destruct Hatt as [Hatt|[Hatt|[]]]; [|discriminate Hatt].
      rewrite emailLoop_passes in Hatt.
      apply passes_effects_from in Hatt.
      destruct Hatt as (k & y & c' & st' & Hk & Hatt).
      apply email_pass_send_attempt in Hatt. destruct Hatt as [Hid Hns].
      assert (y = x).
      { eapply NoDup_map_eq; [exact Huniq| | |symmetry; exact Hid].
        - eapply recipientsOf_In, nth_error_In, Hk.
        - eapply recipientsOf_In, Hin. }
      subst y. unfold not_sent in Hns. rewrite Hsent in Hns. discriminate.
    + rewrite findRecipient_updateJob, emailLoop_passes.
      destruct (In_nth_error _ _ Hin) as [k Hk].
      rewrite (passes_recipient _ _
                 (email_pass_recipient w job et cfg
                    (JobService.smtpSettingsOf smtp)) xs Hnd k x 0 _ _ Hk).
      rewrite findRecipient_updateJob, Hfx. cbn [option_map].
      unfold emailUpdate. rewrite Hsent. reflexivity.
    + intros _. apply in_or_app; right.
      rewrite emailLoop_counters.
      cbn [counted JobService.processedCount JobService.zero].
      rewrite Z.add_0_l. left; reflexivity.
Qed.

Lemma sent_recipients_are_skipped_witness :
  Store.findRecipient
    (JobService.store
       (JobService.processEmailBatch (Demo.world []) Demo.store (lit "job-2")))
    (lit "r3") = Some Demo.jane_mail.
Proof.
  assert (Hu : Store.unique_recipients Demo.store) by distinct_ids.
  refine (proj1 (proj2 (proj2
    (sent_recipients_are_skipped (Demo.world []) Demo.store (lit "job-2")
       Demo.emailJob Demo.jane_mail eq_refl Hu _ eq_refl)))).
  left; reflexivity.
Defined.

(** ** Cancellation *)

Section Interference.
Import JobService.

Variable body : nat -> Recipient.t -> Counters -> Store.t -> Step.
Variable env : nat -> Store.t -> Store.t.
Variable jobId_ : jstring.

(** The loop body never reads the store: its counters and effects do not
    depend on it, and what it does to the recipients depends on the
    recipients alone. *)
Hypothesis body_blind :
  forall i y c st st',
    counters (body i y c st) = counters (body i y c st')
    /\ effects (body i y c st) = effects (body i y c st')
    /\ (Store.recipients st = Store.recipients st' ->
        Store.recipients (after (body i y c st))
        = Store.recipients (after (body i y c st'))).

Hypothesis body_keeps_job :
  forall i y c st,
    (exists j, Store.findJob st jobId_ = Some j) ->
    exists j, Store.findJob (after (body i y c st)) jobId_ = Some j.

(** The other handlers leave the recipients alone and do not delete the
    job. *)
Hypothesis env_recipients :
  forall i st, Store.recipients (env i st) = Store.recipients st.

Hypothesis env_keeps_job :
  forall i st,
    (exists j, Store.findJob st jobId_ = Some j) ->
    exists j, Store.findJob (env i st) jobId_ = Some j.

Lemma passes_blind xs :
  forall i c st st',
    Store.recipients st = Store.recipients st' ->
    (exists j, Store.findJob st jobId_ = Some j) ->
    let s := passes body env i xs c st in
    let s' := passes body undisturbed i xs c st' in
    counters s = counters s'
    /\ effects s = effects s'
    /\ Store.recipients (after s) = Store.recipients (after s')
    /\ exists j, Store.findJob (after s) jobId_ = Some j.
Proof.
  induction xs as [|y xs IH]; intros i c st st' Hr Hjob; cbn [passes].
  - cbn; auto.
  - change (undisturbed i st') with st'.
    destruct (body_blind i y c (env i st) st') as (Hc & He & Hrec).
    specialize (Hrec (eq_trans (env_recipients i st) Hr)).
    cbn [counters effects after]. rewrite Hc.
    destruct (IH (S i) (counters (body i y c st'))
                (after (body i y c (env i st))) (after (body i y c st'))
                Hrec (body_keeps_job _ _ _ _ (env_keeps_job _ _ Hjob)))
      as (Hc' & He' & Hr' & Hj').
    cbv zeta in Hc', He', Hr', Hj'.
    rewrite He, He'. auto.
Qed.

End Interference.

Lemma exists_job_updateJob st k f k' :
  (forall j, BatchJob.id (f j) = BatchJob.id j) ->
  (exists j, Store.findJob st k' = Some j) ->
  exists j, Store.findJob (Store.updateJob st k f) k' = Some j.
Proof.
  intros Hf [j Hj]. destruct (list_eq_dec ascii_dec k' k) as [->|Hne].
  - rewrite findJob_updateJob, Hj by exact Hf. eexists; reflexivity.
  - rewrite findJob_updateJob_other, Hj by assumption. eexists; reflexivity.
Qed.

Lemma certificate_pass_blind w job t fcs cfg i y c st st' :
  let body := JobService.certificateIteration w job t fcs cfg in
  JobService.counters (body i y c st) = JobService.counters (body i y c st')
  /\ JobService.effects (body i y c st) = JobService.effects (body i y c st')
  /\ (Store.recipients st = Store.recipients st' ->
      Store.recipients (JobService.after (body i y c st))
      = Store.recipients (JobService.after (body i y c st'))).
Proof.
  unfold JobService.certificateIteration.
  destruct (JobService.renderCertificate w t fcs cfg i y) as [[? ?]|?];
    cbn; repeat split; intros ->; reflexivity.
Qed.

Lemma email_pass_blind w job et cfg smtp i y c st st' :
  let body := JobService.emailIteration w job et cfg smtp in
  JobService.counters (body i y c st) = JobService.counters (body i y c st')
  /\ JobService.effects (body i y c st) = JobService.effects (body i y c st')
  /\ (Store.recipients st = Store.recipients st' ->
      Store.recipients (JobService.after (body i y c st))
      = Store.recipients (JobService.after (body i y c st'))).
Proof.
  unfold JobService.emailIteration.
  destruct (EmailStatus.eqb _ _); [cbn; auto|].
  destruct (JobService.composeEmail w et cfg smtp y) as [o|?];
    [destruct (JobService.sendEmail w i o)|];
    cbn; repeat split; intros ->; reflexivity.
Qed.

Lemma certificate_pass_keeps_job w job t fcs cfg k i y c st :
  (exists j, Store.findJob st k = Some j) ->
  exists j,
    Store.findJob
      (JobService.after (JobService.certificateIteration w job t fcs cfg i y c st))
      k = Some j.
Proof.
  intros H. unfold JobService.certificateIteration.
  destruct (JobService.renderCertificate w t fcs cfg i y) as [[? ?]|?];
    cbn [JobService.after]; apply exists_job_updateJob;
    try reflexivity; exact H.
Qed.

Lemma email_pass_keeps_job w job et cfg smtp k i y c st :
  (exists j, Store.findJob st k = Some j) ->
  exists j,
    Store.findJob
      (JobService.after (JobService.emailIteration w job et cfg smtp i y c st))
      k = Some j.
Proof.
  intros H. unfold JobService.emailIteration.
  destruct (EmailStatus.eqb _ _); [exact H|].
  destruct (JobService.composeEmail w et cfg smtp y) as [o|?];
    [destruct (JobService.sendEmail w i o)|];
    cbn [JobService.after]; apply exists_job_updateJob;
    try reflexivity; exact H.
Qed.

Lemma cancelled_before_recipients k jobId i st :
  Store.recipients (cancelled_before k jobId i st) = Store.recipients st.
Proof.
  unfold cancelled_before, JobRoutes.cancel.
  destruct (Nat.eqb i k); [|reflexivity].
  destruct (Store.findJob st jobId); reflexivity.
Qed.

Lemma cancelled_before_keeps_job k jobId i st :
  (exists j, Store.findJob st jobId = Some j) ->
  exists j, Store.findJob (cancelled_before k jobId i st) jobId = Some j.
Proof.
  intros H. unfold cancelled_before, JobRoutes.cancel.
  destruct (Nat.eqb i k); [|exact H].
  destruct (Store.findJob st jobId) eqn:E;
    [|destruct H as [j H]; discriminate H].
  apply exists_job_updateJob; [reflexivity | rewrite E; eauto].
Qed.

Lemma final_status_cases f t :
  JobService.final_status f t = completed
  \/ JobService.final_status f t = failed.
Proof. unfold JobService.final_status; destruct (_ =? _)%Z; auto. Qed.

(** C3 (what the code does).  A request to cancel, handled at any moment
    of a running batch, changes nothing in what the batch does: it throws
    or not as without the request, has the same effects in the same order
    (the same files written, the same messages attempted, the same
    progress events), leaves the same recipient records, and at its end
    overwrites the status [cancelled] by [completed] or [failed].  The
    loops never read the status of the job. *)
Theorem cancel_is_not_observed (w : JobService.World) (st : Store.t)
    (jobId : jstring) (job : BatchJob.t) (k : nat) :
  Store.findJob st jobId = Some job ->
  let env := cancelled_before k jobId in
  (let out := JobService.processCertificateBatchWith env w st jobId in
   let quiet := JobService.processCertificateBatch w st jobId in
   JobService.thrown out = JobService.thrown quiet
   /\ JobService.trace out = JobService.trace quiet
   /\ Store.recipients (JobService.store out)
      = Store.recipients (JobService.store quiet)
   /\ (JobService.thrown out = None ->
       exists j,
         Store.findJob (JobService.store out) jobId = Some j
         /\ (BatchJob.status j = completed \/ BatchJob.status j = failed)))
  /\ (let out := JobService.processEmailBatchWith env w st jobId in
      let quiet := JobService.processEmailBatch w st jobId in
      JobService.thrown out = JobService.thrown quiet
      /\ JobService.trace out = JobService.trace quiet
      /\ Store.recipients (JobService.store out)
         = Store.recipients (JobService.store quiet)
      /\ (JobService.thrown out = None ->
          exists j,
            Store.findJob (JobService.store out) jobId = Some j
            /\ (BatchJob.status j = completed \/ BatchJob.status j = failed))).
Proof.
  intros Hj env.
  assert (Hstarted : exists j,
    Store.findJob (Store.updateJob st jobId (JobService.set_status processing))
      jobId = Some j).
  { apply exists_job_updateJob; [reflexivity | eauto]. }
  split.
  - cbv zeta. unfold JobService.processCertificateBatch,
      JobService.processCertificateBatchWith. rewrite Hj.
    destruct (BatchJob.config job) as [cfg|cfg];
      [|repeat split; intros; discriminate].
    destruct (Store.findCertificateTemplate st _) as [t|];
      [|repeat split; intros; discriminate].
    destruct (JobService.parseFieldConfigs w _) as [fcs|m];
      [|repeat split; intros; discriminate].
    rewrite !certificateLoop_passes.
    destruct (passes_blind
                (JobService.certificateIteration w job t fcs cfg) env jobId
                (certificate_pass_blind w job t fcs cfg)
                (certificate_pass_keeps_job w job t fcs cfg jobId)
                (cancelled_before_recipients k jobId)
                (cancelled_before_keeps_job k jobId)
                (Store.recipientsOf st jobId) 0 JobService.zero
                _ _ eq_refl Hstarted)
      as (Hc & He & Hr & Hjob).
    cbv zeta in Hc, He, Hr, Hjob.
    apply (cancelled_before_keeps_job k jobId
             (length (Store.recipientsOf st jobId))) in Hjob.
    fold env in Hjob. destruct Hjob as [j' Hj'].
    destruct (JobService.existsSync w _);
      [|destruct (JobService.mkdir w _);
        [repeat split; intros; discriminate|]];
      cbn [JobService.thrown JobService.trace JobService.store];
      rewrite Hc, He; (split; [reflexivity|]); (split; [reflexivity|]);
      (split;
       [rewrite !recipients_updateJob;
        unfold env at 1; rewrite cancelled_before_recipients; exact Hr|]);
      intros _; rewrite findJob_updateJob by reflexivity; rewrite Hj';
      eexists; (split; [reflexivity|]);
      cbn [JobService.set_finished BatchJob.status];
      apply final_status_cases.
  - cbv zeta. unfold JobService.processEmailBatch,
      JobService.processEmailBatchWith. rewrite Hj.
    destruct (BatchJob.config job) as [cfg|cfg];
      [repeat split; intros; discriminate|].
    destruct (Store.findEmailTemplate st _) as [et|];
      [|repeat split; intros; discriminate].
    destruct (Store.findSmtpConfig st _) as [smtp|];
      [|repeat split; intros; discriminate].
    rewrite !emailLoop_passes.
    destruct (passes_blind
                (JobService.emailIteration w job et cfg
                   (JobService.smtpSettingsOf smtp)) env jobId
                (email_pass_blind w job et cfg (JobService.smtpSettingsOf smtp))
                (email_pass_keeps_job w job et cfg
                   (JobService.smtpSettingsOf smtp) jobId)
                (cancelled_before_recipients k jobId)
                (cancelled_before_keeps_job k jobId)
                (Store.recipientsOf st jobId) 0 JobService.zero
                _ _ eq_refl Hstarted)
      as (Hc & He & Hr & Hjob).
    cbv zeta in Hc, He, Hr, Hjob.
    apply (cancelled_before_keeps_job k jobId
             (length (Store.recipientsOf st jobId))) in Hjob.
    fold env in Hjob. destruct Hjob as [j' Hj'].
    cbn [JobService.thrown JobService.trace JobService.store].
    rewrite Hc, He. split; [reflexivity|]. split; [reflexivity|].
    split.
    + rewrite !recipients_updateJob.
      unfold env at 1; rewrite cancelled_before_recipients; exact Hr.
    + intros _. rewrite findJob_updateJob by reflexivity. rewrite Hj'.
      eexists; split; [reflexivity|].
      cbn [JobService.set_finished BatchJob.status].
      apply final_status_cases.
Qed.

(** The job is cancelled after the first certificate: the second one is
    written all the same and the job ends [completed]. *)
Lemma cancel_is_not_observed_witness :
  let out :=
    JobService.processCertificateBatchWith
      (cancelled_before 1 (lit "job-1")) (Demo.world []) Demo.store
      (lit "job-1") in
  JobService.trace out
  = JobService.trace
      (JobService.processCertificateBatch (Demo.world []) Demo.store
         (lit "job-1"))
  /\ Store.findRecipient (JobService.store out) (lit "r2")
     = Some (JobService.set_certificatePath (lit "out/002_Omar_Said.pdf")
               Demo.omar)
  /\ option_map BatchJob.status
       (Store.findJob (JobService.store out) (lit "job-1"))
     = Some completed.
Proof.
  split; [|split; reflexivity].
  exact (proj1 (proj2 (proj1
    (cancel_is_not_observed (Demo.world []) Demo.store (lit "job-1")
       Demo.certificateJob 1 eq_refl)))).
Defined.

(** ** Colours of the certificate fields *)

Lemma or_else_empty v : or_else v [] = v.
Proof. destruct v; reflexivity. Qed.

Lemma hex_digit_hexadecimal c : PdfService.hex_digit c = hexadecimal c.
Proof. destruct c as [[] [] [] [] [] [] [] []]; reflexivity. Qed.

Lemma exec_hex_valid hex groups :
  PdfService.exec_hex hex = Some groups -> valid_hex_color hex = true.
Proof.
  unfold PdfService.exec_hex, valid_hex_color.
  set (body := match hex with "#" :: rest => rest | _ => hex end).
  assert (Hbody :
    (Nat.eqb (length body) 6 && forallb hexadecimal body = true) ->
    (Nat.eqb (length hex) 6 && forallb hexadecimal hex)
    || match hex with
       | "#" :: rest => Nat.eqb (length rest) 6 && forallb hexadecimal rest
       | _ => false
       end = true).
  { intros H. unfold body in H. apply orb_true_iff.
    destruct hex as [|c rest]; [left; exact H|].
    destruct (Ascii.eqb_spec c "#") as [->|Hne]; [right; exact H|].
    left. destruct c as [[] [] [] [] [] [] [] []]; try exact H.
    exfalso; apply Hne; reflexivity. }
  intros H. apply Hbody. clear Hbody.
  destruct body as [|c1 [|c2 [|c3 [|c4 [|c5 [|c6 [|c7 more]]]]]]];
    try discriminate H.
  destruct (forallb PdfService.hex_digit [c1; c2; c3; c4; c5; c6]) eqn:E;
    [|discriminate H].
  cbn [forallb] in E. rewrite !hex_digit_hexadecimal in E.
  cbn [length Nat.eqb andb forallb]. exact E.
Qed.

Lemma hexToRgb_invalid hex :
  valid_hex_color hex = false -> PdfService.hexToRgb hex = black.
Proof.
  intros Hinvalid. unfold PdfService.hexToRgb.
  destruct (PdfService.exec_hex hex) as [groups|] eqn:E; [|reflexivity].
  apply exec_hex_valid in E. congruence.
Qed.

Lemma drawField_color lib height data cfg cfg' :
  PdfService.hexToRgb (PdfService.color cfg)
  = PdfService.hexToRgb (PdfService.color cfg') ->
  cfg' = with_color (PdfService.color cfg') cfg ->
  PdfService.drawField lib height data cfg
  = PdfService.drawField lib height data cfg'.
Proof.
  intros Hrgb ->. unfold PdfService.drawField. cbn in Hrgb |- *.
  rewrite Hrgb. reflexivity.
Qed.

Lemma drawFields_app lib height data before after :
  PdfService.drawFields lib height data (before ++ after)
  = (ops <- PdfService.drawFields lib height data before ;;
     rest <- PdfService.drawFields lib height data after ;;
     Ok (ops ++ rest)).
Proof.
  induction before as [|cfg before IH]; cbn [app PdfService.drawFields bind].
  - destruct (PdfService.drawFields lib height data after); reflexivity.
  - destruct (PdfService.drawField lib height data cfg) as [done|];
      [|reflexivity].
    cbn [bind]. rewrite IH.
    destruct (PdfService.drawFields lib height data before);
      [|reflexivity].
    cbn [bind].
    destruct (PdfService.drawFields lib height data after);
      [|reflexivity].
    cbn [bind]. destruct done; reflexivity.
Qed.

(** What one field draws, read off the answers of the library. *)
Lemma drawField_drawn lib height data cfg op :
  PdfService.drawField lib height data cfg = Ok (Some op) ->
  exists text textWidth,
    JsObject.get data (PdfService.field cfg) = Some text
    /\ truthy text = true
    /\ PdfService.getFont lib (PdfService.fontFamily cfg)
         (PdfService.fontWeight cfg) = Ok (PdfService.op_font op)
    /\ PdfService.widthOfTextAtSize lib (PdfService.op_font op) text
         (PdfService.fontSize cfg) = Ok textWidth
    /\ PdfService.drawText lib op = None
    /\ op = {| PdfService.op_text := text;
               PdfService.op_x :=
                 match PdfService.alignment cfg with
                 | PdfService.center =>
                     PrimFloat.sub (PdfService.x cfg)
                       (PrimFloat.div textWidth PrimFloat.two)
                 | PdfService.right =>
                     PrimFloat.sub (PdfService.x cfg) textWidth
                 | PdfService.left => PdfService.x cfg
                 end;
               PdfService.op_y :=
                 PrimFloat.sub (PrimFloat.sub height (PdfService.y cfg))
                   (PdfService.fontSize cfg);
               PdfService.op_size := PdfService.fontSize cfg;
               PdfService.op_font := PdfService.op_font op;
               PdfService.op_color :=
                 PdfService.hexToRgb (PdfService.color cfg) |}.
Proof.
  unfold PdfService.drawField, JsObject.read.
  destruct (JsObject.get data (PdfService.field cfg)) as [value|].
  - rewrite or_else_empty.
    destruct (truthy value) eqn:Ev; [|discriminate].
    destruct (PdfService.getFont lib _ _) as [font|]; [|discriminate].
    cbn [bind]. unfold PdfService.calculateXPosition.
    destruct (PdfService.widthOfTextAtSize lib font value _) as [tw|] eqn:Ew;
      [|discriminate].
    cbn [bind].
    destruct (PdfService.drawText lib _) eqn:Ed; [discriminate|].
    intros H. injection H as <-. cbn [PdfService.op_font].
    exists value, tw. repeat split; try assumption; reflexivity.
  - destruct (existsb _ _); [|discriminate].
    destruct (PdfService.getFont lib _ _); discriminate.
Qed.

(** A field that draws nothing has no value of its own, or an empty
    one. *)
Lemma drawField_skipped lib height data cfg :
  PdfService.drawField lib height data cfg = Ok None ->
  truthy (JsObject.get_or_empty data (PdfService.field cfg)) = false.
Proof.
  unfold PdfService.drawField, JsObject.read, JsObject.get_or_empty.
  destruct (JsObject.get data (PdfService.field cfg)) as [value|].
  - rewrite or_else_empty.
    destruct (truthy value) eqn:Ev; [|reflexivity].
    destruct (PdfService.getFont lib _ _) as [font|]; [|discriminate].
    cbn [bind].
    destruct (PdfService.calculateXPosition lib _ _ _ _ _); [|discriminate].
    cbn [bind]. destruct (PdfService.drawText lib _); discriminate.
  - reflexivity.
Qed.

(** The texts drawn are those of the fields that draw, in the order of
    the fields. *)
Lemma drawFields_drawn lib height data cfgs ops :
  PdfService.drawFields lib height data cfgs = Ok ops ->
  map PdfService.op_text ops
  = filter truthy
      (map (fun cfg => JsObject.get_or_empty data (PdfService.field cfg))
           cfgs)
  /\ (forall op, In op ops ->
        exists cfg, In cfg cfgs
                    /\ PdfService.drawField lib height data cfg
                       = Ok (Some op))
  /\ (forall cfg, In cfg cfgs ->
        truthy (JsObject.get_or_empty data (PdfService.field cfg)) = true ->
        exists op, In op ops
                   /\ PdfService.drawField lib height data cfg
                      = Ok (Some op)).
Proof.
  revert ops. induction cfgs as [|cfg cfgs IH]; intros ops.
  - cbn [PdfService.drawFields]. intros H. injection H as <-.
    split; [reflexivity|]. split; [intros op [] | intros cfg []].
  - cbn [PdfService.drawFields map filter].
    destruct (PdfService.drawField lib height data cfg) as [done|] eqn:Ed;
      [|discriminate].
    cbn [bind].
    destruct (PdfService.drawFields lib height data cfgs) as [rest|];
      [|discriminate].
    cbn [bind]. intros H. injection H as <-.
    destruct (IH rest eq_refl) as (IHt & IHfrom & IHto).
    destruct done as [op|].
    + destruct (drawField_drawn _ _ _ _ _ Ed)
        as (text & tw & Hget & Htruthy & _ & _ & _ & Hop).
      assert (Ht : PdfService.op_text op = text)
        by (rewrite Hop; reflexivity).
      assert (Hval : JsObject.get_or_empty data (PdfService.field cfg) = text)
        by (unfold JsObject.get_or_empty; rewrite Hget; reflexivity).
      rewrite Hval, Htruthy. cbn [map]. rewrite IHt, Ht.
      split; [reflexivity|]. split.
      * intros op' [<-|Hop'].
        -- exists cfg. split; [left; reflexivity | exact Ed].
        -- destruct (IHfrom op' Hop') as (cfg' & Hcfg' & Hd).
           exists cfg'. split; [right; exact Hcfg' | exact Hd].
      * intros cfg' [<-|Hcfg'] Hv.
        -- exists op. split; [left; reflexivity | exact Ed].
        -- destruct (IHto cfg' Hcfg' Hv) as (op' & Hop' & Hd).
           exists op'. split; [right; exact Hop' | exact Hd].
    + rewrite (drawField_skipped _ _ _ _ Ed).
      split; [exact IHt|]. split.
      * intros op' Hop'. destruct (IHfrom op' Hop') as (cfg' & Hcfg' & Hd).
        exists cfg'. split; [right; exact Hcfg' | exact Hd].
      * intros cfg' [<-|Hcfg'] Hv.
        -- rewrite (drawField_skipped _ _ _ _ Ed) in Hv. discriminate.
        -- destruct (IHto cfg' Hcfg' Hv) as (op' & Hop' & Hd).
           exists op'. split; [exact Hop' | exact Hd].
Qed.

(** A rendering that succeeds: its page, its texts and its bytes. *)
Lemma generateCertificate_done lib templateBuffer data cfgs rendered :
  PdfService.generateCertificate lib templateBuffer data cfgs = Ok rendered ->
  exists width height pages,
    PdfService.load lib templateBuffer = Ok ((width, height) :: pages)
    /\ PdfService.drawFields lib height data cfgs
       = Ok (PdfService.drawn rendered)
    /\ PdfService.save lib templateBuffer (PdfService.drawn rendered)
       = Ok (PdfService.bytes rendered).
Proof.
  unfold PdfService.generateCertificate.
  destruct (PdfService.load lib templateBuffer) as [pages|]; [|discriminate].
  cbn [bind]. destruct pages as [|[width height] pages]; [discriminate|].
  destruct (PdfService.drawFields lib height data cfgs) as [ops|] eqn:Ef;
    [|discriminate].
  cbn [bind].
  destruct (PdfService.save lib templateBuffer ops) as [pdfBytes|] eqn:Es;
    [|discriminate].
  cbn [bind]. intros H. injection H as <-.
  exists width, height, pages. cbn [PdfService.drawn PdfService.bytes].
  split; [reflexivity|]. split; [exact Ef | exact Es].
Qed.

(** C10.  A colour string that is not six hexadecimal digits after an
    optional [#] is converted, without any error, to black
    (r = g = b = 0).  A field with such a colour and a value is drawn, in
    black: when the library reads the template, provides the font,
    measures the text, accepts a black text and saves the document, the
    rendering succeeds and the one text it draws is the value in black.
    Among several fields the rendering is exactly the one for the colour
    [#000000], so it fails for no reason that it would not fail for with
    a black field, and when it succeeds every field with such a colour
    and a value has its text drawn in black. *)
Theorem invalid_color_is_black (hex : jstring) :
  valid_hex_color hex = false ->
  PdfService.hexToRgb hex = black
  /\ (forall lib templateBuffer data cfg width height pages text font,
        PdfService.color cfg = hex ->
        PdfService.load lib templateBuffer = Ok ((width, height) :: pages) ->
        JsObject.get data (PdfService.field cfg) = Some text ->
        truthy text = true ->
        PdfService.getFont lib (PdfService.fontFamily cfg)
          (PdfService.fontWeight cfg) = Ok font ->
        (exists textWidth,
           PdfService.widthOfTextAtSize lib font text
             (PdfService.fontSize cfg) = Ok textWidth) ->
        (forall op, PdfService.op_color op = black ->
                    PdfService.drawText lib op = None) ->
        (forall ops, exists pdfBytes,
           PdfService.save lib templateBuffer ops = Ok pdfBytes) ->
        exists op pdfBytes,
          PdfService.generateCertificate lib templateBuffer data [cfg]
          = Ok {| PdfService.drawn := [op];
                  PdfService.bytes := pdfBytes |}
          /\ PdfService.save lib templateBuffer [op] = Ok pdfBytes
          /\ PdfService.op_text op = text
          /\ PdfService.op_font op = font
          /\ PdfService.op_size op = PdfService.fontSize cfg
          /\ PdfService.op_color op = black)
  /\ (forall lib templateBuffer data before cfg after,
        PdfService.color cfg = hex ->
        PdfService.generateCertificate lib templateBuffer data
          (before ++ cfg :: after)
        = PdfService.generateCertificate lib templateBuffer data
            (before ++ with_color (lit "#000000") cfg :: after))
  /\ (forall lib templateBuffer data cfgs rendered cfg,
        PdfService.generateCertificate lib templateBuffer data cfgs
        = Ok rendered ->
        In cfg cfgs ->
        PdfService.color cfg = hex ->
        truthy (JsObject.get_or_empty data (PdfService.field cfg)) = true ->
        exists op,
          In op (PdfService.drawn rendered)
          /\ PdfService.op_text op
             = JsObject.get_or_empty data (PdfService.field cfg)
          /\ PdfService.op_size op = PdfService.fontSize cfg
          /\ PdfService.op_color op = black).
Proof.
  intros Hinvalid. pose proof (hexToRgb_invalid hex Hinvalid) as Hblack.
  split; [exact Hblack|]. split; [|split].
  - intros lib templateBuffer data cfg width height pages text font
      Hcolor Hload Hget Htext Hfont [textWidth Hwidth] Hdraw Hsave.
    unfold PdfService.generateCertificate. rewrite Hload. cbn [bind].
    cbn [PdfService.drawFields]. unfold PdfService.drawField, JsObject.read.
    rewrite Hget, or_else_empty, Htext, Hfont. cbn [bind].
    unfold PdfService.calculateXPosition. rewrite Hwidth. cbn [bind].
    rewrite Hcolor, Hblack. rewrite Hdraw by reflexivity. cbn [bind].
    match goal with
    | |- context [PdfService.save lib templateBuffer [?o]] =>
        destruct (Hsave [o]) as [pdfBytes Hbytes]; exists o, pdfBytes
    end.
    rewrite Hbytes. cbn [bind]. repeat split; reflexivity.
  - intros lib templateBuffer data before cfg after Hcolor.
    unfold PdfService.generateCertificate.
    destruct (PdfService.load lib templateBuffer) as [pages|m];
      [|reflexivity].
    cbn [bind]. destruct pages as [|[width height] pages]; [reflexivity|].
    rewrite !drawFields_app. cbn [PdfService.drawFields].
    rewrite (drawField_color lib height data cfg
               (with_color (lit "#000000") cfg)); [reflexivity| |reflexivity].
    rewrite Hcolor, Hblack. reflexivity.
  - intros lib templateBuffer data cfgs rendered cfg Hdone Hin Hcolor Hvalue.
    destruct (generateCertificate_done _ _ _ _ _ Hdone)
      as (width & height & pages & _ & Hfields & _).
    destruct (drawFields_drawn _ _ _ _ _ Hfields) as (_ & _ & Hto).
    destruct (Hto cfg Hin Hvalue) as (op & Hop & Hd).
    destruct (drawField_drawn _ _ _ _ _ Hd)
      as (text & tw & Hget & _ & _ & _ & _ & Heq).
    exists op. split; [exact Hop|]. rewrite Heq.
    cbn [PdfService.op_text PdfService.op_size PdfService.op_color].
    unfold JsObject.get_or_empty. rewrite Hget, Hcolor, Hblack.
    repeat split; reflexivity.
Qed.

(** A field of the colour [red] on the template of the installation:
    the name is drawn, in black. *)
Lemma invalid_color_is_black_witness :
  exists op pdfBytes,
    PdfService.generateCertificate Demo.lib (lit "%PDF-1.7")
      [(lit "name", lit "Jane Doe")] [with_color (lit "red") Demo.nameField]
    = Ok {| PdfService.drawn := [op]; PdfService.bytes := pdfBytes |}
    /\ PdfService.op_text op = lit "Jane Doe"
    /\ PdfService.op_color op = black.
Proof.
  destruct (proj1 (proj2 (invalid_color_is_black (lit "red") eq_refl))
              Demo.lib (lit "%PDF-1.7") [(lit "name", lit "Jane Doe")]
              (with_color (lit "red") Demo.nameField) _ _ _ _ _
              eq_refl eq_refl eq_refl eq_refl eq_refl
              (ex_intro _ _ eq_refl) (fun _ _ => eq_refl)
              (fun ops => ex_intro _ _ eq_refl))
    as (op & pdfBytes & Hdone & _ & Htext & _ & _ & Hcolor).
  exists op, pdfBytes. split; [exact Hdone|]. split; assumption.
Defined.

(** ** Validation of an imported file *)

(** The validation pass on its own only warns about e-mail addresses: a
    parsed file with rows, no row error from the parser and a header for
    every required field is valid. *)
Lemma validation_only_warns parsed required :
  ParsedCSV.totalRows parsed <> 0 ->
  ParsedCSV.errors parsed = [] ->
  (forall field, In field required ->
     CsvService.has_field
       (map (fun h => filter (fun c => negb (is_space c)) (toLowerCase h))
            (ParsedCSV.headers parsed)) field = true) ->
  let v := CsvService.validateCSVForCertificates parsed required in
  CSVValidationResult.isValid v = true /\ CSVValidationResult.errors v = [].
Proof.
  intros Hrows Herrors Hfields. unfold CsvService.validateCSVForCertificates.
  destruct (Nat.eqb_spec (ParsedCSV.totalRows parsed) 0) as [H0|_];
    [contradiction|].
  cbn [CSVValidationResult.isValid CSVValidationResult.errors].
  rewrite Herrors. cbn [map]. rewrite app_nil_r.
  assert (Hnone :
    flat_map
      (fun field =>
         if CsvService.has_field
              (map (fun h => filter (fun c => negb (is_space c))
                               (toLowerCase h))
                   (ParsedCSV.headers parsed)) field
         then []
         else [lit "Required field " ++ [CsvService.quote] ++ field
                 ++ [CsvService.quote] ++ lit " not found in CSV headers"])
      required = []).
  { induction required as [|field rest IH]; [reflexivity|].
    cbn [flat_map]. rewrite Hfields by (left; reflexivity).
    apply IH. intros f Hf; apply Hfields; right; exact Hf. }
  rewrite Hnone. split; reflexivity.
Qed.

Lemma on_record_reports records record lines :
  In (record, lines) records ->
  CsvService.lacks_email record = true ->
  flat_map (fun rl => CsvService.on_record (fst rl) (snd rl)) records <> [].
Proof.
  intros Hin Hlacks.
  induction records as [|rl records IH]; [contradiction|].
  cbn [flat_map]. intros Hnil. apply app_eq_nil in Hnil.
  destruct Hnil as [Hhere Hlater]. destruct Hin as [->|Hin].
  - cbn [fst snd] in Hhere. unfold CsvService.on_record in Hhere.
    rewrite Hlacks in Hhere. discriminate Hhere.
  - exact (IH Hin Hlater).
Qed.

(** C2 (what the code does).  A file in which some record has no e-mail
    address ([email], [Email] and [EMAIL] all missing or empty) never
    validates: the parser hook reports the record as an error, and the
    validation pass turns every such report into an error of its own, on
    top of the warning it issues for the empty address. *)
Theorem missing_email_fails_validation
    (records : list (JsObject.object * N)) (required : list jstring) :
  (exists record lines,
     In (record, lines) records /\ CsvService.lacks_email record = true) ->
  let v :=
    CsvService.validateCSVForCertificates (CsvService.parseCSV records)
      required in
  CSVValidationResult.isValid v = false
  /\ CSVValidationResult.errors v <> [].
Proof.
  intros (record & lines & Hin & Hlacks).
  pose proof (on_record_reports records record lines Hin Hlacks) as Hreported.
  unfold CsvService.validateCSVForCertificates, CsvService.parseCSV.
  cbn [ParsedCSV.totalRows ParsedCSV.errors ParsedCSV.rows ParsedCSV.headers].
  rewrite length_map.
  destruct (Nat.eqb_spec (length records) 0) as [Hempty|_].
  { destruct records; [contradiction | discriminate Hempty]. }
  cbn [CSVValidationResult.isValid CSVValidationResult.errors].
  match goal with
  | |- Nat.eqb (length ?errs) 0 = false /\ _ =>
      assert (Herrs : errs <> [])
  end.
  { intros Hnil. apply app_eq_nil in Hnil. destruct Hnil as [_ Hnil].
    apply map_eq_nil in Hnil. contradiction. }
  split; [|exact Herrs].
  destruct (_ ++ _); [contradiction Herrs; reflexivity | reflexivity].
Qed.

(** The file of three rows with two valid addresses and one missing: not
    valid, one error, one warning. *)
Lemma missing_email_fails_validation_witness :
  CSVValidationResult.isValid
    (CsvService.validateCSVForCertificates
       (CsvService.parseCSV Demo.three_rows) CsvService.default_required)
  = false
  /\ CsvService.validateCSVForCertificates
       (CsvService.parseCSV Demo.three_rows) CsvService.default_required
     = {| CSVValidationResult.isValid := false;
          CSVValidationResult.errors := [lit "Row 3: Missing email field"];
          CSVValidationResult.warnings :=
            [lit "1 row(s) have empty email addresses"] |}.
Proof.
  split; [|vm_compute; reflexivity].
  apply (missing_email_fails_validation Demo.three_rows
           CsvService.default_required).
  exists [(lit "name", lit "Bob"); (lit "email", [])], 3%N.
  split; [right; left; reflexivity | reflexivity].
Defined.

(** ** Code units *)

Lemma is_space_canonical c : is_space c = space_code (canonicalize c).
Proof. destruct c as [[] [] [] [] [] [] [] []]; reflexivity. Qed.

Lemma ci_char_space a b : ci_char a b = true -> is_space a = is_space b.
Proof.
  unfold ci_char. intros H. apply N.eqb_eq in H.
  rewrite !is_space_canonical, H. reflexivity.
Qed.

Lemma ci_char_close c : ci_char c "}" = true -> Ascii.eqb c "}" = true.
Proof. destruct c as [[] [] [] [] [] [] [] []]; intros H; try discriminate H; reflexivity. Qed.

Lemma close_not_space c : Ascii.eqb "}" c = true -> is_space c = false.
Proof. intros H; apply Ascii.eqb_eq in H; subst c; reflexivity. Qed.

Lemma syntax_char_close c : Ascii.eqb c "}" = true -> Placeholder.syntax_char c = true.
Proof. intros H; apply Ascii.eqb_eq in H; subst c; reflexivity. Qed.

Lemma word_is_plain c : is_word c = true -> Placeholder.syntax_char c = false.
Proof. destruct c as [[] [] [] [] [] [] [] []]; intros H; try discriminate H; reflexivity. Qed.

Lemma word_not_space c : is_word c = true -> is_space c = false.
Proof. destruct c as [[] [] [] [] [] [] [] []]; intros H; try discriminate H; reflexivity. Qed.

Lemma word_not_brace c : is_word c = true -> brace c = false.
Proof. destruct c as [[] [] [] [] [] [] [] []]; intros H; try discriminate H; reflexivity. Qed.

(** ** Matching a token *)

Lemma ends_tight_tail c s : ends_tight (c :: s) = true -> ends_tight s = true.
Proof. destruct s; [reflexivity | exact (fun H => H)]. Qed.

Lemma ends_tight_space c s :
  ends_tight (c :: s) = true -> is_space c = true -> s <> [].
Proof.
  intros H Hc ->. cbn in H. rewrite Hc in H. discriminate H.
Qed.

Lemma eqb_sym_false a b : Ascii.eqb a b = false -> Ascii.eqb b a = false.
Proof. rewrite (Ascii.eqb_sym b a). exact (fun H => H). Qed.

Lemma not_brace_close c : brace c = false -> Ascii.eqb "}" c = false.
Proof.
  unfold brace. intros H. apply orb_false_iff in H. apply eqb_sym_false, H.
Qed.

Lemma not_brace_open c : brace c = false -> Ascii.eqb "{" c = false.
Proof.
  unfold brace. intros H. apply orb_false_iff in H. apply eqb_sym_false, H.
Qed.

Lemma well_formed_token a n b :
  well_formed (Token a n b) = true ->
  forallb is_space a = true /\ starts_tight n = true /\ ends_tight n = true
  /\ forallb (fun c => negb (brace c)) n = true
  /\ forallb is_space b = true.
Proof.
  unfold well_formed, label. rewrite !andb_true_iff. tauto.
Qed.

Lemma key_ok_parts key :
  key_ok key = true ->
  Placeholder.plain_key key = true /\ starts_tight key = true
  /\ ends_tight key = true.
Proof. unfold key_ok. rewrite !andb_true_iff. tauto. Qed.

Section Token.
Import Placeholder.

Variable rest : jstring.

Lemma strip_close_after_spaces b :
  forallb is_space b = true ->
  strip close_braces (dropWhile is_space (b ++ close_braces ++ rest))
  = Some rest.
Proof.
  induction b as [|x b IH]; cbn [forallb app dropWhile]; [reflexivity|].
  intros H. apply andb_true_iff in H. destruct H as [Hx Hb].
  rewrite Hx. exact (IH Hb).
Qed.

Lemma strip_close_label n t :
  n <> [] -> ends_tight n = true ->
  forallb (fun c => negb (brace c)) n = true ->
  strip close_braces (dropWhile is_space (n ++ t)) = None.
Proof.
  induction n as [|c n IH]; [contradiction|]. intros _ Hend Hn.
  cbn [forallb] in Hn. apply andb_true_iff in Hn. destruct Hn as [Hc Hn].
  apply negb_true_iff in Hc.
  assert (Hstop : strip close_braces (c :: n ++ t) = None).
  { cbn [strip close_braces]. rewrite (not_brace_close c Hc). reflexivity. }
  cbn [app dropWhile]. destruct (is_space c) eqn:Ec; [|exact Hstop].
  apply IH; [|exact (ends_tight_tail _ _ Hend)|exact Hn].
  exact (ends_tight_space _ _ Hend Ec).
Qed.

Lemma match_tail_cons k key c s :
  match_tail (k :: key) (c :: s)
  = if ci_char k c then match_tail key s else None.
Proof.
  unfold match_tail. cbn [match_key]. destruct (ci_char k c); reflexivity.
Qed.

(** A key cannot be matched inside the white space before the closing
    braces. *)
Lemma match_tail_spaces b :
  forallb is_space b = true ->
  forall key,
    key <> [] -> ends_tight key = true -> plain_key key = true ->
    match_tail key (b ++ close_braces ++ rest) = None.
Proof.
  induction b as [|x b IH]; intros Hb [|k key] Hne Hend Hplain;
    try contradiction; cbn [plain_key forallb] in Hplain;
    apply andb_true_iff in Hplain; destruct Hplain as [Hk Hplain];
    apply negb_true_iff in Hk.
  - cbn [app close_braces]. rewrite match_tail_cons.
    destruct (ci_char k "}") eqn:E; [|reflexivity].
    apply ci_char_close, syntax_char_close in E. congruence.
  - cbn [forallb] in Hb. apply andb_true_iff in Hb. destruct Hb as [Hx Hb].
    cbn [app]. rewrite match_tail_cons.
    destruct (ci_char k x) eqn:E; [|reflexivity].
    apply ci_char_space in E. rewrite Hx in E.
    apply IH; [exact Hb| |exact (ends_tight_tail _ _ Hend)|exact Hplain].
    exact (ends_tight_space _ _ Hend E).
Qed.

(** The key against the name of the token. *)
Lemma match_tail_label b :
  forallb is_space b = true ->
  forall key n,
    plain_key key = true -> ends_tight key = true ->
    ends_tight n = true -> forallb (fun c => negb (brace c)) n = true ->
    match_tail key (n ++ b ++ close_braces ++ rest)
    = if ci_equal key n then Some rest else None.
Proof.
  intros Hb. induction key as [|k key IH]; intros [|c n] Hplain Hend Hn Hnb.
  - cbn [app ci_equal]. unfold match_tail. cbn [match_key].
    exact (strip_close_after_spaces b Hb).
  - cbn [ci_equal]. unfold match_tail. cbn [match_key].
    apply strip_close_label; [discriminate | exact Hn | exact Hnb].
  - cbn [app ci_equal].
    apply match_tail_spaces; [exact Hb | discriminate | exact Hend
                             | exact Hplain].
  - cbn [app ci_equal]. rewrite match_tail_cons.
    destruct (ci_char k c); [|reflexivity]. cbn [andb].
    cbn [plain_key forallb] in Hplain, Hnb.
    apply andb_true_iff in Hplain. apply andb_true_iff in Hnb.
    apply IH; [apply Hplain | exact (ends_tight_tail _ _ Hend)
              | exact (ends_tight_tail _ _ Hn) | apply Hnb].
Qed.

(** The white space before the name cannot be taken for the start of
    the key. *)
Lemma match_body_lead key s a :
  starts_tight key = true -> starts_tight s = true ->
  forallb is_space a = true ->
  match_body key (a ++ s) = match_tail key s.
Proof.
  intros Hkey Hs. induction a as [|x a IH]; intros Ha.
  - destruct s as [|c s]; [discriminate Hs|].
    cbn [starts_tight] in Hs. apply negb_true_iff in Hs.
    cbn [app match_body]. rewrite Hs. reflexivity.
  - cbn [forallb] in Ha. apply andb_true_iff in Ha. destruct Ha as [Hx Ha].
    cbn [app match_body]. rewrite Hx, (IH Ha).
    destruct (match_tail key s); [reflexivity|].
    destruct key as [|k key]; [discriminate Hkey|].
    cbn [starts_tight] in Hkey. apply negb_true_iff in Hkey.
    rewrite match_tail_cons.
    destruct (ci_char k x) eqn:E; [|reflexivity].
    apply ci_char_space in E. congruence.
Qed.

Lemma token_text_app a n b :
  token_text a n b ++ rest
  = "{" :: "{" :: a ++ n ++ b ++ close_braces ++ rest.
Proof.
  unfold token_text, open_braces. cbn [app]. rewrite <- !app_assoc.
  reflexivity.
Qed.

(** The pattern of a key against a token: it matches the whole token
    when the name is the key up to case, and not at all otherwise. *)
Lemma match_at_token key a n b :
  key_ok key = true -> well_formed (Token a n b) = true ->
  match_at key (token_text a n b ++ rest)
  = if ci_equal key n then Some rest else None.
Proof.
  intros Hkey Hwf.
  destruct (key_ok_parts _ Hkey) as (Hplain & Hstart & Hend).
  destruct (well_formed_token _ _ _ Hwf) as (Ha & Hn1 & Hn2 & Hn3 & Hb).
  rewrite token_text_app. unfold match_at.
  cbn [strip open_braces Ascii.eqb Bool.eqb].
  rewrite match_body_lead; try assumption.
  - apply match_tail_label; assumption.
  - destruct n; [discriminate Hn1 | exact Hn1].
Qed.

(** The serial pattern against a token. *)
Lemma match_sn_token a n b :
  well_formed (Token a n b) = true ->
  match_sn (token_text a n b ++ rest)
  = if is_serial a n b then Some rest else None.
Proof.
  intros Hwf.
  destruct (well_formed_token _ _ _ Hwf) as (Ha & Hn1 & Hn2 & Hn3 & Hb).
  rewrite token_text_app. unfold match_sn.
  cbn [strip open_braces Ascii.eqb Bool.eqb].
  destruct a as [|x a].
  - destruct n as [|c1 [|c2 n]]; [discriminate Hn1| |].
    + (* a name of one letter *)
      cbn [app is_serial ci_equal lit list_ascii_of_string].
      rewrite andb_false_r.
      destruct b as [|y b]; cbn [app close_braces].
      * destruct (ci_char "s" c1); reflexivity.
      * cbn [forallb] in Hb. apply andb_true_iff in Hb.
        destruct Hb as [Hy _].
        destruct (ci_char "n" y) eqn:E;
          [apply ci_char_space in E; rewrite Hy in E; discriminate E|].
        rewrite andb_false_r. reflexivity.
    + cbn [app is_serial ci_equal lit list_ascii_of_string].
      cbn [forallb] in Hn3.
      apply andb_true_iff in Hn3; destruct Hn3 as [_ Hn3].
      apply andb_true_iff in Hn3; destruct Hn3 as [_ Hn3].
      destruct (ci_char "s" c1), (ci_char "n" c2); cbn [andb];
        try (destruct b; reflexivity).
      destruct n as [|c3 n].
      * destruct b as [|y b]; cbn [app close_braces]; [reflexivity|].
        cbn [forallb] in Hb. apply andb_true_iff in Hb.
        destruct Hb as [Hy _].
        cbn [strip close_braces].
        destruct (Ascii.eqb "}" y) eqn:E; [|reflexivity].
        apply close_not_space in E. congruence.
      * cbn [forallb] in Hn3. apply andb_true_iff in Hn3.
        destruct Hn3 as [Hc3 _]. apply negb_true_iff in Hc3.
        cbn [app strip close_braces].
        rewrite (not_brace_close c3 Hc3). destruct b; reflexivity.
  - (* white space after the opening braces *)
    cbn [forallb] in Ha. apply andb_true_iff in Ha. destruct Ha as [Hx _].
    cbn [app is_serial].
    destruct (ci_char "s" x) eqn:E;
      [apply ci_char_space in E; rewrite Hx in E; discriminate E|].
    destruct (a ++ n ++ b ++ close_braces ++ rest); reflexivity.
Qed.

End Token.

(** ** Replacing every match *)

Lemma value_ok_no_open v : value_ok v = true -> no_open v = true.
Proof.
  unfold value_ok, no_open. induction v as [|c v IH]; [reflexivity|].
  cbn [forallb]. rewrite !andb_true_iff, !negb_true_iff, orb_false_iff.
  intros [[_ Hc] Hv]. split; [exact Hc | exact (IH Hv)].
Qed.

Lemma expand_plain repl matched before after :
  value_ok repl = true -> Placeholder.expand repl matched before after = repl.
Proof.
  unfold value_ok. induction repl as [|c repl IH]; [reflexivity|].
  cbn [forallb]. rewrite andb_true_iff, negb_true_iff, orb_false_iff.
  intros [[Hc _] Hrepl]. cbn [Placeholder.expand]. rewrite Hc, (IH Hrepl).
  reflexivity.
Qed.

Lemma strip_open_other c s :
  Ascii.eqb c "{" = false -> strip Placeholder.open_braces (c :: s) = None.
Proof.
  intros H. cbn [strip Placeholder.open_braces].
  rewrite (eqb_sym_false _ _ H). reflexivity.
Qed.

Lemma strip_open_single c s :
  Ascii.eqb c "{" = false ->
  strip Placeholder.open_braces ("{" :: c :: s) = None.
Proof.
  intros H. cbn [strip Placeholder.open_braces].
  rewrite Ascii.eqb_refl, (eqb_sym_false _ _ H). reflexivity.
Qed.

Lemma no_open_app a b : no_open (a ++ b) = no_open a && no_open b.
Proof. apply forallb_app. Qed.

Lemma spaces_no_open a : forallb is_space a = true -> no_open a = true.
Proof.
  unfold no_open. induction a as [|c a IH]; [reflexivity|].
  cbn [forallb]. rewrite !andb_true_iff. intros [Hc Ha].
  split; [|exact (IH Ha)]. apply negb_true_iff.
  destruct (Ascii.eqb_spec c "{") as [->|]; [discriminate Hc | reflexivity].
Qed.

Lemma label_no_open n :
  forallb (fun c => negb (brace c)) n = true -> no_open n = true.
Proof.
  unfold no_open, brace. induction n as [|c n IH]; [reflexivity|].
  cbn [forallb]. rewrite !andb_true_iff, !negb_true_iff, orb_false_iff.
  intros [[Hc _] Hn]. split; [exact Hc | exact (IH Hn)].
Qed.

Section Scan.
Import Placeholder.

Variable m : jstring -> option jstring.
Variable repl : jstring.

(** The pattern starts with two opening braces. *)
Hypothesis m_open : forall s, strip open_braces s = None -> m s = None.
Hypothesis repl_ok : value_ok repl = true.

Lemma replace_go_before s :
  forall k before before',
    replace_go m repl k before s = replace_go m repl k before' s.
Proof.
  induction s as [|c s IH]; intros k before before'; [reflexivity|].
  cbn [replace_go]. destruct k as [|k]; [|apply IH].
  destruct (m (c :: s)) as [rest|].
  - rewrite !expand_plain by exact repl_ok. f_equal. apply IH.
  - f_equal. apply IH.
Qed.

Lemma replace_go_skip pre rest :
  forall before,
    replace_go m repl (length pre) before (pre ++ rest)
    = replace_all m repl rest.
Proof.
  induction pre as [|c pre IH]; intros before.
  - apply replace_go_before.
  - cbn [length app replace_go]. apply IH.
Qed.

(** Text without an opening brace passes through. *)
Lemma replace_all_literal pre rest :
  no_open pre = true ->
  replace_all m repl (pre ++ rest) = pre ++ replace_all m repl rest.
Proof.
  unfold replace_all, no_open. induction pre as [|c pre IH];
    [reflexivity|].
  cbn [forallb]. rewrite andb_true_iff, negb_true_iff. intros [Hc Hpre].
  cbn [app replace_go]. rewrite (m_open _ (strip_open_other c _ Hc)).
  f_equal. rewrite (replace_go_before _ 0 _ []). exact (IH Hpre).
Qed.

(** A match is replaced, and the search goes on after it. *)
Lemma replace_all_hit tok rest :
  tok <> [] -> m (tok ++ rest) = Some rest ->
  replace_all m repl (tok ++ rest) = repl ++ replace_all m repl rest.
Proof.
  intros Hne Hm. destruct tok as [|c tok]; [contradiction|].
  unfold replace_all at 1. cbn [app replace_go].
  cbn [app] in Hm. rewrite Hm.
  rewrite expand_plain by exact repl_ok. f_equal.
  replace (length (c :: tok ++ rest) - length rest - 1) with (length tok).
  - apply replace_go_skip.
  - cbn [length]. rewrite length_app. lia.
Qed.

Variable hit : jstring -> jstring -> jstring -> bool.

Hypothesis m_token :
  forall a n b rest,
    well_formed (Token a n b) = true ->
    m (token_text a n b ++ rest) = if hit a n b then Some rest else None.

(** A token that does not match passes through. *)
Lemma replace_all_miss a n b rest :
  well_formed (Token a n b) = true -> hit a n b = false ->
  replace_all m repl (token_text a n b ++ rest)
  = token_text a n b ++ replace_all m repl rest.
Proof.
  intros Hwf Hmiss.
  pose proof (m_token a n b rest Hwf) as Hm. rewrite Hmiss in Hm.
  destruct (well_formed_token _ _ _ Hwf) as (Ha & Hn1 & _ & Hn3 & Hb).
  assert (Hinner : no_open (a ++ n ++ b ++ close_braces) = true).
  { rewrite !no_open_app, (spaces_no_open a Ha), (label_no_open n Hn3),
      (spaces_no_open b Hb). reflexivity. }
  rewrite token_text_app in Hm.
  rewrite (token_text_app rest), (token_text_app (replace_all m repl rest)).
  unfold replace_all at 1. cbn [replace_go]. rewrite Hm. f_equal.
  assert (Hfirst : exists c more,
            a ++ n ++ b ++ close_braces ++ rest = c :: more
            /\ Ascii.eqb c "{" = false).
  { destruct a as [|x a].
    - destruct n as [|c n]; [discriminate Hn1|].
      exists c, (n ++ b ++ close_braces ++ rest). split; [reflexivity|].
      cbn [forallb] in Hn3. apply andb_true_iff in Hn3.
      destruct Hn3 as [Hc _]. apply negb_true_iff in Hc.
      unfold brace in Hc. apply orb_false_iff in Hc. apply Hc.
    - exists x, (a ++ n ++ b ++ close_braces ++ rest).
      split; [reflexivity|].
      cbn [forallb] in Ha. apply andb_true_iff in Ha.
      destruct Ha as [Hx _].
      destruct (Ascii.eqb_spec x "{") as [->|];
        [discriminate Hx | reflexivity]. }
  destruct Hfirst as (c & more & Heq & Hc).
  cbn [replace_go]. rewrite Heq.
  rewrite (m_open _ (strip_open_single c more Hc)). rewrite <- Heq.
  f_equal. rewrite (replace_go_before _ 0 _ []).
  pose proof (replace_all_literal (a ++ n ++ b ++ close_braces) rest Hinner)
    as Hlit.
  rewrite <- !app_assoc in Hlit. exact Hlit.
Qed.

(** One replacement over a whole template. *)
Lemma replace_all_segments segs :
  forallb well_formed segs = true ->
  replace_all m repl (template_text segs)
  = template_text (map (swap hit repl) segs).
Proof.
  induction segs as [|seg segs IH]; [reflexivity|].
  cbn [forallb]. rewrite andb_true_iff. intros [Hseg Hsegs].
  unfold template_text in *. cbn [flat_map map].
  destruct seg as [text | a n b]; cbn [segment_text swap].
  - rewrite replace_all_literal by exact Hseg. rewrite (IH Hsegs).
    reflexivity.
  - destruct (hit a n b) eqn:Ehit; cbn [segment_text].
    + rewrite replace_all_hit.
      * rewrite (IH Hsegs). reflexivity.
      * unfold token_text, open_braces. discriminate.
      * rewrite (m_token a n b _ Hseg), Ehit. reflexivity.
    + rewrite replace_all_miss by assumption. rewrite (IH Hsegs).
      reflexivity.
Qed.

Lemma swap_well_formed segs :
  forallb well_formed segs = true ->
  forallb well_formed (map (swap hit repl) segs) = true.
Proof.
  induction segs as [|seg segs IH]; [reflexivity|].
  cbn [forallb map]. rewrite !andb_true_iff. intros [Hseg Hsegs].
  split; [|exact (IH Hsegs)].
  destruct seg as [text | a n b]; cbn [swap]; [exact Hseg|].
  destruct (hit a n b); [|exact Hseg].
  exact (value_ok_no_open repl repl_ok).
Qed.

End Scan.

(** ** Substitution over a whole template *)

Lemma match_at_open key s :
  strip Placeholder.open_braces s = None -> Placeholder.match_at key s = None.
Proof. unfold Placeholder.match_at. intros ->. reflexivity. Qed.

Lemma match_sn_open s :
  strip Placeholder.open_braces s = None -> Placeholder.match_sn s = None.
Proof. unfold Placeholder.match_sn. intros ->. reflexivity. Qed.

Lemma render_segments E entries :
  entries_ok entries ->
  forall segs,
    forallb well_formed segs = true ->
    EmailService.renderEmailTemplate_entries E entries (template_text segs)
    = Ok (template_text (after_entries entries segs)).
Proof.
  unfold entries_ok, after_entries.
  induction entries as [|[key value] entries IH]; intros Hok segs Hwf;
    [reflexivity|].
  destruct (Hok key value (or_introl eq_refl)) as [Hkey Hvalue].
  cbn [EmailService.renderEmailTemplate_entries fold_left fst snd].
  unfold Placeholder.replace_placeholder.
  rewrite (proj1 (key_ok_parts key Hkey)), or_else_empty.
  cbn [bind]. unfold Placeholder.replace_plain.
  rewrite (replace_all_segments (Placeholder.match_at key) value
             (match_at_open key) Hvalue (fun _ n _ => ci_equal key n)
             (fun a n b rest => match_at_token rest key a n b Hkey)
             segs Hwf).
  apply IH.
  - intros k v Hin. apply Hok. right; exact Hin.
  - apply swap_well_formed; assumption.
Qed.

Lemma after_entries_literal entries text :
  fold_left
    (fun seg kv => swap (fun _ n _ => ci_equal (fst kv) n) (snd kv) seg)
    entries (Literal text)
  = Literal text.
Proof. induction entries as [|kv entries IH]; [reflexivity | exact IH]. Qed.

Lemma after_entries_map entries :
  forall segs,
    after_entries entries segs
    = map (fun seg =>
             fold_left
               (fun seg kv =>
                  swap (fun _ n _ => ci_equal (fst kv) n) (snd kv) seg)
               entries seg)
          segs.
Proof.
  unfold after_entries. induction entries as [|kv entries IH]; intros segs.
  - cbn [fold_left]. symmetry. apply map_id.
  - cbn [fold_left]. rewrite IH, map_map. reflexivity.
Qed.

Lemma after_entries_text entries seg :
  segment_text
    (fold_left
       (fun seg kv => swap (fun _ n _ => ci_equal (fst kv) n) (snd kv) seg)
       entries seg)
  = substituted entries seg.
Proof.
  destruct seg as [text | a n b].
  - rewrite after_entries_literal. reflexivity.
  - induction entries as [|[key value] entries IH]; [reflexivity|].
    cbn [fold_left swap fst snd substituted lookup_ci].
    destruct (ci_equal key n).
    + rewrite after_entries_literal. reflexivity.
    + exact IH.
Qed.

Lemma template_after_entries entries segs :
  template_text (after_entries entries segs)
  = flat_map (substituted entries) segs.
Proof.
  rewrite after_entries_map. unfold template_text.
  induction segs as [|seg segs IH]; [reflexivity|].
  cbn [map flat_map]. rewrite after_entries_text, IH. reflexivity.
Qed.

(** Every identifier is a label, and a key that is an identifier is a key
    the theorems below accept. *)
Lemma words_ends_tight s : forallb is_word s = true -> ends_tight s = true.
Proof.
  induction s as [|c s IH]; [reflexivity|].
  cbn [forallb]. rewrite andb_true_iff. intros [Hc Hs].
  cbn [ends_tight]. destruct s; [|exact (IH Hs)].
  rewrite (word_not_space c Hc). reflexivity.
Qed.

Lemma identifier_label s : identifier s = true -> label s = true.
Proof.
  unfold identifier, label. rewrite !andb_true_iff. intros [Hne Hw].
  repeat split.
  - destruct s as [|c s]; [discriminate Hne|].
    cbn [forallb] in Hw. apply andb_true_iff in Hw.
    cbn [starts_tight]. rewrite (word_not_space c (proj1 Hw)). reflexivity.
  - exact (words_ends_tight s Hw).
  - clear Hne. induction s as [|c s IH]; [reflexivity|].
    cbn [forallb] in Hw |- *. apply andb_true_iff in Hw.
    rewrite (word_not_brace c (proj1 Hw)). exact (IH (proj2 Hw)).
Qed.

Lemma identifier_key_ok s : identifier s = true -> key_ok s = true.
Proof.
  intros H. pose proof (identifier_label s H) as Hl.
  unfold identifier, label, key_ok in *.
  rewrite !andb_true_iff in *. destruct H as [_ Hw].
  repeat split; try apply Hl.
  unfold Placeholder.plain_key. clear Hl.
  induction s as [|c s IH]; [reflexivity|].
  cbn [forallb] in Hw |- *. apply andb_true_iff in Hw.
  rewrite (word_is_plain c (proj1 Hw)). exact (IH (proj2 Hw)).
Qed.




(** The two conditions on the values cannot be dropped.  [replace]
    reads [$&] in a value as the text of the match, so the token comes
    back. *)
Example dollar_in_value_is_interpreted :
  EmailService.renderEmailTemplate Demo.engine
    (lit "Fee: {{fee}}") [(lit "fee", lit "$&")]
  = Ok (lit "Fee: {{fee}}").
Proof. reflexivity. Qed.

(** Neither can the condition on the keys: a key with white space in
    front matches the token [{{ name}}], whose name it is not. *)
Example spaced_key_matches_inside :
  EmailService.renderEmailTemplate Demo.engine
    (lit "Hi {{ name}}!") [(lit " name", lit "X")]
  = Ok (lit "Hi X!").
Proof. reflexivity. Qed.

(** A value that contains a token is substituted again by a later key. *)
Example token_in_value_is_substituted :
  EmailService.renderEmailTemplate Demo.engine
    (lit "Dear {{name}}")
    [(lit "name", lit "{{email}}"); (lit "email", lit "amir@example.org")]
  = Ok (lit "Dear amir@example.org").
Proof. reflexivity. Qed.

(** ** File names *)

Lemma safe_value_char c :
  safe c = true -> negb (Ascii.eqb c "$" || Ascii.eqb c "{") = true.
Proof. destruct c as [[] [] [] [] [] [] [] []]; intros H; try discriminate H; reflexivity. Qed.



Lemma filename_char_safe c :
  CsvService.filename_char c = true -> is_space c = false -> safe c = true.
Proof.
  destruct c as [[] [] [] [] [] [] [] []]; intros H H';
    try discriminate H; try discriminate H'; reflexivity.
Qed.

Lemma underscore_spaces_safe s :
  forallb CsvService.filename_char s = true ->
  forall in_run,
    forallb safe (CsvService.underscore_spaces in_run s) = true.
Proof.
  induction s as [|c s IH]; intros Hs in_run; [reflexivity|].
  cbn [forallb] in Hs. apply andb_true_iff in Hs. destruct Hs as [Hc Hs].
  cbn [CsvService.underscore_spaces].
  destruct (is_space c) eqn:Ec.
  - destruct in_run; cbn [forallb]; rewrite ?(IH Hs); reflexivity.
  - cbn [forallb]. rewrite (filename_char_safe c Hc Ec), (IH Hs). reflexivity.
Qed.

Lemma forallb_firstn {A : Type} (p : A -> bool) (l : list A) :
  forallb p l = true -> forall n, forallb p (firstn n l) = true.
Proof.
  induction l as [|a l IH]; intros Hl [|n]; try reflexivity.
  cbn [forallb firstn] in *. apply andb_true_iff in Hl.
  rewrite (proj1 Hl). exact (IH (proj2 Hl) n).
Qed.

Lemma forallb_filter_same {A : Type} (p : A -> bool) (l : list A) :
  forallb p (filter p l) = true.
Proof.
  induction l as [|a l IH]; [reflexivity|]. cbn [filter].
  destruct (p a) eqn:E; [|exact IH]. cbn [forallb]. rewrite E. exact IH.
Qed.

(** What comes out of [sanitizeFilename] is made of letters, digits,
    hyphens and underscores, and is at most 100 code units long. *)
Lemma sanitizeFilename_safe value :
  forallb safe (CsvService.sanitizeFilename value) = true
  /\ length (CsvService.sanitizeFilename value) <= 100.
Proof.
  unfold CsvService.sanitizeFilename, substring0. split.
  - apply forallb_firstn, underscore_spaces_safe, forallb_filter_same.
  - apply firstn_le_length.
Qed.



Lemma sanitizeFilename_value_ok value :
  value_ok (CsvService.sanitizeFilename value) = true.
Proof.
  destruct (sanitizeFilename_safe value) as [Hsafe _]. unfold value_ok.
  induction (CsvService.sanitizeFilename value) as [|c s IH]; [reflexivity|].
  cbn [forallb] in Hsafe |- *. apply andb_true_iff in Hsafe.
  rewrite (safe_value_char c (proj1 Hsafe)). exact (IH (proj2 Hsafe)).
Qed.

(** The serial number: decimal digits, at least three of them, denoting
    the position of the recipient counted from one. *)
Lemma digits_of_uint d :
  forallb is_digit (lit (NilEmpty.string_of_uint d)) = true.
Proof. induction d; cbn; auto. Qed.

Lemma number_of_zeros k s :
  number_of (repeat "0" k ++ s) = number_of s.
Proof.
  unfold number_of. induction k as [|k IH]; [reflexivity|].
  cbn [repeat app string_of_list_ascii NilEmpty.uint_of_string].
  destruct (NilEmpty.uint_of_string (string_of_list_ascii (repeat "0" k ++ s)))
    as [d|] eqn:E;
    destruct (NilEmpty.uint_of_string (string_of_list_ascii s)) as [d'|];
    cbn in IH |- *; try discriminate IH; [|reflexivity].
  exact IH.
Qed.

Lemma serial_spec index :
  forallb is_digit (JobService.serial index) = true
  /\ 3 <= length (JobService.serial index)
  /\ number_of (JobService.serial index) = Some (N.of_nat (index + 1)).
Proof.
  unfold JobService.serial, padStart0, ofN. repeat split.
  - rewrite forallb_app, digits_of_uint, andb_true_r.
    induction (3 - _); [reflexivity | exact IHn].
  - rewrite length_app, repeat_length. lia.
  - rewrite number_of_zeros. unfold number_of, lit.
    rewrite string_of_list_ascii_of_string, NilEmpty.usu. cbn [option_map].
    rewrite DecimalN.Unsigned.of_to. reflexivity.
Qed.

Lemma serial_value_ok index : value_ok (JobService.serial index) = true.
Proof.
  destruct (serial_spec index) as [Hd _]. unfold value_ok.
  induction (JobService.serial index) as [|c s IH]; [reflexivity|].
  cbn [forallb] in Hd |- *. apply andb_true_iff in Hd. destruct Hd as [Hc Hs].
  rewrite (IH Hs), andb_true_r.
  destruct c as [[] [] [] [] [] [] [] []]; try discriminate Hc; reflexivity.
Qed.

Lemma replace_fields_render E entries :
  forall text,
    JobService.replace_fields E entries text
    = EmailService.renderEmailTemplate_entries E (sanitized entries) text.
Proof.
  induction entries as [|[key value] entries IH]; intros text;
    [reflexivity|].
  cbn [JobService.replace_fields sanitized map fst snd
         EmailService.renderEmailTemplate_entries].
  rewrite or_else_empty.
  destruct (Placeholder.replace_placeholder E key _ text); [|reflexivity].
  cbn [bind]. apply IH.
Qed.

Lemma lookup_ci_sanitized entries name :
  lookup_ci (sanitized entries) name
  = option_map CsvService.sanitizeFilename (lookup_ci entries name).
Proof.
  induction entries as [|[key value] entries IH]; [reflexivity|].
  cbn [sanitized map fst snd lookup_ci].
  destruct (ci_equal key name); [reflexivity | exact IH].
Qed.

Lemma filled_text data index seg :
  substituted (sanitized data) (swap is_serial (JobService.serial index) seg)
  = filled data index seg.
Proof.
  destruct seg as [text | a n b]; [reflexivity|].
  cbn [swap filled]. destruct (is_serial a n b); [reflexivity|].
  cbn [substituted]. rewrite lookup_ci_sanitized.
  destruct (lookup_ci data n); reflexivity.
Qed.









(* ================================================================== *)
(** * Further properties of the services *)

(** ** Trimming and lower case *)

Lemma takeWhile_dropWhile (f : ascii -> bool) (s : jstring) :
  takeWhile f s ++ dropWhile f s = s.
Proof.
  induction s as [|c s IH]; [reflexivity|].
  cbn [takeWhile dropWhile]. destruct (f c); [|reflexivity].
  cbn [app]. rewrite IH. reflexivity.
Qed.

Lemma dropWhile_stops (f : ascii -> bool) (s : jstring) c rest :
  dropWhile f s = c :: rest -> f c = false.
Proof.
  induction s as [|x s IH]; [discriminate|].
  cbn [dropWhile]. destruct (f x) eqn:E; [exact IH|].
  intros H. injection H as <- _. exact E.
Qed.

Lemma takeWhile_all (f : ascii -> bool) (s : jstring) :
  forallb f (takeWhile f s) = true.
Proof.
  induction s as [|c s IH]; [reflexivity|].
  cbn [takeWhile]. destruct (f c) eqn:E; [|reflexivity].
  cbn [forallb]. rewrite E. exact IH.
Qed.

Lemma dropWhile_none (f : ascii -> bool) (s : jstring) :
  match s with [] => True | c :: _ => f c = false end -> dropWhile f s = s.
Proof. destruct s as [|c s]; [reflexivity|]. cbn [dropWhile]. intros ->. reflexivity. Qed.

Lemma ends_tight_last (s : jstring) c :
  is_space c = false -> ends_tight (s ++ [c]) = true.
Proof.
  intros Hc. induction s as [|x s IH].
  - cbn. rewrite Hc. reflexivity.
  - cbn [app ends_tight]. destruct (s ++ [c]) eqn:E; [|exact IH].
    destruct s; discriminate E.
Qed.

(** A trimmed string is empty or has no white space at either end. *)
Lemma trim_tight (s : jstring) :
  trim s = [] \/ (starts_tight (trim s) = true /\ ends_tight (trim s) = true).
Proof.
  unfold trim. set (t := dropWhile is_space s).
  destruct (dropWhile is_space (rev t)) as [|c u] eqn:Eu; [left; reflexivity|].
  right. pose proof (dropWhile_stops _ _ _ _ Eu) as Hc.
  pose proof (takeWhile_dropWhile is_space (rev t)) as Hsplit.
  rewrite Eu in Hsplit.
  set (p := takeWhile is_space (rev t)) in Hsplit.
  assert (Ht : t = rev u ++ c :: rev p).
  { rewrite <- (rev_involutive t), <- Hsplit, rev_app_distr.
    cbn [rev]. rewrite <- app_assoc. reflexivity. }
  cbn [rev]. split; [|exact (ends_tight_last _ _ Hc)].
  destruct (rev u) as [|y more] eqn:Er.
  - cbn. rewrite Hc. reflexivity.
  - cbn [app starts_tight]. cbn [app] in Ht.
    unfold t in Ht. rewrite (dropWhile_stops _ _ _ _ Ht). reflexivity.
Qed.

Lemma trim_fixed (s : jstring) :
  starts_tight s = true -> ends_tight s = true -> trim s = s.
Proof.
  intros Hs He. unfold trim.
  destruct s as [|c s]; [discriminate Hs|].
  cbn [starts_tight] in Hs. apply negb_true_iff in Hs.
  cbn [dropWhile]. rewrite Hs.
  assert (Hrev : forall l : jstring,
            l <> [] -> ends_tight l = true ->
            dropWhile is_space (rev l) = rev l).
  { clear. intros l Hne Hend. apply dropWhile_none.
    induction l as [|x l IH]; [contradiction|].
    cbn [rev]. destruct l as [|y l].
    - cbn in Hend |- *. apply negb_true_iff in Hend. exact Hend.
    - specialize (IH ltac:(discriminate) Hend).
      destruct (rev (y :: l)) as [|z more] eqn:E.
      + apply (f_equal (@length _)) in E. rewrite length_rev in E.
        discriminate E.
      + exact IH. }
  rewrite Hrev by (discriminate || exact He). apply rev_involutive.
Qed.

Lemma lower_char_not_upper c : is_upper (lower_char c) = false.
Proof. destruct c as [[] [] [] [] [] [] [] []]; reflexivity. Qed.

Lemma lower_char_space c : is_space (lower_char c) = is_space c.
Proof. destruct c as [[] [] [] [] [] [] [] []]; reflexivity. Qed.

Lemma lower_char_idem c : lower_char (lower_char c) = lower_char c.
Proof. destruct c as [[] [] [] [] [] [] [] []]; reflexivity. Qed.

Lemma forallb_dropWhile (p f : ascii -> bool) (s : jstring) :
  forallb p s = true -> forallb p (dropWhile f s) = true.
Proof.
  induction s as [|c s IH]; [reflexivity|].
  cbn [dropWhile]. destruct (f c); [|exact (fun H => H)].
  cbn [forallb]. rewrite andb_true_iff. intros [_ H]. exact (IH H).
Qed.

Lemma forallb_reversed (p : ascii -> bool) (s : jstring) :
  forallb p s = true -> forallb p (rev s) = true.
Proof.
  rewrite !forallb_forall. intros H c Hc. apply H, in_rev, Hc.
Qed.

Lemma forallb_trim (p : ascii -> bool) (s : jstring) :
  forallb p s = true -> forallb p (trim s) = true.
Proof.
  intros H. unfold trim.
  apply forallb_reversed, forallb_dropWhile, forallb_reversed,
    forallb_dropWhile, H.
Qed.

(** ** Names and addresses taken from a row *)

Lemma first_of_truthy row ks otherwise :
  truthy otherwise = true ->
  truthy (CsvService.first_of row ks otherwise) = true.
Proof.
  intros H. induction ks as [|k ks IH]; [exact H|].
  cbn [CsvService.first_of]. unfold or_else.
  destruct (truthy (JsObject.get_or_empty row k)) eqn:E; [exact E | exact IH].
Qed.

Lemma first_of_none row ks otherwise :
  (forall k, In k ks -> JsObject.get_or_empty row k = []) ->
  CsvService.first_of row ks otherwise = otherwise.
Proof.
  induction ks as [|k ks IH]; intros H; [reflexivity|].
  cbn [CsvService.first_of]. rewrite (H k (or_introl eq_refl)).
  cbn [or_else truthy]. apply IH. intros k' Hk'. apply H. right; exact Hk'.
Qed.

Lemma first_of_cases row ks otherwise :
  CsvService.first_of row ks otherwise = otherwise
  \/ exists k, In k ks
               /\ JsObject.get row k
                  = Some (CsvService.first_of row ks otherwise).
Proof.
  induction ks as [|k ks IH]; [left; reflexivity|].
  cbn [CsvService.first_of]. unfold or_else.
  destruct (truthy (JsObject.get_or_empty row k)) eqn:E.
  - right. exists k. split; [left; reflexivity|].
    unfold JsObject.get_or_empty in *.
    destruct (JsObject.get row k); [reflexivity | discriminate E].
  - destruct IH as [IH | (k' & Hin & Hget)]; [left; exact IH|].
    right. exists k'. split; [right; exact Hin | exact Hget].
Qed.

(** X1.  [extractName] never returns the empty string.  Its result is the
    value of one of the eleven full-name columns, or the first and the
    last name joined and trimmed, or [Unknown]; when no full-name column
    has a value, the result has no white space at either end. *)
Theorem extractName_never_empty (row : JsObject.object) :
  truthy (CsvService.extractName row) = true
  /\ (CsvService.extractName row = lit "Unknown"
      \/ CsvService.extractName row = CsvService.first_and_last row
      \/ exists k, In k CsvService.name_keys
                   /\ JsObject.get row k
                      = Some (CsvService.extractName row))
  /\ ((forall k, In k CsvService.name_keys ->
         JsObject.get_or_empty row k = []) ->
      starts_tight (CsvService.extractName row) = true
      /\ ends_tight (CsvService.extractName row) = true).
Proof.
  unfold CsvService.extractName.
  set (fallback := or_else (CsvService.first_and_last row) (lit "Unknown")).
  assert (Hfallback : truthy fallback = true).
  { unfold fallback, or_else.
    destruct (truthy (CsvService.first_and_last row)) eqn:E;
      [exact E | reflexivity]. }
  assert (Hwhich : fallback = lit "Unknown"
                   \/ fallback = CsvService.first_and_last row).
  { unfold fallback, or_else.
    destruct (truthy (CsvService.first_and_last row)); [right | left];
      reflexivity. }
  split; [exact (first_of_truthy row _ _ Hfallback)|]. split.
  - destruct (first_of_cases row CsvService.name_keys fallback)
      as [-> | Hkey]; [|right; right; exact Hkey].
    destruct Hwhich as [-> | ->]; [left | right; left]; reflexivity.
  - intros Hnone. rewrite (first_of_none row _ _ Hnone).
    unfold fallback, or_else.
    destruct (truthy (CsvService.first_and_last row)) eqn:E;
      [|split; reflexivity].
    unfold CsvService.first_and_last in *.
    destruct (trim_tight
                (CsvService.first_of row [lit "first_name"; lit "First_Name"]
                   [] ++ lit " "
                 ++ CsvService.first_of row [lit "last_name"; lit "Last_Name"]
                      [])) as [Hnil | Htight]; [|exact Htight].
    rewrite Hnil in E. discriminate E.
Qed.

(** ** Valid addresses *)

Lemma email_char_lower c :
  CsvService.email_char (lower_char c) = CsvService.email_char c.
Proof. destruct c as [[] [] [] [] [] [] [] []]; reflexivity. Qed.

Lemma dot_lower c : Ascii.eqb "." (lower_char c) = Ascii.eqb "." c.
Proof. destruct c as [[] [] [] [] [] [] [] []]; reflexivity. Qed.

Lemma at_lower c : Ascii.eqb (lower_char c) "@" = Ascii.eqb c "@".
Proof. destruct c as [[] [] [] [] [] [] [] []]; reflexivity. Qed.

Lemma dropWhile_map (f : ascii -> bool) (g : ascii -> ascii) :
  (forall c, f (g c) = f c) ->
  forall s, dropWhile f (map g s) = map g (dropWhile f s).
Proof.
  intros Hfg. induction s as [|c s IH]; [reflexivity|].
  cbn [map dropWhile]. rewrite Hfg. destruct (f c); [exact IH | reflexivity].
Qed.

Lemma forallb_map_same (f : ascii -> bool) (g : ascii -> ascii) :
  (forall c, f (g c) = f c) ->
  forall s, forallb f (map g s) = forallb f s.
Proof.
  intros Hfg. induction s as [|c s IH]; [reflexivity|].
  cbn [map forallb]. rewrite Hfg, IH. reflexivity.
Qed.

Lemma existsb_map_same (f : ascii -> bool) (g : ascii -> ascii) :
  (forall c, f (g c) = f c) ->
  forall s, existsb f (map g s) = existsb f s.
Proof.
  intros Hfg. induction s as [|c s IH]; [reflexivity|].
  cbn [map existsb]. rewrite Hfg, IH. reflexivity.
Qed.

Lemma removelast_map {A B : Type} (g : A -> B) (l : list A) :
  removelast (map g l) = map g (removelast l).
Proof.
  induction l as [|x l IH]; [reflexivity|].
  cbn [map removelast]. destruct l as [|y l]; [reflexivity|].
  cbn [map] in IH |- *. rewrite IH. reflexivity.
Qed.

Lemma tl_map {A B : Type} (g : A -> B) (l : list A) :
  tl (map g l) = map g (tl l).
Proof. destruct l; reflexivity. Qed.

(** The test with the comparison of the separator written out. *)
Lemma isValidEmail_eq email :
  CsvService.isValidEmail email
  = match email with
    | [] => false
    | first :: _ =>
        CsvService.email_char first
        && match dropWhile CsvService.email_char email with
           | [] => false
           | c :: domain =>
               Ascii.eqb c "@"
               && (forallb CsvService.email_char domain
                   && existsb (Ascii.eqb ".") (removelast (tl domain)))
           end
    end.
Proof.
  unfold CsvService.isValidEmail. destruct email as [|first more];
    [reflexivity|].
  f_equal.
  destruct (dropWhile CsvService.email_char (first :: more)) as [|c domain];
    [reflexivity|].
  destruct c as [[] [] [] [] [] [] [] []]; reflexivity.
Qed.

(** Lower case does not change whether an address is valid. *)
Lemma isValidEmail_lower email :
  CsvService.isValidEmail (toLowerCase email) = CsvService.isValidEmail email.
Proof.
  rewrite !isValidEmail_eq. unfold toLowerCase.
  destruct email as [|first more]; [reflexivity|].
  change (map lower_char (first :: more))
    with (lower_char first :: map lower_char more) at 1.
  cbv beta iota. rewrite email_char_lower. f_equal.
  rewrite (dropWhile_map _ _ email_char_lower).
  destruct (dropWhile CsvService.email_char (first :: more)) as [|c domain];
    [reflexivity|].
  cbn [map]. rewrite at_lower.
  rewrite (forallb_map_same _ _ email_char_lower).
  rewrite tl_map, removelast_map.
  rewrite (existsb_map_same _ _ dot_lower). reflexivity.
Qed.

Lemma inner_found (x : ascii) (d : jstring) :
  existsb (Ascii.eqb x) (removelast (tl d)) = true ->
  exists a b, d = a ++ x :: b /\ a <> [] /\ b <> [].
Proof.
  destruct d as [|y t]; [discriminate|]. cbn [tl]. intros H.
  apply existsb_exists in H. destruct H as (x' & Hin & Heq).
  apply Ascii.eqb_eq in Heq. subst x'.
  assert (Ht : t <> []) by (intros ->; exact Hin).
  apply in_split in Hin. destruct Hin as (p & q & Hpq).
  exists (y :: p), (q ++ [last t x]). repeat split.
  - rewrite (app_removelast_last x Ht) at 1. rewrite Hpq.
    cbn [app]. rewrite <- !app_assoc. reflexivity.
  - discriminate.
  - destruct q; discriminate.
Qed.

Lemma inner_present (x : ascii) (a b : jstring) :
  a <> [] -> b <> [] ->
  existsb (Ascii.eqb x) (removelast (tl (a ++ x :: b))) = true.
Proof.
  intros Ha Hb. destruct a as [|y a]; [contradiction|]. cbn [app tl].
  rewrite removelast_app by discriminate.
  destruct b as [|z b]; [contradiction|].
  change (removelast (x :: z :: b)) with (x :: removelast (z :: b)).
  rewrite existsb_app. cbn [existsb]. rewrite Ascii.eqb_refl.
  rewrite orb_true_r. reflexivity.
Qed.

Lemma dropWhile_prefix (f : ascii -> bool) (l : jstring) c rest :
  forallb f l = true -> f c = false ->
  dropWhile f (l ++ c :: rest) = c :: rest.
Proof.
  intros Hl Hc. induction l as [|x l IH]; cbn [app dropWhile].
  - rewrite Hc. reflexivity.
  - cbn [forallb] in Hl. apply andb_true_iff in Hl. destruct Hl as [Hx Hl].
    rewrite Hx. exact (IH Hl).
Qed.

(** The parts of an address the test accepts. *)
Lemma isValidEmail_parts email :
  CsvService.isValidEmail email = true ->
  exists l d1 d2,
    email = l ++ "@" :: d1 ++ "." :: d2
    /\ l <> [] /\ d1 <> [] /\ d2 <> []
    /\ forallb CsvService.email_char l = true
    /\ forallb CsvService.email_char d1 = true
    /\ forallb CsvService.email_char d2 = true.
Proof.
  rewrite isValidEmail_eq. destruct email as [|first more]; [discriminate|].
  rewrite andb_true_iff. intros [Hfirst H].
  pose proof (takeWhile_dropWhile CsvService.email_char (first :: more))
    as Hsplit.
  pose proof (takeWhile_all CsvService.email_char (first :: more)) as Hl.
  destruct (dropWhile CsvService.email_char (first :: more))
    as [|c domain]; [discriminate H|].
  rewrite !andb_true_iff in H. destruct H as (Hc & Hdomain & Hdot).
  apply Ascii.eqb_eq in Hc. subst c.
  destruct (inner_found _ _ Hdot) as (d1 & d2 & -> & Hd1 & Hd2).
  rewrite forallb_app in Hdomain. cbn [forallb] in Hdomain.
  rewrite !andb_true_iff in Hdomain. destruct Hdomain as (H1 & _ & H2).
  exists (takeWhile CsvService.email_char (first :: more)), d1, d2.
  repeat split; try assumption; [symmetry; exact Hsplit|].
  cbn [takeWhile]. rewrite Hfirst. discriminate.
Qed.

(** X2.  The test for a valid address accepts exactly the strings of the
    form [local@domain.tld] in which the three parts are not empty and
    hold neither white space nor [@] (the domain part may itself hold
    dots). *)
Theorem isValidEmail_shape (email : jstring) :
  CsvService.isValidEmail email = true
  <-> exists l d1 d2,
        email = l ++ "@" :: d1 ++ "." :: d2
        /\ l <> [] /\ d1 <> [] /\ d2 <> []
        /\ forallb CsvService.email_char l = true
        /\ forallb CsvService.email_char d1 = true
        /\ forallb CsvService.email_char d2 = true.
Proof.
  split; [apply isValidEmail_parts|].
  intros (l & d1 & d2 & -> & Hl & Hd1 & Hd2 & Hcl & Hc1 & Hc2).
  rewrite isValidEmail_eq.
  destruct l as [|first l]; [contradiction|].
  cbn [app]. cbn [forallb] in Hcl. apply andb_true_iff in Hcl.
  destruct Hcl as [Hfirst Hcl]. rewrite Hfirst. cbn [andb].
  change (first :: l ++ "@" :: d1 ++ "." :: d2)
    with ((first :: l) ++ "@" :: d1 ++ "." :: d2).
  rewrite dropWhile_prefix;
    [|cbn [forallb]; rewrite Hfirst; exact Hcl | reflexivity].
  rewrite Ascii.eqb_refl, forallb_app. cbn [forallb andb].
  rewrite Hc1, Hc2, (inner_present "." d1 d2 Hd1 Hd2). reflexivity.
Qed.

Lemma isValidEmail_tight email :
  CsvService.isValidEmail email = true ->
  starts_tight email = true /\ ends_tight email = true.
Proof.
  intros H. destruct (isValidEmail_parts email H)
    as (l & d1 & d2 & -> & Hl & _ & Hd2 & Hcl & _ & Hc2). split.
  - destruct l as [|c l]; [contradiction|]. cbn [app starts_tight].
    cbn [forallb] in Hcl. apply andb_true_iff in Hcl.
    destruct Hcl as [Hc _]. unfold CsvService.email_char in Hc.
    apply andb_true_iff in Hc. apply Hc.
  - destruct (exists_last Hd2) as (q & z & ->).
    rewrite forallb_app in Hc2. cbn [forallb] in Hc2.
    rewrite !andb_true_iff in Hc2. destruct Hc2 as (_ & Hz & _).
    unfold CsvService.email_char in Hz. apply andb_true_iff in Hz.
    destruct Hz as [Hz _]. apply negb_true_iff in Hz.
    replace (l ++ "@" :: d1 ++ "." :: q ++ [z])
      with ((l ++ "@" :: d1 ++ "." :: q) ++ [z])
      by (rewrite <- !app_assoc; cbn [app]; rewrite <- !app_assoc;
          reflexivity).
    exact (ends_tight_last _ _ Hz).
Qed.

Lemma first_of_email row :
  truthy (CsvService.row_email row) = true ->
  CsvService.first_of row CsvService.email_keys [] = CsvService.row_email row.
Proof.
  unfold CsvService.row_email, CsvService.email_keys.
  cbn [CsvService.first_of]. unfold or_else.
  destruct (truthy (JsObject.get_or_empty row (lit "email")));
    [reflexivity|].
  destruct (truthy (JsObject.get_or_empty row (lit "Email")));
    [reflexivity|].
  destruct (truthy (JsObject.get_or_empty row (lit "EMAIL")));
    [reflexivity|].
  cbn [truthy]. discriminate.
Qed.

(** X3.  The address [extractEmail] returns is normalised: it holds no
    capital letter, and it is empty or has no white space at either end.
    An address of the row that the validation accepts is kept, in lower
    case, and is still a valid address. *)
Theorem extractEmail_normalised (row : JsObject.object) :
  forallb (fun c => negb (is_upper c)) (CsvService.extractEmail row) = true
  /\ (CsvService.extractEmail row = []
      \/ (starts_tight (CsvService.extractEmail row) = true
          /\ ends_tight (CsvService.extractEmail row) = true))
  /\ (CsvService.isValidEmail (CsvService.row_email row) = true ->
      CsvService.extractEmail row = toLowerCase (CsvService.row_email row)
      /\ CsvService.isValidEmail (CsvService.extractEmail row) = true).
Proof.
  unfold CsvService.extractEmail. split; [|split].
  - apply forallb_trim. unfold toLowerCase.
    induction (CsvService.first_of row CsvService.email_keys [])
      as [|c s IH]; [reflexivity|].
    cbn [map forallb]. rewrite lower_char_not_upper. exact IH.
  - apply trim_tight.
  - intros Hvalid.
    assert (Htruthy : truthy (CsvService.row_email row) = true).
    { destruct (CsvService.row_email row); [discriminate Hvalid|reflexivity]. }
    rewrite (first_of_email row Htruthy).
    pose proof Hvalid as Hlower. rewrite <- isValidEmail_lower in Hlower.
    destruct (isValidEmail_tight _ Hlower) as [Hs He].
    rewrite (trim_fixed _ Hs He). split; [reflexivity | exact Hlower].
Qed.

(** ** The verdict of the validation *)

Lemma missing_fields_none headersLower required :
  flat_map
    (fun field =>
       if CsvService.has_field headersLower field then []
       else [lit "Required field " ++ [CsvService.quote] ++ field
               ++ [CsvService.quote] ++ lit " not found in CSV headers"])
    required = []
  <-> forall field, In field required ->
        CsvService.has_field headersLower field = true.
Proof.
  induction required as [|field rest IH]; cbn [flat_map].
  - split; [intros _ f [] | reflexivity].
  - destruct (CsvService.has_field headersLower field) eqn:E.
    + cbn [app]. rewrite IH. split.
      * intros H f [<-|Hf]; [exact E | exact (H f Hf)].
      * intros H f Hf. apply H. right; exact Hf.
    + split; [discriminate|].
      intros H. specialize (H field (or_introl eq_refl)). congruence.
Qed.

(** X4.  The validation declares a parsed file valid exactly when it
    reports no error, and that is exactly when the file has at least one
    row, the parser reported no row error, and every required field is
    found among the headers.  The e-mail addresses of the rows only
    produce warnings: they play no part in the verdict. *)
Theorem validation_verdict (parsed : ParsedCSV.t) (required : list jstring) :
  let v := CsvService.validateCSVForCertificates parsed required in
  (CSVValidationResult.isValid v = true <-> CSVValidationResult.errors v = [])
  /\ (CSVValidationResult.isValid v = true
      <-> ParsedCSV.totalRows parsed <> 0
          /\ ParsedCSV.errors parsed = []
          /\ forall field, In field required ->
               CsvService.has_field
                 (map (fun h => filter (fun c => negb (is_space c))
                                  (toLowerCase h))
                      (ParsedCSV.headers parsed)) field = true)
  /\ (forall rows',
        let v' :=
          CsvService.validateCSVForCertificates
            {| ParsedCSV.headers := ParsedCSV.headers parsed;
               ParsedCSV.rows := rows';
               ParsedCSV.totalRows := ParsedCSV.totalRows parsed;
               ParsedCSV.errors := ParsedCSV.errors parsed |} required in
        CSVValidationResult.isValid v' = CSVValidationResult.isValid v
        /\ CSVValidationResult.errors v' = CSVValidationResult.errors v).
Proof.
  unfold CsvService.validateCSVForCertificates.
  cbn [ParsedCSV.headers ParsedCSV.rows ParsedCSV.totalRows ParsedCSV.errors].
  destruct (Nat.eqb_spec (ParsedCSV.totalRows parsed) 0) as [H0|Hrows].
  - cbn [CSVValidationResult.isValid CSVValidationResult.errors].
    repeat split; try discriminate. intros (H & _). contradiction.
  - cbn [CSVValidationResult.isValid CSVValidationResult.errors].
    set (missing := flat_map _ required).
    set (reported := map _ (ParsedCSV.errors parsed)).
    assert (Hlen : Nat.eqb (length (missing ++ reported)) 0 = true
                   <-> missing ++ reported = []).
    { destruct (missing ++ reported); cbn; split;
        discriminate || reflexivity. }
    split; [exact Hlen|]. split; [|split; reflexivity].
    rewrite Hlen. split.
    + intros H. apply app_eq_nil in H. destruct H as [Hm Hr].
      split; [exact Hrows|]. split.
      * unfold reported in Hr. apply map_eq_nil in Hr. exact Hr.
      * apply missing_fields_none. exact Hm.
    + intros (_ & Herr & Hfields).
      apply missing_fields_none in Hfields. fold missing in Hfields.
      rewrite Hfields. unfold reported. rewrite Herr. reflexivity.
Qed.

(** ** The headers of a parsed file *)

Lemma trim_map (g : ascii -> ascii) :
  (forall c, is_space (g c) = is_space c) ->
  forall s, trim (map g s) = map g (trim s).
Proof.
  intros Hg s. unfold trim.
  rewrite (dropWhile_map _ _ Hg), <- map_rev, (dropWhile_map _ _ Hg),
    <- map_rev. reflexivity.
Qed.

Lemma trim_idem s : trim (trim s) = trim s.
Proof.
  destruct (trim_tight s) as [-> | [Hs He]]; [reflexivity|].
  exact (trim_fixed _ Hs He).
Qed.

Lemma toLowerCase_idem s : toLowerCase (toLowerCase s) = toLowerCase s.
Proof.
  unfold toLowerCase. rewrite map_map. apply map_ext, lower_char_idem.
Qed.

Lemma folded_trim k : folded (trim k) = folded k.
Proof.
  unfold folded, toLowerCase. rewrite <- (trim_map _ lower_char_space).
  apply trim_idem.
Qed.

Lemma folded_idem k : folded (folded k) = folded k.
Proof.
  unfold folded at 2. rewrite folded_trim. unfold folded.
  rewrite toLowerCase_idem. reflexivity.
Qed.

Lemma digit_lower c : is_digit c = true -> lower_char c = c.
Proof. destruct c as [[] [] [] [] [] [] [] []]; intros H; try discriminate H; reflexivity. Qed.

Lemma digit_is_word c : is_digit c = true -> is_word c = true.
Proof. destruct c as [[] [] [] [] [] [] [] []]; intros H; try discriminate H; reflexivity. Qed.

Lemma array_index_folded k n :
  JsObject.array_index k = Some n -> folded k = k.
Proof.
  unfold JsObject.array_index. destruct k as [|c rest]; [discriminate|].
  destruct (forallb is_digit (c :: rest)) eqn:Hd; [|discriminate].
  intros _. unfold folded.
  assert (Hlow : toLowerCase (c :: rest) = c :: rest).
  { unfold toLowerCase. rewrite <- (map_id (c :: rest)) at 2.
    apply map_ext_in. intros x Hx. apply digit_lower.
    rewrite forallb_forall in Hd. exact (Hd x Hx). }
  rewrite Hlow. apply trim_fixed.
  - cbn [forallb] in Hd. apply andb_true_iff in Hd. destruct Hd as [Hc _].
    cbn [starts_tight]. rewrite (word_not_space c (digit_is_word c Hc)).
    reflexivity.
  - apply words_ends_tight. rewrite forallb_forall in Hd |- *.
    intros x Hx. apply digit_is_word, Hd, Hx.
Qed.

Lemma keys_update o k v : JsObject.keys (JsObject.update o k v) = JsObject.keys o.
Proof.
  unfold JsObject.keys. induction o as [|[k' v'] o IH]; [reflexivity|].
  cbn [JsObject.update]. destruct (JsString.eqb k' k); cbn [map fst];
    [reflexivity | rewrite IH; reflexivity].
Qed.

Lemma keys_insert_index o n k v :
  exists pre post,
    JsObject.keys o = pre ++ post
    /\ JsObject.keys (JsObject.insert_index o n k v) = pre ++ k :: post.
Proof.
  unfold JsObject.keys. induction o as [|[k' v'] o IH].
  - exists [], []. split; reflexivity.
  - cbn [JsObject.insert_index].
    destruct (JsObject.array_index k') as [m|].
    + destruct (m <? n)%N.
      * destruct IH as (pre & post & Ho & Hi).
        exists (k' :: pre), post. cbn [map fst app].
        rewrite Ho, Hi. split; reflexivity.
      * exists [], (k' :: map fst o). split; reflexivity.
    + exists [], (k' :: map fst o). split; reflexivity.
Qed.

Lemma get_in_keys o k v : JsObject.get o k = Some v -> In k (JsObject.keys o).
Proof.
  unfold JsObject.keys. induction o as [|[k' v'] o IH]; [discriminate|].
  cbn [JsObject.get map fst].
  destruct (JsString.eqb k' k) eqn:E.
  - apply jstring_eqb_eq in E. intros _. left; exact E.
  - intros H. right; exact (IH H).
Qed.

Lemma get_none_keys o k : JsObject.get o k = None -> ~ In k (JsObject.keys o).
Proof.
  unfold JsObject.keys. induction o as [|[k' v'] o IH]; intros H; [exact (fun f => f)|].
  cbn [JsObject.get] in H. cbn [map fst].
  destruct (JsString.eqb k' k) eqn:E; [discriminate H|].
  intros [Heq|Hin]; [|exact (IH H Hin)].
  subst k'. rewrite jstring_eqb_refl in E. discriminate E.
Qed.

(** What [define] does to the list of keys: nothing for a key that is
    there, else the key is put in, at the end unless it is an array
    index. *)
Lemma keys_define o k v :
  (In k (JsObject.keys o)
   /\ JsObject.keys (JsObject.define o k v) = JsObject.keys o)
  \/ (~ In k (JsObject.keys o)
      /\ exists pre post,
           JsObject.keys o = pre ++ post
           /\ JsObject.keys (JsObject.define o k v) = pre ++ k :: post
           /\ (post = [] \/ folded k = k)).
Proof.
  unfold JsObject.define. destruct (JsObject.get o k) as [v0|] eqn:Eget.
  - left. split; [exact (get_in_keys _ _ _ Eget) | apply keys_update].
  - right. split; [exact (get_none_keys _ _ Eget)|].
    destruct (JsObject.array_index k) as [n|] eqn:Eidx.
    + destruct (keys_insert_index o n k v) as (pre & post & Ho & Hi).
      exists pre, post. repeat split; try assumption.
      right; exact (array_index_folded _ _ Eidx).
    + exists (JsObject.keys o), []. rewrite app_nil_r.
      unfold JsObject.keys. rewrite map_app. cbn [map fst].
      repeat split. left; reflexivity.
Qed.

Lemma keys_define_in o k v x :
  In x (JsObject.keys (JsObject.define o k v))
  <-> x = k \/ In x (JsObject.keys o).
Proof.
  destruct (keys_define o k v) as [[Hin ->] | (Hnot & pre & post & Ho & -> & _)].
  - split; [intros H; right; exact H|]. intros [->|H]; assumption.
  - rewrite Ho, !in_app_iff. cbn [In]. split.
    + intros [H|[H|H]]; [right; left | left; symmetry | right; right];
        exact H.
    + intros [H|[H|H]]; [right; left; symmetry | left | right; right];
        exact H.
Qed.

Lemma keys_set_in o k v x :
  In x (JsObject.keys (JsObject.set o k v))
  <-> (x = k /\ k <> lit "__proto__") \/ In x (JsObject.keys o).
Proof.
  unfold JsObject.set.
  destruct (JsString.eqb k (lit "__proto__")) eqn:E.
  - apply jstring_eqb_eq in E. split; [intros H; right; exact H|].
    intros [[_ H]|H]; [contradiction | exact H].
  - rewrite keys_define_in. split.
    + intros [->|H]; [left; split; [reflexivity|] | right; exact H].
      intros ->. rewrite jstring_eqb_refl in E. discriminate E.
    + intros [[-> _]|H]; [left; reflexivity | right; exact H].
Qed.

Lemma folded_first_insert pre post k :
  folded_first (pre ++ post) ->
  folded k = k \/ In (folded k) pre \/ folded k = lit "__proto__" ->
  folded_first (pre ++ k :: post).
Proof.
  intros Hinv Hk pre' k' post' Heq.
  (* where [k'] sits: before [k], at [k], or after it *)
  destruct (app_eq_app _ _ _ _ Heq) as (l & [[Hp Hq] | [Hp Hq]]).
  - (* pre = pre' ++ l, k' :: post' = l ++ k :: post *)
    destruct l as [|y l]; cbn [app] in Hq; injection Hq as Hk' Hpost.
    + subst k' post'. rewrite app_nil_r in Hp. subst pre'. exact Hk.
    + subst y post'.
      apply (Hinv pre' k' (l ++ post)). rewrite Hp, <- app_assoc.
      reflexivity.
  - (* pre' = pre ++ l, k :: post = l ++ k' :: post' *)
    destruct l as [|y l]; cbn [app] in Hq; injection Hq as Hk' Hpost.
    + subst k' post'. rewrite app_nil_r in Hp. subst pre'. exact Hk.
    + subst y post.
      specialize (Hinv (pre ++ l) k' post').
      rewrite <- app_assoc in Hinv. specialize (Hinv eq_refl).
      destruct Hinv as [H|[H|H]]; [left; exact H | | right; right; exact H].
      right; left. rewrite Hp. rewrite in_app_iff in H.
      rewrite in_app_iff. cbn [In].
      destruct H as [H|H]; [left; exact H | right; right; exact H].
Qed.

Lemma folded_first_define o k v :
  folded_first (JsObject.keys o) ->
  folded k = k \/ In (folded k) (JsObject.keys o)
  \/ folded k = lit "__proto__" ->
  folded_first (JsObject.keys (JsObject.define o k v)).
Proof.
  intros Hinv Hk.
  destruct (keys_define o k v)
    as [[_ ->] | (_ & pre & post & Ho & -> & Hend)]; [exact Hinv|].
  rewrite Ho in Hinv. apply folded_first_insert; [exact Hinv|].
  destruct Hend as [-> | Hself]; [|left; exact Hself].
  rewrite app_nil_r in Ho. rewrite <- Ho. exact Hk.
Qed.

Lemma folded_first_set o k v :
  folded_first (JsObject.keys o) ->
  folded k = k \/ In (folded k) (JsObject.keys o)
  \/ folded k = lit "__proto__" ->
  folded_first (JsObject.keys (JsObject.set o k v)).
Proof.
  intros Hinv Hk. unfold JsObject.set.
  destruct (JsString.eqb k (lit "__proto__")); [exact Hinv|].
  exact (folded_first_define o k v Hinv Hk).
Qed.

(** The keys of a normalised row: every column under its folded name,
    which comes first. *)
Lemma normalize_keys record :
  folded_first (JsObject.keys (CsvService.normalize record))
  /\ (forall x, In x (JsObject.keys (CsvService.normalize record)) ->
        exists k, In k (JsObject.keys record)
                  /\ (x = folded k \/ x = trim k))
  /\ (forall k, In k (JsObject.keys record) ->
        folded k <> lit "__proto__" ->
        In (folded k) (JsObject.keys (CsvService.normalize record))).
Proof.
  unfold CsvService.normalize, JsObject.entries.
  assert (Hgen : forall acc,
    folded_first (JsObject.keys acc) ->
    let out :=
      fold_left
        (fun acc kv =>
           let value := or_else (snd kv) [] in
           JsObject.set
             (JsObject.set acc (trim (toLowerCase (fst kv))) value)
             (trim (fst kv)) value) record acc in
    folded_first (JsObject.keys out)
    /\ (forall x, In x (JsObject.keys out) ->
          In x (JsObject.keys acc)
          \/ exists k, In k (JsObject.keys record)
                       /\ (x = folded k \/ x = trim k))
    /\ (forall x, In x (JsObject.keys acc) -> In x (JsObject.keys out))
    /\ (forall k, In k (JsObject.keys record) ->
          folded k <> lit "__proto__" -> In (folded k) (JsObject.keys out))).
  { induction record as [|[k v] record IH]; intros acc Hacc.
    - cbn [fold_left]. repeat split; try assumption.
      + intros x Hx; left; exact Hx.
      + intros x Hx; exact Hx.
      + intros k [].
    - cbn [fold_left fst snd].
      change (trim (toLowerCase k)) with (folded k).
      set (value := or_else v []).
      set (acc1 := JsObject.set acc (folded k) value).
      set (acc2 := JsObject.set acc1 (trim k) value).
      assert (H1 : folded_first (JsObject.keys acc1)).
      { apply folded_first_set; [exact Hacc|]. left. apply folded_idem. }
      assert (H2 : folded_first (JsObject.keys acc2)).
      { apply folded_first_set; [exact H1|]. rewrite folded_trim.
        destruct (list_eq_dec ascii_dec (folded k) (lit "__proto__"))
          as [Hp|Hp]; [right; right; exact Hp|].
        right; left. unfold acc1. apply keys_set_in. left.
        split; [reflexivity | exact Hp]. }
      destruct (IH acc2 H2) as (Hff & Hfrom & Hkeep & Hall).
      cbv zeta in Hff, Hfrom, Hkeep, Hall |- *.
      fold value. fold acc1. fold acc2.
      split; [exact Hff|]. split; [|split].
      + intros x Hx. destruct (Hfrom x Hx) as [Hx2 | (k' & Hk' & Hform)].
        * unfold acc2 in Hx2. apply keys_set_in in Hx2.
          destruct Hx2 as [[-> _] | Hx1].
          { right. exists k. split; [left; reflexivity | right; reflexivity]. }
          unfold acc1 in Hx1. apply keys_set_in in Hx1.
          destruct Hx1 as [[-> _] | Hx0]; [|left; exact Hx0].
          right. exists k. split; [left; reflexivity | left; reflexivity].
        * right. exists k'. split; [right; exact Hk' | exact Hform].
      + intros x Hx. apply Hkeep. unfold acc2. apply keys_set_in. right.
        unfold acc1. apply keys_set_in. right. exact Hx.
      + unfold JsObject.keys at 1. cbn [map fst].
        intros k' [<-|Hk'] Hp; [|exact (Hall k' Hk' Hp)].
        apply Hkeep. unfold acc2. apply keys_set_in. right.
        unfold acc1. apply keys_set_in. left. split; [reflexivity | exact Hp]. }
  destruct (Hgen [] ltac:(intros [|? ?] ? ? H; discriminate H))
    as (Hff & Hfrom & _ & Hall).
  split; [exact Hff|]. split; [|exact Hall].
  intros x Hx. destruct (Hfrom x Hx) as [[]|H]; exact H.
Qed.

Lemma seen_before lower seen :
  existsb (JsString.eqb lower) seen = true <-> In lower seen.
Proof.
  rewrite existsb_exists. split.
  - intros (x & Hin & Heq). apply jstring_eqb_eq in Heq. subst x. exact Hin.
  - intros Hin. exists lower. split; [exact Hin | apply jstring_eqb_refl].
Qed.

(** The filter of the headers keeps one key for every folded name, and
    that key is the folded name itself. *)
Lemma unique_headers_spec ks :
  forall seen pre,
    (forall k, In k pre -> In (folded k) seen) ->
    folded_first (pre ++ ks) ->
    NoDup (map folded (CsvService.unique_headers seen ks))
    /\ (forall h, In h (CsvService.unique_headers seen ks) ->
          In h ks /\ ~ In (folded h) seen
          /\ (folded h = h \/ folded h = lit "__proto__"))
    /\ (forall k, In k ks ->
          In (folded k) seen
          \/ exists h, In h (CsvService.unique_headers seen ks)
                       /\ folded h = folded k).
Proof.
  induction ks as [|k ks IH]; intros seen pre Hseen Hff.
  - cbn [CsvService.unique_headers map]. split; [constructor|].
    split; intros x [].
  - cbn [CsvService.unique_headers]. change (trim (toLowerCase k)) with (folded k).
    assert (Hff' : folded_first ((pre ++ [k]) ++ ks))
      by (rewrite <- app_assoc; exact Hff).
    destruct (existsb (JsString.eqb (folded k)) seen) eqn:E.
    + apply seen_before in E.
      destruct (IH seen (pre ++ [k])) as (Hnd & Hin & Hall); [|exact Hff'|].
      { intros x Hx. apply in_app_iff in Hx.
        destruct Hx as [Hx|[<-|[]]]; [exact (Hseen x Hx) | exact E]. }
      split; [exact Hnd|]. split.
      * intros h Hh. destruct (Hin h Hh) as (H1 & H2 & H3).
        split; [right; exact H1 | split; assumption].
      * intros x [<-|Hx]; [left; exact E | exact (Hall x Hx)].
    + assert (Hnew : ~ In (folded k) seen).
      { intros H. apply seen_before in H. congruence. }
      destruct (IH (folded k :: seen) (pre ++ [k])) as (Hnd & Hin & Hall);
        [|exact Hff'|].
      { intros x Hx. apply in_app_iff in Hx.
        destruct Hx as [Hx|[<-|[]]]; [right; exact (Hseen x Hx) | left; reflexivity]. }
      split; [|split].
      * cbn [map]. constructor; [|exact Hnd].
        intros H. apply in_map_iff in H. destruct H as (h & Heq & Hh).
        destruct (Hin h Hh) as (_ & Hout & _). apply Hout. left.
        symmetry; exact Heq.
      * intros h [<-|Hh].
        { split; [left; reflexivity|]. split; [exact Hnew|].
          destruct (Hff pre k ks eq_refl) as [H|[H|H]];
            [left; exact H | | right; exact H].
          exfalso. apply Hnew. rewrite <- folded_idem. exact (Hseen _ H). }
        destruct (Hin h Hh) as (H1 & H2 & H3).
        split; [right; exact H1|]. split; [|exact H3].
        intros H. apply H2. right; exact H.
      * intros x [<-|Hx].
        { right. exists k. split; [left; reflexivity | reflexivity]. }
        destruct (Hall x Hx) as [[H|H] | (h & Hh & Heq)].
        { right. exists k. split; [left; reflexivity | exact H]. }
        { left; exact H. }
        right. exists h. split; [right; exact Hh | exact Heq].
Qed.

(** X5.  The headers [parseCSV] returns are the names of the columns of
    the first record in lower case and trimmed, each once: a column keeps
    one header whatever the case it is written in, and the header is never
    the name as written when that differs from its lower-case form.  The
    row count is the number of records. *)
Theorem parseCSV_headers (first : JsObject.object) (line : N)
    (more : list (JsObject.object * N)) :
  ordinary first ->
  let parsed := CsvService.parseCSV ((first, line) :: more) in
  ParsedCSV.totalRows parsed = S (length more)
  /\ length (ParsedCSV.rows parsed) = S (length more)
  /\ NoDup (ParsedCSV.headers parsed)
  /\ (forall h, In h (ParsedCSV.headers parsed)
        <-> exists k, In k (JsObject.keys first) /\ h = folded k).
Proof.
  intros Hord. unfold CsvService.parseCSV.
  cbn [map fst ParsedCSV.totalRows ParsedCSV.rows ParsedCSV.headers length].
  rewrite length_map. split; [reflexivity|]. split; [reflexivity|].
  destruct (normalize_keys first) as (Hff & Hfrom & Hall).
  destruct (unique_headers_spec (JsObject.keys (CsvService.normalize first))
              [] [] (fun k f => f) Hff) as (Hnd & Hin & Hcover).
  set (hs := CsvService.unique_headers []
               (JsObject.keys (CsvService.normalize first))) in *.
  assert (Hself : forall h, In h hs ->
            folded h = h
            /\ exists k, In k (JsObject.keys first) /\ h = folded k).
  { intros h Hh. destruct (Hin h Hh) as (Hkey & _ & Hform).
    destruct (Hfrom h Hkey) as (k & Hk & Hhk).
    assert (Hfold : folded h = folded k).
    { destruct Hhk as [-> | ->]; [apply folded_idem | apply folded_trim]. }
    destruct Hform as [Hform | Hproto].
    - split; [exact Hform|]. exists k. split; [exact Hk|]. congruence.
    - exfalso. apply (Hord k Hk). congruence. }
  split.
  - replace hs with (map folded hs); [exact Hnd|].
    rewrite <- (map_id hs) at 2. apply map_ext_in.
    intros h Hh. apply Hself, Hh.
  - intros h. split; [intros Hh; apply Hself, Hh|].
    intros (k & Hk & ->).
    destruct (Hcover (folded k) (Hall k Hk (Hord k Hk)))
      as [[] | (h & Hh & Heq)].
    rewrite folded_idem in Heq. rewrite <- Heq.
    rewrite (proj1 (Hself h Hh)). exact Hh.
Qed.

(** The headers of the sample sheet are in lower case. *)
Lemma parseCSV_headers_witness :
  In (lit "first language")
     (ParsedCSV.headers (CsvService.parseCSV Samples.sheet))
  /\ NoDup (ParsedCSV.headers (CsvService.parseCSV Samples.sheet)).
Proof.
  assert (Hord : ordinary Samples.ann).
  { intros k Hk. cbn in Hk.
    destruct Hk as [<-|[<-|[<-|[]]]]; vm_compute; discriminate. }
  destruct (parseCSV_headers Samples.ann 2%N [] Hord) as (_ & _ & Hnd & Hin).
  split; [|exact Hnd]. apply Hin. exists (lit "First Language").
  split; [right; right; left; reflexivity | reflexivity].
Defined.

(** ** Reading a property of an object *)

Lemma get_update o k v k' :
  JsObject.get o k <> None ->
  JsObject.get (JsObject.update o k v) k'
  = if JsString.eqb k k' then Some v else JsObject.get o k'.
Proof.
  induction o as [|[k0 v0] o IH]; intros Hk; [contradiction Hk; reflexivity|].
  cbn [JsObject.update JsObject.get] in *.
  destruct (JsString.eqb k0 k) eqn:E0.
  - apply jstring_eqb_eq in E0. subst k0. cbn [JsObject.get].
    destruct (JsString.eqb k k'); reflexivity.
  - cbn [JsObject.get]. destruct (JsString.eqb k0 k') eqn:E1.
    + apply jstring_eqb_eq in E1. subst k0. rewrite jstring_eqb_neq; [reflexivity|].
      intros ->. rewrite jstring_eqb_refl in E0. discriminate E0.
    + exact (IH Hk).
Qed.

Lemma get_insert_index o n k v k' :
  JsObject.get o k = None ->
  JsObject.get (JsObject.insert_index o n k v) k'
  = if JsString.eqb k k' then Some v else JsObject.get o k'.
Proof.
  induction o as [|[k0 v0] o IH]; intros Hk; [reflexivity|].
  cbn [JsObject.insert_index].
  cbn [JsObject.get] in Hk. destruct (JsString.eqb k0 k) eqn:E0;
    [discriminate Hk|].
  assert (Hhere : JsObject.get ((k, v) :: (k0, v0) :: o) k'
                  = if JsString.eqb k k' then Some v
                    else JsObject.get ((k0, v0) :: o) k') by reflexivity.
  destruct (JsObject.array_index k0) as [m|]; [|exact Hhere].
  destruct (m <? n)%N; [|exact Hhere].
  cbn [JsObject.get]. rewrite (IH Hk).
  destruct (JsString.eqb k0 k') eqn:E1; [|reflexivity].
  apply jstring_eqb_eq in E1. subst k0.
  rewrite jstring_eqb_neq; [reflexivity|].
  intros ->. rewrite jstring_eqb_refl in E0. discriminate E0.
Qed.

Lemma get_append o k v k' :
  JsObject.get o k = None ->
  JsObject.get (o ++ [(k, v)]) k'
  = if JsString.eqb k k' then Some v else JsObject.get o k'.
Proof.
  induction o as [|[k0 v0] o IH]; intros Hk.
  - cbn [app JsObject.get]. destruct (JsString.eqb k k'); reflexivity.
  - cbn [JsObject.get] in Hk. destruct (JsString.eqb k0 k) eqn:E0;
      [discriminate Hk|].
    cbn [app JsObject.get]. rewrite (IH Hk).
    destruct (JsString.eqb k0 k') eqn:E1; [|reflexivity].
    apply jstring_eqb_eq in E1. subst k0.
    rewrite jstring_eqb_neq; [reflexivity|].
    intros ->. rewrite jstring_eqb_refl in E0. discriminate E0.
Qed.

(** A property that was defined is read back, and no other property is
    changed. *)
Lemma get_define o k v k' :
  JsObject.get (JsObject.define o k v) k'
  = if JsString.eqb k k' then Some v else JsObject.get o k'.
Proof.
  unfold JsObject.define. destruct (JsObject.get o k) eqn:E.
  - apply get_update. rewrite E. discriminate.
  - destruct (JsObject.array_index k);
      [apply get_insert_index | apply get_append]; exact E.
Qed.

Lemma get_set o k v k' :
  k <> lit "__proto__" ->
  JsObject.get (JsObject.set o k v) k'
  = if JsString.eqb k k' then Some v else JsObject.get o k'.
Proof.
  intros Hk. unfold JsObject.set. rewrite (jstring_eqb_neq _ _ Hk).
  apply get_define.
Qed.

Lemma get_set_other o k v k' :
  k <> k' -> JsObject.get (JsObject.set o k v) k' = JsObject.get o k'.
Proof.
  intros Hk. unfold JsObject.set.
  destruct (JsString.eqb k (lit "__proto__")); [reflexivity|].
  rewrite get_define, (jstring_eqb_neq _ _ Hk). reflexivity.
Qed.

(** [{ ...o, ...extra }]: a property of [extra] wins. *)
Lemma get_spread extra :
  NoDup (JsObject.keys extra) ->
  forall o k,
    JsObject.get (JsObject.spread o extra) k
    = match JsObject.get extra k with
      | Some v => Some v
      | None => JsObject.get o k
      end.
Proof.
  unfold JsObject.spread, JsObject.keys.
  induction extra as [|[k0 v0] extra IH]; intros Hnd o k; [reflexivity|].
  cbn [map fst] in Hnd. apply NoDup_cons_iff in Hnd.
  destruct Hnd as [Hk0 Hnd].
  cbn [fold_left fst snd JsObject.get]. rewrite (IH Hnd), get_define.
  destruct (JsString.eqb k0 k) eqn:E; [|reflexivity].
  apply jstring_eqb_eq in E. subst k0.
  destruct (JsObject.get extra k) eqn:Eg; [|reflexivity].
  apply get_in_keys in Eg. contradiction.
Qed.

(** ** Reading a normalised row *)

Lemma folded_proto_trim k :
  folded k <> lit "__proto__" -> trim k <> lit "__proto__".
Proof.
  intros H Ht. apply H. rewrite <- folded_trim, Ht. reflexivity.
Qed.

Lemma normalize_step_other acc k' v' w t :
  folded k' <> folded t ->
  JsObject.get
    (JsObject.set (JsObject.set acc (folded k') w) (trim k') v') t
  = JsObject.get acc t.
Proof.
  intros H. rewrite !get_set_other; [reflexivity| |].
  - intros Heq. apply H. rewrite <- Heq. symmetry. apply folded_idem.
  - intros Heq. apply H. rewrite <- Heq. symmetry. apply folded_trim.
Qed.

Lemma normalize_step_same acc k v t :
  t = folded k \/ t = trim k -> folded k <> lit "__proto__" ->
  JsObject.get (JsObject.set (JsObject.set acc (folded k) v) (trim k) v) t
  = Some v.
Proof.
  intros Ht Hp. pose proof (folded_proto_trim k Hp) as Hp'.
  rewrite (get_set _ _ _ _ Hp').
  destruct (JsString.eqb (trim k) t) eqn:E; [reflexivity|].
  destruct Ht as [-> | ->]; [|rewrite jstring_eqb_refl in E; discriminate E].
  rewrite (get_set _ _ _ _ Hp), jstring_eqb_refl. reflexivity.
Qed.

Lemma normalize_get record k v t :
  In (k, v) record ->
  (forall k' v', In (k', v') record -> folded k' = folded k ->
     k' = k /\ v' = v) ->
  folded k <> lit "__proto__" ->
  t = folded k \/ t = trim k ->
  JsObject.get (CsvService.normalize record) t = Some v.
Proof.
  intros Hin Huniq Hp Ht. unfold CsvService.normalize, JsObject.entries.
  assert (Hfold : folded t = folded k).
  { destruct Ht as [-> | ->]; [apply folded_idem | apply folded_trim]. }
  revert Hin Huniq. generalize (@nil (jstring * jstring)) as acc.
  induction record as [|[k0 v0] record IH] using rev_ind; intros acc Hin Huniq;
    [contradiction|].
  rewrite fold_left_app. cbn [fold_left fst snd].
  change (trim (toLowerCase k0)) with (folded k0).
  destruct (list_eq_dec ascii_dec (folded k0) (folded k)) as [Hsame | Hdiff].
  - destruct (Huniq k0 v0) as [-> ->];
      [apply in_app_iff; right; left; reflexivity | exact Hsame |].
    rewrite or_else_empty. apply normalize_step_same; assumption.
  - rewrite normalize_step_other by congruence.
    apply IH.
    + apply in_app_iff in Hin. destruct Hin as [Hin | [Heq | []]];
        [exact Hin|]. injection Heq as -> ->. contradiction Hdiff; reflexivity.
    + intros k' v' Hk'. apply Huniq. apply in_app_iff. left; exact Hk'.
Qed.

(** X6.  The names of the columns are matched without regard to case: in
    a normalised row, a column that is the only one of its name up to
    case and surrounding white space is read back under its lower-case
    name and under its name as written.  A column [email] in any case is
    the address of the row for the validation and, in lower case, for
    [extractEmail]; a column [name] in any case is the name for
    [extractName]. *)
Theorem normalised_row_lookup (record : JsObject.object) (k v : jstring) :
  In (k, v) record ->
  (forall k' v', In (k', v') record -> folded k' = folded k ->
     k' = k /\ v' = v) ->
  folded k <> lit "__proto__" ->
  JsObject.get (CsvService.normalize record) (folded k) = Some v
  /\ JsObject.get (CsvService.normalize record) (trim k) = Some v
  /\ (folded k = lit "email" -> truthy v = true ->
      CsvService.row_email (CsvService.normalize record) = v
      /\ CsvService.extractEmail (CsvService.normalize record)
         = trim (toLowerCase v))
  /\ (folded k = lit "name" -> truthy v = true ->
      CsvService.extractName (CsvService.normalize record) = v).
Proof.
  intros Hin Huniq Hp.
  pose proof (normalize_get record k v (folded k) Hin Huniq Hp
                (or_introl eq_refl)) as Hfolded.
  pose proof (normalize_get record k v (trim k) Hin Huniq Hp
                (or_intror eq_refl)) as Htrim.
  split; [exact Hfolded|]. split; [exact Htrim|]. split.
  - intros Hk Hv. rewrite Hk in Hfolded.
    unfold CsvService.row_email, CsvService.extractEmail,
      CsvService.email_keys. cbn [CsvService.first_of].
    unfold JsObject.get_or_empty at 1 4. rewrite Hfolded.
    unfold or_else at 1 4. rewrite Hv. split; reflexivity.
  - intros Hk Hv. rewrite Hk in Hfolded.
    unfold CsvService.extractName, CsvService.name_keys.
    cbn [CsvService.first_of].
    unfold JsObject.get_or_empty at 1. rewrite Hfolded.
    unfold or_else at 1. rewrite Hv. reflexivity.
Qed.

(** The column [EMAIL] is the address of the row. *)
Lemma normalised_row_lookup_witness :
  CsvService.extractEmail (CsvService.normalize Samples.ann)
  = lit "ann.lee@example.org".
Proof.
  refine (proj2 (proj1 (proj2 (proj2
            (normalised_row_lookup Samples.ann (lit "EMAIL")
               (lit "Ann.Lee@Example.org") _ _ _)))
            eq_refl eq_refl)).
  - right; left; reflexivity.
  - intros k' v' [H|[H|[H|[]]]] Hf; injection H as <- <-;
      try (split; reflexivity); vm_compute in Hf; discriminate Hf.
  - vm_compute. discriminate.
Defined.

(** ** The placeholders of a template *)

Lemma lower_char_word c : is_word c = true -> is_word (lower_char c) = true.
Proof. destruct c as [[] [] [] [] [] [] [] []]; intros H; try discriminate H; reflexivity. Qed.

Lemma identifier_lower n : identifier n = true -> identifier (toLowerCase n) = true.
Proof.
  unfold identifier, toLowerCase. rewrite !andb_true_iff. intros [Hne Hw].
  split; [destruct n; [discriminate Hne | reflexivity]|].
  rewrite forallb_forall in Hw |- *. intros c Hc.
  apply in_map_iff in Hc. destruct Hc as (x & <- & Hx).
  apply lower_char_word, Hw, Hx.
Qed.

Lemma match_word_identifier s name rest :
  EmailService.match_word s = Some (name, rest) -> identifier name = true.
Proof.
  unfold EmailService.match_word.
  destruct (strip Placeholder.open_braces s) as [s1|]; [|discriminate].
  cbv zeta.
  destruct (truthy (takeWhile is_word (dropWhile is_space s1))) eqn:E;
    [|discriminate].
  destruct (strip Placeholder.close_braces _); [|discriminate].
  intros H. injection H as <- _. unfold identifier.
  rewrite E, takeWhile_all. reflexivity.
Qed.

Lemma exec_all_identifiers s :
  forall k name, In name (EmailService.exec_all k s) -> identifier name = true.
Proof.
  induction s as [|c s IH]; intros k name; [intros []|].
  cbn [EmailService.exec_all]. destruct k as [|k]; [|apply IH].
  destruct (EmailService.match_word (c :: s)) as [[n rest]|] eqn:E;
    [|apply IH].
  intros [<-|H]; [exact (match_word_identifier _ _ _ E) | exact (IH _ _ H)].
Qed.

Lemma add_in set value p :
  In p (EmailService.add set value) <-> In p set \/ p = value.
Proof.
  unfold EmailService.add.
  destruct (existsb (JsString.eqb value) set) eqn:E.
  - apply seen_before in E. split; [intros H; left; exact H|].
    intros [H | ->]; assumption.
  - rewrite in_app_iff. cbn [In]. split.
    + intros [H|[H|[]]]; [left; exact H | right; symmetry; exact H].
    + intros [H|H]; [left; exact H | right; left; symmetry; exact H].
Qed.

Lemma add_NoDup set value : NoDup set -> NoDup (EmailService.add set value).
Proof.
  intros Hnd. unfold EmailService.add.
  destruct (existsb (JsString.eqb value) set) eqn:E; [exact Hnd|].
  apply NoDup_app; [exact Hnd | repeat constructor; intros [] |].
  intros x Hx [<-|[]].
  apply seen_before in Hx. congruence.
Qed.

(** The set of the lower-case forms of a list of names. *)
Lemma placeholders_of names :
  forall acc,
    NoDup acc ->
    NoDup (fold_left (fun set name => EmailService.add set (toLowerCase name))
             names acc)
    /\ forall p,
         In p (fold_left
                 (fun set name => EmailService.add set (toLowerCase name))
                 names acc)
         <-> In p acc \/ exists name, In name names /\ p = toLowerCase name.
Proof.
  induction names as [|n names IH]; intros acc Hacc; cbn [fold_left].
  - split; [exact Hacc|]. intros p. split; [intros H; left; exact H|].
    intros [H | (x & [] & _)]; exact H.
  - destruct (IH _ (add_NoDup acc (toLowerCase n) Hacc)) as [Hnd Hin].
    split; [exact Hnd|]. intros p. rewrite Hin, add_in. split.
    + intros [[H | ->] | (x & Hx & ->)].
      * left; exact H.
      * right. exists n. split; [left; reflexivity | reflexivity].
      * right. exists x. split; [right; exact Hx | reflexivity].
    + intros [H | (x & [<-|Hx] & ->)].
      * left; left; exact H.
      * left; right; reflexivity.
      * right. exists x. split; [exact Hx | reflexivity].
Qed.

(** X7.  [extractPlaceholders] returns every placeholder once, in lower
    case, and every placeholder is an identifier (letters, digits and
    underscores, at least one): for any text whatever. *)
Theorem extractPlaceholders_names (template : jstring) :
  NoDup (EmailService.extractPlaceholders template)
  /\ forall p, In p (EmailService.extractPlaceholders template) ->
       identifier p = true /\ toLowerCase p = p.
Proof.
  unfold EmailService.extractPlaceholders.
  destruct (placeholders_of (EmailService.exec_all 0 template) []
              (NoDup_nil _)) as [Hnd Hin].
  split; [exact Hnd|]. intros p Hp. apply Hin in Hp.
  destruct Hp as [[] | (name & Hname & ->)].
  split; [|apply toLowerCase_idem].
  apply identifier_lower. exact (exec_all_identifiers _ _ _ Hname).
Qed.

(** ** The placeholders of a template made of segments *)

Lemma space_not_word c : is_space c = true -> is_word c = false.
Proof. destruct c as [[] [] [] [] [] [] [] []]; intros H; try discriminate H; reflexivity. Qed.

Lemma dropWhile_all (f : ascii -> bool) (p s : jstring) :
  forallb f p = true -> dropWhile f (p ++ s) = dropWhile f s.
Proof.
  induction p as [|c p IH]; [reflexivity|].
  cbn [forallb app dropWhile]. rewrite andb_true_iff. intros [-> Hp].
  exact (IH Hp).
Qed.

Lemma takeWhile_app_all (f : ascii -> bool) (p s : jstring) :
  forallb f p = true -> takeWhile f (p ++ s) = p ++ takeWhile f s.
Proof.
  induction p as [|c p IH]; [reflexivity|].
  cbn [forallb app takeWhile]. rewrite andb_true_iff. intros [-> Hp].
  rewrite (IH Hp). reflexivity.
Qed.

Lemma ends_tight_suffix (p s : jstring) :
  ends_tight (p ++ s) = true -> s <> [] -> ends_tight s = true.
Proof.
  intros H Hs. induction p as [|c p IH]; [exact H|].
  apply IH. cbn [app] in H.
  destruct (p ++ s) eqn:E; [|exact H].
  destruct p; [cbn in E; contradiction | discriminate E].
Qed.

Lemma dropWhile_not_all (f : ascii -> bool) (s : jstring) :
  forallb f s = false -> dropWhile f s <> [].
Proof.
  induction s as [|c s IH]; [discriminate|].
  cbn [forallb dropWhile]. destruct (f c); [exact IH | discriminate].
Qed.

Lemma forallb_suffix (f : ascii -> bool) (p s : jstring) :
  forallb f (p ++ s) = true -> forallb f s = true.
Proof. rewrite forallb_app, andb_true_iff. intros [_ H]. exact H. Qed.

(** The pattern of [extractPlaceholders] against a token: it matches the
    whole token when the name is an identifier, and not at all
    otherwise. *)
Lemma match_word_token a n b rest :
  well_formed (Token a n b) = true ->
  EmailService.match_word (token_text a n b ++ rest)
  = if identifier n then Some (n, rest) else None.
Proof.
  intros Hwf.
  destruct (well_formed_token _ _ _ Hwf) as (Ha & Hn1 & Hn2 & Hn3 & Hb).
  rewrite token_text_app. unfold EmailService.match_word.
  cbn [strip Placeholder.open_braces]. rewrite !Ascii.eqb_refl.
  cbv zeta. rewrite (dropWhile_all _ a _ Ha).
  assert (Hhead : dropWhile is_space
                    (n ++ b ++ Placeholder.close_braces ++ rest)
                  = n ++ b ++ Placeholder.close_braces ++ rest).
  { destruct n as [|c n]; [discriminate Hn1|].
    cbn [starts_tight] in Hn1. apply negb_true_iff in Hn1.
    cbn [app dropWhile]. rewrite Hn1. reflexivity. }
  rewrite Hhead.
  set (tail := b ++ Placeholder.close_braces ++ rest).
  assert (Htail : takeWhile is_word tail = [] /\ dropWhile is_word tail = tail).
  { unfold tail. destruct b as [|x b]; [split; reflexivity|].
    cbn [forallb] in Hb. apply andb_true_iff in Hb. destruct Hb as [Hx _].
    cbn [app takeWhile dropWhile]. rewrite (space_not_word x Hx).
    split; reflexivity. }
  destruct Htail as [Htake Hdrop].
  unfold identifier.
  assert (Hne : truthy n = true) by (destruct n; [discriminate Hn1 | reflexivity]).
  rewrite Hne. cbn [andb].
  destruct (forallb is_word n) eqn:Hword.
  - rewrite (takeWhile_app_all _ n tail Hword), Htake, app_nil_r, Hne.
    rewrite (dropWhile_all _ n tail Hword), Hdrop.
    unfold tail. rewrite (strip_close_after_spaces rest b Hb). reflexivity.
  - pose proof (takeWhile_dropWhile is_word n) as Hsplit.
    pose proof (takeWhile_all is_word n) as Hp.
    pose proof (dropWhile_not_all _ _ Hword) as Hq.
    set (p := takeWhile is_word n) in *. set (q := dropWhile is_word n) in *.
    assert (Hstop : takeWhile is_word (q ++ tail) = []
                    /\ dropWhile is_word (q ++ tail) = q ++ tail).
    { destruct q as [|c q'] eqn:Eq; [contradiction|].
      pose proof (dropWhile_stops is_word n c q') as Hc.
      fold q in Hc. cbn [app takeWhile dropWhile].
      rewrite (Hc ltac:(unfold q in *; assumption)). split; reflexivity. }
    destruct Hstop as [Hstop1 Hstop2].
    rewrite <- Hsplit, <- app_assoc.
    rewrite (takeWhile_app_all _ p _ Hp), Hstop1, app_nil_r.
    rewrite (dropWhile_all _ p _ Hp), Hstop2.
    destruct (truthy p); [|reflexivity].
    rewrite strip_close_label; [reflexivity | exact Hq | |].
    + apply (ends_tight_suffix p q); [rewrite Hsplit; exact Hn2 | exact Hq].
    + apply (forallb_suffix _ p q). rewrite Hsplit. exact Hn3.
Qed.

Lemma match_word_open s :
  strip Placeholder.open_braces s = None -> EmailService.match_word s = None.
Proof. unfold EmailService.match_word. intros ->. reflexivity. Qed.

Lemma exec_all_skip pre rest :
  EmailService.exec_all (length pre) (pre ++ rest)
  = EmailService.exec_all 0 rest.
Proof.
  induction pre as [|c pre IH]; [reflexivity|].
  cbn [length app EmailService.exec_all]. exact IH.
Qed.

(** Text without an opening brace holds no placeholder. *)
Lemma exec_all_literal pre rest :
  no_open pre = true ->
  EmailService.exec_all 0 (pre ++ rest) = EmailService.exec_all 0 rest.
Proof.
  unfold no_open. induction pre as [|c pre IH]; [reflexivity|].
  cbn [forallb]. rewrite andb_true_iff, negb_true_iff. intros [Hc Hpre].
  cbn [app EmailService.exec_all].
  rewrite (match_word_open _ (strip_open_other c _ Hc)). exact (IH Hpre).
Qed.

Lemma exec_all_token a n b rest :
  well_formed (Token a n b) = true ->
  EmailService.exec_all 0 (token_text a n b ++ rest)
  = (if identifier n then [n] else []) ++ EmailService.exec_all 0 rest.
Proof.
  intros Hwf. pose proof (match_word_token a n b rest Hwf) as Hm.
  destruct (well_formed_token _ _ _ Hwf) as (Ha & Hn1 & _ & Hn3 & Hb).
  destruct (identifier n).
  - (* the token is a match: the search goes on after it *)
    assert (Hshape : exists c tok, token_text a n b = c :: tok)
      by (unfold token_text, Placeholder.open_braces; eexists _, _;
          reflexivity).
    destruct Hshape as (c & tok & Htok). rewrite Htok in Hm |- *.
    cbn [app EmailService.exec_all]. cbn [app] in Hm. rewrite Hm.
    cbn [app]. f_equal.
    replace (length (c :: tok ++ rest) - length rest - 1) with (length tok)
      by (cbn [length]; rewrite length_app; lia).
    apply exec_all_skip.
  - (* no match at the token, and none inside it *)
    assert (Hinner :
      no_open (a ++ n ++ b ++ Placeholder.close_braces) = true).
    { rewrite !no_open_app, (spaces_no_open a Ha), (label_no_open n Hn3),
        (spaces_no_open b Hb). reflexivity. }
    rewrite token_text_app in Hm |- *.
    cbn [EmailService.exec_all app]. rewrite Hm.
    assert (Hfirst : exists c more,
              a ++ n ++ b ++ Placeholder.close_braces ++ rest = c :: more
              /\ Ascii.eqb c "{" = false).
    { destruct a as [|x a].
      - destruct n as [|c n]; [discriminate Hn1|].
        exists c, (n ++ b ++ Placeholder.close_braces ++ rest).
        split; [reflexivity|].
        cbn [forallb] in Hn3. apply andb_true_iff in Hn3.
        destruct Hn3 as [Hc _]. apply negb_true_iff in Hc.
        unfold brace in Hc. apply orb_false_iff in Hc. apply Hc.
      - exists x, (a ++ n ++ b ++ Placeholder.close_braces ++ rest).
        split; [reflexivity|].
        cbn [forallb] in Ha. apply andb_true_iff in Ha.
        destruct Ha as [Hx _].
        destruct (Ascii.eqb_spec x "{") as [->|];
          [discriminate Hx | reflexivity]. }
    destruct Hfirst as (c & more & Heq & Hc).
    rewrite Heq. rewrite (match_word_open _ (strip_open_single c more Hc)).
    rewrite <- Heq.
    pose proof (exec_all_literal (a ++ n ++ b ++ Placeholder.close_braces)
                  rest Hinner) as Hlit.
    rewrite <- !app_assoc in Hlit. exact Hlit.
Qed.

Lemma exec_all_segments segs :
  forallb well_formed segs = true ->
  EmailService.exec_all 0 (template_text segs) = token_names segs.
Proof.
  induction segs as [|seg segs IH]; [reflexivity|].
  cbn [forallb]. rewrite andb_true_iff. intros [Hseg Hsegs].
  unfold template_text, token_names in *. cbn [flat_map].
  destruct seg as [text | a n b]; cbn [segment_text].
  - rewrite exec_all_literal by exact Hseg. exact (IH Hsegs).
  - rewrite exec_all_token by exact Hseg. rewrite (IH Hsegs). reflexivity.
Qed.

Lemma token_names_in segs name :
  In name (token_names segs)
  <-> exists a b, In (Token a name b) segs /\ identifier name = true.
Proof.
  unfold token_names. rewrite in_flat_map. split.
  - intros ([text | a n b] & Hseg & Hin); [contradiction|].
    destruct (identifier n) eqn:E; [|contradiction].
    destruct Hin as [<-|[]]. exists a, b. split; assumption.
  - intros (a & b & Hseg & Hid). exists (Token a name b).
    split; [exact Hseg|]. rewrite Hid. left; reflexivity.
Qed.

(** X8.  For a template made of literal text and tokens, the
    placeholders are the names of the tokens that are identifiers, in
    lower case, in the order of their first appearance: a token such as
    [{{first name}}], whose name is not an identifier, is no
    placeholder. *)
Theorem extractPlaceholders_tokens (segs : list Segment) :
  forallb well_formed segs = true ->
  EmailService.extractPlaceholders (template_text segs)
  = fold_left (fun set name => EmailService.add set (toLowerCase name))
      (token_names segs) []
  /\ forall p,
       In p (EmailService.extractPlaceholders (template_text segs))
       <-> exists a n b,
             In (Token a n b) segs /\ identifier n = true
             /\ p = toLowerCase n.
Proof.
  intros Hwf. unfold EmailService.extractPlaceholders.
  rewrite (exec_all_segments segs Hwf). split; [reflexivity|].
  intros p.
  rewrite (proj2 (placeholders_of (token_names segs) [] (NoDup_nil _)) p).
  split.
  - intros [[] | (name & Hname & ->)].
    apply token_names_in in Hname. destruct Hname as (a & b & Hseg & Hid).
    exists a, name, b. repeat split; assumption.
  - intros (a & n & b & Hseg & Hid & ->). right. exists n.
    split; [|reflexivity]. apply token_names_in. exists a, b.
    split; assumption.
Qed.

(** The placeholders of the sample greeting. *)
Lemma extractPlaceholders_tokens_witness :
  EmailService.extractPlaceholders (template_text Samples.greeting)
  = [lit "name"; lit "event_name"].
Proof.
  exact (proj1 (extractPlaceholders_tokens Samples.greeting eq_refl)).
Defined.

(** ** Templates without tokens *)

Lemma strip_none (p s : jstring) : startsWith s p = false -> strip p s = None.
Proof.
  revert s. induction p as [|x p IH]; intros s;
    [destruct s; discriminate|].
  destruct s as [|y s]; [reflexivity|]. cbn [startsWith strip].
  destruct (Ascii.eqb x y); [exact (IH s) | reflexivity].
Qed.

Lemma replace_go_nowhere (m : jstring -> option jstring) (repl : jstring) :
  (forall s, strip Placeholder.open_braces s = None -> m s = None) ->
  forall s before,
    includes s Placeholder.open_braces = false ->
    Placeholder.replace_go m repl 0 before s = s.
Proof.
  intros Hm. induction s as [|c s IH]; intros before; [reflexivity|].
  cbn [includes]. rewrite orb_false_iff. intros [Hhere Hlater].
  cbn [Placeholder.replace_go]. rewrite (Hm _ (strip_none _ _ Hhere)).
  rewrite (IH _ Hlater). reflexivity.
Qed.

Lemma render_entries_nowhere E entries template :
  includes template Placeholder.open_braces = false ->
  (forall key value, In (key, value) entries ->
     Placeholder.plain_key key = true) ->
  EmailService.renderEmailTemplate_entries E entries template = Ok template.
Proof.
  intros Hfree. induction entries as [|[key value] entries IH]; intros Hkeys;
    [reflexivity|].
  cbn [EmailService.renderEmailTemplate_entries].
  unfold Placeholder.replace_placeholder.
  rewrite (Hkeys key value (or_introl eq_refl)).
  unfold Placeholder.replace_plain, Placeholder.replace_all.
  rewrite (replace_go_nowhere _ _ (match_at_open key) _ _ Hfree).
  cbn [bind]. apply IH. intros k v Hin. apply (Hkeys k v). right; exact Hin.
Qed.

Lemma replace_fields_nowhere E entries pattern :
  includes pattern Placeholder.open_braces = false ->
  (forall key value, In (key, value) entries ->
     Placeholder.plain_key key = true) ->
  JobService.replace_fields E entries pattern = Ok pattern.
Proof.
  intros Hfree. induction entries as [|[key value] entries IH]; intros Hkeys;
    [reflexivity|].
  cbn [JobService.replace_fields].
  unfold Placeholder.replace_placeholder.
  rewrite (Hkeys key value (or_introl eq_refl)).
  unfold Placeholder.replace_plain, Placeholder.replace_all.
  rewrite (replace_go_nowhere _ _ (match_at_open key) _ _ Hfree).
  cbn [bind]. apply IH. intros k v Hin. apply (Hkeys k v). right; exact Hin.
Qed.

(** X9.  A text that does not contain two opening braces in a row is not
    changed by the substitution, whatever the record holds (its values
    may contain [$] or braces), as long as its keys stand for themselves
    in a pattern.  As a naming pattern such a text gives every recipient
    the same file name, at every position: the text itself, with [.pdf]
    added unless it ends in it. *)
Theorem text_without_tokens (E : Placeholder.Engine) (text : jstring)
    (data : JsObject.object) :
  includes text Placeholder.open_braces = false ->
  (forall key value, In (key, value) data ->
     Placeholder.plain_key key = true) ->
  EmailService.renderEmailTemplate E text data = Ok text
  /\ forall index,
       JobService.generateFilename E text data index
       = Ok (JobService.ensure_pdf text).
Proof.
  intros Hfree Hkeys. split.
  - exact (render_entries_nowhere E _ _ Hfree Hkeys).
  - intros index. unfold JobService.generateFilename, Placeholder.replace_all.
    rewrite (replace_go_nowhere _ _ match_sn_open _ _ Hfree).
    unfold JsObject.entries.
    rewrite (replace_fields_nowhere E _ _ Hfree Hkeys). reflexivity.
Qed.

(** A text without tokens, and a value the replacement would interpret. *)
Lemma text_without_tokens_witness :
  EmailService.renderEmailTemplate Demo.engine (lit "See you soon {}")
    [(lit "name", lit "$&")]
  = Ok (lit "See you soon {}").
Proof.
  refine (proj1 (text_without_tokens Demo.engine (lit "See you soon {}")
                   [(lit "name", lit "$&")] eq_refl _)).
  intros key value [H|[]]. injection H as <- <-. reflexivity.
Defined.

(** ** What a rendering leaves *)

Lemma after_entries_token entries a n b :
  fold_left
    (fun seg kv => swap (fun _ n _ => ci_equal (fst kv) n) (snd kv) seg)
    entries (Token a n b)
  = match lookup_ci entries n with
    | Some value => Literal value
    | None => Token a n b
    end.
Proof.
  induction entries as [|[key value] entries IH]; [reflexivity|].
  cbn [fold_left swap fst snd lookup_ci].
  destruct (ci_equal key n); [apply after_entries_literal | exact IH].
Qed.

Lemma lookup_ci_in entries n value :
  lookup_ci entries n = Some value -> exists key, In (key, value) entries.
Proof.
  induction entries as [|[k v] entries IH]; [discriminate|].
  cbn [lookup_ci]. destruct (ci_equal k n).
  - intros H. injection H as ->. exists k. left; reflexivity.
  - intros H. destruct (IH H) as (key & Hin). exists key. right; exact Hin.
Qed.

Lemma after_entries_well_formed entries segs :
  entries_ok entries ->
  forallb well_formed segs = true ->
  forallb well_formed (after_entries entries segs) = true.
Proof.
  intros Hok Hwf. rewrite after_entries_map.
  rewrite forallb_forall in Hwf |- *. intros seg Hseg.
  apply in_map_iff in Hseg. destruct Hseg as ([text | a n b] & <- & Hin).
  - rewrite after_entries_literal. exact (Hwf _ Hin).
  - rewrite after_entries_token.
    destruct (lookup_ci entries n) as [value|] eqn:E; [|exact (Hwf _ Hin)].
    destruct (lookup_ci_in _ _ _ E) as (key & Hkey).
    exact (value_ok_no_open _ (proj2 (Hok key value Hkey))).
Qed.

Lemma after_entries_tokens entries segs a n b :
  In (Token a n b) (after_entries entries segs)
  <-> In (Token a n b) segs /\ lookup_ci entries n = None.
Proof.
  rewrite after_entries_map, in_map_iff. split.
  - intros ([text | a' n' b'] & Heq & Hin).
    + rewrite after_entries_literal in Heq. discriminate Heq.
    + rewrite after_entries_token in Heq.
      destruct (lookup_ci entries n') eqn:E; [discriminate Heq|].
      injection Heq as -> -> ->. split; assumption.
  - intros [Hin Hnone]. exists (Token a n b). split; [|exact Hin].
    rewrite after_entries_token, Hnone. reflexivity.
Qed.

(** X10.  After a template is rendered, the placeholders it still holds
    are exactly the tokens of the template that no key of the record
    names: none is left when every token has its key, and nothing new
    appears. *)
Theorem placeholders_left_by_rendering (E : Placeholder.Engine)
    (segs : list Segment) (data : JsObject.object) :
  forallb well_formed segs = true ->
  entries_ok data ->
  exists out,
    EmailService.renderEmailTemplate E (template_text segs) data = Ok out
    /\ (forall p,
          In p (EmailService.extractPlaceholders out)
          <-> exists a n b,
                In (Token a n b) segs /\ identifier n = true
                /\ lookup_ci data n = None /\ p = toLowerCase n)
    /\ ((forall a n b, In (Token a n b) segs -> lookup_ci data n <> None) ->
        EmailService.extractPlaceholders out = []).
Proof.
  intros Hwf Hok. exists (template_text (after_entries data segs)).
  pose proof (after_entries_well_formed data segs Hok Hwf) as Hwf'.
  assert (Hleft : forall p,
    In p (EmailService.extractPlaceholders
            (template_text (after_entries data segs)))
    <-> exists a n b,
          In (Token a n b) segs /\ identifier n = true
          /\ lookup_ci data n = None /\ p = toLowerCase n).
  { intros p. unfold EmailService.extractPlaceholders.
    rewrite (exec_all_segments _ Hwf').
    rewrite (proj2 (placeholders_of _ [] (NoDup_nil _)) p). split.
    - intros [[] | (name & Hname & ->)].
      apply token_names_in in Hname. destruct Hname as (a & b & Hseg & Hid).
      apply after_entries_tokens in Hseg. destruct Hseg as [Hseg Hnone].
      exists a, name, b. repeat split; assumption.
    - intros (a & n & b & Hseg & Hid & Hnone & ->). right. exists n.
      split; [|reflexivity]. apply token_names_in. exists a, b.
      split; [|exact Hid]. apply after_entries_tokens. split; assumption. }
  split; [|split].
  - unfold EmailService.renderEmailTemplate, JsObject.entries.
    exact (render_segments E data Hok segs Hwf).
  - exact Hleft.
  - intros Hall.
    destruct (EmailService.extractPlaceholders
                (template_text (after_entries data segs))) as [|p ps] eqn:Ep;
      [reflexivity|].
    destruct (proj1 (Hleft p) (or_introl eq_refl))
      as (a & n & b & Hseg & _ & Hnone & _).
    contradiction (Hall a n b Hseg).
Qed.

(** The greeting rendered for Ann keeps the event, which the record does
    not name. *)
Lemma placeholders_left_by_rendering_witness :
  exists out,
    EmailService.renderEmailTemplate Demo.engine
      (template_text Samples.greeting) [(lit "name", lit "Ann")] = Ok out
    /\ (forall p,
          In p (EmailService.extractPlaceholders out)
          <-> exists a n b,
                In (Token a n b) Samples.greeting /\ identifier n = true
                /\ lookup_ci [(lit "name", lit "Ann")] n = None
                /\ p = toLowerCase n)
    /\ ((forall a n b, In (Token a n b) Samples.greeting ->
           lookup_ci [(lit "name", lit "Ann")] n <> None) ->
        EmailService.extractPlaceholders out = []).
Proof.
  refine (placeholders_left_by_rendering Demo.engine Samples.greeting
            [(lit "name", lit "Ann")] eq_refl _).
  intros key value [H|[]]. injection H as <- <-. split; reflexivity.
Defined.

(** ** Colours *)

Lemma hex_value_bounds c :
  PdfService.hex_digit c = true -> (0 <= PdfService.hex_value c <= 15)%Z.
Proof.
  destruct c as [[] [] [] [] [] [] [] []]; intros H; try discriminate H;
    vm_compute; split; discriminate.
Qed.

Lemma channel_bounds hi lo :
  PdfService.hex_digit hi = true -> PdfService.hex_digit lo = true ->
  (0 <= PdfService.channel hi lo)%Q /\ (PdfService.channel hi lo <= 1)%Q.
Proof.
  intros Hhi Hlo. pose proof (hex_value_bounds hi Hhi).
  pose proof (hex_value_bounds lo Hlo). unfold PdfService.channel.
  set (n := (16 * PdfService.hex_value hi + PdfService.hex_value lo)%Z).
  assert (Hn : (0 <= n <= 255)%Z) by (unfold n; lia).
  rewrite !Qred_correct. unfold Qle, Qdiv, Qmult, Qinv, inject_Z.
  cbn [Qnum Qden]. split; cbn; lia.
Qed.

Lemma hex_digit_lower c :
  PdfService.hex_digit (lower_char c) = PdfService.hex_digit c.
Proof. destruct c as [[] [] [] [] [] [] [] []]; reflexivity. Qed.

Lemma hex_value_lower c :
  PdfService.hex_value (lower_char c) = PdfService.hex_value c.
Proof. destruct c as [[] [] [] [] [] [] [] []]; reflexivity. Qed.

Lemma hash_lower c : Ascii.eqb (lower_char c) "#" = Ascii.eqb c "#".
Proof. destruct c as [[] [] [] [] [] [] [] []]; reflexivity. Qed.

(** The expression with the test for the [#] written as a comparison. *)
Lemma exec_hex_eq hex :
  PdfService.exec_hex hex
  = let body :=
      match hex with
      | c :: rest => if Ascii.eqb c "#" then rest else hex
      | [] => hex
      end in
    match body with
    | [r1; r2; g1; g2; b1; b2] =>
        if forallb PdfService.hex_digit body
        then Some ((r1, r2), (g1, g2), (b1, b2)) else None
    | _ => None
    end.
Proof.
  unfold PdfService.exec_hex. destruct hex as [|c rest]; [reflexivity|].
  destruct c as [[] [] [] [] [] [] [] []]; reflexivity.
Qed.

(** X11.  [hexToRgb] returns, for every string, three components between
    0 and 1, the range the PDF library accepts; the case of the letters
    of the colour does not matter, and neither does a [#] in front. *)
Theorem hexToRgb_components (hex : jstring) :
  ((0 <= PdfService.r (PdfService.hexToRgb hex))%Q
   /\ (PdfService.r (PdfService.hexToRgb hex) <= 1)%Q
   /\ (0 <= PdfService.g (PdfService.hexToRgb hex))%Q
   /\ (PdfService.g (PdfService.hexToRgb hex) <= 1)%Q
   /\ (0 <= PdfService.b (PdfService.hexToRgb hex))%Q
   /\ (PdfService.b (PdfService.hexToRgb hex) <= 1)%Q)
  /\ PdfService.hexToRgb (toLowerCase hex) = PdfService.hexToRgb hex
  /\ (startsWith hex (lit "#") = false ->
      PdfService.hexToRgb ("#" :: hex) = PdfService.hexToRgb hex).
Proof.
  split; [|split].
  - unfold PdfService.hexToRgb, PdfService.exec_hex.
    set (body := match hex with "#" :: rest => rest | _ => hex end).
    destruct body as [|r1 [|r2 [|g1 [|g2 [|b1 [|b2 [|x more]]]]]]];
      try (cbn; repeat split; discriminate).
    destruct (forallb PdfService.hex_digit [r1; r2; g1; g2; b1; b2]) eqn:E;
      [|cbn; repeat split; discriminate].
    cbn [forallb] in E. rewrite !andb_true_iff in E.
    destruct E as (H1 & H2 & H3 & H4 & H5 & H6 & _).
    cbn [PdfService.r PdfService.g PdfService.b fst snd].
    pose proof (channel_bounds r1 r2 H1 H2).
    pose proof (channel_bounds g1 g2 H3 H4).
    pose proof (channel_bounds b1 b2 H5 H6). tauto.
  - assert (Hbody : forall body : jstring,
      match
        match map lower_char body with
        | [r1; r2; g1; g2; b1; b2] =>
            if forallb PdfService.hex_digit (map lower_char body)
            then Some ((r1, r2), (g1, g2), (b1, b2)) else None
        | _ => None
        end
      with
      | None => black
      | Some (rr, gg, bb) =>
          {| PdfService.r := PdfService.channel (fst rr) (snd rr);
             PdfService.g := PdfService.channel (fst gg) (snd gg);
             PdfService.b := PdfService.channel (fst bb) (snd bb) |}
      end
      = match
          match body with
          | [r1; r2; g1; g2; b1; b2] =>
              if forallb PdfService.hex_digit body
              then Some ((r1, r2), (g1, g2), (b1, b2)) else None
          | _ => None
          end
        with
        | None => black
        | Some (rr, gg, bb) =>
            {| PdfService.r := PdfService.channel (fst rr) (snd rr);
               PdfService.g := PdfService.channel (fst gg) (snd gg);
               PdfService.b := PdfService.channel (fst bb) (snd bb) |}
        end).
    { intros body.
      destruct body as [|r1 [|r2 [|g1 [|g2 [|b1 [|b2 [|x more]]]]]]];
        try reflexivity.
      cbn [map forallb]. rewrite !hex_digit_lower.
      destruct (PdfService.hex_digit r1 && _); [|reflexivity].
      cbn [fst snd]. unfold PdfService.channel. rewrite !hex_value_lower.
      reflexivity. }
    unfold PdfService.hexToRgb. rewrite !exec_hex_eq. unfold toLowerCase.
    cbv zeta. destruct hex as [|c rest]; [reflexivity|].
    cbn [map]. rewrite hash_lower.
    destruct (Ascii.eqb c "#"); [exact (Hbody rest)|].
    exact (Hbody (c :: rest)).
  - intros Hhash. unfold PdfService.hexToRgb. rewrite !exec_hex_eq.
    cbv zeta. rewrite Ascii.eqb_refl.
    destruct hex as [|c rest]; [reflexivity|].
    cbn [startsWith lit list_ascii_of_string] in Hhash.
    replace (startsWith rest []) with true in Hhash
      by (destruct rest; reflexivity).
    rewrite andb_true_r in Hhash. rewrite (Ascii.eqb_sym c "#"), Hhash.
    reflexivity.
Qed.

(** ** What a certificate holds *)

Lemma generateCertificate_texts lib templateBuffer data cfgs rendered :
  PdfService.generateCertificate lib templateBuffer data cfgs = Ok rendered ->
  map PdfService.op_text (PdfService.drawn rendered)
  = filter truthy
      (map (fun cfg => JsObject.get_or_empty data (PdfService.field cfg))
           cfgs).
Proof.
  intros H.
  destruct (generateCertificate_done _ _ _ _ _ H)
    as (width & height & pages & _ & Hfields & _).
  exact (proj1 (drawFields_drawn _ _ _ _ _ Hfields)).
Qed.

(** X12.  What [generateCertificate] returns, when it succeeds, are the
    bytes that saving gave for the template with, drawn on its first
    page, one text for every field whose value in the record is not
    empty, in the order of the fields; a field with no value or an empty
    one draws nothing.  Each text is the value, at the size of its field,
    in the font [getFont] gave for the field and the colour [hexToRgb]
    gave; in the arithmetic of doubles its base line is at the page
    height minus [y] minus the font size, and it starts at [x], or at
    [x] minus half its measured width, or at [x] minus its width, as the
    alignment says. *)
Theorem generateCertificate_draws (lib : PdfService.PdfLib)
    (templateBuffer : PdfService.Buffer) (data : JsObject.object)
    (fieldConfigs : list PdfService.FieldConfig)
    (rendered : PdfService.Rendered) :
  PdfService.generateCertificate lib templateBuffer data fieldConfigs
  = Ok rendered ->
  PdfService.save lib templateBuffer (PdfService.drawn rendered)
  = Ok (PdfService.bytes rendered)
  /\ map PdfService.op_text (PdfService.drawn rendered)
     = filter truthy
         (map (fun cfg => JsObject.get_or_empty data (PdfService.field cfg))
              fieldConfigs)
  /\ exists width height pages,
       PdfService.load lib templateBuffer = Ok ((width, height) :: pages)
       /\ forall op, In op (PdfService.drawn rendered) ->
            exists cfg textWidth,
              In cfg fieldConfigs
              /\ JsObject.get data (PdfService.field cfg)
                 = Some (PdfService.op_text op)
              /\ PdfService.op_size op = PdfService.fontSize cfg
              /\ PdfService.getFont lib (PdfService.fontFamily cfg)
                   (PdfService.fontWeight cfg)
                 = Ok (PdfService.op_font op)
              /\ PdfService.op_color op
                 = PdfService.hexToRgb (PdfService.color cfg)
              /\ PdfService.widthOfTextAtSize lib (PdfService.op_font op)
                   (PdfService.op_text op) (PdfService.op_size op)
                 = Ok textWidth
              /\ PdfService.op_y op
                 = PrimFloat.sub (PrimFloat.sub height (PdfService.y cfg))
                     (PdfService.fontSize cfg)
              /\ PdfService.op_x op
                 = match PdfService.alignment cfg with
                   | PdfService.left => PdfService.x cfg
                   | PdfService.center =>
                       PrimFloat.sub (PdfService.x cfg)
                         (PrimFloat.div textWidth PrimFloat.two)
                   | PdfService.right =>
                       PrimFloat.sub (PdfService.x cfg) textWidth
                   end.
Proof.
  intros H.
  destruct (generateCertificate_done _ _ _ _ _ H)
    as (width & height & pages & Hload & Hfields & Hsave).
  destruct (drawFields_drawn _ _ _ _ _ Hfields) as (Htexts & Hfrom & _).
  split; [exact Hsave|]. split; [exact Htexts|].
  exists width, height, pages. split; [exact Hload|].
  intros op Hop. destruct (Hfrom op Hop) as (cfg & Hcfg & Hdraw).
  destruct (drawField_drawn _ _ _ _ _ Hdraw)
    as (text & textWidth & Hget & _ & Hfont & Hwidth & _ & Heq).
  exists cfg, textWidth. split; [exact Hcfg|].
  assert (Ht : PdfService.op_text op = text) by (rewrite Heq; reflexivity).
  assert (Hs : PdfService.op_size op = PdfService.fontSize cfg)
    by (rewrite Heq; reflexivity).
  rewrite Ht, Hs.
  split; [exact Hget|]. split; [reflexivity|]. split; [exact Hfont|].
  split; [rewrite Heq; reflexivity|]. split; [exact Hwidth|].
  split; rewrite Heq; cbn [PdfService.op_y PdfService.op_x];
    [|destruct (PdfService.alignment cfg)]; reflexivity.
Qed.

(** The certificate of Jane Doe holds her name. *)
Lemma generateCertificate_draws_witness :
  map PdfService.op_text (PdfService.drawn Samples.certificate)
  = [lit "Jane Doe"].
Proof.
  exact (proj1 (proj2
           (generateCertificate_draws Demo.lib (lit "%PDF-1.7")
              [(lit "name", lit "Jane Doe"); (lit "city", lit "Delft")]
              [Demo.nameField] Samples.certificate eq_refl))).
Defined.

(** ** Fonts *)

(** X13.  For Helvetica, Times and Courier [getFont] embeds the standard
    font of the family and the weight, whatever the font directory
    holds, and the twelve combinations name twelve different fonts.  For
    Cairo and Montserrat it reads the font file of the family: when the
    file cannot be read it embeds plain Helvetica, whatever the weight;
    when the file is read, the result is what embedding its bytes
    gives, and an error of that embedding is the error of [getFont],
    there is no fall back then.  Cairo has no italic file of its own,
    the regular and the bold file stand in. *)
Theorem getFont_choice (lib : PdfService.PdfLib)
    (family : PdfService.FontFamily) (weight : PdfService.FontWeight) :
  match family with
  | PdfService.Cairo | PdfService.Montserrat =>
      let file := PdfService.customFileName family weight in
      PdfService.getFont lib family weight
      = match PdfService.readFile lib file with
        | Ok fontBytes =>
            match PdfService.embedFont lib (PdfService.Embedded fontBytes)
            with
            | Some err => Thrown err
            | None => Ok (PdfService.Embedded fontBytes)
            end
        | Thrown _ =>
            match PdfService.embedFont lib
                    (PdfService.Standard PdfService.SF_Helvetica) with
            | Some err => Thrown err
            | None => Ok (PdfService.Standard PdfService.SF_Helvetica)
            end
        end
      /\ startsWith file (PdfService.family_name family) = true
      /\ endsWith file (lit ".ttf") = true
  | _ =>
      PdfService.getFont lib family weight
      = match PdfService.embedFont lib
                (PdfService.Standard (PdfService.fontMap family weight)) with
        | Some err => Thrown err
        | None => Ok (PdfService.Standard (PdfService.fontMap family weight))
        end
      /\ forall family' weight',
           match family' with
           | PdfService.Cairo | PdfService.Montserrat => True
           | _ =>
               PdfService.fontMap family' weight'
               = PdfService.fontMap family weight ->
               family' = family /\ weight' = weight
           end
  end
  /\ PdfService.customFileName PdfService.Cairo PdfService.italic
     = PdfService.customFileName PdfService.Cairo PdfService.normal
  /\ PdfService.customFileName PdfService.Cairo PdfService.boldItalic
     = PdfService.customFileName PdfService.Cairo PdfService.bold.
Proof.
  split; [|split; reflexivity].
  destruct family.
  1-3: split; [reflexivity|];
       intros [] []; destruct weight; try exact I;
       intros H; try discriminate H; split; reflexivity.
  all: unfold PdfService.getFont, PdfService.embedded;
       split; [destruct (PdfService.readFile lib _);
               destruct weight; reflexivity|];
       destruct weight; split; reflexivity.
Qed.

(** ** Previews and template information *)

(** X14.  In a preview every field shows the value the sample data give
    it, and a field the sample data do not name shows the built-in sample
    (John Doe, ..., and the date of the day); a sample value that is
    empty hides the field, the built-in sample does not come back.
    Without sample data the preview is the certificate of the built-in
    sample. *)
Theorem generatePreview_texts (lib : PdfService.PdfLib) (today : jstring)
    (templateBuffer : PdfService.Buffer)
    (fieldConfigs : list PdfService.FieldConfig)
    (sample : JsObject.object) :
  NoDup (JsObject.keys sample) ->
  (forall rendered,
     PdfService.generatePreview lib today templateBuffer fieldConfigs
       (Some sample) = Ok rendered ->
     map PdfService.op_text (PdfService.drawn rendered)
     = filter truthy
         (map (fun cfg =>
                 match JsObject.get sample (PdfService.field cfg) with
                 | Some value => value
                 | None =>
                     JsObject.get_or_empty (PdfService.defaultData today)
                       (PdfService.field cfg)
                 end)
              fieldConfigs))
  /\ PdfService.generatePreview lib today templateBuffer fieldConfigs None
     = PdfService.generateCertificate lib templateBuffer
         (PdfService.defaultData today) fieldConfigs
  /\ JsObject.get (PdfService.defaultData today) (lit "name")
     = Some (lit "John Doe")
  /\ JsObject.get (PdfService.defaultData today) (lit "date") = Some today.
Proof.
  intros Hnd. split; [|split; [reflexivity | split; reflexivity]].
  intros rendered H. unfold PdfService.generatePreview in H.
  rewrite (generateCertificate_texts _ _ _ _ _ H). f_equal. apply map_ext. intros cfg.
  unfold JsObject.get_or_empty. rewrite (get_spread sample Hnd).
  destruct (JsObject.get sample (PdfService.field cfg)); reflexivity.
Qed.

(** A preview with a sample name shows that name. *)
Lemma generatePreview_texts_witness :
  exists rendered,
    PdfService.generatePreview Demo.lib (lit "1/2/2026") (lit "%PDF-1.7")
      [Demo.nameField] (Some [(lit "name", lit "Ann Lee")]) = Ok rendered
    /\ map PdfService.op_text (PdfService.drawn rendered) = [lit "Ann Lee"].
Proof.
  eexists. split; [vm_compute; reflexivity |].
  refine (proj1 (generatePreview_texts Demo.lib (lit "1/2/2026")
                   (lit "%PDF-1.7") [Demo.nameField]
                   [(lit "name", lit "Ann Lee")] _) _ eq_refl).
  constructor; [intros [] | constructor].
Defined.

(** X15.  [getTemplateInfo] reports at least one page, and the size of
    the first.  A template it accepts is one [generateCertificate] gets
    as far as saving: with no field to draw, the result is what saving
    the document as loaded gives, its bytes or its error.  A template it
    rejects (the file cannot be read as a PDF, or has no page) makes
    every generation fail, whatever the record and the fields. *)
Theorem getTemplateInfo_usable (lib : PdfService.PdfLib)
    (templateBuffer : PdfService.Buffer) :
  match PdfService.getTemplateInfo lib templateBuffer with
  | Ok info =>
      1 <= PdfService.pageCount info
      /\ (exists pages,
            PdfService.load lib templateBuffer
            = Ok ((PdfService.width info, PdfService.height info) :: pages)
            /\ PdfService.pageCount info = S (length pages))
      /\ forall data,
           PdfService.generateCertificate lib templateBuffer data []
           = match PdfService.save lib templateBuffer [] with
             | Ok pdfBytes =>
                 Ok {| PdfService.drawn := [];
                       PdfService.bytes := pdfBytes |}
             | Thrown message => Thrown message
             end
  | Thrown _ =>
      forall data fieldConfigs,
        exists message,
          PdfService.generateCertificate lib templateBuffer data fieldConfigs
          = Thrown message
  end.
Proof.
  unfold PdfService.getTemplateInfo, PdfService.generateCertificate.
  destruct (PdfService.load lib templateBuffer) as [pages|m]; cbn [bind].
  - destruct pages as [|[w h] pages].
    + intros data fieldConfigs. eexists. reflexivity.
    + cbn [PdfService.pageCount PdfService.width PdfService.height length].
      split; [lia|]. split; [exists pages; split; reflexivity|].
      intros data. cbn [PdfService.drawFields bind].
      destruct (PdfService.save lib templateBuffer []); reflexivity.
  - intros data fieldConfigs. exists m. reflexivity.
Qed.

(** ** The pace of an e-mail batch *)

Lemma paced_emitted ms tr p :
  forall ready,
    paced ms ready (tr ++ [JobService.Emitted p]) = paced ms ready tr.
Proof.
  induction tr as [|e tr IH]; intros ready; [reflexivity|].
  destruct e; cbn [app paced]; rewrite ?IH; reflexivity.
Qed.

Lemma emailLoop_paced w env job et cfg smtp xs :
  forall i c st ready,
    (JobService.processedCount c + Z.of_nat (length xs)
     <= BatchJob.totalCount job)%Z ->
    ready = true \/ xs = [] ->
    paced (JobService.delayOf cfg) ready
      (JobService.effects
         (JobService.emailLoop w env job et cfg smtp i xs c st)) = true.
Proof.
  induction xs as [|x xs IH]; intros i c st ready Hroom Hready;
    [reflexivity|].
  destruct Hready as [-> | Hnil]; [|discriminate Hnil].
  cbn [JobService.emailLoop JobService.effects JobService.counters
       JobService.after].
  unfold JobService.emailIteration.
  cbn [length] in Hroom.
  destruct (EmailStatus.eqb (Recipient.emailStatus x) EmailStatus.sent).
  - cbn [JobService.effects JobService.counters JobService.after app].
    apply IH; [cbn [JobService.succeeded JobService.processedCount]; lia
              | left; reflexivity].
  - assert (Hnext : forall c' st' ready',
      JobService.processedCount c' = (JobService.processedCount c + 1)%Z ->
      ready' = true \/ (BatchJob.totalCount job
                        <= JobService.processedCount c')%Z ->
      paced (JobService.delayOf cfg) ready'
        (JobService.effects
           (JobService.emailLoop w env job et cfg smtp (S i) xs c' st'))
      = true).
    { intros c' st' ready' Hc' Hr. apply IH; [lia|].
      destruct Hr as [Hr | Hr]; [left; exact Hr | right].
      destruct xs; [reflexivity | cbn [length] in Hroom; lia]. }
    destruct (JobService.composeEmail w et cfg smtp x) as [options|m];
      [destruct (JobService.sendEmail w i options)|];
      cbn [JobService.effects JobService.counters JobService.after app
           JobService.succeeded JobService.failed_one
           JobService.processedCount paced andb];
      destruct (Z.ltb_spec (JobService.processedCount c + 1)
                  (BatchJob.totalCount job));
      cbn [app paced andb]; rewrite ?Z.eqb_refl; cbn [andb];
      apply Hnext; try reflexivity; try (left; reflexivity);
      right;
      cbn [JobService.processedCount JobService.succeeded
           JobService.failed_one]; lia.
Qed.

(** X16.  An e-mail batch over a job that counts its recipients never
    attempts two messages without the configured pause between them (the
    pause is 3000 ms when the configuration says 0, and is never 0).
    Recipients already sent and recipients whose message cannot be
    composed attempt nothing. *)
Theorem email_batch_is_paced (w : JobService.World) (st : Store.t)
    (jobId : jstring) (job : BatchJob.t) (cfg : EmailBatchConfig.t) :
  Store.findJob st jobId = Some job ->
  BatchJob.config job = EmailConfig cfg ->
  sized st job ->
  paced (JobService.delayOf cfg) true
    (JobService.trace (JobService.processEmailBatch w st jobId)) = true
  /\ JobService.delayOf cfg <> 0%Z
  /\ (EmailBatchConfig.delayMs cfg = 0%Z ->
      JobService.delayOf cfg = 3000%Z).
Proof.
  intros Hj Hcfg Hsized. split; [|split].
  - pose proof (findJob_id _ _ _ Hj) as Hid.
    unfold sized in Hsized. rewrite Hid in Hsized.
    unfold JobService.processEmailBatch, JobService.processEmailBatchWith.
    rewrite Hj, Hcfg.
    destruct (Store.findEmailTemplate st _) as [et|]; [|reflexivity].
    destruct (Store.findSmtpConfig st _) as [smtp|]; [|reflexivity].
    cbn [JobService.trace]. unfold JobService.emitProgress.
    rewrite paced_emitted.
    apply emailLoop_paced; [|left; reflexivity].
    cbn [JobService.zero JobService.processedCount]. lia.
  - unfold JobService.delayOf, EmailService.SAFE_DELAY_MS.
    destruct (Z.eqb_spec (EmailBatchConfig.delayMs cfg) 0);
      [discriminate | assumption].
  - intros H0. unfold JobService.delayOf. rewrite H0. reflexivity.
Qed.

(** Two recipients not sent yet: the two attempts are a pause of 3000 ms
    apart, and there is no pause after the last. *)
Lemma email_batch_is_paced_witness :
  let tr :=
    JobService.trace
      (JobService.processEmailBatch (Demo.world []) Samples.unsent
         (lit "job-4")) in
  paced 3000 true tr = true
  /\ exists first second p q r,
       tr = [ JobService.SendAttempt (lit "r7") first; JobService.Emitted p;
              JobService.Slept 3000;
              JobService.SendAttempt (lit "r8") second; JobService.Emitted q;
              JobService.Emitted r ].
Proof.
  split.
  - exact (proj1 (email_batch_is_paced (Demo.world []) Samples.unsent
                    (lit "job-4") Samples.announcement Samples.mailConfig
                    eq_refl eq_refl eq_refl)).
  - do 5 eexists. vm_compute. reflexivity.
Defined.

(** ** The progress events of a batch *)










(** ** A second retry *)

Lemma failedOrErrored_set_pending x :
  JobService.failedOrErrored (JobService.set_pending x) = false.
Proof. reflexivity. Qed.

(** X18.  Retry-failed is idempotent: called again right after a retry,
    it finds no recipient to reset, returns 0 and leaves the store
    exactly as the first call left it. *)
Theorem retry_failed_twice (st st1 : Store.t) (jobId : jstring) (n : Z) :
  JobService.retryFailedRecipients st jobId = Ok (st1, n) ->
  JobService.retryFailedRecipients st1 jobId = Ok (st1, 0%Z).
Proof.
  unfold JobService.retryFailedRecipients.
  destruct (Store.findJob st jobId) as [job|] eqn:Hj; [|discriminate].
  intros H. injection H as <- <-.
  set (sel := fun x => JsString.eqb (Recipient.batchJobId x) jobId
                       && JobService.failedOrErrored x).
  set (k := Z.of_nat (length (filter JobService.failedOrErrored
                                (Store.recipientsOf st jobId)))).
  set (st0 := Store.updateManyRecipients st sel JobService.set_pending).
  set (st1 := Store.updateJob st0 jobId
                (JobService.set_retried (BatchJob.processedCount job - k))).
  assert (Hj1 : Store.findJob st1 jobId
                = Some (JobService.set_retried
                          (BatchJob.processedCount job - k) job)).
  { unfold st1. rewrite findJob_updateJob by reflexivity.
    unfold st0, Store.updateManyRecipients, Store.findJob.
    cbn [Store.with_recipients Store.jobs].
    fold (Store.findJob st jobId). rewrite Hj. reflexivity. }
  rewrite Hj1.
  (* no recipient of the job is selected any more *)
  assert (Hsel : forall x, In x (Store.recipients st1) -> sel x = false).
  { intros x Hx. unfold st1, st0 in Hx.
    rewrite recipients_updateJob in Hx.
    unfold Store.updateManyRecipients in Hx.
    cbn [Store.with_recipients Store.recipients] in Hx.
    apply in_map_iff in Hx. destruct Hx as (y & <- & _).
    destruct (sel y) eqn:E; [|exact E].
    unfold sel. rewrite failedOrErrored_set_pending. apply andb_false_r. }
  assert (Hnone : filter JobService.failedOrErrored
                    (Store.recipientsOf st1 jobId) = []).
  { unfold Store.recipientsOf.
    induction (Store.recipients st1) as [|x rs IH]; [reflexivity|].
    cbn [filter].
    pose proof (Hsel x (or_introl eq_refl)) as Hx. unfold sel in Hx.
    destruct (JsString.eqb (Recipient.batchJobId x) jobId);
      [|apply IH; intros y Hy; apply Hsel; right; exact Hy].
    cbn [andb] in Hx. cbn [filter]. rewrite Hx.
    apply IH. intros y Hy. apply Hsel. right; exact Hy. }
  rewrite Hnone. cbn [length Z.of_nat]. f_equal. f_equal.
  (* the two updates change nothing *)
  assert (Hrs : map (fun r => if sel r then JobService.set_pending r else r)
                    (Store.recipients st1) = Store.recipients st1).
  { rewrite <- (map_id (Store.recipients st1)) at 2. apply map_ext_in.
    intros x Hx. rewrite (Hsel x Hx). reflexivity. }
  unfold Store.updateManyRecipients. fold sel. rewrite Hrs.
  assert (Hjs :
    map (fun j => if JsString.eqb (BatchJob.id j) jobId
                  then JobService.set_retried
                         (BatchJob.processedCount
                            (JobService.set_retried
                               (BatchJob.processedCount job - k) job) - 0) j
                  else j)
        (Store.jobs st1) = Store.jobs st1).
  { unfold st1, Store.updateJob. cbn [Store.with_jobs Store.jobs].
    rewrite map_map. apply map_ext. intros j.
    destruct (JsString.eqb (BatchJob.id j) jobId) eqn:E; [|rewrite E; reflexivity].
    cbn [JobService.set_retried BatchJob.id]. rewrite E.
    cbn [BatchJob.processedCount]. rewrite Z.sub_0_r. reflexivity. }
  unfold Store.updateJob. cbn [Store.with_recipients Store.jobs].
  rewrite Hjs. unfold st1, st0, Store.updateJob, Store.updateManyRecipients.
  reflexivity.
Qed.

(** A second retry of the e-mail job of the installation. *)
Lemma retry_failed_twice_witness :
  JobService.retryFailedRecipients Samples.retried (lit "job-2")
  = Ok (Samples.retried, 0%Z).
Proof.
  exact (retry_failed_twice Demo.store Samples.retried (lit "job-2") 1%Z
           eq_refl).
Defined.

(** ** A batch that throws *)

Lemma findJob_updateJob_view {A : Type} (view : BatchJob.t -> A) st k f k' :
  (forall j, BatchJob.id (f j) = BatchJob.id j) ->
  (forall j, view (f j) = view j) ->
  option_map view (Store.findJob (Store.updateJob st k f) k')
  = option_map view (Store.findJob st k').
Proof.
  intros Hid Hview. unfold Store.findJob, Store.updateJob; simpl.
  induction (Store.jobs st) as [|j js IH]; simpl; [reflexivity|].
  destruct (JsString.eqb (BatchJob.id j) k).
  - rewrite Hid. destruct (JsString.eqb (BatchJob.id j) k'); [|exact IH].
    cbn [option_map]. rewrite Hview. reflexivity.
  - destruct (JsString.eqb (BatchJob.id j) k'); [reflexivity | exact IH].
Qed.

Section Unfinished.
Import JobService.

Context {A : Type}.
Variable view : BatchJob.t -> A.
Hypothesis view_counters : forall c j, view (set_counters c j) = view j.
Variable k : jstring.

Let seen (st : Store.t) : option A := option_map view (Store.findJob st k).

Lemma certificateIterationOn_view db w job t fcs cfg i x c st :
  seen (after (reached (certificateIterationOn db w job t fcs cfg i x c st)))
  = seen st.
Proof.
  unfold certificateIterationOn, countCertificate, seen.
  destruct (renderCertificate w t fcs cfg i x) as [[filePath content]|msg];
    [destruct (db (StoreSuccess i))|];
    destruct (db (StoreError i)); destruct (db (StoreCounters i));
    cbn [reached after];
    rewrite ?(findJob_updateJob_view view) by (intros; reflexivity || apply view_counters);
    reflexivity.
Qed.

Lemma emailIterationOn_view db w job et cfg smtp i x c st :
  seen (after (reached (emailIterationOn db w job et cfg smtp i x c st)))
  = seen st.
Proof.
  unfold emailIterationOn, countEmail, seen.
  destruct (EmailStatus.eqb _ _); [reflexivity|].
  destruct (composeEmail w et cfg smtp x) as [options|msg];
    [destruct (sendEmail w i options); [|destruct (db (StoreSuccess i))]|];
    destruct (db (StoreError i)); destruct (db (StoreCounters i));
    cbn [reached after];
    rewrite ?(findJob_updateJob_view view) by (intros; reflexivity || apply view_counters);
    reflexivity.
Qed.

Lemma loopOn_view body xs :
  (forall i x c st, seen (after (reached (body i x c st))) = seen st) ->
  forall i c st,
    seen (after (reached (loopOn body undisturbed i xs c st))) = seen st.
Proof.
  intros Hbody. induction xs as [|x xs IH]; intros i c st; [reflexivity|].
  cbn [loopOn]. change (undisturbed i st) with st.
  destruct (escaped (body i x c st)); [apply Hbody|].
  cbn [reached after]. rewrite IH. apply Hbody.
Qed.

End Unfinished.

(** X19.  A batch that throws never marks its job finished: whatever the
    database rejects, and whenever, the job keeps the status it had or
    is marked [processing], and its completion time and output path are
    untouched; nothing marks such a job [failed].  Over a database that
    accepts the updates recording the errors and the counters and the
    final update, a batch throws only before its loop: when the job, its
    template, its SMTP settings or its field list cannot be read, the
    update that marks it [processing] is rejected, or the output
    directory cannot be made.  It has then handled no recipient: no
    recipient record is changed, nothing is written, sent or announced,
    and the store is as it was, except that the job is already marked
    [processing] when the output directory could not be made. *)
Theorem batch_that_cannot_start (db : JobService.Prisma)
    (w : JobService.World) (st : Store.t) (jobId : jstring) :
  let certificates :=
    JobService.processCertificateBatchOn db JobService.undisturbed w st
      jobId in
  let mails :=
    JobService.processEmailBatchOn db JobService.undisturbed w st jobId in
  (forall out job,
     out = certificates \/ out = mails ->
     JobService.thrown out <> None ->
     Store.findJob st jobId = Some job ->
     exists j,
       Store.findJob (JobService.store out) jobId = Some j
       /\ (BatchJob.status j = BatchJob.status job
           \/ BatchJob.status j = processing)
       /\ BatchJob.completedAt j = BatchJob.completedAt job
       /\ BatchJob.outputPath j = BatchJob.outputPath job)
  /\ (records_failures db ->
      db JobService.MarkFinished = None ->
      (JobService.thrown certificates <> None ->
       JobService.trace certificates = []
       /\ Store.recipients (JobService.store certificates)
          = Store.recipients st
       /\ (JobService.store certificates = st
           \/ JobService.store certificates
              = Store.updateJob st jobId (JobService.set_status processing)))
      /\ (JobService.thrown mails <> None ->
          JobService.trace mails = []
          /\ JobService.store mails = st)).
Proof.
  cbv zeta. split.
  - intros out job Hout Hthrown Hj.
    pose (view := fun j : BatchJob.t =>
                    (BatchJob.completedAt j, BatchJob.outputPath j)).
    assert (Hview : forall c j, view (JobService.set_counters c j) = view j)
      by reflexivity.
    assert (Hstay : exists j, Store.findJob st jobId = Some j
              /\ (BatchJob.status j = BatchJob.status job
                  \/ BatchJob.status j = processing)
              /\ BatchJob.completedAt j = BatchJob.completedAt job
              /\ BatchJob.outputPath j = BatchJob.outputPath job)
      by (exists job; repeat split; auto).
    set (st1 := Store.updateJob st jobId (JobService.set_status processing)).
    assert (Hmarked : Store.findJob st1 jobId
                      = Some (JobService.set_status processing job)).
    { unfold st1. rewrite findJob_updateJob by reflexivity.
      rewrite Hj. reflexivity. }
    assert (Hstarted : exists j, Store.findJob st1 jobId = Some j
              /\ (BatchJob.status j = BatchJob.status job
                  \/ BatchJob.status j = processing)
              /\ BatchJob.completedAt j = BatchJob.completedAt job
              /\ BatchJob.outputPath j = BatchJob.outputPath job)
      by (eexists; split; [exact Hmarked|]; repeat split; right; reflexivity).
    pose (full := fun j : BatchJob.t =>
                    (BatchJob.status j, BatchJob.completedAt j,
                     BatchJob.outputPath j)).
    assert (Hfull : forall c j, full (JobService.set_counters c j) = full j)
      by reflexivity.
    assert (Hloop : forall body xs,
      (forall i x c s,
         option_map full
           (Store.findJob (JobService.after (JobService.reached (body i x c s)))
              jobId)
         = option_map full (Store.findJob s jobId)) ->
      exists j,
        Store.findJob
          (JobService.after
             (JobService.reached
                (JobService.loopOn body JobService.undisturbed 0 xs
                   JobService.zero st1))) jobId = Some j
        /\ (BatchJob.status j = BatchJob.status job
            \/ BatchJob.status j = processing)
        /\ BatchJob.completedAt j = BatchJob.completedAt job
        /\ BatchJob.outputPath j = BatchJob.outputPath job).
    { intros body xs Hbody.
      pose proof (loopOn_view full jobId body xs Hbody 0 JobService.zero st1)
        as Hkept.
      cbv beta zeta in Hkept. rewrite Hmarked in Hkept. cbn [option_map] in Hkept.
      match type of Hkept with
      | option_map _ ?found = _ => destruct found as [j|]
      end; [|discriminate Hkept].
      cbn [option_map] in Hkept. unfold full in Hkept.
      injection Hkept as Hs Hc Ho. exists j. split; [reflexivity|].
      cbn in Hs, Hc, Ho. repeat split; auto. }
    assert (Hfinish : forall out_ xs made p,
      (exists j,
         Store.findJob (JobService.after (JobService.reached p)) jobId = Some j
         /\ (BatchJob.status j = BatchJob.status job
             \/ BatchJob.status j = processing)
         /\ BatchJob.completedAt j = BatchJob.completedAt job
         /\ BatchJob.outputPath j = BatchJob.outputPath job) ->
      JobService.thrown
        (JobService.finishOn db JobService.undisturbed w job jobId out_ xs
           made p) <> None ->
      exists j,
        Store.findJob
          (JobService.store
             (JobService.finishOn db JobService.undisturbed w job jobId out_
                xs made p)) jobId = Some j
        /\ (BatchJob.status j = BatchJob.status job
            \/ BatchJob.status j = processing)
        /\ BatchJob.completedAt j = BatchJob.completedAt job
        /\ BatchJob.outputPath j = BatchJob.outputPath job).
    { intros out_ xs made p Hp. unfold JobService.finishOn.
      destruct (JobService.escaped p); [intros _; exact Hp|].
      destruct (db JobService.MarkFinished); [intros _; exact Hp|].
      intros H; contradiction H; reflexivity. }
    destruct Hout as [-> | ->]; revert Hthrown.
    + unfold JobService.processCertificateBatchOn.
      destruct (db JobService.FindJob); [intros _; exact Hstay|].
      rewrite Hj.
      destruct (BatchJob.config job) as [cfg|cfg]; [|intros _; exact Hstay].
      destruct (db JobService.FindTemplate); [intros _; exact Hstay|].
      destruct (Store.findCertificateTemplate st _) as [t|];
        [|intros _; exact Hstay].
      destruct (JobService.parseFieldConfigs w _) as [fcs|m];
        [|intros _; exact Hstay].
      destruct (db JobService.MarkProcessing); [intros _; exact Hstay|].
      cbv zeta. fold st1.
      destruct (JobService.existsSync w _);
        [|destruct (JobService.mkdir w _); [intros _; exact Hstarted|]];
        apply Hfinish; apply Hloop; intros i x c s;
        apply (certificateIterationOn_view full Hfull).
    + unfold JobService.processEmailBatchOn.
      destruct (db JobService.FindJob); [intros _; exact Hstay|].
      rewrite Hj.
      destruct (BatchJob.config job) as [cfg|cfg]; [intros _; exact Hstay|].
      destruct (db JobService.FindTemplate); [intros _; exact Hstay|].
      destruct (Store.findEmailTemplate st _) as [et|];
        [|intros _; exact Hstay].
      destruct (db JobService.FindSmtpConfig); [intros _; exact Hstay|].
      destruct (Store.findSmtpConfig st _) as [smtp|];
        [|intros _; exact Hstay].
      destruct (db JobService.MarkProcessing); [intros _; exact Hstay|].
      cbv zeta. fold st1.
      apply Hfinish; apply Hloop; intros i x c s;
        apply (emailIterationOn_view full Hfull).
  - intros Hacc Hfin. split.
    + unfold JobService.processCertificateBatchOn.
      destruct (db JobService.FindJob);
        [intros _; repeat split; left; reflexivity|].
      destruct (Store.findJob st jobId) as [job|];
        [|intros _; repeat split; left; reflexivity].
      destruct (BatchJob.config job) as [cfg|cfg];
        [|intros _; repeat split; left; reflexivity].
      destruct (db JobService.FindTemplate);
        [intros _; repeat split; left; reflexivity|].
      destruct (Store.findCertificateTemplate st _) as [t|];
        [|intros _; repeat split; left; reflexivity].
      destruct (JobService.parseFieldConfigs w _) as [fcs|m];
        [|intros _; repeat split; left; reflexivity].
      destruct (db JobService.MarkProcessing);
        [intros _; repeat split; left; reflexivity|].
      cbv zeta. unfold JobService.finishOn.
      match goal with
      | |- context [JobService.loopOn ?b ?e 0 ?xs ?c ?s] =>
          destruct (certificateLoopOn_answering db w e job t fcs cfg xs Hacc
                      0 c s) as (Hesc & _)
      end.
      cbv zeta in Hesc. rewrite Hesc, Hfin.
      destruct (JobService.existsSync w _);
        [intros H; contradiction H; reflexivity|].
      destruct (JobService.mkdir w _);
        [|intros H; contradiction H; reflexivity].
      intros _. cbn [JobService.throw JobService.trace JobService.store].
      split; [reflexivity|]. split; [apply recipients_updateJob|].
      right; reflexivity.
    + unfold JobService.processEmailBatchOn.
      destruct (db JobService.FindJob); [intros _; split; reflexivity|].
      destruct (Store.findJob st jobId) as [job|];
        [|intros _; split; reflexivity].
      destruct (BatchJob.config job) as [cfg|cfg];
        [intros _; split; reflexivity|].
      destruct (db JobService.FindTemplate); [intros _; split; reflexivity|].
      destruct (Store.findEmailTemplate st _) as [et|];
        [|intros _; split; reflexivity].
      destruct (db JobService.FindSmtpConfig); [intros _; split; reflexivity|].
      destruct (Store.findSmtpConfig st _) as [smtp|];
        [|intros _; split; reflexivity].
      destruct (db JobService.MarkProcessing); [intros _; split; reflexivity|].
      cbv zeta. rewrite emailLoopOn_answering by exact Hacc.
      unfold JobService.finishOn. cbn [JobService.escaped]. rewrite Hfin.
      intros H. contradiction H. reflexivity.
Qed.

(** A batch for a job that does not exist throws and leaves the store of
    the installation as it is. *)
Lemma batch_that_cannot_start_witness :
  let out :=
    JobService.processCertificateBatchOn JobService.reliable
      JobService.undisturbed (Demo.world []) Demo.store (lit "job-9") in
  JobService.thrown out = Some (lit "Job job-9 not found")
  /\ JobService.trace out = []
  /\ Store.recipients (JobService.store out) = Store.recipients Demo.store.
Proof.
  split; [reflexivity|].
  destruct (proj1 (proj2 (batch_that_cannot_start JobService.reliable
                            (Demo.world []) Demo.store (lit "job-9"))
                     (fun k => conj eq_refl eq_refl) eq_refl))
    as (Htrace & Hrecipients & _).
  - discriminate.
  - split; [exact Htrace | exact Hrecipients].
Defined.

(** ** The record of a recipient *)

(** X20.  In the record a template is filled from, the fields imported
    with the recipient come first: a column of the imported row called
    [name], [full_name] or [email] replaces the name and the address of
    the recipient record, and every other column is there under its own
    name.  Without such a column, [name] and [full_name] are the full
    name of the recipient and [email] is its address. *)
Theorem recipientData_lookup (x : Recipient.t) (extra : JsObject.object)
    (k : jstring) :
  NoDup (JsObject.keys extra) ->
  JsObject.get (JobService.recipientData x extra) k
  = match JsObject.get extra k with
    | Some value => Some value
    | None =>
        if JsString.eqb k (lit "name") || JsString.eqb k (lit "full_name")
        then Some (Recipient.fullName x)
        else if JsString.eqb k (lit "email") then Some (Recipient.email x)
        else None
    end.
Proof.
  intros Hnd. unfold JobService.recipientData.
  rewrite (get_spread extra Hnd).
  destruct (JsObject.get extra k); [reflexivity|].
  rewrite !get_define.
  assert (Hsym : forall a b, JsString.eqb a b = JsString.eqb b a).
  { intros a b. destruct (JsString.eqb a b) eqn:E.
    - apply jstring_eqb_eq in E. subst b. symmetry. apply jstring_eqb_refl.
    - destruct (JsString.eqb b a) eqn:E'; [|reflexivity].
      apply jstring_eqb_eq in E'. subst b.
      rewrite jstring_eqb_refl in E. discriminate E. }
  rewrite (Hsym (lit "email") k), (Hsym (lit "full_name") k),
    (Hsym (lit "name") k).
  destruct (JsString.eqb k (lit "email")) eqn:Ee.
  - apply jstring_eqb_eq in Ee. subst k. reflexivity.
  - destruct (JsString.eqb k (lit "full_name")); [rewrite orb_true_r; reflexivity|].
    destruct (JsString.eqb k (lit "name")); reflexivity.
Qed.

(** An imported column [email] is what a template shows. *)
Lemma recipientData_lookup_witness :
  JsObject.get
    (JobService.recipientData Demo.jane
       [(lit "email", lit "Jane@Example.org")]) (lit "email")
  = Some (lit "Jane@Example.org").
Proof.
  refine (recipientData_lookup Demo.jane
            [(lit "email", lit "Jane@Example.org")] (lit "email") _).
  constructor; [intros [] | constructor].
Defined.

(** ** File names that cannot collide *)

Lemma generateFilename_segments E segs data index :
  forallb well_formed segs = true ->
  (forall key value, In (key, value) data -> key_ok key = true) ->
  JobService.generateFilename E (template_text segs) data index
  = Ok (JobService.ensure_pdf (flat_map (filled data index) segs)).
Proof.
  intros Hwf Hkeys. unfold JobService.generateFilename, JsObject.entries.
  rewrite (replace_all_segments Placeholder.match_sn
             (JobService.serial index) match_sn_open
             (serial_value_ok index) is_serial
             (fun a n b rest => match_sn_token rest a n b) segs Hwf).
  rewrite replace_fields_render, render_segments.
  - cbn [bind]. rewrite template_after_entries.
    rewrite flat_map_concat_map, map_map.
    rewrite (map_ext _ _ (filled_text data index)).
    rewrite <- flat_map_concat_map. reflexivity.
  - intros key value Hin. unfold sanitized in Hin.
    apply in_map_iff in Hin. destruct Hin as ([k v] & Heq & Hin).
    cbn [fst snd] in Heq. injection Heq as <- <-.
    split; [exact (Hkeys k v Hin) | apply sanitizeFilename_value_ok].
  - apply swap_well_formed; [apply serial_value_ok | exact Hwf].
Qed.

Lemma leading_digits (d rest : jstring) :
  forallb is_digit d = true -> no_digit_first rest = true ->
  takeWhile is_digit (d ++ rest) = d.
Proof.
  intros Hd Hrest. rewrite (takeWhile_app_all _ d rest Hd).
  destruct rest as [|c rest]; [discriminate Hrest|].
  cbn [no_digit_first] in Hrest. apply negb_true_iff in Hrest.
  cbn [takeWhile]. rewrite Hrest. apply app_nil_r.
Qed.

Lemma serial_injective i j :
  JobService.serial i = JobService.serial j -> i = j.
Proof.
  intros H. destruct (serial_spec i) as (_ & _ & Hi).
  destruct (serial_spec j) as (_ & _ & Hj).
  rewrite H, Hj in Hi. injection Hi as Hi. lia.
Qed.

(** X21.  A naming pattern that starts with [{{sn}}] followed by literal
    text that does not start with a digit, as the default
    [{{sn}}_{{name}}] does, never gives the same file name, as a string,
    to two positions of a batch, whatever the two recipients are called.
    (What [path.join] makes of two different names is not part of the
    statement: a name may hold [/] and [..].) *)
Theorem serial_names_differ (E : Placeholder.Engine) (text : jstring)
    (more : list Segment) (data1 data2 : JsObject.object) (i j : nat) :
  forallb well_formed (Token [] (lit "sn") [] :: Literal text :: more)
  = true ->
  no_digit_first text = true ->
  (forall key value, In (key, value) data1 -> key_ok key = true) ->
  (forall key value, In (key, value) data2 -> key_ok key = true) ->
  i <> j ->
  JobService.generateFilename E
    (template_text (Token [] (lit "sn") [] :: Literal text :: more)) data1 i
  <> JobService.generateFilename E
       (template_text (Token [] (lit "sn") [] :: Literal text :: more))
       data2 j.
Proof.
  intros Hwf Htext Hk1 Hk2 Hij.
  rewrite (generateFilename_segments E _ data1 i Hwf Hk1).
  rewrite (generateFilename_segments E _ data2 j Hwf Hk2).
  intros Heq. injection Heq as Heq. apply Hij, serial_injective.
  assert (Hlead : forall data index,
    takeWhile is_digit
      (JobService.ensure_pdf
         (flat_map (filled data index)
            (Token [] (lit "sn") [] :: Literal text :: more)))
    = JobService.serial index).
  { intros data index. cbn [flat_map filled].
    change (is_serial [] (lit "sn") []) with true. cbv iota.
    destruct (serial_spec index) as (Hd & _ & _).
    assert (Hrest : forall tail, no_digit_first (text ++ tail) = true)
      by (intros tail; destruct text; [discriminate Htext | exact Htext]).
    unfold JobService.ensure_pdf.
    destruct (endsWith _ _).
    - apply leading_digits; [exact Hd | apply Hrest].
    - rewrite <- !app_assoc. apply leading_digits; [exact Hd | apply Hrest]. }
  rewrite <- (Hlead data1 i), <- (Hlead data2 j).
  apply (f_equal (takeWhile is_digit)). exact Heq.
Qed.

(** Two recipients of the same name at two positions. *)
Lemma serial_names_differ_witness :
  JobService.generateFilename Demo.engine
    (template_text Samples.defaultPattern) [(lit "name", lit "Jane Doe")] 0
  <> JobService.generateFilename Demo.engine
       (template_text Samples.defaultPattern) [(lit "name", lit "Jane Doe")]
       1.
Proof.
  refine (serial_names_differ Demo.engine (lit "_")
            [Token [] (lit "name") []] [(lit "name", lit "Jane Doe")]
            [(lit "name", lit "Jane Doe")] 0 1 eq_refl eq_refl _ _
            (O_S 0));
    intros key value [H|[]]; injection H as <- <-; reflexivity.
Defined.

(** ** A template without a page *)

Lemma certificateFails_unusable w t fcs cfg i x :
  (forall info,
     PdfService.getTemplateInfo (JobService.pdf w)
       (CertificateTemplate.templateData t) <> Ok info) ->
  certificateFails w t fcs cfg i x = true.
Proof.
  intros Hbad. unfold certificateFails, JobService.renderCertificate.
  destruct (JobService.extraOf w x) as [extra|]; [|reflexivity].
  cbn [bind]. unfold PdfService.generateCertificate.
  unfold PdfService.getTemplateInfo in Hbad.
  destruct (PdfService.load (JobService.pdf w)
              (CertificateTemplate.templateData t)) as [pages|];
    [|reflexivity].
  cbn [bind] in Hbad |- *. destruct pages as [|[width height] pages];
    [reflexivity|].
  contradiction (Hbad _ eq_refl).
Qed.

Lemma tally_all p xs :
  (forall i x, p i x = true) ->
  forall i, tally p i xs = Z.of_nat (length xs).
Proof.
  intros Hp. induction xs as [|x xs IH]; intros i; [reflexivity|].
  cbn [tally length]. rewrite Hp, IH. lia.
Qed.

Lemma certificateLoop_writes_nothing w env job t fcs cfg xs :
  (forall i x, certificateFails w t fcs cfg i x = true) ->
  forall i c st filePath content,
    ~ In (JobService.Wrote filePath content)
         (JobService.effects
            (JobService.certificateLoop w env job t fcs cfg i xs c st)).
Proof.
  intros Hfails. induction xs as [|x xs IH]; intros i c st filePath content;
    [intros []|].
  cbn [JobService.certificateLoop JobService.effects].
  unfold JobService.certificateIteration.
  pose proof (Hfails i x) as Hx. unfold certificateFails in Hx.
  destruct (JobService.renderCertificate w t fcs cfg i x) as [ok|m];
    [discriminate Hx|].
  cbn [JobService.effects JobService.counters JobService.after app].
  intros [H|H]; [discriminate H | exact (IH _ _ _ _ _ H)].
Qed.

(** X22.  A template that [getTemplateInfo] rejects can still be stored
    (the upload only warns), and a batch over it fails for every
    recipient: the batch itself does not throw, it writes no file,
    counts every recipient as failed, and leaves the job [failed]. *)
Theorem unusable_template_fails_all (w : JobService.World) (st : Store.t)
    (jobId : jstring) (job : BatchJob.t) (cfg : BatchJobConfig.t)
    (t : CertificateTemplate.t) (fcs : list PdfService.FieldConfig) :
  Store.findJob st jobId = Some job ->
  BatchJob.config job = CertificateConfig cfg ->
  Store.findCertificateTemplate st (BatchJobConfig.templateId cfg) = Some t ->
  JobService.parseFieldConfigs w (CertificateTemplate.fieldConfigs t)
  = Ok fcs ->
  JobService.existsSync w (BatchJobConfig.outputPath cfg) = true
  \/ JobService.mkdir w (BatchJobConfig.outputPath cfg) = None ->
  (forall info,
     PdfService.getTemplateInfo (JobService.pdf w)
       (CertificateTemplate.templateData t) <> Ok info) ->
  sized st job ->
  let out := JobService.processCertificateBatch w st jobId in
  let xs := Store.recipientsOf st jobId in
  JobService.thrown out = None
  /\ (forall filePath content,
        ~ In (JobService.Wrote filePath content) (JobService.trace out))
  /\ exists j,
       Store.findJob (JobService.store out) jobId = Some j
       /\ BatchJob.status j = failed
       /\ (xs <> [] ->
           BatchJob.failedCount j = Z.of_nat (length xs)
           /\ BatchJob.successCount j = 0%Z
           /\ BatchJob.processedCount j = Z.of_nat (length xs)).
Proof.
  intros Hj Hcfg Ht Hfcs Hdir Hbad Hsized out xs.
  pose proof (findJob_id _ _ _ Hj) as Hid.
  unfold sized in Hsized. rewrite Hid in Hsized. fold xs in Hsized.
  assert (Hfails : forall i x, certificateFails w t fcs cfg i x = true)
    by (intros i x; apply certificateFails_unusable; exact Hbad).
  set (st1 := Store.updateJob st jobId (JobService.set_status processing)).
  set (s := JobService.certificateLoop w JobService.undisturbed job t fcs cfg
              0 xs JobService.zero st1).
  assert (Hcounters : JobService.counters s
                      = counted JobService.zero (length xs)
                          (Z.of_nat (length xs))).
  { unfold s. rewrite certificateLoop_counters.
    rewrite (tally_all _ xs Hfails). reflexivity. }
  assert (Hstored : stored job (JobService.after s)
                      (fun j => xs <> [] ->
                         persisted j = JobService.counters s)).
  { unfold s. apply certificateLoop_stored.
    exists (JobService.set_status processing job). split; [|exact I].
    unfold st1. rewrite Hid, findJob_updateJob by reflexivity.
    rewrite Hj. reflexivity. }
  destruct Hstored as (j0 & Hj0 & Hpersisted). rewrite Hid in Hj0.
  assert (Hout :
    exists made,
      (forall filePath content,
         ~ In (JobService.Wrote filePath content) made)
      /\ out
         = {| JobService.store :=
                Store.updateJob (JobService.after s) jobId
                  (JobService.set_finished
                     (JobService.final_status
                        (JobService.failedCount (JobService.counters s))
                        (BatchJob.totalCount job))
                     (JobService.now w (length xs))
                     (Some (BatchJobConfig.outputPath cfg)));
              JobService.trace :=
                made ++ JobService.effects s
                ++ [JobService.emitProgress jobId
                      (JobService.processedCount (JobService.counters s))
                      (BatchJob.totalCount job) (lit "completed")];
              JobService.thrown := None |}).
  { unfold out, JobService.processCertificateBatch,
      JobService.processCertificateBatchWith.
    rewrite Hj, Hcfg, Ht, Hfcs. fold xs. fold st1.
    change (JobService.undisturbed (length xs) ?a) with a.
    fold s.
    destruct (JobService.existsSync w _) eqn:Eexists.
    - exists []. split; [intros ? ? [] | reflexivity].
    - destruct Hdir as [Hdir | Hdir]; [discriminate Hdir|]. rewrite Hdir.
      eexists [_]. split; [|reflexivity].
      intros ? ? [H|[]]. discriminate H. }
  destruct Hout as (made & Hmade & ->).
  cbn [JobService.thrown JobService.trace JobService.store].
  split; [reflexivity|]. split.
  - intros filePath content Hin. apply in_app_iff in Hin.
    destruct Hin as [Hin | Hin]; [exact (Hmade _ _ Hin)|].
    apply in_app_iff in Hin. destruct Hin as [Hin | [Hin | []]].
    + exact (certificateLoop_writes_nothing w JobService.undisturbed job t
               fcs cfg xs Hfails _ _ _ _ _ Hin).
    + discriminate Hin.
  - eexists. split.
    + rewrite findJob_updateJob by reflexivity. rewrite Hj0. reflexivity.
    + rewrite Hcounters. cbn [counted JobService.failedCount
                                JobService.zero].
      split.
      * cbn [JobService.set_finished BatchJob.status].
        unfold JobService.final_status.
        rewrite Z.add_0_l, Hsized, Z.eqb_refl. reflexivity.
      * intros Hne. specialize (Hpersisted Hne).
        rewrite Hcounters in Hpersisted.
        cbn [JobService.set_finished BatchJob.failedCount
             BatchJob.successCount BatchJob.processedCount].
        unfold persisted, counted in Hpersisted.
        injection Hpersisted as Hp Hs Hf.
        cbn [JobService.zero JobService.processedCount
             JobService.successCount JobService.failedCount] in Hp, Hs, Hf.
        repeat split; lia.
Qed.

(** The certificate job of the installation on a template without
    pages. *)
Lemma unusable_template_fails_all_witness :
  JobService.thrown
    (JobService.processCertificateBatch Samples.blank Demo.store
       (lit "job-1")) = None.
Proof.
  refine (proj1 (unusable_template_fails_all Samples.blank Demo.store
                   (lit "job-1") Demo.certificateJob
                   Samples.certificateConfig Samples.workshop
                   [Demo.nameField] eq_refl eq_refl eq_refl eq_refl
                   (or_introl eq_refl) _ eq_refl)).
  intros info H. discriminate H.
Defined.

(** ** The jobs the routes create *)


Lemma find_none {A : Type} (f : A -> bool) (l : list A) :
  (forall x, In x l -> f x = false) -> find f l = None.
Proof.
  induction l as [|y l IH]; intros H; [reflexivity|].
  cbn [find]. rewrite (H y (or_introl eq_refl)).
  apply IH. intros x Hx. apply H. right; exact Hx.
Qed.












(** ** Each recipient once, in order *)

Lemma attempts_of_app a b : attempts_of (a ++ b) = attempts_of a ++ attempts_of b.
Proof. apply flat_map_app. Qed.

Lemma writes_of_app a b : writes_of (a ++ b) = writes_of a ++ writes_of b.
Proof. apply flat_map_app. Qed.

Lemma emailLoop_attempts w env job et cfg smtp xs :
  forall i c st,
    attempts_of
      (JobService.effects
         (JobService.emailLoop w env job et cfg smtp i xs c st))
    = due w et cfg smtp xs.
Proof.
  induction xs as [|x xs IH]; intros i c st; [reflexivity|].
  cbn [JobService.emailLoop JobService.effects JobService.counters
       JobService.after].
  unfold due. cbn [flat_map]. fold (due w et cfg smtp xs).
  rewrite attempts_of_app, IH. f_equal.
  unfold JobService.emailIteration, not_sent.
  destruct (EmailStatus.eqb (Recipient.emailStatus x) EmailStatus.sent);
    [reflexivity|].
  cbn [negb].
  destruct (JobService.composeEmail w et cfg smtp x) as [options|m];
    [destruct (JobService.sendEmail w i options)|];
    cbv zeta; cbn [JobService.effects JobService.counters];
    destruct (_ <? _)%Z; reflexivity.
Qed.

Lemma certificateLoop_writes w env job t fcs cfg xs :
  forall i c st,
    writes_of
      (JobService.effects
         (JobService.certificateLoop w env job t fcs cfg i xs c st))
    = rendered_from w t fcs cfg i xs.
Proof.
  induction xs as [|x xs IH]; intros i c st; [reflexivity|].
  cbn [JobService.certificateLoop JobService.effects JobService.counters
       JobService.after rendered_from].
  rewrite writes_of_app, IH. f_equal.
  unfold JobService.certificateIteration.
  destruct (JobService.renderCertificate w t fcs cfg i x)
    as [[filePath content]|m]; reflexivity.
Qed.

Lemma due_recipients w et cfg smtp xs recipientId options :
  In (recipientId, options) (due w et cfg smtp xs) ->
  exists x,
    In x xs /\ recipientId = Recipient.id x
    /\ Recipient.emailStatus x <> EmailStatus.sent
    /\ JobService.to options = Recipient.email x.
Proof.
  unfold due. rewrite in_flat_map. intros (x & Hx & Hin).
  unfold not_sent in Hin.
  destruct (EmailStatus.eqb (Recipient.emailStatus x) EmailStatus.sent)
    eqn:Esent; [contradiction|].
  cbn [negb] in Hin.
  destruct (JobService.composeEmail w et cfg smtp x) as [o|] eqn:Ecompose;
    [|contradiction].
  destruct Hin as [Heq|[]]. injection Heq as <- <-.
  exists x. split; [exact Hx|]. split; [reflexivity|]. split.
  - intros Hs. rewrite Hs in Esent. discriminate Esent.
  - unfold JobService.composeEmail in Ecompose.
    destruct (JobService.extraOf w x); [|discriminate Ecompose].
    cbn [bind] in Ecompose.
    destruct (EmailService.renderEmailTemplate _ _ _);
      [|discriminate Ecompose].
    cbn [bind] in Ecompose.
    destruct (EmailService.renderEmailTemplate _ _ _);
      [|discriminate Ecompose].
    cbn [bind] in Ecompose. injection Ecompose as <-. reflexivity.
Qed.

(** X25.  A batch handles every recipient once and in the order in which
    it read them.  The messages an e-mail batch attempts are, in that
    order, one for every recipient that was not sent before and whose
    message can be composed, addressed to that recipient: none twice,
    none for a recipient already sent.  The files a certificate batch
    writes are, in that order, one for every recipient whose certificate
    can be rendered and stored. *)
Theorem each_recipient_once (w : JobService.World) (st : Store.t)
    (jobId : jstring) (job : BatchJob.t) :
  Store.findJob st jobId = Some job ->
  let xs := Store.recipientsOf st jobId in
  (forall cfg et smtp,
     BatchJob.config job = EmailConfig cfg ->
     Store.findEmailTemplate st (EmailBatchConfig.emailTemplateId cfg)
     = Some et ->
     Store.findSmtpConfig st (EmailBatchConfig.smtpConfigId cfg)
     = Some smtp ->
     let settings := JobService.smtpSettingsOf smtp in
     attempts_of
       (JobService.trace (JobService.processEmailBatch w st jobId))
     = due w et cfg settings xs
     /\ length (due w et cfg settings xs) <= length (filter not_sent xs)
     /\ forall recipientId options,
          In (recipientId, options) (due w et cfg settings xs) ->
          exists x,
            In x xs /\ recipientId = Recipient.id x
            /\ Recipient.emailStatus x <> EmailStatus.sent
            /\ JobService.to options = Recipient.email x)
  /\ (forall cfg t fcs,
        BatchJob.config job = CertificateConfig cfg ->
        Store.findCertificateTemplate st (BatchJobConfig.templateId cfg)
        = Some t ->
        JobService.parseFieldConfigs w (CertificateTemplate.fieldConfigs t)
        = Ok fcs ->
        JobService.thrown (JobService.processCertificateBatch w st jobId)
        = None ->
        writes_of
          (JobService.trace (JobService.processCertificateBatch w st jobId))
        = rendered_from w t fcs cfg 0 xs
        /\ length (rendered_from w t fcs cfg 0 xs) <= length xs).
Proof.
  intros Hj xs. split.
  - intros cfg et smtp Hcfg Het Hsmtp settings. split; [|split].
    + unfold JobService.processEmailBatch, JobService.processEmailBatchWith.
      rewrite Hj, Hcfg, Het, Hsmtp. cbn [JobService.trace].
      rewrite attempts_of_app, emailLoop_attempts.
      cbn [attempts_of flat_map JobService.emitProgress app].
      apply app_nil_r.
    + unfold due. induction xs as [|x xs' IH]; [apply le_n|].
      cbn [flat_map filter]. rewrite length_app.
      destruct (not_sent x); [|exact IH].
      cbn [length].
      destruct (JobService.composeEmail w et cfg settings x);
        cbn [length]; lia.
    + apply due_recipients.
  - intros cfg t fcs Hcfg Ht Hfcs. 
    unfold JobService.processCertificateBatch,
      JobService.processCertificateBatchWith.
    rewrite Hj, Hcfg, Ht, Hfcs. fold xs.
    assert (Hlen : forall i ys,
              length (rendered_from w t fcs cfg i ys) <= length ys).
    { intros i ys. revert i. induction ys as [|y ys IH]; intros i;
        [apply le_n|].
      cbn [rendered_from length]. rewrite length_app.
      specialize (IH (S i)).
      destruct (JobService.renderCertificate w t fcs cfg i y);
        cbn [length]; lia. }
    destruct (JobService.existsSync w _);
      [|destruct (JobService.mkdir w _); [discriminate|]];
      intros _; cbn [JobService.trace];
      rewrite ?writes_of_app, certificateLoop_writes;
      cbn [writes_of flat_map JobService.emitProgress app];
      rewrite ?app_nil_r; (split; [reflexivity | apply Hlen]).
Qed.

(** The two certificates of the certificate job of the installation. *)
Lemma each_recipient_once_witness :
  map fst
    (writes_of
       (JobService.trace
          (JobService.processCertificateBatch (Demo.world []) Demo.store
             (lit "job-1"))))
  = [lit "out/001_Jane_Doe.pdf"; lit "out/002_Omar_Said.pdf"].
Proof.
  exact (f_equal (map fst)
           (proj1 (proj2 (each_recipient_once (Demo.world []) Demo.store
                            (lit "job-1") Demo.certificateJob eq_refl)
                     Samples.certificateConfig Samples.workshop
                     [Demo.nameField] eq_refl eq_refl eq_refl eq_refl))).
Defined.
